(** * ab-test-utils: readiness polling, mutation coordination, option merging

    A shallow embedding of the asynchronous core of
    [src/components/legacyComponents.js] (the same functions also live in
    [src/utils.js]): [mergeObjects], the full [poller] built on
    [createPollingElement], [pollerLite], the [observer] registry and
    [globalGetScript].

    Conventions of the embedding.
    - JavaScript values are a tagged tree ([JS.value]); numbers are the
      integers (timestamps and millisecond counts), fractions and NaN are
      not represented.  Only own properties of objects are modelled (no
      prototype chain) and values are trees: no aliasing between objects.
    - The browser is the environment.  Its answers ([document.querySelector],
      the behaviour of the caller's functions) are a [JS.world]; its
      scheduling decisions (which pending timer runs, and when) are an
      explicit list of events given to [run].  A timer never runs before it
      is due and the clock never goes back; apart from that the schedule is
      arbitrary, so a statement quantified over all schedules covers every
      execution of the single-threaded event loop.  This is how the two
      pollers and the mutation observers are modelled: the run of the timer
      that reopens an observer's gate is an operation of its own, and the
      gate stays closed until it has run, whatever the clock says.
    - A callback of the caller that the code calls before it updates its
      own state (the observer's [cb], the [cb] of [hoverDelay]) returns or
      throws, and the update is skipped when it throws.
    - Delays are exact rationals standing in for doubles; [setTimeout]
      truncates them to whole milliseconds.  Where a statement names the
      time at which a timer is due, it is to say that the timer may run;
      no conclusion depends on the value of a product of delays. *)

From Stdlib Require Import ZArith QArith Qround List String Ascii Bool Lia.
From stdpp Require Import base gmap strings list pretty.
Import ListNotations.
Open Scope string_scope.
Open Scope Z_scope.
Open Scope list_scope.
Set Warnings "-register-all".

(* ================================================================== *)
(** ** JavaScript values *)
(* ================================================================== *)

Module JS.

Inductive value : Type :=
| VUndefined
| VNull
| VBool (b : bool)
| VNum (n : Z)
| VStr (s : string)
| VFun (f : nat)                       (* a function, named by an identity *)
| VArr (xs : list value)
| VObj (props : list (string * value)). (* own enumerable properties, in order *)

Inductive jstype := TyUndefined | TyObject | TyBoolean | TyNumber | TyString | TyFunction.

(** [typeof v] *)
Definition typeof (v : value) : jstype :=
  match v with
  | VUndefined => TyUndefined
  | VNull | VArr _ | VObj _ => TyObject
  | VBool _ => TyBoolean
  | VNum _ => TyNumber
  | VStr _ => TyString
  | VFun _ => TyFunction
  end.

(** ToBoolean: what [!v], [v ? a : b] and [if (v)] test. *)
Definition truthy (v : value) : bool :=
  match v with
  | VUndefined | VNull => false
  | VBool b => b
  | VNum n => negb (n =? 0)
  | VStr s => negb (String.eqb s "")
  | VFun _ | VArr _ | VObj _ => true
  end.

(** The five falsy values the model can represent. *)
Definition falsy_values : list value :=
  [VNull; VUndefined; VBool false; VNum 0; VStr ""].

Inductive error :=
| TypeError
| SyntaxError
| Error (msg : string)
| Thrown.                              (* whatever user code throws *)

Inductive result (A : Type) :=
| Ret (a : A)
| Throw (e : error).
Arguments Ret {A} a.
Arguments Throw {A} e.

(** What one call of a caller-supplied function does: it returns a value or
    throws, and it may call [destroy()] on the handle of the session that is
    polling it before it returns. *)
Record call := Call { call_result : result value; call_destroys : bool }.

(** What [document.querySelector(sel)] answers. *)
Inductive node := Element (id : nat) | NoMatch | BadSelector.

(** The environment at a given time (milliseconds). *)
Record world := World {
  querySelector : Z -> string -> node;
  callFn : nat -> Z -> call
}.

End JS.
Import JS.

(* ================================================================== *)
(** ** Object merge ([mergeObjects]) *)
(* ================================================================== *)

Module Merge.

Definition props := list (string * value).

Definition keys (es : props) : list string := map fst es.

Fixpoint lookup_own (ps : props) (k : string) : option value :=
  match ps with
  | [] => None
  | (k', v) :: r => if String.eqb k' k then Some v else lookup_own r k
  end.

(** [obj[k]] on a plain object. *)
Definition get_own (ps : props) (k : string) : value :=
  match lookup_own ps k with Some v => v | None => VUndefined end.

(** [obj[k] = v] on a plain object: overwrite in place or append. *)
Fixpoint set_own (ps : props) (k : string) (v : value) : props :=
  match ps with
  | [] => [(k, v)]
  | (k', v') :: r => if String.eqb k' k then (k', v) :: r else (k', v') :: set_own r k v
  end.

(** The properties an object really has: the first binding of every key. *)
Fixpoint own_props (ps : props) : props :=
  match ps with
  | [] => []
  | (k, v) :: r => (k, v) :: List.filter (fun p => negb (String.eqb (fst p) k)) (own_props r)
  end.

Fixpoint indexed_from (i : nat) (xs : list value) : props :=
  match xs with
  | [] => []
  | x :: r => (pretty i, x) :: indexed_from (S i) r
  end.

Definition chars (s : string) : list value :=
  map (fun c => VStr (String c EmptyString)) (list_ascii_of_string s).

(** [Object.keys(source)] paired with [source[key]] for each key.
    [None] is the TypeError that [Object.keys] raises on null and
    undefined; numbers, booleans and functions have no enumerable own
    property; strings and arrays enumerate their indices. *)
Definition entries (source : value) : option props :=
  match source with
  | VUndefined | VNull => None
  | VBool _ | VNum _ | VFun _ => Some []
  | VStr s => Some (indexed_from 0 (chars s))
  | VArr xs => Some (indexed_from 0 xs)
  | VObj ps => Some (own_props ps)
  end.

(** The targets [mergeObjects] is written for ([@param {object} target]),
    which are also exactly the values its test
    [typeof targetValue === 'object' && !(targetValue instanceof Array)]
    lets into the recursive call: [null] and plain objects. *)
Inductive target := TgtNull | TgtObj (ps : props).

Definition isObject (v : value) : option target :=
  match v with
  | VNull => Some TgtNull
  | VObj ps => Some (TgtObj ps)
  | _ => None
  end.

Definition to_value (t : target) : value :=
  match t with TgtNull => VNull | TgtObj ps => VObj ps end.

(** Body of the [forEach] callback, with the recursive call abstracted. *)
Definition merge_key (rec : target -> value -> option (result target))
    (acc : option (result target)) (e : string * value) : option (result target) :=
  match acc with
  | Some (Ret merged) =>
      let '(key, sourceValue) := e in
      match merged with
      | TgtNull => Some (Throw TypeError)          (* merged[key] on null *)
      | TgtObj ps =>
          let targetValue := get_own ps key in
          match isObject targetValue with
          | Some tv =>
              match rec tv sourceValue with
              | Some (Ret r) => Some (Ret (TgtObj (set_own ps key (to_value r))))
              | other => other
              end
          | None => Some (Ret (TgtObj (set_own ps key sourceValue)))
          end
      end
  | other => other                                   (* an exception ends the loop *)
  end.

(** [mergeObjects] with a bound on the recursion depth; [None] when the
    bound is reached. *)
Fixpoint mergeObjects_fuel (fuel : nat) (tgt : target) (source : value)
  : option (result target) :=
  match fuel with
  | O => None
  | S n =>
      match entries source with
      | None => Some (Throw TypeError)               (* Object.keys(null) *)
      | Some es => fold_left (merge_key (mergeObjects_fuel n)) es (Some (Ret tgt))
      end
  end.

Fixpoint depth (v : value) : nat :=
  match v with
  | VObj ps => S (list_max (map (fun p => depth (snd p)) ps))
  | _ => O
  end.

(** The recursion follows the nesting of the target, so its depth bounds
    the recursion ([mergeObjects_total] below). *)
Definition mergeObjects (tgt : target) (source : value) : option (result target) :=
  mergeObjects_fuel (S (depth (to_value tgt))) tgt source.

(** The kinds of source value that matter when the default is null. *)
Definition number_or_boolean (v : value) : bool :=
  match v with VNum _ | VBool _ => true | _ => false end.

Definition nonempty_string_array_or_object (v : value) : bool :=
  match v with
  | VStr (String _ _) | VArr (_ :: _) | VObj (_ :: _) => true
  | _ => false
  end.

Definition empty_string_array_or_object (v : value) : bool :=
  match v with
  | VStr EmptyString | VArr [] | VObj [] => true
  | _ => false
  end.

(** The countdown component's defaults carry [deliveryDays: null]. *)
Definition delivery_defaults : props := [("deliveryDays", VNull); ("tomorrowLabel", VBool false)].
Definition delivery_options : props := [("deliveryDays", VArr [VNum 1; VNum 2])].

End Merge.

(* ================================================================== *)
(** ** Timers *)
(* ================================================================== *)

(** [setTimeout(f, delay)] waits a whole, non-negative number of
    milliseconds. *)
Definition timer_ms (delay : Q) : Z := Z.max 0 (Qfloor delay).

(* ================================================================== *)
(** ** The full poller ([createPollingElement], [poller]) *)
(* ================================================================== *)

Module Poller.

(** [settings] once the caller's options are copied over the defaults. *)
Record settings := Settings {
  wait : Q;
  multiplier : Q;
  timeout : Z;                 (* per-element maximum duration, 0 = none *)
  timeoutCallback : bool       (* typeof timeoutCallback === 'function' *)
}.

Definition default_settings : settings := Settings (50 # 1) (11 # 10) 0 true.

Record element := PollingElement {
  elm : value;
  maxDuration : Z;
  startedAt : option Z;        (* undefined before the first poll *)
  winTimeout : option nat      (* handle of the last timer set *)
}.

(** A pending timer: its handle, the time from which it may run, and the
    closure it holds (which element polls, with which delay). *)
Record timer := Timer { tid : nat; due : Z; owner : nat; delay : Q }.

(** What an observer of the session sees, each with its time. *)
Inductive event :=
| Succeeded (i : nat) (t : Z)          (* successCallback(this) for element i *)
| AllSucceeded (t : Z)                 (* cb() *)
| TimedOut (i : nat) (t : Z)           (* timeoutCallback(this.elm) *)
| Raised (i : nat) (e : error) (t : Z) (* exception out of element i's timer *)
| Destroyed (t : Z).                   (* destroy() on the returned handle *)

Record state := State {
  now : Z;                             (* getNow() *)
  elements : list element;             (* pollingElements *)
  succeeded : list nat;                (* successfullyPolledElements, by index *)
  timers : list timer;                 (* the browser's pending timers *)
  next_id : nat;                       (* next timer handle *)
  trace : list event;                  (* oldest first *)
  total : nat                          (* elements.length of the argument *)
}.

Definition log (e : event) (s : state) : state :=
  State (now s) (elements s) (succeeded s) (timers s) (next_id s) (trace s ++ [e]) (total s).

Definition with_timers (ts : list timer) (s : state) : state :=
  State (now s) (elements s) (succeeded s) ts (next_id s) (trace s) (total s).

Definition with_element (i : nat) (e : element) (s : state) : state :=
  State (now s) (<[i := e]> (elements s)) (succeeded s) (timers s) (next_id s)
        (trace s) (total s).

Definition at_time (t : Z) (s : state) : state :=
  State t (elements s) (succeeded s) (timers s) (next_id s) (trace s) (total s).

(** [clearTimeout(id)] *)
Definition clearTimeout (id : nat) (s : state) : state :=
  with_timers (List.filter (fun tm => negb (tid tm =? id)%nat) (timers s)) s.

(** Outcome of one evaluation of a condition. *)
Record check := Check { verdict : result bool; destroys : bool }.

Definition expressionValidator (W : world) (t : Z) (expr : value) : check :=
  if negb (truthy expr) then Check (Throw (Error "Invalid poller expression")) false
  else match expr with
       | VFun f =>
           let c := callFn W f t in
           Check (match call_result c with
                  | Ret v => Ret (truthy v)
                  | Throw e => Throw e
                  end) (call_destroys c)
       | VStr sel =>
           Check (match querySelector W t sel with
                  | Element _ => Ret true
                  | NoMatch => Ret false
                  | BadSelector => Throw SyntaxError
                  end) false
       | _ => Check (Ret true) false
       end.

(** [this.destroy()]: clear the element's timer if it has a handle. *)
Definition destroy_element (e : element) (s : state) : state :=
  match winTimeout e with
  | Some id => if (id =? 0)%nat then s else clearTimeout id s
  | None => s
  end.

(** [pollingElements.forEach(item => item.destroy())] *)
Definition destroy_all (s : state) : state :=
  fold_left (fun acc e => destroy_element e acc) (elements s) s.

Section Session.
Variable W : world.
Variable cfg : settings.

(** [this.poll(delay, multiplier, successCallback, timeoutCallback)] for the
    element at index [i]. *)
Definition poll (i : nat) (d : Q) (s : state) : state :=
  match elements s !! i with
  | None => s
  | Some e =>
      let started :=
        match startedAt e with
        | Some t0 => if t0 =? 0 then now s else t0
        | None => now s
        end in
      let exceedsMaxDuration :=
        if maxDuration e =? 0 then false else started + maxDuration e <? now s in
      let e1 := PollingElement (elm e) (maxDuration e) (Some started) (winTimeout e) in
      if exceedsMaxDuration then
        let s1 := with_element i e1 s in
        let s2 := if timeoutCallback cfg then log (TimedOut i (now s)) s1 else s1 in
        destroy_element e1 s2
      else
        let id := next_id s in
        let e2 := PollingElement (elm e) (maxDuration e) (Some started) (Some id) in
        State (now s) (<[i := e2]> (elements s)) (succeeded s)
              (timers s ++ [Timer id (now s + timer_ms d) i d]) (S id) (trace s) (total s)
  end.

(** The success callback [poller] hands to every element. *)
Definition successCallback (i : nat) (s : state) : state :=
  let s1 := State (now s) (elements s) (succeeded s ++ [i]) (timers s) (next_id s)
                  (trace s ++ [Succeeded i (now s)]) (total s) in
  if (length (succeeded s1) =? total s1)%nat then log (AllSucceeded (now s)) s1 else s1.

(** The arrow function given to [setTimeout] in [poll]. *)
Definition timer_body (i : nat) (d : Q) (s : state) : state :=
  match elements s !! i with
  | None => s
  | Some e =>
      let c := expressionValidator W (now s) (elm e) in
      let s1 := if destroys c then destroy_all (log (Destroyed (now s)) s) else s in
      match verdict c with
      | Throw err => log (Raised i err (now s)) s1
      | Ret true => successCallback i s1
      | Ret false => poll i (d * multiplier cfg)%Q s1
      end
  end.

(** What happens to a session: the browser runs a pending timer at some
    time, or the caller uses the handle. *)
Inductive action :=
| Fire (id : nat) (t : Z)
| Destroy.

Definition find_timer (id : nat) (s : state) : option timer :=
  List.find (fun tm => (tid tm =? id)%nat) (timers s).

(** A timer runs once, not before it is due, and time does not go back;
    anything else the browser does not do, and the step leaves the state. *)
Definition fire (id : nat) (t : Z) (s : state) : state :=
  match find_timer id s with
  | Some tm =>
      if (due tm <=? t) && (now s <=? t)
      then timer_body (owner tm) (delay tm) (clearTimeout id (at_time t s))
      else s
  | None => s
  end.

Definition step (s : state) (a : action) : state :=
  match a with
  | Fire id t => fire id t s
  | Destroy => destroy_all (log (Destroyed (now s)) s)
  end.

Definition run (sched : list action) (s : state) : state := fold_left step sched s.

(** [poller(elements, cb, options)] called at time [t0]: the state when it
    returns its handle. *)
Definition poller (conds : list value) (t0 : Z) : state :=
  fold_left (fun s i => poll i (wait cfg) s) (seq 0 (length conds))
    (State t0 (map (fun c => PollingElement c (timeout cfg) None None) conds)
           [] [] 1%nat [] (length conds)).

(** A punctual browser: the pending timer that is due first (the oldest
    among equals) runs exactly when it is due. *)
Definition earliest (ts : list timer) : option timer :=
  fold_left (fun best tm =>
               match best with
               | Some b => if due tm <? due b then Some tm else Some b
               | None => Some tm
               end) ts None.

Fixpoint run_punctual (turns : nat) (s : state) : state :=
  match turns with
  | O => s
  | S n =>
      match earliest (timers s) with
      | Some tm => run_punctual n (fire (tid tm) (Z.max (now s) (due tm)) s)
      | None => s
      end
  end.

End Session.

(** Reading a trace. *)
Definition is_all_succeeded (e : event) : bool :=
  match e with AllSucceeded _ => true | _ => false end.
Definition is_timed_out (i : nat) (e : event) : bool :=
  match e with TimedOut j _ => (j =? i)%nat | _ => false end.
Definition is_destroyed (e : event) : bool :=
  match e with Destroyed _ => true | _ => false end.
Definition is_callback (e : event) : bool :=
  match e with Succeeded _ _ | AllSucceeded _ | TimedOut _ _ => true | _ => false end.

Definition count (p : event -> bool) (tr : list event) : nat := length (List.filter p tr).

(** No success, aggregate or timeout callback after the first [destroy()]. *)
Fixpoint silent_after_destroy (tr : list event) : bool :=
  match tr with
  | [] => true
  | e :: r => if is_destroyed e then forallb (fun x => negb (is_callback x)) r
              else silent_after_destroy r
  end.

(** In a well-ordered trace every aggregate callback comes after the
    success of each of the [N] elements. *)
Definition ordered (N : nat) (tr : list event) : Prop :=
  forall l1 t l2, tr = l1 ++ AllSucceeded t :: l2 ->
    forall i, (i < N)%nat -> exists t', In (Succeeded i t') l1.

Definition no_timer_of (i : nat) (s : state) : Prop :=
  forall tm, In tm (timers s) -> owner tm <> i.

(** What holds of every state of a session polling [conds]. *)
Record Inv (W : world) (conds : list value) (s : state) : Prop := {
  inv_total : total s = length conds;
  inv_elms : map elm (elements s) = conds;
  inv_next : (0 < next_id s)%nat;
  inv_tid : forall tm, In tm (timers s) -> (0 < tid tm < next_id s)%nat;
  inv_own : forall tm, In tm (timers s) ->
      exists e, elements s !! owner tm = Some e /\ winTimeout e = Some (tid tm);
  inv_nd_owner : List.NoDup (map owner (timers s));
  inv_nd_tid : List.NoDup (map tid (timers s));
  inv_succ_nd : List.NoDup (succeeded s);
  inv_succ : forall i, In i (succeeded s) -> (i < total s)%nat /\ no_timer_of i s;
  inv_count : count is_all_succeeded (trace s)
              = if (0 <? total s)%nat && (length (succeeded s) =? total s)%nat
                then 1%nat else 0%nat;
  inv_logged : forall i, (exists t, In (Succeeded i t) (trace s)) <-> In i (succeeded s);
  inv_ordered : ordered (total s) (trace s);
  inv_truthy : forall i t, In (Succeeded i t) (trace s) ->
      exists c, conds !! i = Some c /\ verdict (expressionValidator W t c) = Ret true;
  inv_timed_out : forall i,
      (count (is_timed_out i) (trace s) <= 1)%nat
      /\ (count (is_timed_out i) (trace s) = 1%nat -> no_timer_of i s)
}.

(** While [poller] is still in its loop, elements from index [k] on have
    not been polled. *)
Definition fresh_from (k : nat) (s : state) : Prop :=
  succeeded s = [] /\ forall i, (k <= i)%nat ->
    no_timer_of i s /\ count (is_timed_out i) (trace s) = 0%nat.

(** An element between two polls: its timer has just run. *)
Definition idle (i : nat) (s : state) : Prop :=
  no_timer_of i s /\ ~ In i (succeeded s) /\ count (is_timed_out i) (trace s) = 0%nat.

Definition not_destroyed (e : event) : Prop := is_destroyed e = false.

(** No condition calls [destroy()] while it is being evaluated. *)
Definition no_reentrant_destroy (W : world) (conds : list value) : Prop :=
  forall i c t, conds !! i = Some c -> destroys (expressionValidator W t c) = false.

(** Once destroyed from outside, a session has no timer left, and its
    trace shows no callback after the first [destroy()]. *)
Definition cancelled_for_good (s : state) : Prop :=
  (existsb is_destroyed (trace s) = true -> timers s = [])
  /\ silent_after_destroy (trace s) = true.

(** Element [i] is still being polled: unless it has timed out, its timer
    is pending and its clock started with the session. *)
Definition alive (cfg : settings) (t0 : Z) (i : nat) (s : state) : Prop :=
  count (is_timed_out i) (trace s) = 0%nat ->
  exists tm e sa, In tm (timers s) /\ owner tm = i /\ elements s !! i = Some e
    /\ startedAt e = Some sa /\ (t0 <> 0 -> sa = t0) /\ maxDuration e = timeout cfg.

(** Every evaluation of the condition returns false. *)
Definition never_truthy (W : world) (c : value) : Prop :=
  forall t, expressionValidator W t c = Check (Ret false) false.

(** While [poller] is still in its loop, elements from index [k] on are
    as [createPollingElement] made them. *)
Definition unpolled_from (cfg : settings) (t0 : Z) (k : nat) (s : state) : Prop :=
  now s = t0 /\ forall j e, (k <= j)%nat -> elements s !! j = Some e ->
    winTimeout e = None /\ startedAt e = None /\ maxDuration e = timeout cfg.

End Poller.

(* ================================================================== *)
(** ** The lightweight poller ([pollerLite]) *)
(* ================================================================== *)

Module Lite.

(** [options] once the caller's options are merged over the defaults. *)
Record options := Options {
  wait : Q;
  multiplier : Q;
  timeout : Z                  (* for the whole session, 0 = none *)
}.

Definition default_options : options := Options (50 # 1) (11 # 10) 0.

(** A timer set by [pollForCondition]: the condition it polls again and the
    waiting time it was set with. *)
Record timer := Timer { tid : nat; due : Z; idx : nat; waitTime : Q }.

Inductive event :=
| Passed (i : nat) (result : value) (t : Z)   (* successfulConditions.push(result) *)
| Called (results : list value) (t : Z)       (* callback(successfulConditions) *)
| Raised (i : nat) (e : error) (t : Z).       (* exception out of an evaluation *)

Record state := State {
  now : Z;
  deadline : option Z;                 (* timeout: a Date, or null *)
  successfulConditions : list value;
  passed : list nat;                   (* the conditions whose result was pushed *)
  timers : list timer;
  next_id : nat;
  trace : list event;
  total : nat                          (* conditions.length *)
}.

Definition log (e : event) (s : state) : state :=
  State (now s) (deadline s) (successfulConditions s) (passed s) (timers s) (next_id s)
        (trace s ++ [e]) (total s).

(** A DOM node returned by [querySelector], as a value. *)
Definition node_value (id : nat) : value := VObj [("node", VNum (Z.of_nat id))].

(** [evaluateCondition]: [types[typeof condition]] has an entry for
    functions and for strings; anything else counts as passed. *)
Definition evaluateCondition (W : world) (t : Z) (condition : value) : result value :=
  match condition with
  | VFun f => call_result (callFn W f t)
  | VStr sel =>
      match querySelector W t sel with
      | Element id => Ret (node_value id)
      | NoMatch => Ret VNull
      | BadSelector => Throw SyntaxError
      end
  | _ => Ret (VBool true)
  end.

(** [isTimedOut()] *)
Definition isTimedOut (s : state) : bool :=
  match deadline s with
  | Some d => d <? now s
  | None => false
  end.

Section Session.
Variable W : world.
Variable opts : options.
Variable conditions : list value.

(** [pollForCondition(conditions[i], waitTime, skipWait)]; the boolean
    tells whether the evaluation threw. *)
Definition pollForCondition (i : nat) (w : Q) (skipWait : bool) (s : state) : state * bool :=
  if isTimedOut s then (s, false)
  else
    match conditions !! i with
    | None => (s, false)
    | Some c =>
        match evaluateCondition W (now s) c with
        | Throw e => (log (Raised i e (now s)) s, true)
        | Ret result =>
            if truthy result then
              let s1 := State (now s) (deadline s) (successfulConditions s ++ [result])
                              (passed s ++ [i]) (timers s) (next_id s)
                              (trace s ++ [Passed i result (now s)]) (total s) in
              if (length (successfulConditions s1) =? total s1)%nat
              then (log (Called (successfulConditions s1) (now s)) s1, false)
              else (s1, false)
            else
              (State (now s) (deadline s) (successfulConditions s) (passed s)
                     (timers s ++ [Timer (next_id s)
                                         (now s + if skipWait then 0 else timer_ms w) i w])
                     (S (next_id s)) (trace s) (total s), false)
        end
    end.

(** The loop that starts the polling; an exception ends it. *)
Fixpoint start (indices : list nat) (s : state) : state :=
  match indices with
  | [] => s
  | i :: r =>
      let '(s1, threw) := pollForCondition i (wait opts) true s in
      if threw then s1 else start r s1
  end.

(** [pollerLite(conditions, callback, userOptions)] called at time [t0]. *)
Definition pollerLite (t0 : Z) : state :=
  start (seq 0 (length conditions))
    (State t0 (if timeout opts =? 0 then None else Some (t0 + timeout opts))
           [] [] [] 1%nat [] (length conditions)).

Definition find_timer (id : nat) (s : state) : option timer :=
  List.find (fun tm => (tid tm =? id)%nat) (timers s).

(** The browser runs timer [id] at time [t]. *)
Definition fire (s : state) (a : nat * Z) : state :=
  let '(id, t) := a in
  match find_timer id s with
  | Some tm =>
      if (due tm <=? t) && (now s <=? t)
      then fst (pollForCondition (idx tm) (waitTime tm * multiplier opts)%Q false
                  (State t (deadline s) (successfulConditions s) (passed s)
                         (List.filter (fun x => negb (tid x =? id)%nat) (timers s))
                         (next_id s) (trace s) (total s)))
      else s
  | None => s
  end.

Definition run (sched : list (nat * Z)) (s : state) : state := fold_left fire sched s.

End Session.

Definition is_called (e : event) : bool :=
  match e with Called _ _ => true | _ => false end.

Definition count (p : event -> bool) (tr : list event) : nat := length (List.filter p tr).

Definition no_timer_of (i : nat) (s : state) : Prop :=
  forall tm, In tm (timers s) -> idx tm <> i.

Definition before_deadline (s : state) (t : Z) : Prop :=
  match deadline s with Some d => t <= d | None => True end.

(** What holds of every state of a session. *)
Record Inv (W : world) (opts : options) (conditions : list value) (t0 : Z) (s : state)
  : Prop := {
  inv_total : total s = length conditions;
  inv_deadline : deadline s = if timeout opts =? 0 then None else Some (t0 + timeout opts);
  inv_nd_idx : List.NoDup (map idx (timers s));
  inv_passed_nd : List.NoDup (passed s);
  inv_passed : forall i, In i (passed s) -> (i < total s)%nat /\ no_timer_of i s;
  inv_length : length (successfulConditions s) = length (passed s);
  inv_count : count is_called (trace s)
              = if (0 <? total s)%nat && (length (passed s) =? total s)%nat
                then 1%nat else 0%nat;
  inv_logged : forall i, (exists v t, In (Passed i v t) (trace s)) <-> In i (passed s);
  inv_truthy : forall i v t, In (Passed i v t) (trace s) ->
      before_deadline s t
      /\ exists c, conditions !! i = Some c
                   /\ evaluateCondition W t c = Ret v /\ truthy v = true
}.

(** The second half of the callback guarantee, for a given session and
    schedule: if every condition has passed, the callback has been called
    once. *)
Definition called_once_when_all_pass (W : world) (opts : options) (conditions : list value)
    (t0 : Z) (sched : list (nat * Z)) : Prop :=
  let s := run W opts conditions sched (pollerLite W opts conditions t0) in
  (forall i, (i < length conditions)%nat -> exists v t, In (Passed i v t) (trace s)) ->
  count is_called (trace s) = 1%nat.

(** While [pollerLite] is still in its loop, conditions from index [k] on
    have not been polled. *)
Definition fresh_from (k : nat) (s : state) : Prop :=
  forall i, (k <= i)%nat -> no_timer_of i s /\ ~ In i (passed s).

End Lite.

(* ================================================================== *)
(** ** Mutation observers ([observer.connect], [observer.disconnect]) *)
(* ================================================================== *)

Module Observer.

(** A DOM element, by identity. *)
Definition elem := nat.

(** What callers pass as [elements]: one element that has no [length] (or
    length 0), a jQuery object, or one element that has a [length] and
    indexed items of its own, as a form has its controls, a select its
    options and a text node its characters ([None]: the item is not an
    element). *)
Inductive arg :=
| Node (e : elem)
| JQuery (es : list elem)
| Indexed (e : elem) (items : list (option elem)).

(** How a call of the caller's [cb] ends. *)
Inductive outcome := Returns | Throws.

(** The caller's [cb], by the element of the record it is given and the
    time of the call. *)
Definition callback := elem -> Z -> outcome.

(** A [MutationObserver] made by [connect], with the variables its callback
    closes over: the targets it observes, [cb], the gate [blockCb], the
    throttle, and the times at which its pending [setTimeout] callbacks
    (which reopen the gate) are due. *)
Record mobserver := MObserver {
  observed : list elem;
  cb : callback;
  blockCb : bool;
  throttle : Z;
  pending : list Z
}.

Record state := State {
  observers : list mobserver;          (* by handle *)
  active : list (elem * nat);          (* observer.active *)
  calls : list (nat * Z)               (* cb invoked by observer, at time *)
}.

Definition initial : state := State [] [] [].

(** The elements [connect] observes: those of a jQuery object, and
    otherwise [elements] itself. *)
Definition targets (a : arg) : list elem :=
  match a with Node e => [e] | JQuery es => es | Indexed e _ => [e] end.

(** [observer.connect(elements, cb, {throttle})]: one observer for the
    call, one registration per element. *)
Definition connect (a : arg) (f : callback) (thr : Z) (s : state) : state :=
  let id := length (observers s) in
  State (observers s ++ [MObserver (targets a) f false thr []])
        (active s ++ map (fun e => (e, id)) (targets a))
        (calls s).

(** [MutationObserver.prototype.disconnect]: the observer stops observing
    all its targets. *)
Definition mo_disconnect (o : mobserver) : mobserver :=
  MObserver [] (cb o) (blockCb o) (throttle o) (pending o).

(** [removeObservers(element)] *)
Definition removeObservers (e : elem) (s : state) : state :=
  fold_left (fun acc r =>
               if (fst r =? e)%nat
               then State (alter mo_disconnect (snd r) (observers acc)) (active acc) (calls acc)
               else acc)
            (active s) s.

(** [removeObservers(elements[i])], where [elements[i]] need not be an
    element. *)
Definition removeItem (s : state) (i : option elem) : state :=
  match i with Some e => removeObservers e s | None => s end.

(** [observer.disconnect(elements)]: with a truthy [elements.length] the
    indexed items are looked up in the registry, and otherwise [elements]
    itself; a jQuery object with no element is not in the registry. *)
Definition disconnect (a : arg) (s : state) : state :=
  match a with
  | Node e => removeObservers e s
  | JQuery [] => s
  | JQuery es => fold_left (fun acc e => removeObservers e acc) es s
  | Indexed e [] => removeObservers e s
  | Indexed e items => fold_left removeItem items s
  end.

(** The body of [mutations.forEach] for one record of element [e], at time
    [t], with the way the call of [cb] ended if there was one.  The timer
    that reopens the gate is set after [cb] has returned. *)
Definition on_record (e : elem) (t : Z) (o : mobserver) : mobserver * option outcome :=
  if blockCb o then (o, None)
  else match cb o e t with
       | Returns =>
           (MObserver (observed o) (cb o) true (throttle o)
                      (pending o ++ [t + Z.max 0 (throttle o)]),
            Some Returns)
       | Throws =>
           (MObserver (observed o) (cb o) true (throttle o) (pending o), Some Throws)
       end.

(** The observer's callback on a batch of [n] records of [e], with the
    number of calls of [cb]; an exception of [cb] ends the [forEach]. *)
Fixpoint on_records (n : nat) (e : elem) (t : Z) (o : mobserver) : mobserver * nat :=
  match n with
  | O => (o, O)
  | S k =>
      match on_record e t o with
      | (o1, Some Throws) => (o1, 1%nat)
      | (o1, Some Returns) => let '(o2, m) := on_records k e t o1 in (o2, S m)
      | (o1, None) => on_records k e t o1
      end
  end.

(** An observer that observes [e] is called with the batch of [n] records
    of [e]. *)
Definition notify (e : elem) (n : nat) (t : Z) (o : mobserver) : mobserver * nat :=
  if existsb (Nat.eqb e) (observed o) then on_records n e t o else (o, O).

(** A batch of [n] mutation records of element [e] is delivered at time
    [t]. *)
Fixpoint deliver_to (e : elem) (n : nat) (t : Z) (id : nat) (os : list mobserver)
  : list mobserver * list (nat * Z) :=
  match os with
  | [] => ([], [])
  | o :: r =>
      let '(o1, m) := notify e n t o in
      let '(r1, cs) := deliver_to e n t (S id) r in
      (o1 :: r1, repeat (id, t) m ++ cs)
  end.

Definition mutate (e : elem) (n : nat) (t : Z) (s : state) : state :=
  let '(os, cs) := deliver_to e n t 0 (observers s) in
  State os (active s) (calls s ++ cs).

(** The callback of the oldest timer of an observer: [blockCb = false]. *)
Definition reopen (o : mobserver) : mobserver :=
  MObserver (observed o) (cb o) false (throttle o) (tl (pending o)).

(** The event loop runs the oldest pending timer of observer [id] at time
    [t]; a timer does not run before it is due. *)
Definition timer_run (id : nat) (t : Z) (s : state) : state :=
  match observers s !! id with
  | Some o =>
      match pending o with
      | d :: _ =>
          if d <=? t
          then State (<[id := reopen o]> (observers s)) (active s) (calls s)
          else s
      | [] => s
      end
  | None => s
  end.

(** The invocations of the callback of observer [id]. *)
Definition calls_of (id : nat) (s : state) : list Z :=
  map snd (List.filter (fun c => (fst c =? id)%nat) (calls s)).

(** What callers, the page and the event loop do with the observers:
    connect, disconnect, mutations of an element, and the run of a timer. *)
Inductive op :=
| Connect (a : arg) (f : callback) (thr : Z)
| Disconnect (a : arg)
| Mutate (e : elem) (n : nat) (t : Z)
| TimerRun (id : nat) (t : Z).

Definition step (s : state) (o : op) : state :=
  match o with
  | Connect a f thr => connect a f thr s
  | Disconnect a => disconnect a s
  | Mutate e n t => mutate e n t s
  | TimerRun id t => timer_run id t s
  end.

Definition run (ops : list op) (s : state) : state := fold_left step ops s.

(** [o] is a run of a timer of observer [id]. *)
Definition runs_timer (id : nat) (o : op) : bool :=
  match o with TimerRun id' _ => (id' =? id)%nat | _ => false end.

Definition disconnects (o : op) : bool :=
  match o with Disconnect _ => true | _ => false end.

(** The gate of an observer is open: nothing blocks its callback and no
    timer of its own is pending. *)
Definition gate_open (o : mobserver) : Prop := blockCb o = false /\ pending o = [].

(** The gate is closed and the timer that reopens it is due at [T]. *)
Definition gate_closed_until (T : Z) (o : mobserver) : Prop :=
  blockCb o = true /\ pending o = [T].

(** The gate is closed and no timer is left to reopen it. *)
Definition gate_stuck (o : mobserver) : Prop := blockCb o = true /\ pending o = [].

(** An observer has at most one timer pending, and none while its gate is
    open: the timer that [timer_run] runs is the only one there is. *)
Definition one_timer (o : mobserver) : Prop :=
  (length (pending o) <= 1)%nat /\ (blockCb o = false -> pending o = []).

(** A callback that always returns. *)
Definition returns : callback := fun _ _ => Returns.

End Observer.

(* ================================================================== *)
(** ** Script loading once per url ([globalGetScript]) *)
(* ================================================================== *)

Module Loader.

Inductive pstate := Pending | Resolved | Rejected.

Record state := State {
  requests : gmap string nat;          (* window.ucGlobals.requests: url -> promise *)
  promises : list pstate;              (* the promises made so far, by identity *)
  scripts : list (string * nat);       (* script elements inserted: src, promise *)
  returned : list (string * nat)       (* what each call returned, oldest first *)
}.

Definition initial : state := State ∅ [] [] [].

(** [createGlobalPromise()]: the executor makes the script element and
    inserts it into [document.body].  Where the document has no body yet
    ([body = false]) the insertion throws, inside the executor: nothing is
    inserted and the new promise is rejected. *)
Definition createGlobalPromise (url : string) (body : bool) (s : state) : state :=
  let p := length (promises s) in
  State (requests s)
        (promises s ++ [if body then Pending else Rejected])
        (if body then scripts s ++ [(url, p)] else scripts s)
        (returned s).

(** [globalGetScript(url, options)] *)
Definition globalGetScript (url : string) (body : bool) (s : state) : state :=
  match requests s !! url with
  | Some p => State (requests s) (promises s) (scripts s) (returned s ++ [(url, p)])
  | None =>
      let p := length (promises s) in
      let s1 := createGlobalPromise url body s in
      State (<[url := p]> (requests s1)) (promises s1) (scripts s1)
            (returned s1 ++ [(url, p)])
  end.

(** [script.readyState], where the browser has one. *)
Inductive readyState := Loading | Loaded | Complete | Interactive.

Definition settle (outcome : pstate) (p : pstate) : pstate :=
  match p with Pending => outcome | settled => settled end.

(** [onloadHander(_, isAbort)] of the script that belongs to promise [p]. *)
Definition onloadHander (p : nat) (isAbort : bool) (rs : option readyState) (s : state)
  : state :=
  let finished :=
    match rs with
    | None | Some Loaded | Some Complete => true
    | Some _ => false
    end in
  if isAbort || finished
  then State (requests s)
             (alter (settle (if isAbort then Rejected else Resolved)) p (promises s))
             (scripts s) (returned s)
  else s.

(** A call of [globalGetScript], with whether the document has a body at
    that moment, or a call of a script's handler. *)
Inductive op :=
| Get (url : string) (body : bool)
| Handler (p : nat) (isAbort : bool) (rs : option readyState).

Definition step (s : state) (o : op) : state :=
  match o with
  | Get url body => globalGetScript url body s
  | Handler p isAbort rs => onloadHander p isAbort rs s
  end.

Definition run (ops : list op) (s : state) : state := fold_left step ops s.

(** Script elements inserted for [url]. *)
Definition loads_of (url : string) (s : state) : nat :=
  length (List.filter (fun x => String.eqb (fst x) url) (scripts s)).

(** What holds of every state. *)
Record Inv (s : state) : Prop := {
  inv_cached : forall url p, requests s !! url = Some p ->
      (p < length (promises s))%nat /\ In (url, p) (returned s);
  inv_scripts : forall url p, In (url, p) (scripts s) -> requests s !! url = Some p;
  inv_once : List.NoDup (map fst (scripts s));
  inv_returned : forall url p, In (url, p) (returned s) -> requests s !! url = Some p;
  inv_pending : forall url p, requests s !! url = Some p ->
      promises s !! p = Some Pending -> In (url, p) (scripts s);
  inv_own : forall u1 u2 p, requests s !! u1 = Some p -> requests s !! u2 = Some p -> u1 = u2
}.

End Loader.

(* ================================================================== *)
(** ** Concrete sessions *)
(* ================================================================== *)

Module Examples.

(** A page on which the element [#cta] appears at time 1060, with four
    caller-supplied functions: 0 returns true from time 1100 on, 1 always
    returns false, 2 calls [destroy()] on its session's handle and returns
    true, 3 returns true from time 800 on. *)
Definition page : world :=
  World (fun t sel => if String.eqb sel "#cta" && (1060 <=? t) then Element 1 else NoMatch)
        (fun f t =>
           match f with
           | 0%nat => Call (Ret (VBool (1100 <=? t))) false
           | 1%nat => Call (Ret (VBool false)) false
           | 2%nat => Call (Ret (VBool true)) true
           | _ => Call (Ret (VBool (800 <=? t))) false
           end).

Definition two_conditions : list value := [VFun 0; VStr "#cta"].

Definition two_conditions_schedule : list Poller.action :=
  [Poller.Fire 1 1050; Poller.Fire 2 1050; Poller.Fire 3 1105; Poller.Fire 4 1105].

(** A per-element timeout of 300 ms. *)
Definition with_timeout : Poller.settings := Poller.Settings (50 # 1) (11 # 10) 300 true.

(** [pollerLite] with [{timeout: 1000}]. *)
Definition lite_timeout : Lite.options := Lite.Options (50 # 1) (11 # 10) 1000.

(** Four more mutations within 100 ms of a first one at time 0, and one
    at 130, before the timer of the observer has run. *)
Definition quick_burst : list Observer.op :=
  [Observer.Mutate 7%nat 1%nat 10; Observer.Mutate 7%nat 1%nat 20;
   Observer.Mutate 7%nat 2%nat 30; Observer.Mutate 7%nat 1%nat 40;
   Observer.Mutate 7%nat 1%nat 130].

End Examples.

(* ================================================================== *)
(** ** Reading a poller session: outcomes and first timers *)
(* ================================================================== *)

Module Outcome.
Import Poller.

Definition is_succeeded (i : nat) (e : event) : bool :=
  match e with Succeeded j _ => (j =? i)%nat | _ => false end.
Definition is_raised (i : nat) (e : event) : bool :=
  match e with Raised j _ _ => (j =? i)%nat | _ => false end.

(** How many times element [i] has reported an end: a success, a timeout
    or an exception. *)
Definition outcomes (i : nat) (tr : list event) : nat :=
  (count (is_succeeded i) tr + count (is_timed_out i) tr + count (is_raised i) tr)%nat.

(** The timers [poller] leaves behind for [n] elements when no element
    times out at once: one per element, in order, each due after [wait]. *)
Definition first_timers (cfg : settings) (t0 : Z) (n : nat) : list timer :=
  map (fun i => Timer (S i) (t0 + timer_ms (wait cfg)) i (wait cfg)) (seq 0 n).

(** Event [e] ends element [i]. *)
Definition ends (i : nat) (e : event) : bool :=
  is_succeeded i e || is_timed_out i e || is_raised i e.

(** An element that has reported its end has no timer, and has reported
    it once. *)
Definition settled (s : state) : Prop :=
  forall i, (outcomes i (trace s) <= 1)%nat
            /\ (outcomes i (trace s) = 1%nat -> no_timer_of i s).

(** The clocks of a session started at [t0]: no element's clock starts
    before the session, and a timeout is reported only after [timeout]
    milliseconds on it. *)
Definition clocked (cfg : settings) (t0 : Z) (s : state) : Prop :=
  t0 <= now s
  /\ (forall i e, elements s !! i = Some e ->
        maxDuration e = timeout cfg /\ forall sa, startedAt e = Some sa -> t0 <= sa)
  /\ (forall i t, In (TimedOut i t) (trace s) ->
        timeoutCallback cfg = true /\ timeout cfg <> 0 /\ t0 + timeout cfg < t).

(** The session reports every timeout: it has a timeout callback, or no
    timeout. *)
Definition reports_timeouts (cfg : settings) : Prop :=
  timeoutCallback cfg = true \/ timeout cfg = 0.

(** Every element that has not reported an end has a pending timer. *)
Definition polling (s : state) : Prop :=
  forall i, (i < total s)%nat -> outcomes i (trace s) = 0%nat ->
    exists tm, In tm (timers s) /\ owner tm = i.

End Outcome.

(* ================================================================== *)
(** ** The pollers of an experiment ([destroyPollers]) *)
(* ================================================================== *)

Module Registry.

(** The poller sessions of the page, by handle, and
    [window.UC.experiments]: for each experiment ID that has a [pollers]
    array, the handles it holds.  An ID without an entry is an experiment
    that does not exist or has no [pollers] property.  The arrays hold
    what [poller] returned: a handle is the index of its session. *)
Record state := State {
  sessions : list Poller.state;
  experiments : gmap string (list nat)
}.

(** [pollers[i].destroy()] on a handle returned by [poller]. *)
Definition destroy_handle (s : Poller.state) : Poller.state :=
  Poller.destroy_all (Poller.log (Poller.Destroyed (Poller.now s)) s).

(** [destroyPollers(ID)] *)
Definition destroyPollers (ID : string) (s : state) : state :=
  match experiments s !! ID with
  | Some pollers =>
      State (fold_left (fun acc h => alter destroy_handle h acc) pollers (sessions s))
            (<[ID := []]> (experiments s))
  | None => s
  end.

(** Every handle is a session of [poller] in one of its states. *)
Definition well_formed (l : list Poller.state) : Prop :=
  forall h p, l !! h = Some p -> exists W conds, Poller.Inv W conds p.

End Registry.

(* ================================================================== *)
(** ** Reading a [pollerLite] session *)
(* ================================================================== *)

Module Progress.
Import Lite.

(** The results pushed to [successfulConditions], in the order of the
    trace. *)
Definition passed_results (tr : list event) : list value :=
  flat_map (fun e => match e with Passed _ v _ => [v] | _ => [] end) tr.

(** The results array holds what the trace shows passing, and every call
    of the callback was given the results passed until then. *)
Definition results_agree (s : state) : Prop :=
  successfulConditions s = passed_results (trace s)
  /\ forall l1 rs t l2, trace s = l1 ++ Called rs t :: l2 ->
       rs = passed_results l1 /\ length rs = total s.

(** When [pollerLite] returns at [t0], every timer it has set is due at
    once and carries the first waiting time. *)
Definition immediate (W : world) (opts : options) (conditions : list value) (t0 : Z)
    (s : state) : Prop :=
  now s = t0
  /\ forall tm, In tm (timers s) ->
       due tm = t0 /\ waitTime tm = wait opts
       /\ exists c v, conditions !! idx tm = Some c
                     /\ evaluateCondition W t0 c = Ret v /\ truthy v = false.

(** No evaluation of a condition of the session throws. *)
Definition never_throws (W : world) (conditions : list value) : Prop :=
  forall i c t, conditions !! i = Some c -> exists v, evaluateCondition W t c = Ret v.

(** Condition [i] has not been dropped: it has passed or waits for its
    next check. *)
Definition in_progress (i : nat) (s : state) : Prop :=
  In i (passed s) \/ exists tm, In tm (timers s) /\ idx tm = i.

Definition all_in_progress (s : state) : Prop :=
  forall i, (i < total s)%nat -> in_progress i s.

(** Timer handles are not reused. *)
Definition handles_unique (s : state) : Prop :=
  List.NoDup (map tid (timers s)) /\ forall tm, In tm (timers s) -> (tid tm < next_id s)%nat.

(** While the deadline has not passed, every condition is in progress. *)
Definition kept (conditions : list value) (s : state) : Prop :=
  total s = length conditions /\ handles_unique s
  /\ (isTimedOut s = false -> all_in_progress s).

End Progress.

(* ================================================================== *)
(** ** Sequences of observer operations *)
(* ================================================================== *)

Module Watch.
Import Observer.

(** [observer.active] holds a pair of element [e] and observer [id]. *)
Definition paired (e : elem) (id : nat) (s : state) : bool :=
  existsb (fun r => (fst r =? e)%nat && (snd r =? id)%nat) (active s).

(** The elements [observer.disconnect(elements)] looks up in the
    registry. *)
Definition looked_up (a : arg) : list elem :=
  match a with
  | Node e => [e]
  | JQuery es => es
  | Indexed e [] => [e]
  | Indexed e items => omap id items
  end.

(** Observer [id] is registered for one of the elements that
    [disconnect(a)] looks up. *)
Definition registered (a : arg) (id : nat) (s : state) : bool :=
  existsb (fun e => paired e id s) (looked_up a).

End Watch.

(* ================================================================== *)
(** ** Splitting a list into groups ([group]) *)
(* ================================================================== *)

Module Group.

Section Elements.
Context {A : Type}.

(** An index argument of [Array.prototype.slice], made relative to an
    array of length [len]: negative indices count from the end. *)
Definition relative (len : Z) (x : Z) : Z :=
  if x <? 0 then Z.max (len + x) 0 else Z.min x len.

(** [elements.slice(start, stop)] *)
Definition slice (elements : list A) (start stop : Z) : list A :=
  let len := Z.of_nat (length elements) in
  let k := relative len start in
  let final := relative len stop in
  firstn (Z.to_nat (final - k)) (skipn (Z.to_nat k) elements).

(** The [for] loop of [group], from index [i], with a bound on the number
    of tests of its condition; [None] when the bound is reached. *)
Fixpoint group_loop (fuel : nat) (elements : list A) (num : Z) (i : Z)
    (groups : list (list A)) : option (list (list A)) :=
  match fuel with
  | O => None
  | S n =>
      if i <? Z.of_nat (length elements)
      then group_loop n elements num (i + num) (groups ++ [slice elements i (i + num)])
      else Some groups
  end.

(** [group(elements, num)], for an integer [num]. *)
Definition group (fuel : nat) (elements : list A) (num : Z) : option (list (list A)) :=
  group_loop fuel elements num 0 [].

End Elements.

End Group.

(* ================================================================== *)
(** ** A callback after a long hover ([hoverDelay]) *)
(* ================================================================== *)

Module Hover.

(** How a call of the caller's [cb] ends. *)
Inductive outcome := Returns | Throws.

(** The caller's [cb], by the time of the call. *)
Definition callback := Z -> outcome.

(** The variables the two handlers close over, and the times at which
    [cb] was invoked.  The handlers are bound to every element of the
    jQuery object, so they share one state. *)
Record state := State {
  delay : Z;
  hovered : bool;                (* undefined until the callback has returned *)
  startHover : option Z;         (* undefined until the pointer first enters *)
  calls : list Z
}.

(** [hoverDelay(elements, cb, delay)], for a number or a missing [delay]:
    nothing is bound when the page has no jQuery, and [if (!delay)] turns
    a missing or zero delay into a second. *)
Definition hoverDelay (jquery : bool) (d : option Z) : option state :=
  if negb jquery then None
  else Some (State (match d with
                    | Some n => if n =? 0 then 1000 else n
                    | None => 1000
                    end) false None []).

Inductive event :=
| Enter (t : Z)                  (* mouseenter on one of the elements, at time t *)
| Leave (t : Z).                 (* mouseleave *)

(** The two handlers.  [hovered = true] comes after [cb()]: it is not
    reached when [cb] throws. *)
Definition handle (cb : callback) (s : state) (e : event) : state :=
  match e with
  | Enter t => State (delay s) (hovered s) (Some t) (calls s)
  | Leave t =>
      if hovered s then s
      else match startHover s with
           | Some t0 =>
               if delay s <=? t - t0
               then State (delay s)
                          (match cb t with Returns => true | Throws => false end)
                          (startHover s) (calls s ++ [t])
               else s
           | None => s           (* endHover - undefined is NaN, not >= delay *)
           end
  end.

Definition run (cb : callback) (events : list event) (s : state) : state :=
  fold_left (handle cb) events s.

(** The time of the last [mouseenter] among [events], if any. *)
Definition last_enter (events : list event) : option Z :=
  fold_left (fun acc e => match e with Enter t => Some t | Leave _ => acc end) events None.

(** A leave at time [t] in [events] that ends a hover of at least [d]
    milliseconds. *)
Definition long_hover (d : Z) (events : list event) (t : Z) : Prop :=
  exists l1 l2 t0, events = l1 ++ Leave t :: l2 /\ last_enter l1 = Some t0 /\ d <= t - t0.

(** The calls made so far: all threw, or all but the last one did, which
    returned. *)
Definition until_returned (cb : callback) (s : state) : Prop :=
  if hovered s
  then exists l t, calls s = l ++ [t] /\ Forall (fun x => cb x = Throws) l /\ cb t = Returns
  else Forall (fun x => cb x = Throws) (calls s).

End Hover.

(* ================================================================== *)
(** ** A callback once scrolling has stopped ([scrollStop]) *)
(* ================================================================== *)

Module ScrollStop.

Inductive event :=
| Scrolled (t : Z)               (* the scroll listener ran *)
| Called (t : Z).                (* callback() *)

Record state := State {
  now : Z;
  isScrolling : option nat;      (* handle of the last timer set *)
  timers : list (nat * Z);       (* pending timers: handle, due time *)
  next_id : nat;
  trace : list event
}.

(** [scrollStop(callback)] at time [t0]; [None] when it returns without
    adding the listener because [callback] is not a function. *)
Definition scrollStop (callback : JS.value) (t0 : Z) : option state :=
  if negb (JS.truthy callback) then None
  else match JS.typeof callback with
       | JS.TyFunction => Some (State t0 None [] 1%nat [])
       | _ => None
       end.

Inductive action :=
| Scroll (t : Z)                 (* the page fires a scroll event *)
| Fire (id : nat) (t : Z).       (* the browser runs a pending timer *)

Definition clearTimeout (h : option nat) (ts : list (nat * Z)) : list (nat * Z) :=
  match h with
  | Some id => List.filter (fun tm => negb (fst tm =? id)%nat) ts
  | None => ts
  end.

(** Time does not go back, and a timer runs once, not before it is due;
    anything else leaves the state. *)
Definition step (s : state) (a : action) : state :=
  match a with
  | Scroll t =>
      if now s <=? t
      then State t (Some (next_id s))
                 (clearTimeout (isScrolling s) (timers s) ++ [(next_id s, t + 66)])
                 (S (next_id s)) (trace s ++ [Scrolled t])
      else s
  | Fire id t =>
      match List.find (fun tm => (fst tm =? id)%nat) (timers s) with
      | Some tm =>
          if (snd tm <=? t) && (now s <=? t)
          then State t (isScrolling s)
                     (List.filter (fun x => negb (fst x =? id)%nat) (timers s))
                     (next_id s) (trace s ++ [Called t])
          else s
      | None => s
      end
  end.

Definition run (sched : list action) (s : state) : state := fold_left step sched s.

(** What holds of every state: the only timer that can be pending is the
    last one set, which was set by the scroll event that ends the trace. *)
Definition Inv (s : state) : Prop :=
  (forall tm, In tm (timers s) ->
     isScrolling s = Some (fst tm) /\ (fst tm < next_id s)%nat
     /\ exists l t, trace s = l ++ [Scrolled t] /\ snd tm = t + 66)
  /\ List.NoDup (map fst (timers s))
  /\ (forall id, isScrolling s = Some id -> (id < next_id s)%nat).

(** Every call comes directly after a scroll event that is at least 66
    milliseconds old. *)
Definition debounced (tr : list event) : Prop :=
  forall l1 t l2, tr = l1 ++ Called t :: l2 ->
    exists l0 ts, l1 = l0 ++ [Scrolled ts] /\ ts + 66 <= t.

End ScrollStop.

(* ================================================================== *)
(** ** Sending analytics events ([events]) *)
(* ================================================================== *)

Module Analytics.

(** [analyticsReference]: ['ga'], or ['_gaq'] after [useLegacyTracker()]. *)
Inductive reference := Ga | Gaq.

(** A tracker returned by [ga.getAll()], read through [get('name')] and
    [get('trackingId')]. *)
Record tracker := Tracker { name : string; trackingId : string }.

(** [userOptions], for the two properties [send] reads. *)
Record options := Options {
  sendOnce : bool;               (* options.sendOnce is truthy *)
  nonInteraction : value
}.

(** [{}] *)
Definition no_options : options := Options false VUndefined.

(** The [events] object.  String arguments and properties are a string or
    missing ([undefined], or the initial [false] of [trackerName] and
    [propertyId]). *)
Record state := State {
  category : option string;
  trackerName : option string;
  propertyId : option string;
  analyticsReference : reference;
  eventCache : list string
}.

Definition initial : state := State None None None Ga [].

Definition setDefaultCategory (c : string) (s : state) : state :=
  State (Some c) (trackerName s) (propertyId s) (analyticsReference s) (eventCache s).
Definition setPropertyId (p : string) (s : state) : state :=
  State (category s) (trackerName s) (Some p) (analyticsReference s) (eventCache s).
Definition setTrackerName (n : string) (s : state) : state :=
  State (category s) (Some n) (propertyId s) (analyticsReference s) (eventCache s).
Definition useLegacyTracker (s : state) : state :=
  State (category s) (trackerName s) (propertyId s) Gaq (eventCache s).

(** Truthiness of a string that may be missing. *)
Definition given (x : option string) : bool :=
  match x with Some s => negb (String.eqb s "") | None => false end.

(** [`${x}`] for a string or [undefined]. *)
Definition template (x : option string) : string :=
  match x with Some s => s | None => "undefined" end.

(** [evCategory || this.category] *)
Definition category_of (evCategory : option string) (s : state) : option string :=
  if given evCategory then evCategory else category s.

(** [`${category}${action}${label}`] *)
Definition eventID (evCategory evAction evLabel : option string) (s : state) : string :=
  template (category_of evCategory s) ++ template evAction ++ template evLabel.

(** What [fire] closes over. *)
Record closure := Closure {
  c_category : option string;
  c_action : option string;
  c_label : option string;
  c_options : options
}.

(** What reaches the analytics library. *)
Inductive hit :=
| TrackEvent (category action label : option string) (nonInteraction : value)
    (* _gaq.push(['_trackEvent', category, action, label, null, nonInteraction]) *)
| GaSend (command : string) (category action label : option string) (nonInteraction : value).
    (* ga(command, 'event', category, action, label, { nonInteraction }) *)

(** [fire(self.trackerName)]; a [trackerName] still [false] reads
    ["false"] in the template. *)
Definition fire (c : closure) (s : state) : hit :=
  let ni := nonInteraction (c_options c) in
  match analyticsReference s with
  | Gaq => TrackEvent (c_category c) (c_action c) (c_label c)
             (match typeof ni with TyUndefined => VBool true | _ => ni end)
  | Ga => GaSend (match trackerName s with Some n => n | None => "false" end ++ ".send")
             (c_category c) (c_action c) (c_label c)
             (if truthy ni then ni else VBool true)
  end.

(** What a call of [send] does before it returns: nothing ([return
    false]), the event is handed over, or a poller is started that waits
    for the tracker. *)
Inductive outcome :=
| Suppressed
| Fired (h : hit)
| Polling (c : closure).

(** [send(evCategory, evAction, evLabel, userOptions)] *)
Definition send (evCategory evAction evLabel : option string) (userOptions : option options)
    (s : state) : state * outcome :=
  let options := match userOptions with Some o => o | None => no_options end in
  let id := eventID evCategory evAction evLabel s in
  if sendOnce options && existsb (String.eqb id) (eventCache s) then (s, Suppressed)
  else
    let s1 := if sendOnce options
              then State (category s) (trackerName s) (propertyId s) (analyticsReference s)
                         (eventCache s ++ [id])
              else s in
    let c := Closure (category_of evCategory s) evAction evLabel options in
    if given (trackerName s1) then (s1, Fired (fire c s1)) else (s1, Polling c).

(** [window[analyticsReference]] when a poller looks at it: missing, an
    object without [getAll], or the loaded library with its trackers. *)
Inductive global := Missing | Plain | Loaded (trackers : list tracker).

(** The condition the poller waits for. *)
Definition ready (r : reference) (g : global) : bool :=
  match r, g with
  | Gaq, Missing => false
  | Gaq, _ => true
  | Ga, Loaded (_ :: _) => true
  | Ga, _ => false                 (* getAll() throws or returns no tracker *)
  end.

(** The callback of the poller. *)
Definition callback (g : global) (c : closure) (s : state) : result (state * option hit) :=
  match g with
  | Missing => Throw TypeError
  | Plain => Ret (s, None)
  | Loaded trackers =>
      if given (propertyId s) then
        let s1 := match List.find (fun tr => String.eqb (trackingId tr) (template (propertyId s)))
                                  trackers with
                  | Some tr => setTrackerName (name tr) s
                  | None => s
                  end in
        Ret (s1, Some (fire c s1))
      else
        match trackers with
        | [] => Throw TypeError    (* trackers[0].get *)
        | tr :: _ => let s1 := setTrackerName (name tr) s in Ret (s1, Some (fire c s1))
        end
  end.

(** What happens to the [events] object. *)
Inductive op :=
| Send (evCategory evAction evLabel : option string) (userOptions : option options)
| SetDefaultCategory (c : string)
| SetPropertyId (p : string)
| SetTrackerName (n : string)
| UseLegacyTracker
| Ready (g : global) (c : closure).    (* a poller finds its condition true *)

(** The object and the hits so far. *)
Definition step (sh : state * list hit) (o : op) : state * list hit :=
  let '(s, hits) := sh in
  match o with
  | Send c a l uo =>
      match send c a l uo s with
      | (s1, Fired h) => (s1, hits ++ [h])
      | (s1, _) => (s1, hits)
      end
  | SetDefaultCategory c => (setDefaultCategory c s, hits)
  | SetPropertyId p => (setPropertyId p s, hits)
  | SetTrackerName n => (setTrackerName n s, hits)
  | UseLegacyTracker => (useLegacyTracker s, hits)
  | Ready g c =>
      if ready (analyticsReference s) g
      then match callback g c s with
           | Ret (s1, Some h) => (s1, hits ++ [h])
           | Ret (s1, None) => (s1, hits)
           | Throw _ => (s, hits)
           end
      else (s, hits)
  end.

Definition run (ops : list op) (sh : state * list hit) : state * list hit :=
  fold_left step ops sh.

(** The [nonInteraction] flag of a hit sent through [ga] is truthy, and
    one pushed to [_gaq] is defined. *)
Definition flagged (h : hit) : Prop :=
  match h with
  | GaSend _ _ _ _ ni => truthy ni = true
  | TrackEvent _ _ _ ni => typeof ni <> TyUndefined
  end.

End Analytics.

(* ================================================================== *)
(** ** Slugs ([slugify]) *)
(* ================================================================== *)

Module Slug.

(** Strings are sequences of code units; the ones below 256 are
    represented.  Of these the class [[A-Z0-9]] with the flag [i] matches
    the ASCII letters and digits only. *)
Definition in_class (c : ascii) : bool :=
  let n := nat_of_ascii c in
  ((48 <=? n) && (n <=? 57) || (65 <=? n) && (n <=? 90) || (97 <=? n) && (n <=? 122))%nat.

(** [text.replace(/[^A-Z0-9]/ig, '')] *)
Fixpoint strip (text : string) : string :=
  match text with
  | EmptyString => EmptyString
  | String c r => if in_class c then String c (strip r) else strip r
  end.

(** [String.prototype.toLowerCase] on one code unit below 256: the ASCII
    capitals and the Latin-1 capitals (all of U+00C0 to U+00DE but the
    multiplication sign) move up by 32. *)
Definition lower (c : ascii) : ascii :=
  let n := nat_of_ascii c in
  if ((65 <=? n) && (n <=? 90) || (192 <=? n) && (n <=? 222) && negb (n =? 215))%nat
  then ascii_of_nat (n + 32) else c.

Fixpoint toLowerCase (s : string) : string :=
  match s with
  | EmptyString => EmptyString
  | String c r => String (lower c) (toLowerCase r)
  end.

(** [slugify(text)] *)
Definition slugify (text : string) : string := toLowerCase (strip text).

(** A lower-case ASCII letter or a digit. *)
Definition slug_char (c : ascii) : bool :=
  let n := nat_of_ascii c in
  ((48 <=? n) && (n <=? 57) || (97 <=? n) && (n <=? 122))%nat.

Fixpoint all_chars (p : ascii -> bool) (s : string) : bool :=
  match s with
  | EmptyString => true
  | String c r => p c && all_chars p r
  end.

End Slug.

(* ================================================================== *)
(** ** Colours as hexadecimal strings ([rgbToHex]) *)
(* ================================================================== *)

Module Colour.

(** ToInt32: the value of a 32-bit operation, for an integer. *)
Definition int32 (x : Z) : Z := (x + 2 ^ 31) mod 2 ^ 32 - 2 ^ 31.

(** [x << k] *)
Definition shl (x : Z) (k : Z) : Z := int32 (x * 2 ^ k).

Definition digit (d : Z) : ascii :=
  if d <? 10 then ascii_of_nat (Z.to_nat (48 + d)) else ascii_of_nat (Z.to_nat (87 + d)).

(** The hexadecimal digits of [n], at most [fuel] of them, in front of
    [acc]. *)
Fixpoint digits (fuel : nat) (n : Z) (acc : string) : string :=
  match fuel with
  | O => acc
  | S f =>
      let acc' := String (digit (n mod 16)) acc in
      if n / 16 =? 0 then acc' else digits f (n / 16) acc'
  end.

(** [n.toString(16)] for an integer below [16 ^ 64] in absolute value. *)
Definition toString16 (n : Z) : string :=
  if n <? 0 then String "-" (digits 64 (- n) EmptyString) else digits 64 n EmptyString.

(** [s.slice(1)] *)
Definition slice1 (s : string) : string :=
  match s with EmptyString => EmptyString | String _ r => r end.

(** [rgbToHex(r, g, b)], for integers. *)
Definition rgbToHex (r g b : Z) : string :=
  String "#" (slice1 (toString16 (shl 1 24 + shl r 16 + shl g 8 + b))).

(** Two hexadecimal digits. *)
Definition hex2 (x : Z) : string :=
  String (digit (x / 16)) (String (digit (x mod 16)) EmptyString).

End Colour.

(* ================================================================== *)
(** ** Animating a style property ([Animation]) *)
(* ================================================================== *)

Module Animate.

(** Numbers with the values arithmetic can leave the rationals for. *)
Inductive number := NaN | PosInf | NegInf | Num (q : Q).

Definition sign (q : Q) : comparison := (q ?= 0)%Q.

Definition div (a b : number) : number :=
  match a, b with
  | Num x, Num y =>
      match sign y with
      | Eq => match sign x with Eq => NaN | Gt => PosInf | Lt => NegInf end
      | _ => Num (x / y)
      end
  | Num _, (PosInf | NegInf) => Num 0
  | PosInf, Num y => match sign y with Lt => NegInf | _ => PosInf end
  | NegInf, Num y => match sign y with Lt => PosInf | _ => NegInf end
  | _, _ => NaN
  end.

Definition mul (a b : number) : number :=
  match a, b with
  | Num x, Num y => Num (x * y)
  | PosInf, Num y | Num y, PosInf =>
      match sign y with Eq => NaN | Gt => PosInf | Lt => NegInf end
  | NegInf, Num y | Num y, NegInf =>
      match sign y with Eq => NaN | Gt => NegInf | Lt => PosInf end
  | PosInf, PosInf | NegInf, NegInf => PosInf
  | PosInf, NegInf | NegInf, PosInf => NegInf
  | _, _ => NaN
  end.

Definition add (a b : number) : number :=
  match a, b with
  | Num x, Num y => Num (x + y)
  | PosInf, NegInf | NegInf, PosInf => NaN
  | PosInf, (PosInf | Num _) | Num _, PosInf => PosInf
  | NegInf, (NegInf | Num _) | Num _, NegInf => NegInf
  | _, _ => NaN
  end.

(** [Math.min(1, x)] *)
Definition min_one (x : number) : number :=
  match x with
  | NaN => NaN
  | PosInf => Num 1
  | NegInf => NegInf
  | Num q => Num (if Qle_bool 1 q then 1 else q)
  end.

(** [x === 1] *)
Definition is_one (x : number) : bool :=
  match x with Num q => Qeq_bool q 1 | _ => false end.

(** An option of the constructor that is meant to be a number, as callers
    pass it: left out, a number of milliseconds, or the string
    ['undefined']. *)
Inductive setting := Omitted | Millis (n : Z) | UndefinedString.

(** [option !== 'undefined' ? option : standard] *)
Definition or_standard (standard : Z) (option : setting) : setting :=
  match option with UndefinedString => Millis standard | other => other end.

Definition to_number (x : setting) : number :=
  match x with Millis n => Num (inject_Z n) | _ => NaN end.

(** The delay [setTimeout] makes of it. *)
Definition to_delay (x : setting) : Z :=
  match x with Millis n => Z.max 0 n | _ => 0 end.

(** The options of the constructor that [animate] computes with: the two
    ends, the two settings, and whether [beforeAnim] and [afterAnim] are
    functions. *)
Record options := Options {
  from : Q;
  to : Q;
  time : setting;
  buffer : setting;
  beforeAnim : bool;
  afterAnim : bool
}.

Record state := State {
  opts : options;                (* this.options *)
  start : Z;
  timer : option Z;              (* the pending setTimeout: when it is due *)
  frame : bool;                  (* a frame is requested *)
  written : list number;         (* the values given to the style, unit aside *)
  before_calls : nat;
  after_calls : nat
}.

(** [new Animation(options)] at time [t0]: the constructor and its call of
    [animate]. *)
Definition create (o : options) (t0 : Z) : state :=
  let o1 := Options (from o) (to o) (or_standard 3000 (time o)) (or_standard 20 (buffer o))
                    (beforeAnim o) (afterAnim o) in
  State o1 t0 (Some (t0 + to_delay (buffer o1))) false [Num (from o1)]
        (if beforeAnim o1 then 1 else 0) 0.

(** [nextFrame], run by the browser at time [t]. *)
Definition nextFrame (t : Z) (s : state) : state :=
  let o := opts s in
  let step := min_one (div (Num (inject_Z (t - start s))) (to_number (time o))) in
  let value := add (Num (from o)) (mul step (Num (to o - from o))) in
  if is_one step
  then State o (start s) (timer s) false (written s ++ [value]) (before_calls s)
             (if afterAnim o then S (after_calls s) else after_calls s)
  else State o (start s) (timer s) true (written s ++ [value]) (before_calls s)
             (after_calls s).

Inductive action :=
| Timeout (t : Z)                (* the browser runs the pending timer *)
| Frame (t : Z).                 (* the browser runs the requested frame *)

(** Neither runs before the animation started; the timer runs once, not
    before it is due, and a frame runs when one is requested. *)
Definition step (s : state) (a : action) : state :=
  match a with
  | Timeout t =>
      match timer s with
      | Some due =>
          if due <=? t
          then State (opts s) (start s) None true (written s) (before_calls s) (after_calls s)
          else s
      | None => s
      end
  | Frame t => if frame s && (start s <=? t) then nextFrame t s else s
  end.

Definition run (sched : list action) (s : state) : state := fold_left step sched s.

(** A frame of [sched] that runs [d] milliseconds or more after [t0]. *)
Definition late_frame (t0 d : Z) (sched : list action) : Prop :=
  exists t, In (Frame t) sched /\ t0 + d <= t.

(** What holds of an animation whose [time] was left out. *)
Definition endless (o : options) (s : state) : Prop :=
  time (opts s) = Omitted /\ after_calls s = 0%nat
  /\ (timer s = None -> frame s = true)
  /\ exists k, written s = Num (from o) :: repeat NaN k.

(** What holds of an animation of [o] over [T] milliseconds started at
    [t0], after the steps [past]: it waits for its timer, it runs from
    frame to frame, or it has finished in a late frame. *)
Definition timed (o : options) (T t0 : Z) (past : list action) (s : state) : Prop :=
  time (opts s) = Millis T /\ start s = t0 /\ afterAnim (opts s) = afterAnim o
  /\ ((exists due, timer s = Some due /\ frame s = false /\ after_calls s = 0%nat)
      \/ (timer s = None /\ frame s = true /\ after_calls s = 0%nat)
      \/ (timer s = None /\ frame s = false
          /\ after_calls s = (if afterAnim o then 1 else 0)%nat
          /\ late_frame t0 T past)).

End Animate.

(* ================================================================== *)
(** ** The clock of the countdown component ([countdown], [timer]) *)
(* ================================================================== *)

Module Countdown.

(** What a field of the clock shows: a number, or a text. *)
Inductive field := Digits (n : Z) | Text (s : string).

(** The numbers [timer] computes from [secondsUntilCutoff]. *)
Record parts := Parts { days : Z; hours : Z; minutes : Z; seconds : Z }.

Definition split (secondsUntilCutoff : Z) : parts :=
  let days := secondsUntilCutoff / 86400 in          (* Math.floor(s / 24 / 60 / 60) *)
  let hoursLeftInSeconds := secondsUntilCutoff - days * 86400 in
  let hours := hoursLeftInSeconds / 3600 in
  let minutesLeftInSeconds := hoursLeftInSeconds - hours * 3600 in
  let minutes := minutesLeftInSeconds / 60 in
  Parts days hours minutes (Z.rem secondsUntilCutoff 60).

(** What [timer] writes into every countdown element: the days when there
    are some, then hours, minutes and seconds. *)
Record clock := Clock {
  days_shown : option Z;
  hours_shown : field;
  minutes_shown : field;
  seconds_shown : field
}.

Definition show (zeroPrefixHours zeroPrefixMinutes : bool) (secondsUntilCutoff : Z) : clock :=
  let p := split secondsUntilCutoff in
  Clock (if 0 <? days p then Some (days p) else None)
        (if zeroPrefixHours && (hours p <? 10) then Text "0hours" else Digits (hours p))
        (if zeroPrefixMinutes && (minutes p <? 10) then Text "0minutes" else Digits (minutes p))
        (if seconds p <? 10 then Text "0remainingSeconds" else Digits (seconds p)).

Record state := State {
  secondsUntilCutoff : Z;
  ticking : bool;                (* the interval has not been cleared *)
  shown : list clock             (* what was written, oldest first *)
}.

(** The interval runs [timer] once more. *)
Definition tick (zeroPrefixHours zeroPrefixMinutes : bool) (s : state) : state :=
  if ticking s then
    let c := show zeroPrefixHours zeroPrefixMinutes (secondsUntilCutoff s) in
    if secondsUntilCutoff s =? 0
    then State (secondsUntilCutoff s) false (shown s ++ [c])
    else State (secondsUntilCutoff s - 1) true (shown s ++ [c])
  else s.

Definition ticks (zh zm : bool) (n : nat) (s : state) : state :=
  Nat.iter n (tick zh zm) s.

End Countdown.

(* ================================================================== *)
(** ** More concrete sessions *)
(* ================================================================== *)

Module Samples.

(** A page on which function 0 throws and function 1 returns a string
    from time 50 on. *)
Definition flaky : world :=
  World (fun _ _ => NoMatch)
        (fun f t =>
           match f with
           | 0%nat => Call (Throw Thrown) false
           | _ => Call (Ret (if 50 <=? t then VStr "ready" else VNull)) false
           end).

(** Two experiments; the first holds the handle of the only session. *)
Definition registry : Registry.state :=
  Registry.State
    [Poller.poller Poller.default_settings Examples.two_conditions 1000]
    (<["EXP-1" := [0%nat]]> (<["EXP-2" := []]> ∅)).

(** Two hovers: a short one, then one of a second and a half. *)
Definition hovers : list Hover.event :=
  [Hover.Enter 0; Hover.Leave 300; Hover.Enter 1000; Hover.Leave 2500; Hover.Leave 9000].

(** Three scroll events in quick succession, then the timer. *)
Definition scrolling : list ScrollStop.action :=
  [ScrollStop.Scroll 0; ScrollStop.Scroll 30; ScrollStop.Scroll 60; ScrollStop.Fire 3 126].

Definition once : Analytics.options := Analytics.Options true VUndefined.

(** An animation from 0 to 100 with every setting left out, and one over
    400 milliseconds. *)
Definition untimed : Animate.options := Animate.Options 0 100 Animate.Omitted Animate.Omitted false true.
Definition timed400 : Animate.options :=
  Animate.Options 0 100 (Animate.Millis 400) (Animate.Millis 20) false true.

End Samples.

(* ================================================================== *)
(** * Properties *)
(* ================================================================== *)

(* ------------------------------------------------------------------ *)
(** ** Object merge *)
(* ------------------------------------------------------------------ *)

Section MergeFacts.
Import Merge.

Lemma get_set_same ps k v : get_own (set_own ps k v) k = v.
Proof.
  unfold get_own. induction ps as [|[k' v'] r IH]; simpl.
  - now rewrite String.eqb_refl.
  - destruct (String.eqb k' k) eqn:E; simpl; rewrite E; auto.
Qed.

Lemma get_set_other ps k k' v : k <> k' -> get_own (set_own ps k v) k' = get_own ps k'.
Proof.
  intros Hne. unfold get_own. induction ps as [|[k0 v0] r IH]; simpl.
  - destruct (String.eqb_spec k k'); congruence.
  - destruct (String.eqb_spec k0 k) as [->|Hk]; simpl.
    + destruct (String.eqb_spec k k'); congruence.
    + destruct (String.eqb_spec k0 k'); auto.
Qed.

Lemma lookup_own_In ps k v : lookup_own ps k = Some v -> In k (keys ps).
Proof.
  induction ps as [|[k' v'] r IH]; simpl; [discriminate|].
  destruct (String.eqb_spec k' k); auto.
Qed.

Lemma lookup_own_split es k v :
  lookup_own es k = Some v ->
  exists es1 es2, es = es1 ++ (k, v) :: es2 /\ ~ In k (keys es1).
Proof.
  induction es as [|[k' v'] r IH]; simpl; [discriminate|].
  destruct (String.eqb_spec k' k) as [->|Hne]; intros H.
  - injection H as ->. exists [], r. simpl. auto.
  - destruct (IH H) as (es1 & es2 & -> & Hn).
    exists ((k', v') :: es1), es2. simpl. split; [reflexivity|]. intuition.
Qed.

Lemma keys_filter_ne (ps : props) k :
  ~ In k (keys (List.filter (fun p => negb (String.eqb (fst p) k)) ps)).
Proof.
  unfold keys. rewrite in_map_iff. intros ([k' v'] & Hk & Hin). simpl in Hk. subst k'.
  apply filter_In in Hin. simpl in Hin. rewrite String.eqb_refl in Hin. now destruct Hin.
Qed.

Lemma NoDup_keys_filter (f : string * value -> bool) ps :
  List.NoDup (keys ps) -> List.NoDup (keys (List.filter f ps)).
Proof.
  unfold keys. induction ps as [|p r IH]; simpl; intros H; [constructor|].
  inversion H as [|? ? Hn Hr]; subst. destruct (f p); simpl; auto.
  constructor; auto. rewrite in_map_iff in *. intros (q & Hq & Hin).
  apply Hn. exists q. apply filter_In in Hin. tauto.
Qed.

Lemma NoDup_own_props ps : List.NoDup (keys (own_props ps)).
Proof.
  induction ps as [|[k v] r IH]; simpl; [constructor|].
  constructor; [apply keys_filter_ne | now apply NoDup_keys_filter].
Qed.

Lemma lookup_own_filter_ne (ps : props) k k' :
  k <> k' ->
  lookup_own (List.filter (fun p => negb (String.eqb (fst p) k)) ps) k' = lookup_own ps k'.
Proof.
  intros Hne. induction ps as [|[k0 v0] r IH]; simpl; [reflexivity|].
  destruct (String.eqb_spec k0 k) as [->|Hk]; simpl.
  - destruct (String.eqb_spec k k'); [congruence|auto].
  - now rewrite IH.
Qed.

Lemma lookup_own_props ps k : lookup_own (own_props ps) k = lookup_own ps k.
Proof.
  induction ps as [|[k0 v0] r IH]; simpl; [reflexivity|].
  destruct (String.eqb_spec k0 k) as [->|Hk]; [reflexivity|].
  now rewrite lookup_own_filter_ne.
Qed.

Lemma keys_indexed_from i xs : keys (indexed_from i xs) = map pretty (seq i (length xs)).
Proof. revert i. induction xs as [|x r IH]; intros i; simpl; [reflexivity|]. now rewrite IH. Qed.

Lemma NoDup_indexed_from i xs : List.NoDup (keys (indexed_from i xs)).
Proof.
  rewrite keys_indexed_from. apply Finite.Injective_map_NoDup; [|apply seq_NoDup].
  intros a b Hab. now apply (inj pretty) in Hab.
Qed.

Lemma NoDup_entries source es : entries source = Some es -> List.NoDup (keys es).
Proof.
  destruct source; simpl; intros H; inversion H; subst;
    try constructor; auto using NoDup_indexed_from, NoDup_own_props.
Qed.

Lemma depth_get_own ps k : (depth (get_own ps k) < depth (VObj ps))%nat.
Proof.
  unfold get_own. simpl. induction ps as [|[k' v'] r IH]; simpl; [lia|].
  destruct (String.eqb k' k); simpl in *; lia.
Qed.

Lemma isObject_to_value v t : isObject v = Some t -> to_value t = v.
Proof. destruct v; simpl; intros H; inversion H; reflexivity. Qed.

Lemma fold_merge_key_stuck rec es (acc : option (result target)) :
  (forall t, acc <> Some (Ret t)) -> fold_left (merge_key rec) es acc = acc.
Proof.
  induction es as [|e r IH]; simpl; intros H; [reflexivity|].
  assert (merge_key rec acc e = acc) as ->.
  { destruct acc as [[t|x]|]; simpl; auto. now destruct (H t). }
  now apply IH.
Qed.

(** One pass of the loop returns as soon as every property it may recurse
    into is shallower than what the recursive call can handle. *)
Lemma fold_merge_key_total (n : nat) rec es ps :
  (forall t s, (depth (to_value t) < n)%nat -> rec t s <> None) ->
  List.NoDup (keys es) ->
  (forall k, In k (keys es) -> (depth (get_own ps k) < n)%nat) ->
  fold_left (merge_key rec) es (Some (Ret (TgtObj ps))) <> None.
Proof.
  intros Hrec. revert ps. induction es as [|[key sv] r IH]; intros ps Hnd Hd; simpl.
  - discriminate.
  - inversion Hnd as [|? ? Hnotin Hnd']; subst.
    destruct (isObject (get_own ps key)) as [tv|] eqn:Eobj.
    + pose proof (Hrec tv sv) as Htv.
      rewrite (isObject_to_value _ _ Eobj) in Htv.
      specialize (Htv (Hd key (or_introl eq_refl))).
      destruct (rec tv sv) as [[r0|x]|]; [| |congruence].
      * apply IH; auto. intros k Hk. rewrite get_set_other; [apply Hd; now right|].
        intros ->. contradiction.
      * rewrite fold_merge_key_stuck; [discriminate | intros t; discriminate].
    + apply IH; auto. intros k Hk. rewrite get_set_other; [apply Hd; now right|].
      intros ->. contradiction.
Qed.

Lemma mergeObjects_fuel_total n tgt source :
  (depth (to_value tgt) < n)%nat -> mergeObjects_fuel n tgt source <> None.
Proof.
  revert tgt source. induction n as [|n IH]; intros tgt source Hd; [lia|].
  simpl. destruct (entries source) as [es|] eqn:Ees; [|discriminate].
  destruct tgt as [|ps].
  - destruct es as [|[key sv] r]; simpl; [discriminate|].
    rewrite fold_merge_key_stuck; [discriminate | intros t; discriminate].
  - apply (fold_merge_key_total n); eauto using NoDup_entries.
    intros k _. pose proof (depth_get_own ps k). simpl in *. lia.
Qed.

(** [mergeObjects] always returns or throws. *)
Lemma mergeObjects_total tgt source : mergeObjects tgt source <> None.
Proof. apply mergeObjects_fuel_total. lia. Qed.

(** Every exception [mergeObjects] raises is a TypeError. *)
Lemma fold_merge_key_throws rec es acc e :
  (forall t s x, rec t s = Some (Throw x) -> x = TypeError) ->
  (forall x, acc = Some (Throw x) -> x = TypeError) ->
  fold_left (merge_key rec) es acc = Some (Throw e) -> e = TypeError.
Proof.
  intros Hrec. revert acc. induction es as [|[key sv] r IH]; simpl; intros acc Hacc H.
  - now apply Hacc.
  - apply IH in H; auto. intros x Hx.
    destruct acc as [[[|ps]|y]|]; simpl in Hx; try congruence; auto.
    destruct (isObject (get_own ps key)) as [tv|]; [|discriminate].
    destruct (rec tv sv) as [[r0|y]|] eqn:Er; try discriminate.
    injection Hx as <-. eauto.
Qed.

Lemma mergeObjects_fuel_throws n tgt source e :
  mergeObjects_fuel n tgt source = Some (Throw e) -> e = TypeError.
Proof.
  revert tgt source e. induction n as [|n IH]; intros tgt source e; simpl; [discriminate|].
  destruct (entries source) as [es|]; [|congruence].
  apply fold_merge_key_throws; [eauto | discriminate].
Qed.

(** Merging into [null]: nothing to do when the source has no key to
    enumerate, a TypeError on the first key otherwise (and from
    [Object.keys] itself when the source is null or undefined). *)
Lemma mergeObjects_fuel_null n source :
  mergeObjects_fuel (S n) TgtNull source =
  Some (match entries source with Some [] => Ret TgtNull | _ => Throw TypeError end).
Proof.
  simpl. destruct (entries source) as [[|[key sv] r]|]; simpl; auto.
  rewrite fold_merge_key_stuck; [reflexivity | intros t; discriminate].
Qed.

(** The loop keeps a null property null: a key other than [k] does not
    touch it, and [k] itself goes through the recursive call on null. *)
Lemma merge_key_keeps_null n k acc e :
  (forall r, acc = Some (Ret r) -> exists ps, r = TgtObj ps /\ get_own ps k = VNull) ->
  forall r, merge_key (mergeObjects_fuel (S n)) acc e = Some (Ret r) ->
       exists ps, r = TgtObj ps /\ get_own ps k = VNull.
Proof.
  intros Hacc r H. destruct acc as [[merged|x]|]; unfold merge_key in H; try discriminate.
  destruct (Hacc merged eq_refl) as (ps & -> & Hk). destruct e as [key sv].
  destruct (String.eqb_spec key k) as [->|Hne].
  - rewrite Hk in H. cbn [isObject] in H. rewrite mergeObjects_fuel_null in H.
    destruct (entries sv) as [[|]|]; try discriminate.
    injection H as <-. eexists; split; [reflexivity|]. now rewrite get_set_same.
  - destruct (isObject (get_own ps key)) as [tv|].
    + destruct (mergeObjects_fuel (S n) tv sv) as [[r0|x]|]; try discriminate.
      injection H as <-. eexists; split; [reflexivity|]. now rewrite get_set_other.
    + injection H as <-. eexists; split; [reflexivity|]. now rewrite get_set_other.
Qed.

Lemma fold_merge_key_keeps_null n k es acc :
  (forall r, acc = Some (Ret r) -> exists ps, r = TgtObj ps /\ get_own ps k = VNull) ->
  forall r, fold_left (merge_key (mergeObjects_fuel (S n))) es acc = Some (Ret r) ->
       exists ps, r = TgtObj ps /\ get_own ps k = VNull.
Proof.
  revert acc. induction es as [|e r0 IH]; simpl; intros acc Hacc r H; [auto|].
  eapply IH; [|exact H]. now apply merge_key_keeps_null.
Qed.

(** When the loop reaches a key whose target value is null and whose source
    value has something to enumerate (or is null or undefined), it throws. *)
Lemma fold_merge_key_null_throws n k sv es1 es2 acc :
  ~ In k (keys es1) ->
  (forall r, acc = Some (Ret r) -> exists ps, r = TgtObj ps /\ get_own ps k = VNull) ->
  acc <> None ->
  (forall e, acc = Some (Throw e) -> e = TypeError) ->
  (forall ps, acc = Some (Ret (TgtObj ps)) ->
     forall k', In k' (keys es1) -> (depth (get_own ps k') < S n)%nat) ->
  List.NoDup (keys es1) ->
  entries sv <> Some [] ->
  fold_left (merge_key (mergeObjects_fuel (S n))) (es1 ++ (k, sv) :: es2) acc
  = Some (Throw TypeError).
Proof.
  intros Hk Hnull Hsome Hthrow Hdepth Hnd Hsv.
  rewrite fold_left_app. cbn [fold_left].
  set (mid := fold_left (merge_key (mergeObjects_fuel (S n))) es1 acc).
  assert (Hmid_null : forall r, mid = Some (Ret r) ->
            exists ps, r = TgtObj ps /\ get_own ps k = VNull)
    by (now apply fold_merge_key_keeps_null).
  assert (Hmid_throw : forall e, mid = Some (Throw e) -> e = TypeError).
  { intros e. apply fold_merge_key_throws; [apply mergeObjects_fuel_throws | exact Hthrow]. }
  assert (Hmid_some : mid <> None).
  { subst mid. destruct acc as [[[|ps]|x]|]; try congruence.
    - destruct (Hnull _ eq_refl) as (ps & Hps & _). discriminate.
    - apply (fold_merge_key_total (S n));
        [intros t s; apply mergeObjects_fuel_total | exact Hnd | now apply Hdepth].
    - rewrite fold_merge_key_stuck; [discriminate | intros t; discriminate]. }
  assert (merge_key (mergeObjects_fuel (S n)) mid (k, sv) = Some (Throw TypeError)) as ->.
  { destruct mid as [[r|x]|]; [| |congruence].
    - destruct (Hmid_null r eq_refl) as (ps & -> & Hg). unfold merge_key. rewrite Hg. cbn [isObject].
      rewrite mergeObjects_fuel_null.
      destruct (entries sv) as [[|]|]; simpl; [now destruct Hsv | reflexivity | reflexivity].
    - unfold merge_key. now rewrite (Hmid_throw x eq_refl). }
  apply fold_merge_key_stuck. intros t; discriminate.
Qed.

Lemma entries_nonempty sv :
  nonempty_string_array_or_object sv = true -> entries sv <> Some [].
Proof.
  destruct sv as [| | | |[|c s]|?|[|x xs]|[|[k v] ps]]; simpl; try discriminate.
Qed.

(** C10 (as the code has it).  [mergeObjects(target, source)] with
    [target[k] === null] and [k] present in [source] (with value [sv]): the
    call returns or throws; when it returns, the result maps [k] to null,
    which is not [sv]; the recursive merge into null returns null when [sv]
    is a number or a boolean, and also when it is an empty string, an empty
    array or an empty object; it raises a TypeError, as does the whole call,
    when [sv] is a non-empty string, a non-empty array or a non-empty
    object. *)
Theorem mergeObjects_null_default_never_overridden
    (tp sp : props) (k : string) (sv : value) :
  lookup_own tp k = Some VNull ->
  lookup_own sp k = Some sv ->
  mergeObjects (TgtObj tp) (VObj sp) <> None
  /\ (forall r, mergeObjects (TgtObj tp) (VObj sp) = Some (Ret r) ->
        exists rp, r = TgtObj rp /\ get_own rp k = VNull /\ get_own rp k <> sv)
  /\ (number_or_boolean sv = true -> mergeObjects TgtNull sv = Some (Ret TgtNull))
  /\ (empty_string_array_or_object sv = true ->
        mergeObjects TgtNull sv = Some (Ret TgtNull))
  /\ (nonempty_string_array_or_object sv = true ->
        mergeObjects TgtNull sv = Some (Throw TypeError)
        /\ mergeObjects (TgtObj tp) (VObj sp) = Some (Throw TypeError)).
Proof.
  intros Ht Hs.
  assert (Hnull : get_own tp k = VNull) by (unfold get_own; now rewrite Ht).
  assert (Hsplit : exists es1 es2, own_props sp = es1 ++ (k, sv) :: es2 /\ ~ In k (keys es1)).
  { apply lookup_own_split. now rewrite lookup_own_props. }
  destruct Hsplit as (es1 & es2 & Hes & Hk).
  assert (Hnd : List.NoDup (keys es1)).
  { pose proof (NoDup_own_props sp) as H. rewrite Hes in H. unfold keys in *.
    rewrite map_app in H. now apply NoDup_app_remove_r in H. }
  assert (Hfuel : exists n, depth (VObj tp) = S n) by (simpl; eauto).
  destruct Hfuel as [n Hn].
  assert (Hthrows : entries sv <> Some [] ->
            mergeObjects (TgtObj tp) (VObj sp) = Some (Throw TypeError)).
  { intros Hsv. unfold mergeObjects. cbn [to_value]. rewrite Hn.
    cbn [mergeObjects_fuel entries]. rewrite Hes.
    apply fold_merge_key_null_throws; auto; try discriminate.
    - intros r [= <-]. eauto.
    - intros ps [= <-] k' _. rewrite <- Hn. apply depth_get_own. }
  split; [apply mergeObjects_total|]. split; [|split; [|split]].
  - intros r Hr.
    assert (Hkeep : exists rp, r = TgtObj rp /\ get_own rp k = VNull).
    { unfold mergeObjects in Hr. cbn [to_value] in Hr. rewrite Hn in Hr.
      cbn [mergeObjects_fuel entries] in Hr.
      eapply fold_merge_key_keeps_null; [|exact Hr]. intros r0 [= <-]. eauto. }
    destruct Hkeep as (rp & -> & Hrp). exists rp. repeat split; auto.
    rewrite Hrp. intros <-. rewrite Hthrows in Hr; [discriminate|]. simpl. discriminate.
  - intros Hsc. unfold mergeObjects. cbn [to_value depth]. rewrite mergeObjects_fuel_null.
    destruct sv; simpl in *; try discriminate; reflexivity.
  - intros Hem. unfold mergeObjects. cbn [to_value depth]. rewrite mergeObjects_fuel_null.
    destruct sv as [| | | |[|c s]|?|[|x xs]|[|p ps]]; simpl in *; try discriminate; reflexivity.
  - intros Hne. pose proof (entries_nonempty sv Hne) as Hsv. split; [|now apply Hthrows].
    unfold mergeObjects. cbn [to_value depth]. rewrite mergeObjects_fuel_null.
    destruct (entries sv) as [[|]|]; [now destruct Hsv | reflexivity | reflexivity].
Qed.

(** An empty array for a null default: no TypeError, the option is dropped. *)
Lemma mergeObjects_empty_array_counterexample :
  mergeObjects TgtNull (VArr []) = Some (Ret TgtNull)
  /\ mergeObjects (TgtObj [("deliveryDays", VNull)]) (VObj [("deliveryDays", VArr [])])
     = Some (Ret (TgtObj [("deliveryDays", VNull)])).
Proof. split; reflexivity. Qed.

Lemma mergeObjects_null_default_never_overridden_witness :
  (lookup_own delivery_defaults "deliveryDays" = Some VNull
   /\ lookup_own delivery_options "deliveryDays" = Some (VArr [VNum 1; VNum 2]))
  /\ mergeObjects (TgtObj delivery_defaults) (VObj delivery_options)
     = Some (Throw TypeError).
Proof.
  split; [split; reflexivity|].
  apply (mergeObjects_null_default_never_overridden
           delivery_defaults delivery_options "deliveryDays" (VArr [VNum 1; VNum 2]));
    reflexivity.
Defined.

(** The user's option is dropped without any error when it is a number. *)
Example mergeObjects_null_default_number :
  mergeObjects (TgtObj [("limit", VNull)]) (VObj [("limit", VNum 5)])
  = Some (Ret (TgtObj [("limit", VNull)])).
Proof. reflexivity. Qed.

Example mergeObjects_overrides_other_defaults :
  mergeObjects (TgtObj [("wait", VNum 50); ("config", VObj [("subtree", VBool false)])])
               (VObj [("config", VObj [("subtree", VBool true)]); ("throttle", VNum 10)])
  = Some (Ret (TgtObj [("wait", VNum 50); ("config", VObj [("subtree", VBool true)]);
                       ("throttle", VNum 10)])).
Proof. reflexivity. Qed.

End MergeFacts.

(* ------------------------------------------------------------------ *)
(** ** The full poller *)
(* ------------------------------------------------------------------ *)

Section PollerFacts.
Import Poller.
Variable W : world.
Variable cfg : settings.

Lemma count_snoc p tr e : count p (tr ++ [e]) = (count p tr + if p e then 1 else 0)%nat.
Proof.
  unfold count. rewrite List.filter_app, length_app. simpl. destruct (p e); reflexivity.
Qed.

Lemma ordered_nil N : ordered N [].
Proof. intros l1 t l2 H. destruct l1; discriminate. Qed.

Lemma ordered_snoc N tr e :
  ordered N tr ->
  (is_all_succeeded e = true -> forall i, (i < N)%nat -> exists t', In (Succeeded i t') tr) ->
  ordered N (tr ++ [e]).
Proof.
  intros Hord He l1 t l2 Heq i Hi.
  destruct (exists_last (l := AllSucceeded t :: l2)) as (l2' & x & Hl); [discriminate|].
  rewrite Hl, app_assoc in Heq. apply app_inj_tail in Heq as [Htr ->].
  destruct l2' as [|y l2'].
  - simpl in Hl. injection Hl as <-. rewrite app_nil_r in Htr. subst l1. now apply He.
  - simpl in Hl. injection Hl as <- _. now apply (Hord l1 t l2').
Qed.

(** Pigeonhole: distinct indices below [N] that miss one index are fewer
    than [N]. *)
Lemma fewer_than_total (l : list nat) N i :
  List.NoDup l -> (forall j, In j l -> (j < N)%nat) -> (i < N)%nat -> ~ In i l ->
  (length l < N)%nat.
Proof.
  intros Hnd Hlt Hi Hni.
  assert (H : (length (i :: l) <= length (seq 0 N))%nat).
  { apply NoDup_incl_length; [now constructor|].
    intros j [<-|Hj]; apply in_seq; [lia | specialize (Hlt j Hj); lia]. }
  rewrite length_seq in H. simpl in H. lia.
Qed.

(** Distinct indices below [N], [N] of them: all the indices. *)
Lemma all_of_total (l : list nat) N i :
  List.NoDup l -> (forall j, In j l -> (j < N)%nat) -> length l = N -> (i < N)%nat -> In i l.
Proof.
  intros Hnd Hlt Hlen Hi.
  apply (NoDup_length_incl Hnd (l' := seq 0 N)).
  - rewrite length_seq. lia.
  - intros j Hj. apply in_seq. specialize (Hlt j Hj). lia.
  - apply in_seq. lia.
Qed.

Lemma NoDup_map_filter {A B} (g : A -> B) (f : A -> bool) (l : list A) :
  List.NoDup (map g l) -> List.NoDup (map g (List.filter f l)).
Proof.
  induction l as [|x r IH]; simpl; intros H; [constructor|].
  inversion H as [|? ? Hn Hr]; subst. destruct (f x); simpl; auto.
  constructor; auto. rewrite in_map_iff in *. intros (y & Hy & Hin).
  apply Hn. exists y. apply filter_In in Hin. tauto.
Qed.

Lemma Inv_fewer_timers conds s f :
  Inv W conds s -> Inv W conds (with_timers (List.filter f (timers s)) s).
Proof.
  intros H. destruct H as [Htot Helms Hnext Htid Hown Hndo Hndt Hsnd Hsucc Hcnt Hlogd Hord Htruthy Hto]. constructor; simpl; auto.
  - intros tm Htm. apply filter_In in Htm. now apply Htid.
  - intros tm Htm. apply filter_In in Htm. now apply Hown.
  - now apply NoDup_map_filter.
  - now apply NoDup_map_filter.
  - intros i Hi. destruct (Hsucc i Hi) as [Hlt Hno]. split; [exact Hlt|].
    intros tm Htm. apply filter_In in Htm. now apply Hno.
  - intros i. destruct (Hto i) as [Hle Hno]. split; [exact Hle|].
    intros Hc tm Htm. apply filter_In in Htm. now apply Hno.
Qed.

Lemma idle_fewer_timers i s f :
  idle i s -> idle i (with_timers (List.filter f (timers s)) s).
Proof.
  intros (Hno & Hs & Hc). repeat split; auto.
  intros tm Htm. apply filter_In in Htm. now apply Hno.
Qed.

Lemma Inv_at_time conds s t : Inv W conds s -> Inv W conds (at_time t s).
Proof. intros H. destruct H as [Htot Helms Hnext Htid Hown Hndo Hndt Hsnd Hsucc Hcnt Hlogd Hord Htruthy Hto]. constructor; auto. Qed.

Lemma idle_at_time i s t : idle i s -> idle i (at_time t s).
Proof. intros H. exact H. Qed.

(** Logging an event that is none of the three callbacks. *)
Lemma Inv_log_other conds s e :
  is_callback e = false -> Inv W conds s -> Inv W conds (log e s).
Proof.
  intros He H. destruct H as [Htot Helms Hnext Htid Hown Hndo Hndt Hsnd Hsucc Hcnt Hlogd Hord Htruthy Hto]. constructor; simpl; auto.
  - rewrite count_snoc, Hcnt. destruct e; simpl in *; try discriminate; lia.
  - intros i. rewrite <- Hlogd. split; intros [t Ht]; exists t.
    + apply in_app_or in Ht as [Ht|[Heq|[]]]; [exact Ht | subst e; discriminate He].
    + apply in_or_app. now left.
  - apply ordered_snoc; auto. intros Hall. destruct e; discriminate.
  - intros i t Ht. apply in_app_or in Ht as [Ht|[Heq|[]]]; [eauto | subst e; discriminate He].
  - intros i. rewrite count_snoc.
    assert (is_timed_out i e = false) as -> by (destruct e; simpl in *; congruence).
    rewrite Nat.add_0_r. apply Hto.
Qed.

Lemma idle_log_other i s e : is_callback e = false -> idle i s -> idle i (log e s).
Proof.
  intros He (Hno & Hs & Hc). repeat split; auto. simpl. rewrite count_snoc, Hc.
  destruct e; simpl in *; congruence.
Qed.

Lemma Inv_clearTimeout conds s id : Inv W conds s -> Inv W conds (clearTimeout id s).
Proof. apply Inv_fewer_timers. Qed.

Lemma Inv_destroy_element conds s e : Inv W conds s -> Inv W conds (destroy_element e s).
Proof.
  unfold destroy_element. destruct (winTimeout e) as [id|]; auto.
  destruct (id =? 0)%nat; auto using Inv_clearTimeout.
Qed.

Lemma idle_destroy_element i s e : idle i s -> idle i (destroy_element e s).
Proof.
  unfold destroy_element. destruct (winTimeout e) as [id|]; auto.
  destruct (id =? 0)%nat; auto. apply idle_fewer_timers.
Qed.

Lemma Inv_destroy_fold conds es s :
  Inv W conds s -> Inv W conds (fold_left (fun acc e => destroy_element e acc) es s).
Proof. revert s. induction es; simpl; auto using Inv_destroy_element. Qed.

Lemma idle_destroy_fold i es s :
  idle i s -> idle i (fold_left (fun acc e => destroy_element e acc) es s).
Proof. revert s. induction es; simpl; auto using idle_destroy_element. Qed.

Lemma Inv_destroy_all conds s : Inv W conds s -> Inv W conds (destroy_all s).
Proof. apply Inv_destroy_fold. Qed.

Lemma idle_destroy_all i s : idle i s -> idle i (destroy_all s).
Proof. apply idle_destroy_fold. Qed.

Ltac inv_fields H :=
  destruct H as [Htot Helms Hnext Htid Hown Hndo Hndt Hsnd Hsucc Hcnt Hlogd Hord Htruthy Hto].

Lemma NoDup_snoc {A} (l : list A) x : List.NoDup l -> ~ In x l -> List.NoDup (l ++ [x]).
Proof.
  intros Hnd Hx. apply NoDup_rev in Hnd. rewrite <- (rev_involutive (l ++ [x])).
  apply NoDup_rev. rewrite rev_app_distr. simpl. constructor; [|exact Hnd].
  now rewrite <- in_rev.
Qed.

Lemma map_elm_insert (els : list element) i e e' :
  els !! i = Some e -> elm e' = elm e -> map elm (<[i := e']> els) = map elm els.
Proof.
  revert i. induction els as [|x r IH]; intros [|i] H He; simpl in *; try discriminate.
  - injection H as ->. now rewrite He.
  - f_equal. now apply IH.
Qed.

(** Replacing an element by one that polls the same condition with the same
    timer handle. *)
Lemma Inv_with_element conds s i e e' :
  elements s !! i = Some e -> elm e' = elm e -> winTimeout e' = winTimeout e ->
  Inv W conds s -> Inv W conds (with_element i e' s).
Proof.
  intros Hi Hel Hwin H. inv_fields H. constructor; simpl; auto.
  - now rewrite (map_elm_insert _ _ e).
  - intros tm Htm. destruct (Hown tm Htm) as (e0 & He0 & Hw).
    destruct (decide (owner tm = i)) as [Heq|Hne].
    + exists e'. rewrite Heq in *.
      rewrite list_lookup_insert_eq by (now apply lookup_lt_Some in Hi).
      split; [reflexivity|]. congruence.
    + exists e0. now rewrite list_lookup_insert_ne by congruence.
Qed.

Lemma Inv_log_timed_out conds s i t :
  Inv W conds s -> idle i s -> Inv W conds (log (TimedOut i t) s).
Proof.
  intros H (Hno & Hs & Hc). inv_fields H. constructor; simpl; auto.
  - now rewrite count_snoc, Hcnt, Nat.add_0_r.
  - intros j. rewrite <- Hlogd. split; intros [t' Ht]; exists t'.
    + apply in_app_or in Ht as [Ht|[Heq|[]]]; [exact Ht | discriminate].
    + apply in_or_app. now left.
  - apply ordered_snoc; auto. discriminate.
  - intros j t' Ht. apply in_app_or in Ht as [Ht|[Heq|[]]]; [eauto | discriminate].
  - intros j. rewrite count_snoc. simpl. destruct (Nat.eqb_spec i j) as [->|Hne].
    + rewrite Hc. split; [lia | intros _; exact Hno].
    + rewrite Nat.add_0_r. apply Hto.
Qed.

Lemma Inv_poll conds s i d :
  Inv W conds s -> idle i s -> Inv W conds (poll cfg i d s).
Proof.
  intros HInv Hidle. unfold poll. destruct (elements s !! i) as [e|] eqn:Hi; [|exact HInv].
  set (started := match startedAt e with
                  | Some t0 => if t0 =? 0 then now s else t0
                  | None => now s end).
  destruct (if maxDuration e =? 0 then false else started + maxDuration e <? now s).
  - apply Inv_destroy_element.
    assert (HInv1 : Inv W conds (with_element i
              (PollingElement (elm e) (maxDuration e) (Some started) (winTimeout e)) s))
      by (now apply (Inv_with_element conds s i e)).
    destruct (timeoutCallback cfg); [|exact HInv1].
    apply Inv_log_timed_out; [exact HInv1 | exact Hidle].
  - destruct Hidle as (Hno & Hs & Hc). inv_fields HInv. constructor; simpl; auto.
    + now rewrite (map_elm_insert _ _ e).
    + intros tm Htm. apply in_app_or in Htm as [Htm|[<-|[]]]; simpl.
      * specialize (Htid tm Htm). lia.
      * lia.
    + intros tm Htm. apply in_app_or in Htm as [Htm|[<-|[]]]; simpl.
      * destruct (Hown tm Htm) as (e0 & He0 & Hw). exists e0.
        rewrite list_lookup_insert_ne; [auto|]. intros Heq. now apply (Hno tm Htm).
      * eexists. rewrite list_lookup_insert_eq by (now apply lookup_lt_Some in Hi).
        split; reflexivity.
    + rewrite map_app. simpl. apply NoDup_snoc; auto.
      rewrite in_map_iff. intros (tm & Heq & Htm). now apply (Hno tm).
    + rewrite map_app. simpl. apply NoDup_snoc; auto.
      rewrite in_map_iff. intros (tm & Heq & Htm). specialize (Htid tm Htm). lia.
    + intros j Hj. destruct (Hsucc j Hj) as [Hlt Hnoj]. split; [exact Hlt|].
      intros tm Htm. apply in_app_or in Htm as [Htm|[<-|[]]]; simpl; [now apply Hnoj|].
      intros ->. contradiction.
    + intros j. destruct (Hto j) as [Hle Hnoj]. split; [exact Hle|].
      intros Hcj tm Htm. apply in_app_or in Htm as [Htm|[<-|[]]]; simpl; [now apply Hnoj|].
      intros ->. lia.
Qed.

Lemma Inv_successCallback conds s i c :
  Inv W conds s -> idle i s -> (i < total s)%nat ->
  conds !! i = Some c -> verdict (expressionValidator W (now s) c) = Ret true ->
  Inv W conds (successCallback i s).
Proof.
  intros HInv (Hno & Hs & Hc) Hlt Hci Hver. inv_fields HInv.
  assert (Hfew : (length (succeeded s) < total s)%nat).
  { apply (fewer_than_total _ _ i); auto. intros j Hj. now apply Hsucc. }
  assert (Hcnt0 : count is_all_succeeded (trace s) = 0%nat).
  { rewrite Hcnt. destruct (Nat.eqb_spec (length (succeeded s)) (total s)); [lia|].
    now rewrite andb_false_r. }
  assert (Hnd' : List.NoDup (succeeded s ++ [i])) by (now apply NoDup_snoc).
  assert (Hsucc' : forall j, In j (succeeded s ++ [i]) -> (j < total s)%nat /\ no_timer_of j s).
  { intros j Hj. apply in_app_or in Hj as [Hj|[<-|[]]]; auto. }
  assert (Hlogd' : forall j, (exists t, In (Succeeded j t) (trace s ++ [Succeeded i (now s)]))
                        <-> In j (succeeded s ++ [i])).
  { intros j. split.
    - intros [t Ht]. apply in_or_app. apply in_app_or in Ht as [Ht|[Heq|[]]].
      + left. apply Hlogd. eauto.
      + right. injection Heq as <- _. now left.
    - intros Hj. apply in_app_or in Hj as [Hj|[<-|[]]].
      + apply Hlogd in Hj as [t Ht]. exists t. apply in_or_app. now left.
      + exists (now s). apply in_or_app. right. now left. }
  assert (Hord' : ordered (total s) (trace s ++ [Succeeded i (now s)])).
  { apply ordered_snoc; auto. discriminate. }
  assert (Htruthy' : forall j t, In (Succeeded j t) (trace s ++ [Succeeded i (now s)]) ->
            exists c, conds !! j = Some c /\ verdict (expressionValidator W t c) = Ret true).
  { intros j t Ht. apply in_app_or in Ht as [Ht|[Heq|[]]]; [eauto|].
    injection Heq as <- <-. eauto. }
  assert (Hto' : forall j,
            (count (is_timed_out j) (trace s ++ [Succeeded i (now s)]) <= 1)%nat
            /\ (count (is_timed_out j) (trace s ++ [Succeeded i (now s)]) = 1%nat
                -> no_timer_of j s)).
  { intros j. rewrite count_snoc. simpl. rewrite Nat.add_0_r. apply Hto. }
  unfold successCallback. cbn [succeeded total].
  rewrite length_app. cbn [length].
  destruct (Nat.eqb_spec (length (succeeded s) + 1) (total s)) as [Heq|Hne].
  - constructor; simpl; auto.
    + rewrite !count_snoc, Hcnt0, length_app. simpl.
      destruct (Nat.eqb_spec (length (succeeded s) + 1) (total s)); [|lia].
      destruct (Nat.ltb_spec 0 (total s)); [reflexivity|lia].
    + intros j. rewrite <- Hlogd'. split; intros [t Ht]; exists t.
      * apply in_app_or in Ht as [Ht|[Heq'|[]]]; [exact Ht | discriminate].
      * apply in_or_app. now left.
    + apply ordered_snoc; auto. intros _ j Hj. apply Hlogd'.
      apply (all_of_total _ (total s)); auto.
      * intros k Hk. now apply Hsucc'.
      * rewrite length_app. simpl. lia.
    + intros j t Ht. apply in_app_or in Ht as [Ht|[Heq'|[]]]; [eauto | discriminate].
    + intros j. rewrite count_snoc. simpl. rewrite Nat.add_0_r. apply Hto'.
  - constructor; simpl; auto.
    rewrite count_snoc, Hcnt0, length_app. simpl.
    destruct (Nat.eqb_spec (length (succeeded s) + 1) (total s)); [lia|].
    now rewrite andb_false_r.
Qed.

Lemma lookup_elm conds s i e :
  Inv W conds s -> elements s !! i = Some e -> conds !! i = Some (elm e) /\ (i < total s)%nat.
Proof.
  intros H Hi. inv_fields H. split.
  - rewrite <- Helms. change (map elm (elements s)) with (elm <$> elements s).
    now rewrite list_lookup_fmap, Hi.
  - apply lookup_lt_Some in Hi. rewrite Htot, <- Helms, length_map. exact Hi.
Qed.

Lemma destroy_fold_same es s :
  let s' := fold_left (fun acc e => destroy_element e acc) es s in
  now s' = now s /\ elements s' = elements s /\ succeeded s' = succeeded s
  /\ trace s' = trace s /\ total s' = total s /\ next_id s' = next_id s.
Proof.
  revert s. induction es as [|e r IH]; intros s; simpl; [tauto|].
  destruct (IH (destroy_element e s)) as (H1 & H2 & H3 & H4 & H5 & H6).
  rewrite H1, H2, H3, H4, H5, H6. unfold destroy_element.
  destruct (winTimeout e) as [id|]; [|tauto]. destruct (id =? 0)%nat; simpl; tauto.
Qed.

Lemma Inv_timer_body conds s i d :
  Inv W conds s -> idle i s -> Inv W conds (timer_body W cfg i d s).
Proof.
  intros HInv Hidle. unfold timer_body.
  destruct (elements s !! i) as [e|] eqn:Hi; [|exact HInv].
  destruct (lookup_elm conds s i e HInv Hi) as [Hc Hlt].
  set (c := expressionValidator W (now s) (elm e)).
  set (s1 := if destroys c then destroy_all (log (Destroyed (now s)) s) else s).
  assert (HInv1 : Inv W conds s1).
  { subst s1. destruct (destroys c); [|exact HInv].
    apply Inv_destroy_all. now apply Inv_log_other. }
  assert (Hidle1 : idle i s1).
  { subst s1. destruct (destroys c); [|exact Hidle].
    apply idle_destroy_all. now apply idle_log_other. }
  assert (Hsame : now s1 = now s /\ total s1 = total s).
  { subst s1. destruct (destroys c); [|tauto].
    pose proof (destroy_fold_same (elements (log (Destroyed (now s)) s))
                  (log (Destroyed (now s)) s)) as H. simpl in H. unfold destroy_all. tauto. }
  destruct Hsame as [Hnow Htot1].
  destruct (verdict c) as [[|]|err] eqn:Hv.
  - apply (Inv_successCallback conds s1 i (elm e)); auto; [lia|]. now rewrite Hnow.
  - now apply Inv_poll.
  - now apply Inv_log_other.
Qed.

Lemma find_timer_spec id s tm :
  find_timer id s = Some tm -> In tm (timers s) /\ tid tm = id.
Proof.
  unfold find_timer. intros H. apply find_some in H as [Hin Hid].
  split; [exact Hin|]. now apply Nat.eqb_eq.
Qed.

Lemma NoDup_map_inj {A B} (g : A -> B) (l : list A) a b :
  List.NoDup (map g l) -> In a l -> In b l -> g a = g b -> a = b.
Proof.
  induction l as [|x r IH]; simpl; intros Hnd Ha Hb Hg; [contradiction|].
  inversion Hnd as [|? ? Hn Hr]; subst.
  destruct Ha as [->|Ha], Hb as [->|Hb]; auto.
  - exfalso. apply Hn. rewrite Hg. now apply in_map.
  - exfalso. apply Hn. rewrite <- Hg. now apply in_map.
Qed.

(** When a timer runs, its element is between two polls. *)
Lemma idle_after_clear conds s tm t :
  Inv W conds s -> In tm (timers s) ->
  idle (owner tm) (clearTimeout (tid tm) (at_time t s)).
Proof.
  intros H Htm. inv_fields H. repeat split.
  - intros tm' Htm' Heq. simpl in Htm'. apply filter_In in Htm' as [Hin Hne].
    assert (tm' = tm) by (now apply (NoDup_map_inj owner (timers s))). subst tm'.
    now rewrite Nat.eqb_refl in Hne.
  - intros Hs. destruct (Hsucc _ Hs) as [_ Hno]. now apply (Hno tm).
  - simpl. destruct (Hto (owner tm)) as [Hle Hno].
    destruct (count (is_timed_out (owner tm)) (trace s)) as [|[|n]]; [reflexivity| |lia].
    exfalso. now apply (Hno eq_refl tm).
Qed.

Lemma Inv_fire conds s id t : Inv W conds s -> Inv W conds (fire W cfg id t s).
Proof.
  intros HInv. unfold fire. destruct (find_timer id s) as [tm|] eqn:Hf; [|exact HInv].
  destruct ((due tm <=? t) && (now s <=? t)); [|exact HInv].
  apply find_timer_spec in Hf as [Hin <-].
  apply Inv_timer_body.
  - apply Inv_clearTimeout. now apply Inv_at_time.
  - now apply (idle_after_clear conds).
Qed.

Lemma Inv_step conds s a : Inv W conds s -> Inv W conds (step W cfg s a).
Proof.
  intros HInv. destruct a as [id t|]; simpl.
  - now apply Inv_fire.
  - apply Inv_destroy_all. now apply Inv_log_other.
Qed.

Lemma Inv_run conds sched s : Inv W conds s -> Inv W conds (run W cfg sched s).
Proof. revert s. induction sched as [|a r IH]; simpl; auto using Inv_step. Qed.

Lemma fresh_poll k s d : fresh_from k s -> fresh_from (S k) (poll cfg k d s).
Proof.
  intros [Hs Hfresh]. unfold poll. destruct (elements s !! k) as [e|]; [|split; auto with lia].
  match goal with |- context [if ?b then _ else _] => destruct b end.
  - split.
    + unfold destroy_element. simpl.
      destruct (winTimeout e) as [id|]; [destruct (id =? 0)%nat|];
        destruct (timeoutCallback cfg); simpl; auto.
    + intros i Hi. destruct (Hfresh i) as [Hno Hc]; [lia|].
      assert (forall s', timers s' = timers s -> no_timer_of i s') as Hsame
          by (intros s' Hs' tm Htm; rewrite Hs' in Htm; now apply Hno).
      unfold destroy_element. simpl.
      destruct (winTimeout e) as [id|]; [destruct (id =? 0)%nat|];
        destruct (timeoutCallback cfg); simpl; split;
        try (rewrite count_snoc, Hc; simpl; destruct (Nat.eqb_spec k i); [lia|reflexivity]);
        try exact Hc; try (apply Hsame; reflexivity);
        intros tm Htm; simpl in Htm; apply filter_In in Htm as [Htm _]; now apply Hno.
  - split; [exact Hs|]. intros i Hi. destruct (Hfresh i) as [Hno Hc]; [lia|]. split; [|exact Hc].
    intros tm Htm. simpl in Htm. apply in_app_or in Htm as [Htm|[<-|[]]]; [now apply Hno|].
    simpl. lia.
Qed.

Lemma Inv_poll_all conds n k s :
  Inv W conds s -> fresh_from k s ->
  Inv W conds (fold_left (fun s i => poll cfg i (wait cfg) s) (seq k n) s).
Proof.
  revert k s. induction n as [|n IH]; intros k s HInv Hfresh; simpl; [exact HInv|].
  apply IH.
  - apply Inv_poll; [exact HInv|]. destruct Hfresh as [Hs Hf].
    destruct (Hf k (le_n k)) as [Hno Hc]. repeat split; auto. rewrite Hs. intros [].
  - now apply fresh_poll.
Qed.

Lemma Inv_poller conds t0 : Inv W conds (poller cfg conds t0).
Proof.
  unfold poller. apply Inv_poll_all.
  - constructor; simpl.
    + reflexivity.
    + rewrite map_map. simpl. apply map_id.
    + lia.
    + intros tm [].
    + intros tm [].
    + constructor.
    + constructor.
    + constructor.
    + intros i [].
    + destruct (length conds); reflexivity.
    + intros i. split; [intros [t []] | intros []].
    + apply ordered_nil.
    + intros i t [].
    + intros i. unfold count. simpl. split; [lia | discriminate].
  - split; [reflexivity|]. intros i _. split; [intros tm []|reflexivity].
Qed.

Lemma Inv_reachable conds t0 sched : Inv W conds (run W cfg sched (poller cfg conds t0)).
Proof. apply Inv_run, Inv_poller. Qed.

(** The aggregate callback has run once if every element has succeeded, and
    not at all otherwise. *)
Lemma all_succeeded_count conds s :
  Inv W conds s -> conds <> [] ->
  (count is_all_succeeded (trace s) <= 1)%nat
  /\ ((forall i, (i < length conds)%nat -> exists t, In (Succeeded i t) (trace s))
      <-> count is_all_succeeded (trace s) = 1%nat).
Proof.
  intros H Hne. inv_fields H.
  assert (HN : (0 < total s)%nat) by (rewrite Htot; destruct conds; [congruence | simpl; lia]).
  rewrite Hcnt. destruct (Nat.ltb_spec 0 (total s)) as [_|]; [|lia]. cbn [andb].
  destruct (Nat.eqb_spec (length (succeeded s)) (total s)) as [Heq|Hneq].
  - split; [lia|]. split; [reflexivity|]. intros _ i Hi. apply Hlogd.
    apply (all_of_total _ (total s)); auto; [|lia]. intros j Hj. now apply Hsucc.
  - split; [lia|]. split; [|discriminate]. intros Hall. exfalso. apply Hneq.
    apply Nat.le_antisymm.
    + rewrite <- (length_seq (total s) 0). apply NoDup_incl_length; [exact Hsnd|].
      intros j Hj. apply in_seq. destruct (Hsucc j Hj). lia.
    + rewrite <- (length_seq (total s) 0). apply NoDup_incl_length; [apply seq_NoDup|].
      intros j Hj. apply in_seq in Hj. apply Hlogd, Hall. lia.
Qed.

(** With no condition there is no element, no timer and no callback. *)
Lemma empty_session_inert conds s :
  Inv W conds s -> conds = [] ->
  timers s = [] /\ count is_all_succeeded (trace s) = 0%nat.
Proof.
  intros H ->. inv_fields H. split.
  - destruct (timers s) as [|tm r]; [reflexivity|]. exfalso.
    destruct (Hown tm (or_introl eq_refl)) as (e & He & _).
    apply lookup_lt_Some in He. rewrite <- (length_map elm), Helms in He. simpl in He. lia.
  - rewrite Hcnt, Htot. reflexivity.
Qed.

(** C8 (as the code has it).  [poller([], cb)] creates no element and sets
    no timer, and whatever happens afterwards [cb] is never invoked. *)
Theorem poller_empty_never_calls_back (t0 : Z) (sched : list action) :
  let s := run W cfg sched (poller cfg [] t0) in
  elements (poller cfg [] t0) = [] /\ timers (poller cfg [] t0) = []
  /\ timers s = [] /\ count is_all_succeeded (trace s) = 0%nat.
Proof.
  intros s. split; [reflexivity|]. split; [reflexivity|].
  apply (empty_session_inert []); [apply Inv_reachable | reflexivity].
Qed.

(** *** Cancellation *)

Lemma silent_no_destroy tr :
  Forall not_destroyed tr -> silent_after_destroy tr = true /\ existsb is_destroyed tr = false.
Proof.
  induction 1 as [|e r He _ [IH1 IH2]]; simpl; [auto|].
  unfold not_destroyed in He. now rewrite He.
Qed.

Lemma silent_app tr ext :
  silent_after_destroy (tr ++ ext)
  = if existsb is_destroyed tr
    then silent_after_destroy tr && forallb (fun x => negb (is_callback x)) ext
    else silent_after_destroy ext.
Proof.
  induction tr as [|e r IH]; simpl; [reflexivity|].
  destruct (is_destroyed e); simpl; [now rewrite forallb_app | exact IH].
Qed.

(** The fold in [destroy_all] leaves only timers whose handle no element
    of the list holds. *)
Lemma destroy_fold_timers es s tm :
  In tm (timers (fold_left (fun acc e => destroy_element e acc) es s)) ->
  In tm (timers s)
  /\ forall e, In e es -> winTimeout e = Some (tid tm) -> tid tm = 0%nat.
Proof.
  revert s. induction es as [|e r IH]; intros s H; simpl in *; [split; [exact H | intros e []]|].
  destruct (IH _ H) as [Hin Hr]. unfold destroy_element in Hin.
  destruct (winTimeout e) as [id|] eqn:Hw.
  - destruct (Nat.eqb_spec id 0) as [->|Hid].
    + split; [exact Hin|]. intros e' [<-|He'] Hw'; [congruence | now apply (Hr e')].
    + simpl in Hin. apply filter_In in Hin as [Hin Hne]. split; [exact Hin|].
      intros e' [<-|He'] Hw'; [|now apply (Hr e')].
      rewrite Hw in Hw'. injection Hw' as ->. now rewrite Nat.eqb_refl in Hne.
  - split; [exact Hin|]. intros e' [<-|He'] Hw'; [congruence | now apply (Hr e')].
Qed.

(** [destroy()] on the handle leaves no timer pending. *)
Lemma destroy_all_clears conds s : Inv W conds s -> timers (destroy_all s) = [].
Proof.
  intros H. inv_fields H. destruct (timers (destroy_all s)) as [|tm r] eqn:Hts; [reflexivity|].
  exfalso. assert (Hin : In tm (timers (destroy_all s))) by (rewrite Hts; now left).
  apply destroy_fold_timers in Hin as [Hin Hclr].
  destruct (Hown tm Hin) as (e & He & Hw). specialize (Htid tm Hin).
  assert (tid tm = 0%nat); [|lia]. apply (Hclr e); [|exact Hw].
  apply list_elem_of_In. now apply list_elem_of_lookup_2 in He.
Qed.

Lemma destroy_element_trace e s : trace (destroy_element e s) = trace s.
Proof.
  unfold destroy_element. destruct (winTimeout e) as [id|]; [|reflexivity].
  now destruct (id =? 0)%nat.
Qed.

Lemma poll_trace i d s :
  exists ext, trace (poll cfg i d s) = trace s ++ ext /\ Forall not_destroyed ext.
Proof.
  unfold poll. destruct (elements s !! i) as [e|]; [|exists []; now rewrite app_nil_r].
  match goal with |- context [if ?b then _ else _] => destruct b end.
  - rewrite destroy_element_trace. destruct (timeoutCallback cfg); simpl.
    + eexists; split; [reflexivity|]. repeat constructor.
    + exists []. now rewrite app_nil_r.
  - simpl. exists []. now rewrite app_nil_r.
Qed.

Lemma successCallback_trace i s :
  exists ext, trace (successCallback i s) = trace s ++ ext /\ Forall not_destroyed ext.
Proof.
  unfold successCallback. match goal with |- context [if ?b then _ else _] => destruct b end.
  - simpl. rewrite <- app_assoc. eexists; split; [reflexivity|]. repeat constructor.
  - simpl. eexists; split; [reflexivity|]. repeat constructor.
Qed.

Lemma timer_body_trace conds i d s :
  Inv W conds s -> no_reentrant_destroy W conds ->
  exists ext, trace (timer_body W cfg i d s) = trace s ++ ext /\ Forall not_destroyed ext.
Proof.
  intros HInv Hq. unfold timer_body.
  destruct (elements s !! i) as [e|] eqn:Hi; [|exists []; now rewrite app_nil_r].
  destruct (lookup_elm conds s i e HInv Hi) as [Hc _].
  rewrite (Hq i (elm e) (now s) Hc).
  destruct (verdict (expressionValidator W (now s) (elm e))) as [[|]|err].
  - apply successCallback_trace.
  - apply poll_trace.
  - simpl. eexists; split; [reflexivity|]. repeat constructor.
Qed.

Lemma fire_trace conds id t s :
  Inv W conds s -> no_reentrant_destroy W conds ->
  exists ext, trace (fire W cfg id t s) = trace s ++ ext /\ Forall not_destroyed ext.
Proof.
  intros HInv Hq. unfold fire.
  destruct (find_timer id s) as [tm|]; [|exists []; now rewrite app_nil_r].
  destruct ((due tm <=? t) && (now s <=? t)); [|exists []; now rewrite app_nil_r].
  apply (timer_body_trace conds (owner tm) (delay tm) (clearTimeout id (at_time t s))); auto.
  apply Inv_clearTimeout. now apply Inv_at_time.
Qed.

Lemma cancelled_step conds s a :
  Inv W conds s -> no_reentrant_destroy W conds ->
  cancelled_for_good s -> cancelled_for_good (step W cfg s a).
Proof.
  intros HInv Hq [Hts Hsil]. destruct a as [id t|]; simpl.
  - destruct (existsb is_destroyed (trace s)) eqn:Hd.
    + assert (fire W cfg id t s = s) as ->.
      { unfold fire, find_timer. now rewrite (Hts eq_refl). }
      split; [now rewrite Hd | exact Hsil].
    + destruct (fire_trace conds id t s HInv Hq) as (ext & Heq & Hext).
      destruct (silent_no_destroy ext Hext) as [Hs He].
      unfold cancelled_for_good. rewrite Heq. split.
      * rewrite existsb_app, Hd, He. discriminate.
      * now rewrite silent_app, Hd.
  - unfold cancelled_for_good. split.
    + intros _. apply (destroy_all_clears conds). now apply Inv_log_other.
    + unfold destroy_all.
      destruct (destroy_fold_same (elements (log (Destroyed (now s)) s))
                  (log (Destroyed (now s)) s)) as (_ & _ & _ & -> & _).
      simpl. rewrite silent_app. simpl. rewrite Hsil.
      now destruct (existsb is_destroyed (trace s)).
Qed.

Lemma cancelled_run conds sched s :
  Inv W conds s -> no_reentrant_destroy W conds ->
  cancelled_for_good s -> cancelled_for_good (run W cfg sched s).
Proof.
  revert s. induction sched as [|a r IH]; simpl; intros s HInv Hq Hc; [exact Hc|].
  apply IH; [now apply Inv_step | exact Hq | now apply (cancelled_step conds)].
Qed.

Lemma poller_trace_quiet conds t0 : Forall not_destroyed (trace (poller cfg conds t0)).
Proof.
  unfold poller.
  generalize (seq 0 (length conds)). intros l.
  assert (H0 : Forall not_destroyed
            (trace (State t0 (map (fun c => PollingElement c (timeout cfg) None None) conds)
                          [] [] 1%nat [] (length conds)))) by constructor.
  revert H0.
  generalize (State t0 (map (fun c => PollingElement c (timeout cfg) None None) conds)
                    [] [] 1%nat [] (length conds)).
  induction l as [|i r IH]; simpl; intros s0 H; [exact H|].
  apply IH. destruct (poll_trace i (wait cfg) s0) as (ext & -> & Hext).
  apply Forall_app. split; assumption.
Qed.

(** C2 (as the code has it).  When no condition calls [destroy()] from
    inside its own evaluation, so that [destroy()] is only called between
    two turns of the event loop: after the first [destroy()] no success
    callback, aggregate callback or timeout callback of the session is ever
    invoked, because [destroy()] has cleared every pending timer. *)
Theorem poller_destroy_between_turns_is_final
    (conds : list value) (t0 : Z) (sched : list action) :
  no_reentrant_destroy W conds ->
  let s := run W cfg sched (poller cfg conds t0) in
  silent_after_destroy (trace s) = true
  /\ (existsb is_destroyed (trace s) = true -> timers s = []).
Proof.
  intros Hq s.
  assert (H : cancelled_for_good s).
  { apply (cancelled_run conds); [apply Inv_poller | exact Hq |].
    destruct (silent_no_destroy _ (poller_trace_quiet conds t0)) as [Hs He].
    split; [rewrite He; discriminate | exact Hs]. }
  destruct H as [Hts Hsil]. split; assumption.
Qed.

Lemma destroy_element_same e s :
  elements (destroy_element e s) = elements s /\ now (destroy_element e s) = now s.
Proof.
  unfold destroy_element. destruct (winTimeout e) as [id|]; [|tauto].
  destruct (id =? 0)%nat; simpl; tauto.
Qed.

Lemma destroy_element_keeps e s tm :
  In tm (timers s) -> winTimeout e <> Some (tid tm) -> In tm (timers (destroy_element e s)).
Proof.
  intros Htm Hw. unfold destroy_element. destruct (winTimeout e) as [id|]; [|exact Htm].
  destruct (id =? 0)%nat; [exact Htm|]. simpl. apply filter_In. split; [exact Htm|].
  destruct (Nat.eqb_spec (tid tm) id) as [<-|]; [congruence|reflexivity].
Qed.

(** Polling another element leaves element [i] and its timeout count
    alone. *)
Lemma poll_other i j d s :
  i <> j ->
  elements (poll cfg j d s) !! i = elements s !! i
  /\ count (is_timed_out i) (trace (poll cfg j d s)) = count (is_timed_out i) (trace s).
Proof.
  intros Hij. unfold poll. destruct (elements s !! j) as [e|] eqn:Hj; [|tauto].
  match goal with |- context [if ?b then _ else _] => destruct b end.
  - match goal with |- context [destroy_element ?e1 ?s2] =>
      destruct (destroy_element_same e1 s2) as [-> _];
      rewrite (destroy_element_trace e1 s2) end.
    destruct (timeoutCallback cfg); simpl;
      (split; [now rewrite list_lookup_insert_ne by congruence|]); [|reflexivity].
    rewrite count_snoc. simpl. destruct (Nat.eqb_spec j i); [congruence|lia].
  - simpl. split; [now rewrite list_lookup_insert_ne by congruence | reflexivity].
Qed.

(** It also leaves alone every timer whose handle is not the polled
    element's. *)
Lemma poll_keeps j d s tm :
  In tm (timers s) ->
  (forall e, elements s !! j = Some e -> winTimeout e <> Some (tid tm)) ->
  In tm (timers (poll cfg j d s)).
Proof.
  intros Htm Hw. unfold poll. destruct (elements s !! j) as [e|] eqn:Hj; [|exact Htm].
  specialize (Hw e eq_refl).
  match goal with |- context [if ?b then _ else _] => destruct b end.
  - apply destroy_element_keeps; [|exact Hw]. destruct (timeoutCallback cfg); exact Htm.
  - simpl. apply in_or_app; now left.
Qed.

Lemma successCallback_other i j s :
  timers (successCallback j s) = timers s
  /\ elements (successCallback j s) = elements s
  /\ count (is_timed_out i) (trace (successCallback j s)) = count (is_timed_out i) (trace s).
Proof.
  unfold successCallback. match goal with |- context [if ?b then _ else _] => destruct b end;
    simpl; rewrite ?count_snoc; simpl; repeat split; lia.
Qed.

Lemma timer_body_other conds i j d s :
  Inv W conds s -> no_reentrant_destroy W conds -> i <> j ->
  elements (timer_body W cfg j d s) !! i = elements s !! i
  /\ count (is_timed_out i) (trace (timer_body W cfg j d s)) = count (is_timed_out i) (trace s).
Proof.
  intros HInv Hq Hij. unfold timer_body.
  destruct (elements s !! j) as [e|] eqn:Hj; [|tauto].
  destruct (lookup_elm conds s j e HInv Hj) as [Hc _].
  rewrite (Hq j (elm e) (now s) Hc).
  destruct (verdict (expressionValidator W (now s) (elm e))) as [[|]|err].
  - destruct (successCallback_other i j s) as (_ & -> & ->). tauto.
  - now apply poll_other.
  - simpl. rewrite count_snoc. simpl. split; [reflexivity | lia].
Qed.

Lemma timer_body_keeps conds j d s tm :
  Inv W conds s -> no_reentrant_destroy W conds -> In tm (timers s) ->
  (forall e, elements s !! j = Some e -> winTimeout e <> Some (tid tm)) ->
  In tm (timers (timer_body W cfg j d s)).
Proof.
  intros HInv Hq Htm Hw. unfold timer_body.
  destruct (elements s !! j) as [e|] eqn:Hj; [|exact Htm].
  destruct (lookup_elm conds s j e HInv Hj) as [Hc _].
  rewrite (Hq j (elm e) (now s) Hc).
  destruct (verdict (expressionValidator W (now s) (elm e))) as [[|]|err].
  - destruct (successCallback_other 0 j s) as (-> & _ & _). exact Htm.
  - apply poll_keeps; auto. intros e' He'. apply Hw. congruence.
  - exact Htm.
Qed.

Lemma find_timer_In conds s tm :
  Inv W conds s -> In tm (timers s) -> find_timer (tid tm) s = Some tm.
Proof.
  intros H Htm. inv_fields H. unfold find_timer.
  destruct (List.find (fun x => (tid x =? tid tm)%nat) (timers s)) as [tm'|] eqn:Hf.
  - apply find_some in Hf as [Hin Heq]. apply Nat.eqb_eq in Heq. f_equal.
    now apply (NoDup_map_inj tid (timers s)).
  - exfalso. apply (find_none _ _ Hf) in Htm. now rewrite Nat.eqb_refl in Htm.
Qed.

Ltac finish_alive :=
  repeat split;
  try (apply in_or_app; right; now left); try assumption; try reflexivity;
  try (let Hne := fresh in intros Hne;
       match goal with Ht0 : _ -> _ = _ |- _ => specialize (Ht0 Hne); congruence end).

(** What the timer of a never-truthy element does when it runs. *)
Lemma timer_body_never_truthy conds i d s e sa t0 :
  Inv W conds s -> idle i s -> timeoutCallback cfg = true ->
  elements s !! i = Some e -> never_truthy W (elm e) ->
  startedAt e = Some sa -> (t0 <> 0 -> sa = t0) -> maxDuration e = timeout cfg ->
  alive cfg t0 i (timer_body W cfg i d s)
  /\ (sa <> 0 -> timeout cfg <> 0 -> sa + timeout cfg < now s ->
      count (is_timed_out i) (trace (timer_body W cfg i d s)) = 1%nat).
Proof.
  intros HInv (Hno & Hs & Hc) Htcb Hi Hnever Hsa Ht0 Hmax.
  unfold timer_body. rewrite Hi. unfold never_truthy in Hnever.
  rewrite (Hnever (now s)). cbn [destroys verdict].
  unfold poll. rewrite Hi, Hsa, Hmax, Htcb.
  destruct (Z.eqb_spec sa 0) as [Hsa0|Hsa0]; destruct (Z.eqb_spec (timeout cfg) 0) as [HD|HD].
  - split; [|congruence]. intros _. eexists _, _, (now s). simpl.
    rewrite list_lookup_insert_eq by (now apply lookup_lt_Some in Hi).
    finish_alive.
  - destruct (Z.ltb_spec (now s + timeout cfg) (now s)).
    + split; [|congruence]. intros H0. exfalso. revert H0.
      rewrite destroy_element_trace. simpl. rewrite count_snoc, Hc. simpl.
      now rewrite Nat.eqb_refl.
    + split; [|congruence]. intros _. eexists _, _, (now s). simpl.
      rewrite list_lookup_insert_eq by (now apply lookup_lt_Some in Hi).
      finish_alive.
  - split; [|congruence]. intros _. eexists _, _, sa. simpl.
    rewrite list_lookup_insert_eq by (now apply lookup_lt_Some in Hi).
    finish_alive.
  - destruct (Z.ltb_spec (sa + timeout cfg) (now s)).
    + assert (Hone : count (is_timed_out i)
                (trace (destroy_element
                   (PollingElement (elm e) (timeout cfg) (Some sa) (winTimeout e))
                   (log (TimedOut i (now s))
                      (with_element i
                         (PollingElement (elm e) (timeout cfg) (Some sa) (winTimeout e)) s))))
              = 1%nat).
      { rewrite destroy_element_trace. simpl. rewrite count_snoc, Hc. simpl.
        now rewrite Nat.eqb_refl. }
      split; [|intros; exact Hone]. intros H0. rewrite Hone in H0. discriminate.
    + split; [|intros; lia]. intros _. eexists _, _, sa. simpl.
      rewrite list_lookup_insert_eq by (now apply lookup_lt_Some in Hi).
      finish_alive.
Qed.

Lemma alive_fire conds t0 i c id t s :
  Inv W conds s -> no_reentrant_destroy W conds -> timeoutCallback cfg = true ->
  conds !! i = Some c -> never_truthy W c ->
  alive cfg t0 i s -> alive cfg t0 i (fire W cfg id t s).
Proof.
  intros HInv Hq Htcb Hci Hnever Halive. unfold fire.
  destruct (find_timer id s) as [tm'|] eqn:Hf; [|exact Halive].
  destruct ((due tm' <=? t) && (now s <=? t)); [|exact Halive].
  apply find_timer_spec in Hf as [Hin' <-].
  set (s1 := clearTimeout (tid tm') (at_time t s)).
  assert (HInv1 : Inv W conds s1) by (apply Inv_clearTimeout; now apply Inv_at_time).
  pose proof (idle_after_clear conds s tm' t HInv Hin') as Hidle. fold s1 in Hidle.
  destruct (decide (owner tm' = i)) as [Heq|Hne].
  - rewrite Heq in *. destruct Hidle as (Hno & Hs & Hc).
    destruct (Halive Hc) as (tm & e & sa & Htm & Howner & He & Hsa & Ht0 & Hmax).
    assert (He1 : elements s1 !! i = Some e) by exact He.
    destruct (lookup_elm conds s1 i e HInv1 He1) as [Hce _].
    assert (elm e = c) by congruence. subst c.
    apply (timer_body_never_truthy conds i (delay tm') s1 e sa t0); auto. repeat split; auto.
  - destruct (timer_body_other conds i (owner tm') (delay tm') s1 HInv1 Hq) as [Hel Hsame];
      [congruence|].
    intros H0. rewrite Hsame in H0.
    destruct (Halive H0) as (tm & e & sa & Htm & Howner & He & Hsa & Ht0 & Hmax).
    assert (Hdiff : tid tm <> tid tm').
    { intros Heq. assert (tm = tm'); [|congruence]. inv_fields HInv.
      now apply (NoDup_map_inj tid (timers s)). }
    exists tm, e, sa. rewrite Hel. repeat split; auto.
    apply (timer_body_keeps conds); auto.
    + simpl. apply filter_In. split; [exact Htm|].
      destruct (Nat.eqb_spec (tid tm) (tid tm')); [contradiction|reflexivity].
    + intros e1 He1. inv_fields HInv. destruct (Hown tm' Hin') as (e' & He' & Hw).
      simpl in He1. rewrite He' in He1. injection He1 as <-. rewrite Hw. congruence.
Qed.

Lemma alive_run conds t0 i c sched s :
  Inv W conds s -> no_reentrant_destroy W conds -> timeoutCallback cfg = true ->
  conds !! i = Some c -> never_truthy W c -> ~ In Destroy sched ->
  alive cfg t0 i s -> alive cfg t0 i (run W cfg sched s).
Proof.
  intros HInv Hq Htcb Hci Hnever. revert s HInv.
  induction sched as [|a r IH]; simpl; intros s HInv Hnd Halive; [exact Halive|].
  apply IH; [now apply Inv_step | tauto |].
  destruct a as [id t|]; [|tauto]. simpl. now apply (alive_fire conds t0 i c).
Qed.

(** *** The loop of [poller] *)

Lemma poll_same i d s :
  now (poll cfg i d s) = now s /\ length (elements (poll cfg i d s)) = length (elements s).
Proof.
  unfold poll. destruct (elements s !! i) as [e|]; [|tauto].
  match goal with |- context [if ?b then _ else _] => destruct b end.
  - match goal with |- context [destroy_element ?e1 ?s2] =>
      destruct (destroy_element_same e1 s2) as [-> ->] end.
    destruct (timeoutCallback cfg); simpl; now rewrite length_insert.
  - simpl. now rewrite length_insert.
Qed.

Lemma unpolled_poll t0 k d s : unpolled_from cfg t0 k s -> unpolled_from cfg t0 (S k) (poll cfg k d s).
Proof.
  intros [Hnow Hun]. split; [now rewrite (proj1 (poll_same k d s))|].
  intros j e Hj He. destruct (poll_other j k d s) as [Hel _]; [lia|].
  rewrite Hel in He. apply (Hun j e); [lia | exact He].
Qed.

Lemma alive_poll_first t0 k d s e :
  unpolled_from cfg t0 k s -> count (is_timed_out k) (trace s) = 0%nat ->
  timeoutCallback cfg = true -> elements s !! k = Some e ->
  alive cfg t0 k (poll cfg k d s).
Proof.
  intros [Hnow Hun] Hc Htcb Hk. destruct (Hun k e (le_n k) Hk) as (Hw & Hsa & Hmax).
  unfold poll. rewrite Hk, Hsa, Hmax, Htcb.
  match goal with |- context [if ?b then _ else _] => destruct b end.
  - intros H0. exfalso. revert H0. rewrite destroy_element_trace. simpl.
    rewrite count_snoc, Hc. simpl. now rewrite Nat.eqb_refl.
  - intros _. eexists _, _, (now s). simpl.
    rewrite list_lookup_insert_eq by (now apply lookup_lt_Some in Hk).
    repeat split; try (apply in_or_app; right; now left); try (intros _; exact Hnow); auto.
Qed.

Lemma alive_poll_later t0 i k d s :
  i <> k -> unpolled_from cfg t0 k s -> alive cfg t0 i s -> alive cfg t0 i (poll cfg k d s).
Proof.
  intros Hik [_ Hun] Halive H0. destruct (poll_other i k d s Hik) as [Hel Hsame].
  rewrite Hsame in H0. destruct (Halive H0) as (tm & e & sa & Htm & Howner & He & Hrest).
  exists tm, e, sa. rewrite Hel. repeat split; try tauto.
  apply poll_keeps; [exact Htm|]. intros e' He'.
  destruct (Hun k e' (le_n k) He') as (-> & _). discriminate.
Qed.

Lemma alive_poll_all t0 n k s i :
  unpolled_from cfg t0 k s -> fresh_from k s -> timeoutCallback cfg = true ->
  ((i < k)%nat -> alive cfg t0 i s) -> (i < k + n)%nat -> (i < length (elements s))%nat ->
  alive cfg t0 i (fold_left (fun s i => poll cfg i (wait cfg) s) (seq k n) s).
Proof.
  revert k s. induction n as [|n IH]; intros k s Hun Hfresh Htcb Hbefore Hi Hlen; simpl.
  - apply Hbefore. lia.
  - apply IH; auto using unpolled_poll, fresh_poll; try lia.
    + intros Hlt. destruct (decide (i = k)) as [->|Hne].
      * destruct (lookup_lt_is_Some_2 (elements s) k Hlen) as [e He].
        apply (alive_poll_first t0 k _ s e); auto.
        destruct Hfresh as [_ Hf]. now destruct (Hf k (le_n k)).
      * apply alive_poll_later; auto. apply Hbefore. lia.
    + now rewrite (proj2 (poll_same k (wait cfg) s)).
Qed.

Lemma alive_poller conds t0 i c :
  timeoutCallback cfg = true -> conds !! i = Some c -> alive cfg t0 i (poller cfg conds t0).
Proof.
  intros Htcb Hc. unfold poller. apply lookup_lt_Some in Hc as Hlt.
  apply (alive_poll_all t0).
  - split; [reflexivity|]. intros j e _ He. simpl in He.
    change (map ?f ?l) with (f <$> l) in He. rewrite list_lookup_fmap in He.
    destruct (conds !! j); simpl in He; [|discriminate]. injection He as <-. auto.
  - split; [reflexivity|]. intros j _. split; [intros tm []|reflexivity].
  - exact Htcb.
  - lia.
  - simpl. exact Hlt.
  - simpl. now rewrite length_map.
Qed.

(** *** Traces only grow *)

Lemma destroy_all_trace s : trace (destroy_all s) = trace s.
Proof.
  unfold destroy_all. now destruct (destroy_fold_same (elements s) s) as (_ & _ & _ & -> & _).
Qed.

Lemma step_grows s a : exists ext, trace (step W cfg s a) = trace s ++ ext.
Proof.
  destruct a as [id t|]; simpl.
  - unfold fire. destruct (find_timer id s) as [tm|]; [|exists []; now rewrite app_nil_r].
    destruct ((due tm <=? t) && (now s <=? t)); [|exists []; now rewrite app_nil_r].
    unfold timer_body.
    destruct (elements (clearTimeout id (at_time t s)) !! owner tm) as [e|];
      [|exists []; now rewrite app_nil_r].
    set (c := expressionValidator W _ _).
    set (s1 := if destroys c then _ else _).
    assert (H1 : exists ext, trace s1 = trace s ++ ext).
    { subst s1. destruct (destroys c).
      - rewrite destroy_all_trace. simpl. eauto.
      - exists []. now rewrite app_nil_r. }
    destruct H1 as [ext1 H1].
    destruct (verdict c) as [[|]|err].
    + destruct (successCallback_trace (owner tm) s1) as (ext & -> & _).
      rewrite H1, <- app_assoc. eauto.
    + destruct (poll_trace (owner tm) (delay tm * multiplier cfg)%Q s1) as (ext & -> & _).
      rewrite H1, <- app_assoc. eauto.
    + simpl. rewrite H1, <- app_assoc. eauto.
  - rewrite destroy_all_trace. simpl. eauto.
Qed.

Lemma run_grows sched s : exists ext, trace (run W cfg sched s) = trace s ++ ext.
Proof.
  revert s. induction sched as [|a r IH]; intros s; simpl; [exists []; now rewrite app_nil_r|].
  destruct (IH (step W cfg s a)) as [ext2 ->]. destruct (step_grows s a) as [ext1 ->].
  rewrite <- app_assoc. eauto.
Qed.

Lemma count_app_ge p tr ext : (count p tr <= count p (tr ++ ext))%nat.
Proof. unfold count. rewrite List.filter_app, length_app. lia. Qed.

(** C4 (as the code has it).  An element with a per-element timeout
    [D > 0] whose condition returns false at every evaluation, in a session
    whose timeout callback is a function, after any sequence of timer runs
    and [destroy()] calls: the timeout callback has been invoked for it at
    most once; once it has been invoked the element has no timer, now and
    ever after, and the count stays at one; the element never succeeds; and
    as long as the callback has not been invoked (no [destroy()] having
    been called) the element's timer is pending, its clock started with the
    session, and the run of that timer at any time past [startedAt + D]
    invokes the callback and leaves the element without timer. *)
Theorem poller_timeout_exactly_once
    (conds : list value) (t0 : Z) (i : nat) (c : value) (sched : list action) :
  0 < timeout cfg -> timeoutCallback cfg = true ->
  conds !! i = Some c -> never_truthy W c ->
  let s := run W cfg sched (poller cfg conds t0) in
  (count (is_timed_out i) (trace s) <= 1)%nat
  /\ (count (is_timed_out i) (trace s) = 1%nat ->
        forall more, no_timer_of i (run W cfg more s)
                     /\ count (is_timed_out i) (trace (run W cfg more s)) = 1%nat)
  /\ (~ In i (succeeded s) /\ forall t, ~ In (Succeeded i t) (trace s))
  /\ (no_reentrant_destroy W conds -> ~ In Destroy sched ->
      count (is_timed_out i) (trace s) = 0%nat ->
      exists tm e sa,
        In tm (timers s) /\ owner tm = i /\ elements s !! i = Some e
        /\ startedAt e = Some sa /\ (t0 <> 0 -> sa = t0)
        /\ forall t, due tm <= t -> now s <= t -> sa <> 0 -> sa + timeout cfg < t ->
             count (is_timed_out i) (trace (fire W cfg (tid tm) t s)) = 1%nat
             /\ no_timer_of i (fire W cfg (tid tm) t s)).
Proof.
  intros HD Htcb Hc Hnever s.
  pose proof (Inv_reachable conds t0 sched) as HInv. fold s in HInv.
  assert (Hnot : forall t, ~ In (Succeeded i t) (trace s)).
  { intros t Ht. destruct (inv_truthy _ _ _ HInv i t Ht) as (c' & Hc' & Hv).
    assert (c' = c) by congruence. subst c'. now rewrite Hnever in Hv. }
  split; [apply (inv_timed_out _ _ _ HInv)|]. split; [|split].
  - intros Hone more.
    assert (HInv' : Inv W conds (run W cfg more s)) by (now apply Inv_run).
    destruct (inv_timed_out _ _ _ HInv' i) as [Hle Hno].
    destruct (run_grows more s) as [ext Hext].
    pose proof (count_app_ge (is_timed_out i) (trace s) ext) as Hge. rewrite <- Hext in Hge.
    assert (Heq : count (is_timed_out i) (trace (run W cfg more s)) = 1%nat) by lia.
    split; [now apply Hno | exact Heq].
  - split; [|exact Hnot]. intros Hin. apply (inv_logged _ _ _ HInv) in Hin as [t Ht].
    now apply (Hnot t).
  - intros Hq Hnd H0.
    assert (Halive : alive cfg t0 i s).
    { apply (alive_run conds t0 i c); auto using Inv_poller.
      now apply (alive_poller conds t0 i c). }
    destruct (Halive H0) as (tm & e & sa & Htm & Howner & He & Hsa & Ht0 & Hmax).
    exists tm, e, sa. repeat split; auto.
    + unfold fire. rewrite (find_timer_In conds s tm HInv Htm).
      destruct (Z.leb_spec (due tm) t); [|lia]. destruct (Z.leb_spec (now s) t); [|lia].
      cbn [andb]. rewrite Howner.
      destruct (lookup_elm conds s i e HInv He) as [Hce _].
      assert (elm e = c) by congruence. subst c.
      apply (timer_body_never_truthy conds i (delay tm)
               (clearTimeout (tid tm) (at_time t s)) e sa t0); auto.
      * apply Inv_clearTimeout. now apply Inv_at_time.
      * rewrite <- Howner. now apply (idle_after_clear conds).
      * lia.
    + assert (HInv' : Inv W conds (fire W cfg (tid tm) t s)) by (now apply Inv_fire).
      apply (inv_timed_out _ _ _ HInv' i).
      unfold fire. rewrite (find_timer_In conds s tm HInv Htm).
      destruct (Z.leb_spec (due tm) t); [|lia]. destruct (Z.leb_spec (now s) t); [|lia].
      cbn [andb]. rewrite Howner.
      destruct (lookup_elm conds s i e HInv He) as [Hce _].
      assert (elm e = c) by congruence. subst c.
      apply (timer_body_never_truthy conds i (delay tm)
               (clearTimeout (tid tm) (at_time t s)) e sa t0); auto.
      * apply Inv_clearTimeout. now apply Inv_at_time.
      * rewrite <- Howner. now apply (idle_after_clear conds).
      * lia.
Qed.

End PollerFacts.

(* ------------------------------------------------------------------ *)
(** ** The lightweight poller *)
(* ------------------------------------------------------------------ *)

Section LiteFacts.
Import Lite.
Variable W : world.
Variable opts : options.
Variable conditions : list value.
Variable t0 : Z.

Local Abbreviation Inv := (Lite.Inv W opts conditions t0).
Local Abbreviation pollForCondition := (Lite.pollForCondition W conditions).

Ltac linv_fields H :=
  destruct H as [Htot Hdl Hndi Hpnd Hpassed Hlen Hcnt Hlogd Htruthy].

Lemma lite_count_snoc p tr e :
  Lite.count p (tr ++ [e]) = (Lite.count p tr + if p e then 1 else 0)%nat.
Proof.
  unfold Lite.count. rewrite List.filter_app, length_app. simpl. destruct (p e); reflexivity.
Qed.

(** A poll of condition [i], which has no timer and has not passed yet. *)
Lemma lite_Inv_poll i w skip s :
  Inv s -> Lite.no_timer_of i s -> ~ In i (passed s) ->
  Inv (fst (pollForCondition i w skip s)).
Proof.
  intros HInv Hno Hnp. unfold Lite.pollForCondition.
  destruct (isTimedOut s) eqn:Hto; [exact HInv|].
  destruct (conditions !! i) as [c|] eqn:Hc; [|exact HInv].
  assert (Hlt : (i < total s)%nat).
  { rewrite (inv_total _ _ _ _ _ HInv). now apply lookup_lt_Some in Hc. }
  assert (Hbefore : before_deadline s (now s)).
  { unfold before_deadline. unfold isTimedOut in Hto. destruct (deadline s); [lia|exact I]. }
  destruct (evaluateCondition W (now s) c) as [result|err] eqn:Hev.
  - destruct (truthy result) eqn:Htr.
    + linv_fields HInv.
      assert (Hfew : (length (passed s) < total s)%nat).
      { apply (fewer_than_total _ _ i); auto. intros j Hj. now apply Hpassed. }
      assert (Hcnt0 : Lite.count is_called (trace s) = 0%nat).
      { rewrite Hcnt. destruct (Nat.eqb_spec (length (passed s)) (total s)); [lia|].
        now rewrite andb_false_r. }
      assert (Hlogd' : forall j, (exists v t, In (Passed j v t)
                                     (trace s ++ [Passed i result (now s)]))
                            <-> In j (passed s ++ [i])).
      { intros j. split.
        - intros (v & t & Ht). apply in_or_app. apply in_app_or in Ht as [Ht|[Heq|[]]].
          + left. apply Hlogd. eauto.
          + right. injection Heq as <- _ _. now left.
        - intros Hj. apply in_app_or in Hj as [Hj|[<-|[]]].
          + apply Hlogd in Hj as (v & t & Ht). exists v, t. apply in_or_app. now left.
          + exists result, (now s). apply in_or_app. right. now left. }
      assert (Htruthy' : forall j v t, In (Passed j v t) (trace s ++ [Passed i result (now s)]) ->
                before_deadline s t
                /\ exists c, conditions !! j = Some c
                             /\ evaluateCondition W t c = Ret v /\ truthy v = true).
      { intros j v t Ht. apply in_app_or in Ht as [Ht|[Heq|[]]]; [eauto|].
        injection Heq as <- <- <-. eauto. }
      assert (Hpassed' : forall j, In j (passed s ++ [i]) ->
                (j < total s)%nat /\ Lite.no_timer_of j s).
      { intros j Hj. apply in_app_or in Hj as [Hj|[<-|[]]]; auto. }
      cbn [successfulConditions total]. rewrite length_app. cbn [length].
      destruct (Nat.eqb_spec (length (successfulConditions s) + 1) (total s)) as [Heq|Hne];
        cbn [fst]; constructor; simpl; auto using NoDup_snoc.
      * rewrite !length_app. simpl. lia.
      * rewrite !lite_count_snoc, Hcnt0, length_app. simpl.
        destruct (Nat.eqb_spec (length (passed s) + 1) (total s)); [|lia].
        destruct (Nat.ltb_spec 0 (total s)); [reflexivity|lia].
      * intros j. rewrite <- Hlogd'. split; intros (v & t & Ht); exists v, t.
        -- apply in_app_or in Ht as [Ht|[Heq'|[]]]; [exact Ht | discriminate].
        -- apply in_or_app. now left.
      * intros j v t Ht. apply in_app_or in Ht as [Ht|[Heq'|[]]]; [eauto | discriminate].
      * rewrite !length_app. simpl. lia.
      * rewrite lite_count_snoc, Hcnt0, length_app. simpl.
        destruct (Nat.eqb_spec (length (passed s) + 1) (total s)); [lia|].
        now rewrite andb_false_r.
    + linv_fields HInv. cbn [fst]. constructor; simpl; auto.
      * rewrite map_app. simpl. apply NoDup_snoc; auto.
        rewrite in_map_iff. intros (tm & Heq & Htm). now apply (Hno tm).
      * intros j Hj. destruct (Hpassed j Hj) as [Hjlt Hnoj]. split; [exact Hjlt|].
        intros tm Htm. apply in_app_or in Htm as [Htm|[<-|[]]]; [now apply Hnoj|].
        simpl. intros ->. contradiction.
  - linv_fields HInv. cbn [fst]. constructor; simpl; auto.
    + now rewrite lite_count_snoc, Hcnt, Nat.add_0_r.
    + intros j. rewrite <- Hlogd. split; intros (v & t & Ht); exists v, t.
      * apply in_app_or in Ht as [Ht|[Heq'|[]]]; [exact Ht | discriminate].
      * apply in_or_app. now left.
    + intros j v t Ht. apply in_app_or in Ht as [Ht|[Heq'|[]]]; [eauto | discriminate].
Qed.

Lemma lite_Inv_fire s a : Inv s -> Inv (fire W opts conditions s a).
Proof.
  intros HInv. destruct a as [id t]. unfold fire.
  destruct (find_timer id s) as [tm|] eqn:Hf; [|exact HInv].
  destruct ((due tm <=? t) && (now s <=? t)); [|exact HInv].
  unfold find_timer in Hf. apply find_some in Hf as [Hin Hid]. apply Nat.eqb_eq in Hid.
  linv_fields HInv. apply lite_Inv_poll.
  - constructor; simpl; auto.
    + now apply NoDup_map_filter.
    + intros j Hj. destruct (Hpassed j Hj) as [Hjlt Hnoj]. split; [exact Hjlt|].
      intros tm' Htm'. apply filter_In in Htm' as [Htm' _]. now apply Hnoj.
  - intros tm' Htm' Heq. simpl in Htm'. apply filter_In in Htm' as [Htm' Hne].
    assert (tm' = tm) by (now apply (NoDup_map_inj idx (timers s))). subst tm'.
    now rewrite Hid, Nat.eqb_refl in Hne.
  - simpl. intros Hp. destruct (Hpassed _ Hp) as [_ Hnoj]. now apply (Hnoj tm).
Qed.

Lemma lite_Inv_run sched s : Inv s -> Inv (run W opts conditions sched s).
Proof. revert s. induction sched as [|a r IH]; simpl; auto using lite_Inv_fire. Qed.

Lemma lite_fresh_poll k w skip s :
  Lite.fresh_from k s -> Lite.fresh_from (S k) (fst (pollForCondition k w skip s)).
Proof.
  intros Hf i Hi. destruct (Hf i) as [Hno Hnp]; [lia|]. unfold Lite.pollForCondition.
  destruct (isTimedOut s); [auto|]. destruct (conditions !! k) as [c|]; [|auto].
  destruct (evaluateCondition W (now s) c) as [result|err]; [|auto].
  destruct (truthy result).
  - match goal with |- context [if ?b then _ else _] => destruct b end; cbn [fst];
      (split; [exact Hno|]); simpl; intros Hin; apply in_app_or in Hin as [Hin|[Heq|[]]];
      auto; lia.
  - cbn [fst]. split; [|exact Hnp]. intros tm Htm. simpl in Htm.
    apply in_app_or in Htm as [Htm|[<-|[]]]; [now apply Hno|]. simpl. lia.
Qed.

Lemma lite_Inv_start n k s :
  Inv s -> Lite.fresh_from k s -> Inv (start W opts conditions (seq k n) s).
Proof.
  revert k s. induction n as [|n IH]; intros k s HInv Hf; simpl; [exact HInv|].
  pose proof (lite_Inv_poll k (wait opts) true s HInv) as H1.
  pose proof (lite_fresh_poll k (wait opts) true s Hf) as H2.
  destruct (Hf k (le_n k)) as [Hno Hnp]. specialize (H1 Hno Hnp).
  destruct (pollForCondition k (wait opts) true s) as [s1 threw]. simpl in *.
  destruct threw; [exact H1|]. now apply IH.
Qed.

Lemma lite_Inv_reachable sched :
  Inv (run W opts conditions sched (pollerLite W opts conditions t0)).
Proof.
  apply lite_Inv_run. unfold pollerLite. apply lite_Inv_start.
  - constructor; simpl.
    + reflexivity.
    + reflexivity.
    + constructor.
    + constructor.
    + intros i [].
    + reflexivity.
    + destruct (length conditions); reflexivity.
    + intros i. split; [intros (v & t & []) | intros []].
    + intros i v t [].
  - intros i _. split; [intros tm [] | intros []].
Qed.

End LiteFacts.

(* ------------------------------------------------------------------ *)
(** ** Mutation observers *)
(* ------------------------------------------------------------------ *)

Section ObserverFacts.
Import Observer Watch.

Lemma on_records_closed n e t o : blockCb o = true -> on_records n e t o = (o, O).
Proof.
  intros Hb. induction n as [|k IH]; simpl; [reflexivity|].
  unfold on_record. rewrite Hb. exact IH.
Qed.

Lemma on_records_returns k e t o :
  blockCb o = false -> cb o e t = Returns ->
  on_records (S k) e t o
  = (MObserver (observed o) (cb o) true (throttle o)
               (pending o ++ [t + Z.max 0 (throttle o)]), 1%nat).
Proof.
  intros Hb Hr. simpl. unfold on_record at 1. rewrite Hb, Hr.
  now rewrite on_records_closed.
Qed.

Lemma on_records_throws k e t o :
  blockCb o = false -> cb o e t = Throws ->
  on_records (S k) e t o
  = (MObserver (observed o) (cb o) true (throttle o) (pending o), 1%nat).
Proof. intros Hb Hr. simpl. unfold on_record at 1. now rewrite Hb, Hr. Qed.

Lemma filter_nil_if {A} (f : A -> bool) l :
  (forall x, In x l -> f x = false) -> List.filter f l = [].
Proof.
  induction l as [|x r IH]; simpl; intros H; [reflexivity|].
  rewrite (H x (or_introl eq_refl)). apply IH. intros y Hy. apply H. now right.
Qed.

Lemma deliver_to_ids e n t os : forall base c,
  In c (snd (deliver_to e n t base os)) -> (base <= fst c)%nat.
Proof.
  induction os as [|o os IH]; intros base c Hc; simpl in Hc; [contradiction|].
  destruct (notify e n t o) as [o1 m]. destruct (deliver_to e n t (S base) os) as [r1 cs] eqn:E.
  simpl in Hc. apply in_app_or in Hc as [Hc|Hc].
  - apply repeat_spec in Hc. subst c. simpl. lia.
  - specialize (IH (S base) c). rewrite E in IH. specialize (IH Hc). lia.
Qed.

(** What a delivery does to the observer with handle [base + i], and the
    calls it adds for it. *)
Lemma deliver_to_lookup e n t os : forall base i o,
  os !! i = Some o ->
  fst (deliver_to e n t base os) !! i = Some (fst (notify e n t o))
  /\ List.filter (fun c => (fst c =? base + i)%nat) (snd (deliver_to e n t base os))
     = repeat ((base + i)%nat, t) (snd (notify e n t o)).
Proof.
  induction os as [|o0 os IH]; intros base i o Hi; [discriminate|].
  simpl. destruct (notify e n t o0) as [o1 m] eqn:E0.
  destruct (deliver_to e n t (S base) os) as [r1 cs] eqn:E1. simpl.
  destruct i as [|i].
  - simpl in Hi. injection Hi as <-. rewrite E0. simpl. split; [reflexivity|].
    rewrite List.filter_app, Nat.add_0_r.
    rewrite (filter_nil_if _ cs), app_nil_r.
    + clear. induction m as [|m IHm]; simpl; [reflexivity|].
      rewrite Nat.eqb_refl. now rewrite IHm.
    + intros c Hc. pose proof (deliver_to_ids e n t os (S base) c) as H.
      rewrite E1 in H. specialize (H Hc). destruct (Nat.eqb_spec (fst c) base); [lia|reflexivity].
  - simpl in Hi. destruct (IH (S base) i o Hi) as [H1 H2]. rewrite E1 in H1, H2. simpl in *.
    split; [exact H1|]. rewrite List.filter_app.
    rewrite (filter_nil_if _ (repeat (base, t) m)).
    + simpl. replace (base + S i)%nat with (S (base + i))%nat by lia. exact H2.
    + intros c Hc. apply repeat_spec in Hc. subst c. simpl.
      destruct (Nat.eqb_spec base (base + S i)); [lia|reflexivity].
Qed.

(** The same for a state. *)
Lemma mutate_observer e n t s id o :
  observers s !! id = Some o ->
  observers (mutate e n t s) !! id = Some (fst (notify e n t o))
  /\ calls_of id (mutate e n t s) = calls_of id s ++ repeat t (snd (notify e n t o)).
Proof.
  intros Hid. unfold mutate, calls_of.
  destruct (deliver_to_lookup e n t (observers s) 0 id o Hid) as [H1 H2].
  destruct (deliver_to e n t 0 (observers s)) as [os cs]. simpl in *.
  split; [exact H1|]. rewrite List.filter_app, map_app, H2. f_equal.
  clear. induction (snd (notify e n t o)) as [|m IHm]; simpl; [reflexivity|]. now rewrite IHm.
Qed.

Lemma observes_In e o : In e (observed o) -> existsb (Nat.eqb e) (observed o) = true.
Proof. intros H. apply existsb_exists. exists e. split; [exact H | apply Nat.eqb_refl]. Qed.

(** The moves of the gate on a delivery. *)
Lemma notify_returns e k t o :
  blockCb o = false -> cb o e t = Returns -> In e (observed o) ->
  notify e (S k) t o
  = (MObserver (observed o) (cb o) true (throttle o)
               (pending o ++ [t + Z.max 0 (throttle o)]), 1%nat).
Proof.
  intros Hb Hr He. unfold notify. rewrite (observes_In e o He).
  now apply on_records_returns.
Qed.

Lemma notify_throws e k t o :
  blockCb o = false -> cb o e t = Throws -> In e (observed o) ->
  notify e (S k) t o
  = (MObserver (observed o) (cb o) true (throttle o) (pending o), 1%nat).
Proof.
  intros Hb Hr He. unfold notify. rewrite (observes_In e o He).
  now apply on_records_throws.
Qed.

Lemma notify_open e k t o :
  blockCb o = false -> In e (observed o) -> snd (notify e (S k) t o) = 1%nat.
Proof.
  intros Hb He. destruct (cb o e t) eqn:Hr.
  - now rewrite notify_returns.
  - now rewrite notify_throws.
Qed.

Lemma notify_closed e n t o : blockCb o = true -> notify e n t o = (o, O).
Proof.
  intros Hb. unfold notify. rewrite (on_records_closed n e t o Hb).
  now destruct (existsb _ _).
Qed.

(** [removeObservers] and [disconnect], observer by observer. *)
Lemma mo_disconnect_twice (x : option mobserver) :
  mo_disconnect <$> (mo_disconnect <$> x) = mo_disconnect <$> x.
Proof. now destruct x. Qed.

Lemma removeObservers_fold (e id : nat) (l : list (nat * nat)) : forall acc,
  let r := fold_left (fun acc r =>
               if (fst r =? e)%nat
               then State (alter mo_disconnect (snd r) (observers acc)) (active acc) (calls acc)
               else acc) l acc in
  active r = active acc /\ calls r = calls acc
  /\ observers r !! id
     = if existsb (fun r => (fst r =? e)%nat && (snd r =? id)%nat) l
       then mo_disconnect <$> observers acc !! id
       else observers acc !! id.
Proof.
  induction l as [|x l IH]; intros acc; [now cbn|].
  cbv zeta in *. cbn [fold_left existsb]. destruct (fst x =? e)%nat eqn:He;
    rewrite ?He; cbn [andb orb].
  - destruct (IH (State (alter mo_disconnect (snd x) (observers acc))
                        (active acc) (calls acc))) as (Ha & Hc & Ho).
    cbn [active calls observers] in Ha, Hc, Ho. split; [exact Ha|]. split; [exact Hc|].
    rewrite Ho. destruct (Nat.eqb_spec (snd x) id) as [->|Hne]; cbn [orb].
    + rewrite list_lookup_alter_eq, mo_disconnect_twice.
      match goal with |- (if ?b then _ else _) = _ => destruct b end; reflexivity.
    + now rewrite list_lookup_alter_ne by exact Hne.
  - apply IH.
Qed.

Lemma removeObservers_spec e id s :
  active (removeObservers e s) = active s /\ calls (removeObservers e s) = calls s
  /\ observers (removeObservers e s) !! id
     = if paired e id s then mo_disconnect <$> observers s !! id else observers s !! id.
Proof. apply removeObservers_fold. Qed.

Lemma existsb_same {A} (f g : A -> bool) l :
  (forall x, f x = g x) -> existsb f l = existsb g l.
Proof. intros H. induction l as [|x l IH]; cbn; [reflexivity|]. now rewrite H, IH. Qed.

Lemma removeObservers_all id es : forall s,
  let r := fold_left (fun acc e => removeObservers e acc) es s in
  active r = active s /\ calls r = calls s
  /\ observers r !! id
     = if existsb (fun e => paired e id s) es
       then mo_disconnect <$> observers s !! id
       else observers s !! id.
Proof.
  induction es as [|e es IH]; intros s; [now cbn|].
  cbv zeta in *. cbn [fold_left existsb].
  destruct (removeObservers_spec e id s) as (Ha & Hc & Ho).
  destruct (IH (removeObservers e s)) as (Ha' & Hc' & Ho').
  split; [congruence|]. split; [congruence|]. rewrite Ho', Ho.
  assert (Hp : forall e', paired e' id (removeObservers e s) = paired e' id s)
    by (intros e'; unfold paired; now rewrite Ha).
  rewrite (existsb_same _ _ es Hp).
  destruct (paired e id s); cbn [orb].
  - rewrite mo_disconnect_twice.
    match goal with |- (if ?b then _ else _) = _ => destruct b end; reflexivity.
  - reflexivity.
Qed.

Lemma removeItem_all id items : forall s,
  let r := fold_left removeItem items s in
  active r = active s /\ calls r = calls s
  /\ observers r !! id
     = if existsb (fun e => paired e id s) (omap (fun x => x) items)
       then mo_disconnect <$> observers s !! id
       else observers s !! id.
Proof.
  induction items as [|[e|] items IH]; intros s; [now cbn| |].
  - cbv zeta in *. cbn [fold_left omap removeItem]. cbn.
    destruct (removeObservers_spec e id s) as (Ha & Hc & Ho).
    destruct (IH (removeObservers e s)) as (Ha' & Hc' & Ho').
    split; [congruence|]. split; [congruence|]. rewrite Ho', Ho.
    assert (Hp : forall e', paired e' id (removeObservers e s) = paired e' id s)
      by (intros e'; unfold paired; now rewrite Ha).
    rewrite (existsb_same _ _ _ Hp).
    destruct (paired e id s); cbn [orb].
    + rewrite mo_disconnect_twice.
      match goal with |- (if ?b then _ else _) = _ => destruct b end; reflexivity.
    + reflexivity.
  - cbv zeta in *. cbn [fold_left omap removeItem]. cbn. apply IH.
Qed.

Lemma disconnect_spec (a : arg) (s : state) (id : nat) :
  active (disconnect a s) = active s
  /\ calls (disconnect a s) = calls s
  /\ observers (disconnect a s) !! id
     = if registered a id s then mo_disconnect <$> observers s !! id else observers s !! id.
Proof.
  unfold registered. destruct a as [e|[|e es]|e [|i items]].
  - cbn [disconnect looked_up existsb]. rewrite orb_false_r. apply removeObservers_spec.
  - now cbn.
  - cbn [disconnect looked_up]. apply (removeObservers_all id (e :: es)).
  - cbn [disconnect looked_up existsb]. rewrite orb_false_r. apply removeObservers_spec.
  - cbn [disconnect looked_up]. apply (removeItem_all id (i :: items)).
Qed.

(** While the gate of an observer is closed and its timer does not run,
    nothing calls it and nothing opens the gate. *)
Lemma closed_step (o : op) (s : state) (id : nat) (ob : mobserver) :
  observers s !! id = Some ob -> blockCb ob = true ->
  (forall t, o = TimerRun id t -> Forall (fun d => t < d) (pending ob)) ->
  exists ob', observers (step s o) !! id = Some ob'
              /\ blockCb ob' = true /\ pending ob' = pending ob
              /\ cb ob' = cb ob /\ throttle ob' = throttle ob
              /\ (disconnects o = false -> observed ob' = observed ob)
              /\ calls_of id (step s o) = calls_of id s.
Proof.
  intros Hid Hb Hq. destruct o as [a f thr|a|e n t|id' t]; cbn [step].
  - exists ob. repeat split; try reflexivity; try assumption.
    cbn [connect observers]. rewrite lookup_app_l by (eapply lookup_lt_Some; eauto). exact Hid.
  - destruct (disconnect_spec a s id) as (_ & Hc & Ho).
    rewrite Hid in Ho. unfold calls_of. rewrite Hc.
    destruct (registered a id s); [exists (mo_disconnect ob)|exists ob];
      repeat split; auto; discriminate.
  - destruct (mutate_observer e n t s id ob Hid) as [Ho Hc].
    rewrite (notify_closed e n t ob Hb) in Ho, Hc. cbn in Ho, Hc. rewrite app_nil_r in Hc.
    exists ob. repeat split; auto.
  - unfold timer_run. destruct (observers s !! id') as [o'|] eqn:Hid'; [|exists ob; repeat split; auto].
    destruct (pending o') as [|d r] eqn:Hp; [exists ob; repeat split; auto|].
    destruct (Z.leb_spec d t) as [Hd|Hd]; [|exists ob; repeat split; auto].
    destruct (Nat.eq_dec id' id) as [->|Hne].
    + exfalso. rewrite Hid in Hid'. injection Hid' as <-.
      specialize (Hq t eq_refl). rewrite Hp in Hq. inversion Hq; subst. lia.
    + exists ob. cbn [observers calls_of calls]. rewrite list_lookup_insert_ne by exact Hne.
      repeat split; auto.
Qed.

Lemma closed_run (ops : list op) : forall (s : state) (id : nat) (ob : mobserver),
  observers s !! id = Some ob -> blockCb ob = true ->
  (forall t, In (TimerRun id t) ops -> Forall (fun d => t < d) (pending ob)) ->
  exists ob', observers (run ops s) !! id = Some ob'
              /\ blockCb ob' = true /\ pending ob' = pending ob
              /\ cb ob' = cb ob /\ throttle ob' = throttle ob
              /\ (existsb disconnects ops = false -> observed ob' = observed ob)
              /\ calls_of id (run ops s) = calls_of id s.
Proof.
  induction ops as [|o ops IH]; intros s id ob Hid Hb Hq.
  - exists ob. repeat split; auto.
  - cbn [run fold_left].
    destruct (closed_step o s id ob Hid Hb) as (ob1 & Hid1 & Hb1 & Hp1 & Hc1 & Ht1 & Ho1 & Hcalls1).
    { intros t ->. apply Hq. now left. }
    destruct (IH (step s o) id ob1 Hid1 Hb1) as (ob2 & Hid2 & Hb2 & Hp2 & Hc2 & Ht2 & Ho2 & Hcalls2).
    { intros t Ht. rewrite Hp1. apply Hq. now right. }
    exists ob2. fold (run ops (step s o)).
    repeat split; try congruence.
    cbn [existsb]. intros Hd. apply orb_false_iff in Hd as [Hd1 Hd2].
    rewrite (Ho2 Hd2). auto.
Qed.

(** The run of a timer that is due reopens the gate. *)
Lemma timer_run_due id t T s ob :
  observers s !! id = Some ob -> pending ob = [T] -> T <= t ->
  observers (timer_run id t s) !! id
  = Some (MObserver (observed ob) (cb ob) false (throttle ob) [])
  /\ calls_of id (timer_run id t s) = calls_of id s.
Proof.
  intros Hid Hp Ht. unfold timer_run. rewrite Hid, Hp.
  destruct (Z.leb_spec T t); [|lia]. cbn [observers calls_of calls]. split; [|reflexivity].
  rewrite list_lookup_insert_eq by (eapply lookup_lt_Some; eauto).
  unfold reopen. now rewrite Hp.
Qed.

(** An observer has at most one timer pending, in every state. *)
Lemma one_timer_on_records n e t : forall o,
  one_timer o -> one_timer (fst (on_records n e t o)).
Proof.
  induction n as [|k IH]; intros o Ho; [exact Ho|].
  cbn [on_records]. unfold on_record. destruct (blockCb o) eqn:Hb.
  - now apply IH.
  - destruct Ho as [_ Hp]. rewrite (Hp Hb). destruct (cb o e t).
    + rewrite on_records_closed by reflexivity. split; [cbn; lia|discriminate].
    + split; [cbn; lia|discriminate].
Qed.

Lemma one_timer_deliver e n t os : forall base,
  Forall one_timer os -> Forall one_timer (fst (deliver_to e n t base os)).
Proof.
  induction os as [|o os IH]; intros base Hos; [constructor|].
  inversion Hos as [|? ? Ho Hr]; subst. cbn [deliver_to].
  destruct (notify e n t o) as [o1 m] eqn:E0.
  specialize (IH (S base) Hr). destruct (deliver_to e n t (S base) os) as [r1 cs].
  cbn [fst] in *. constructor; [|exact IH].
  unfold notify in E0. destruct (existsb (Nat.eqb e) (observed o)).
  - pose proof (one_timer_on_records n e t o Ho) as H. now rewrite E0 in H.
  - now injection E0 as <- _.
Qed.

Lemma one_timer_step (o : op) (s : state) :
  Forall one_timer (observers s) -> Forall one_timer (observers (step s o)).
Proof.
  intros Hs. destruct o as [a f thr|a|e n t|id t]; cbn [step].
  - cbn [connect observers]. apply Forall_app. split; [exact Hs|].
    constructor; [|constructor]. split; [cbn; lia|reflexivity].
  - apply Forall_lookup. intros i x Hx.
    destruct (disconnect_spec a s i) as (_ & _ & Ho). rewrite Hx in Ho.
    destruct (registered a i s).
    + destruct (observers s !! i) as [y|] eqn:Hy; [|discriminate Ho].
      injection Ho as ->. exact (proj1 (Forall_lookup _ _) Hs i y Hy).
    + symmetry in Ho. exact (proj1 (Forall_lookup _ _) Hs i x Ho).
  - unfold mutate. pose proof (one_timer_deliver e n t (observers s) 0 Hs) as H.
    destruct (deliver_to e n t 0 (observers s)) as [os cs]. exact H.
  - unfold timer_run. destruct (observers s !! id) as [x|] eqn:Hx; [|exact Hs].
    destruct (pending x) as [|d r] eqn:Hp; [exact Hs|].
    destruct (d <=? t); [|exact Hs]. cbn [observers].
    apply Forall_insert; [exact Hs|].
    destruct (proj1 (Forall_lookup _ _) Hs id x Hx) as [Hlen _].
    unfold reopen. rewrite Hp in *. destruct r; [|cbn in Hlen; lia].
    split; [cbn; lia|reflexivity].
Qed.

Lemma one_timer_run (ops : list op) :
  Forall one_timer (observers (run ops initial)).
Proof.
  assert (H : forall s, Forall one_timer (observers s) ->
                        Forall one_timer (observers (run ops s))).
  { induction ops as [|o ops IH]; intros s Hs; [exact Hs|].
    cbn [run fold_left]. apply IH, one_timer_step, Hs. }
  apply H. constructor.
Qed.

(** C6.  An observer made by [observer.connect] with callback [f] and
    throttle [thr] starts with its gate open.  Whenever the gate of an
    observer is open, with [e] and [e'] among its elements: the first
    mutation (a batch of one or more records of [e], at time [t1]) invokes
    the callback once, at [t1].  Whatever happens next, at whatever times,
    as long as the timer of the observer has not run, invokes it no more:
    every batch is dropped whole.  If the first call returned and the
    observer was not disconnected, the run of the timer (at a time [t2] at
    or after [t1 + thr], when it is due) opens the gate again, and the first
    batch delivered after it invokes the callback once more.  If the first
    call threw, no timer was set and nothing invokes the callback again. *)
Theorem observer_throttle_gate
    (s : state) (id : nat) (o : mobserver) (e e' : elem) (k k' : nat)
    (t1 t2 t' : Z) (ops : list op) :
  observers s !! id = Some o -> gate_open o ->
  In e (observed o) -> In e' (observed o) ->
  (forall t, In (TimerRun id t) ops -> t < t1 + Z.max 0 (throttle o)) ->
  t1 + Z.max 0 (throttle o) <= t2 ->
  let s1 := mutate e (S k) t1 s in
  let s2 := run ops s1 in
  let s3 := timer_run id t2 s2 in
  let s4 := mutate e' (S k') t' s3 in
  (forall a f thr s0,
     observers (connect a f thr s0) !! length (observers s0)
     = Some (MObserver (targets a) f false thr [])
     /\ calls (connect a f thr s0) = calls s0)
  /\ calls_of id s1 = calls_of id s ++ [t1]
  /\ calls_of id s2 = calls_of id s1
  /\ (cb o e t1 = Returns -> existsb disconnects ops = false ->
      (exists o3, observers s3 !! id = Some o3 /\ gate_open o3
                  /\ observed o3 = observed o /\ cb o3 = cb o /\ throttle o3 = throttle o)
      /\ calls_of id s3 = calls_of id s2
      /\ calls_of id s4 = calls_of id s2 ++ [t'])
  /\ (cb o e t1 = Throws -> forall ops', calls_of id (run ops' s1) = calls_of id s1).
Proof.
  intros Hid [Hb Hp] He He' Hq Ht2 s1 s2 s3 s4.
  destruct (mutate_observer e (S k) t1 s id o Hid) as [H1 H2].
  fold s1 in H1, H2.
  split.
  { intros a f thr s0. split; [|reflexivity].
    unfold connect. simpl. now rewrite lookup_app_r, Nat.sub_diag by lia. }
  destruct (cb o e t1) eqn:Hf.
  - rewrite (notify_returns e k t1 o Hb Hf He) in H1, H2. cbn in H1, H2. rewrite Hp in H1.
    split; [exact H2|].
    destruct (closed_run ops s1 id _ H1 eq_refl)
      as (ob & Hob & Hbb & Hpp & Hc & Hthr & Hobs & Hcalls).
    { intros t Hin. cbn. constructor; [apply Hq, Hin|constructor]. }
    fold s2 in Hob, Hcalls. cbn in Hpp, Hc, Hthr, Hobs.
    split; [exact Hcalls|]. split; [|discriminate].
    intros _ Hd. specialize (Hobs Hd).
    destruct (timer_run_due id t2 _ s2 ob Hob Hpp Ht2) as [Hr Hrc].
    fold s3 in Hr, Hrc.
    split; [|split; [exact Hrc|]].
    + eexists. split; [exact Hr|]. cbn. repeat split; auto.
    + destruct (mutate_observer e' (S k') t' s3 id _ Hr) as [_ H6]. fold s4 in H6.
      rewrite notify_open in H6; cbn; [|reflexivity|now rewrite Hobs].
      cbn in H6. now rewrite H6, Hrc.
  - rewrite (notify_throws e k t1 o Hb Hf He) in H1, H2. cbn in H1, H2. rewrite Hp in H1.
    split; [exact H2|].
    split; [|split; [discriminate|]].
    + destruct (closed_run ops s1 id _ H1 eq_refl) as (ob & _ & _ & _ & _ & _ & _ & Hcalls).
      { intros t _. cbn. constructor. }
      exact Hcalls.
    + intros _ ops'.
      destruct (closed_run ops' s1 id _ H1 eq_refl) as (ob & _ & _ & _ & _ & _ & _ & Hcalls).
      { intros t _. cbn. constructor. }
      exact Hcalls.
Qed.

End ObserverFacts.

Section ObserverBug.
Import Observer.

(** C5 (what the code does).  After [connect] on a jQuery object of two
    elements [A] and [B], [disconnect(A)] disconnects the one observer the
    two registrations share: a mutation of [B] no longer invokes the
    callback, although it did before, and both registrations are still in
    the registry. *)
Theorem observer_disconnect_stops_shared_observer
    (A B : elem) (f : callback) (thr : Z) (n : nat) (t : Z) :
  let connected := connect (JQuery [A; B]) f thr initial in
  let s := disconnect (Node A) connected in
  calls (mutate B (S n) t connected) = [(0%nat, t)]
  /\ calls (mutate B (S n) t s) = []
  /\ active s = [(A, 0%nat); (B, 0%nat)].
Proof.
  intros connected s. subst s connected.
  set (o := MObserver [A; B] f false thr []).
  assert (Hn : snd (notify B (S n) t o) = 1%nat).
  { apply notify_open; [reflexivity | right; now left]. }
  split; [|split].
  - unfold connect, mutate. simpl. fold o. destruct (notify B (S n) t o) as [o1 m].
    simpl in Hn. subst m. reflexivity.
  - unfold disconnect, removeObservers, connect. simpl. rewrite Nat.eqb_refl.
    destruct (B =? A)%nat; reflexivity.
  - unfold disconnect, removeObservers, connect. simpl. rewrite Nat.eqb_refl.
    destruct (B =? A)%nat; reflexivity.
Qed.

End ObserverBug.

(* ------------------------------------------------------------------ *)
(** ** Script loading *)
(* ------------------------------------------------------------------ *)

Section LoaderFacts.
Import Loader.

Ltac ld_fields H := destruct H as [Hcached Hscripts Honce Hret Hpend Hown].

Lemma loader_Inv_initial : Inv initial.
Proof.
  constructor; simpl.
  - intros url p H. now rewrite lookup_empty in H.
  - intros url p [].
  - constructor.
  - intros url p [].
  - intros url p H. now rewrite lookup_empty in H.
  - intros u1 u2 p H. now rewrite lookup_empty in H.
Qed.

Lemma loader_Inv_step s o : Inv s -> Inv (step s o).
Proof.
  intros H. ld_fields H. destruct o as [url body|p isAbort rs]; simpl.
  - unfold globalGetScript. destruct (requests s !! url) as [p|] eqn:Hu.
    + constructor; simpl; auto.
      * intros url' p' Hl. destruct (Hcached url' p' Hl). split; [assumption|].
        apply in_or_app. now left.
      * intros url' p' Hin. apply in_app_or in Hin as [Hin|[Heq|[]]]; [auto|]. congruence.
    + assert (Hfresh : forall u, requests s !! u <> Some (length (promises s))).
      { intros u Hl. destruct (Hcached u _ Hl). lia. }
      constructor; cbn [createGlobalPromise requests promises scripts returned].
      * intros url' p' Hl. rewrite length_app. simpl.
        destruct (decide (url = url')) as [<-|Hne].
        -- rewrite lookup_insert_eq in Hl. injection Hl as <-.
           split; [lia | apply in_or_app; right; now left].
        -- rewrite lookup_insert_ne in Hl by exact Hne.
           destruct (Hcached url' p' Hl). split; [lia | apply in_or_app; now left].
      * intros url' p' Hin.
        assert (Hin' : In (url', p') (scripts s) \/ (url', p') = (url, length (promises s))).
        { destruct body; [|now left].
          apply in_app_or in Hin as [Hin|[Heq|[]]]; [now left | now right]. }
        destruct Hin' as [Hin'|Heq].
        -- specialize (Hscripts url' p' Hin').
           rewrite lookup_insert_ne; [exact Hscripts | congruence].
        -- injection Heq as -> ->. apply lookup_insert_eq.
      * destruct body; [|exact Honce].
        rewrite map_app. simpl. apply NoDup_snoc; [exact Honce|].
        rewrite in_map_iff. intros ([url' p'] & Heq & Hin). simpl in Heq. subst url'.
        specialize (Hscripts url p' Hin). congruence.
      * intros url' p' Hin. apply in_app_or in Hin as [Hin|[Heq|[]]].
        -- specialize (Hret url' p' Hin).
           rewrite lookup_insert_ne; [exact Hret | congruence].
        -- injection Heq as <- <-. apply lookup_insert_eq.
      * intros url' p' Hl Hp.
        destruct (decide (url = url')) as [<-|Hne].
        -- rewrite lookup_insert_eq in Hl. injection Hl as <-.
           rewrite lookup_app_r, Nat.sub_diag in Hp by lia.
           destruct body; [apply in_or_app; right; now left | discriminate Hp].
        -- rewrite lookup_insert_ne in Hl by exact Hne.
           destruct (Hcached url' p' Hl) as [Hlt _].
           rewrite lookup_app_l in Hp by exact Hlt.
           specialize (Hpend url' p' Hl Hp).
           destruct body; [apply in_or_app; now left | exact Hpend].
      * intros u1 u2 p' H1 H2.
        destruct (decide (url = u1)) as [<-|Hn1]; destruct (decide (url = u2)) as [<-|Hn2];
          try reflexivity.
        -- rewrite lookup_insert_eq in H1. rewrite lookup_insert_ne in H2 by exact Hn2.
           injection H1 as <-. now apply Hfresh in H2.
        -- rewrite lookup_insert_eq in H2. rewrite lookup_insert_ne in H1 by exact Hn1.
           injection H2 as <-. now apply Hfresh in H1.
        -- rewrite lookup_insert_ne in H1 by exact Hn1.
           rewrite lookup_insert_ne in H2 by exact Hn2. eauto.
  - unfold onloadHander. destruct (isAbort || _); [|constructor; auto].
    constructor; simpl; auto.
    + intros url p' Hl. rewrite length_alter. now apply Hcached.
    + intros url p' Hl Hp. apply (Hpend url p' Hl).
      destruct (decide (p = p')) as [->|Hne].
      * rewrite list_lookup_alter_eq in Hp.
        destruct (promises s !! p') as [[| |]|]; try discriminate Hp; try reflexivity;
          destruct isAbort; discriminate Hp.
      * now rewrite list_lookup_alter_ne in Hp.
Qed.

Lemma loader_Inv_run ops s : Inv s -> Inv (run ops s).
Proof. revert s. induction ops as [|o r IH]; simpl; auto using loader_Inv_step. Qed.

(** The cache only grows. *)
Lemma requests_step s o url p :
  requests s !! url = Some p -> requests (step s o) !! url = Some p.
Proof.
  intros H. destruct o as [url' body|p' isAbort rs]; simpl.
  - unfold globalGetScript. destruct (requests s !! url') eqn:Hu; simpl; [exact H|].
    rewrite lookup_insert_ne; [exact H | congruence].
  - unfold onloadHander. now destruct (isAbort || _).
Qed.

Lemma requests_run ops s url p :
  requests s !! url = Some p -> requests (run ops s) !! url = Some p.
Proof. revert s. induction ops as [|o r IH]; simpl; auto using requests_step. Qed.

(** A settled promise stays as it is. *)
Lemma settled_step s o p st :
  st <> Pending -> promises s !! p = Some st -> promises (step s o) !! p = Some st.
Proof.
  intros Hst H. destruct o as [url' body|p' isAbort rs]; simpl.
  - unfold globalGetScript. destruct (requests s !! url'); simpl; [exact H|].
    rewrite lookup_app_l; [exact H | now apply lookup_lt_Some in H].
  - unfold onloadHander. destruct (isAbort || _); simpl; [|exact H].
    destruct (decide (p' = p)) as [->|Hne].
    + rewrite list_lookup_alter_eq, H. simpl. now destruct st.
    + now rewrite list_lookup_alter_ne.
Qed.

Lemma settled_run ops s p st :
  st <> Pending -> promises s !! p = Some st -> promises (run ops s) !! p = Some st.
Proof. intros Hst. revert s. induction ops as [|o r IH]; simpl; auto using settled_step. Qed.

(** A cached url starts no further load. *)
Lemma scripts_step s o url p :
  requests s !! url = Some p -> loads_of url (step s o) = loads_of url s.
Proof.
  intros H. destruct o as [url' body|p' isAbort rs]; simpl.
  - unfold globalGetScript, loads_of. destruct (requests s !! url') eqn:Hu; simpl; [reflexivity|].
    destruct body; [|reflexivity].
    rewrite List.filter_app, length_app. simpl.
    destruct (String.eqb_spec url' url); [congruence | simpl; lia].
  - unfold onloadHander. now destruct (isAbort || _).
Qed.

Lemma scripts_run ops s url p :
  requests s !! url = Some p -> loads_of url (run ops s) = loads_of url s.
Proof.
  revert s. induction ops as [|o r IH]; simpl; intros s H; [reflexivity|].
  rewrite (IH _ (requests_step s o url p H)). now apply (scripts_step s o url p).
Qed.

Lemma at_most_one (l : list (string * nat)) url :
  List.NoDup (map fst l) ->
  (length (List.filter (fun x => String.eqb (fst x) url) l) <= 1)%nat.
Proof.
  induction l as [|[u p] r IH]; simpl; intros H; [lia|].
  inversion H as [|? ? Hn Hr]; subst. specialize (IH Hr).
  destruct (String.eqb_spec u url) as [->|]; [|exact IH]. simpl.
  rewrite (filter_nil_if _ r); [simpl; lia|].
  intros [u' p'] Hin. simpl. destruct (String.eqb_spec u' url) as [->|]; [|reflexivity].
  exfalso. apply Hn. apply in_map_iff. exists (url, p'). auto.
Qed.

(** No script was inserted for a url that is not in the cache. *)
Lemma no_load_before s url :
  Inv s -> requests s !! url = None -> loads_of url s = 0%nat.
Proof.
  intros HI Hn. ld_fields HI. unfold loads_of. rewrite (filter_nil_if _ (scripts s)); [reflexivity|].
  intros [u p] Hin. simpl. destruct (String.eqb_spec u url) as [->|]; [|reflexivity].
  apply Hscripts in Hin. congruence.
Qed.

(** C7.  After any sequence of calls of [globalGetScript] and of load or
    abort events, a call for [url] returns a promise, which is then the
    cache entry of [url].  If no call for [url] was made before, the promise
    is a new one, and one script is inserted for it, or none, with the
    promise rejected at once, where the document has no body.  If a call for
    [url] was made before, the promise is the cached one, whatever its
    state, and the call makes no promise, inserts no script and leaves the
    cache as it is.  So all the calls for [url] have returned one and the
    same promise, at most one script was ever inserted for [url], and from
    then on, whatever happens, the entry stays in the cache, no other script
    is inserted for [url], and a promise that is rejected (or resolved)
    stays so. *)
Theorem globalGetScript_one_promise_per_url (ops : list op) (url : string) (body : bool) :
  let s := run ops initial in
  let s' := globalGetScript url body s in
  (exists p,
      returned s' = returned s ++ [(url, p)]
      /\ requests s' !! url = Some p
      /\ (p < length (promises s'))%nat
      /\ ((forall q, ~ In (url, q) (returned s)) ->
          p = length (promises s)
          /\ promises s' = promises s ++ [if body then Pending else Rejected]
          /\ loads_of url s = 0%nat
          /\ loads_of url s' = if body then 1%nat else 0%nat)
      /\ (forall q, In (url, q) (returned s) ->
          p = q /\ promises s' = promises s /\ scripts s' = scripts s
          /\ requests s' = requests s))
  /\ (forall p q, In (url, p) (returned s) -> In (url, q) (returned s) -> p = q)
  /\ (forall p, In (url, p) (returned s) <-> requests s !! url = Some p)
  /\ (forall p, requests s !! url = Some p -> promises s !! p = Some Pending ->
        loads_of url s = 1%nat)
  /\ (loads_of url s <= 1)%nat
  /\ (forall p more, requests s !! url = Some p ->
        requests (run more s) !! url = Some p
        /\ loads_of url (run more s) = loads_of url s
        /\ (forall b, returned (globalGetScript url b (run more s))
                      = returned (run more s) ++ [(url, p)])
        /\ (forall b, promises (globalGetScript url b (run more s)) = promises (run more s))
        /\ forall st, st <> Pending -> promises s !! p = Some st ->
             promises (run more s) !! p = Some st).
Proof.
  intros s s'. assert (HInv : Inv s) by (apply loader_Inv_run, loader_Inv_initial).
  pose proof HInv as HInv0. ld_fields HInv.
  assert (Hle : (loads_of url s <= 1)%nat) by (now apply at_most_one).
  assert (Hiff : forall p, In (url, p) (returned s) <-> requests s !! url = Some p).
  { intros p. split; [apply Hret | apply Hcached]. }
  split; [|split; [|split; [exact Hiff|split; [|split; [exact Hle|]]]]].
  - subst s'. unfold globalGetScript. destruct (requests s !! url) as [p|] eqn:Hu.
    + exists p. cbn [returned requests promises scripts]. split; [reflexivity|].
      split; [exact Hu|]. split; [apply (Hcached url p Hu)|]. split.
      * intros Hno. exfalso. apply (Hno p). now apply Hiff.
      * intros q Hq. apply Hiff in Hq. split; [congruence|auto].
    + exists (length (promises s)).
      cbn [createGlobalPromise returned requests promises scripts]. split; [reflexivity|].
      split; [apply lookup_insert_eq|]. split; [rewrite length_app; simpl; lia|]. split.
      * intros _. split; [reflexivity|]. split; [reflexivity|].
        pose proof (no_load_before s url HInv0 Hu) as H0. split; [exact H0|].
        unfold loads_of in *. cbn [scripts]. destruct body; [|exact H0].
        rewrite List.filter_app, length_app, H0. simpl. now rewrite String.eqb_refl.
      * intros q Hq. apply Hiff in Hq. congruence.
  - intros p q Hp Hq. apply Hret in Hp, Hq. congruence.
  - intros p Hp Hpe. pose proof (Hpend url p Hp Hpe) as Hin.
    assert ((1 <= loads_of url s)%nat); [|lia]. unfold loads_of.
    assert (Hf : In (url, p) (List.filter (fun x => String.eqb (fst x) url) (scripts s))).
    { apply filter_In. split; [exact Hin|]. apply String.eqb_refl. }
    destruct (List.filter _ (scripts s)); [destruct Hf | simpl; lia].
  - intros p more Hp. pose proof (requests_run more s url p Hp) as Hp'.
    split; [exact Hp'|]. split; [now apply (scripts_run more s url p)|].
    unfold globalGetScript. rewrite Hp'. simpl. repeat split.
    intros st Hst Hs. now apply settled_run.
Qed.

End LoaderFacts.

(* ------------------------------------------------------------------ *)
(** ** Falsy conditions *)
(* ------------------------------------------------------------------ *)

Section FalsyConditions.
Variable W : world.

Lemma expressionValidator_falsy t v :
  In v falsy_values ->
  Poller.expressionValidator W t v
  = Poller.Check (Throw (Error "Invalid poller expression")) false.
Proof.
  intros Hv. repeat (destruct Hv as [<-|Hv]; [reflexivity|]). destruct Hv.
Qed.

(** C9 (as the code has it).  For a falsy condition value [v] (null,
    undefined, false, 0, the empty string).  In the full poller the
    validator throws [Error('Invalid poller expression')]; in a session the
    element with that condition never succeeds, so the success callback is
    never invoked, and the first run of the element's timer raises that
    error and leaves the element without timer.  In [pollerLite] there is no
    such check: null, undefined, false and 0 evaluate to true at once, so a
    session polling only [v] pushes [true] and invokes the callback before
    [pollerLite] returns; the empty string is handed to
    [document.querySelector]. *)
Theorem falsy_condition_full_throws_lite_passes (v : value) (t : Z) :
  In v falsy_values ->
  Poller.expressionValidator W t v
  = Poller.Check (Throw (Error "Invalid poller expression")) false
  /\ (forall cfg conds t0 i sched,
        conds !! i = Some v ->
        let s := Poller.run W cfg sched (Poller.poller cfg conds t0) in
        ~ In i (Poller.succeeded s)
        /\ Poller.count Poller.is_all_succeeded (Poller.trace s) = 0%nat
        /\ forall tm t', In tm (Poller.timers s) -> Poller.owner tm = i ->
             Poller.due tm <= t' -> Poller.now s <= t' ->
             let s' := Poller.fire W cfg (Poller.tid tm) t' s in
             Poller.trace s'
             = Poller.trace s ++ [Poller.Raised i (Error "Invalid poller expression") t']
             /\ Poller.no_timer_of i s')
  /\ (v <> VStr "" ->
        Lite.evaluateCondition W t v = Ret (VBool true)
        /\ forall opts, 0 <= Lite.timeout opts ->
             Lite.trace (Lite.pollerLite W opts [v] t)
             = [Lite.Passed 0 (VBool true) t; Lite.Called [VBool true] t])
  /\ (v = VStr "" ->
        Lite.evaluateCondition W t v
        = match querySelector W t "" with
          | Element id => Ret (Lite.node_value id)
          | NoMatch => Ret VNull
          | BadSelector => Throw SyntaxError
          end).
Proof.
  intros Hv. split; [now apply expressionValidator_falsy|]. split; [|split].
  - intros cfg conds t0 i sched Hi s.
    pose proof (Inv_reachable W cfg conds t0 sched) as HInv. fold s in HInv.
    assert (Hnot : forall t1, ~ In (Poller.Succeeded i t1) (Poller.trace s)).
    { intros t1 Ht. destruct (Poller.inv_truthy _ _ _ HInv i t1 Ht) as (c & Hc & Hver).
      assert (c = v) by congruence. subst c.
      now rewrite (expressionValidator_falsy t1 v Hv) in Hver. }
    assert (Hne : conds <> []) by (intros ->; discriminate).
    destruct (all_succeeded_count W conds s HInv Hne) as [Hle Hiff].
    split; [|split].
    + intros Hin. apply (Poller.inv_logged _ _ _ HInv) in Hin as [t1 Ht]. now apply (Hnot t1).
    + destruct (Poller.count Poller.is_all_succeeded (Poller.trace s)) as [|[|n]];
        [reflexivity| |lia].
      exfalso. destruct Hiff as [_ Hall]. destruct (Hall eq_refl i) as [t1 Ht].
      * now apply lookup_lt_Some in Hi.
      * now apply (Hnot t1).
    + intros tm t' Htm Howner Hdue Hnow s'. subst s'. unfold Poller.fire.
      rewrite (find_timer_In W conds s tm HInv Htm).
      destruct (Z.leb_spec (Poller.due tm) t'); [|lia].
      destruct (Z.leb_spec (Poller.now s) t'); [|lia]. cbn [andb].
      destruct (Poller.inv_own _ _ _ HInv tm Htm) as (e & He & _).
      destruct (lookup_elm W conds s _ e HInv He) as [Hce _].
      rewrite Howner in *. assert (Hel : Poller.elm e = v) by congruence.
      pose proof (idle_after_clear W conds s tm t' HInv Htm) as (Hno & _).
      rewrite Howner in Hno.
      unfold Poller.timer_body. cbn [Poller.elements Poller.clearTimeout Poller.with_timers
                                     Poller.at_time Poller.now].
      rewrite He, Hel, (expressionValidator_falsy t' v Hv). cbn. split; [reflexivity|].
      exact Hno.
  - intros Hne.
    assert (Hev : forall t1, Lite.evaluateCondition W t1 v = Ret (VBool true)).
    { intros t1. repeat (destruct Hv as [<-|Hv]; [try reflexivity; congruence|]). destruct Hv. }
    split; [apply Hev|]. intros opts Hopts. unfold Lite.pollerLite. cbn [length seq Lite.start].
    unfold Lite.pollForCondition. cbn [Lite.now]. unfold Lite.isTimedOut. cbn [Lite.deadline Lite.now].
    assert ((if Lite.timeout opts =? 0 then None else Some (t + Lite.timeout opts))
            = None \/ exists d, (if Lite.timeout opts =? 0 then None else Some (t + Lite.timeout opts))
                                = Some d /\ (d <? t) = false) as Hd.
    { destruct (Lite.timeout opts =? 0); [now left|]. right. eexists. split; [reflexivity|].
      apply Z.ltb_ge. lia. }
    destruct Hd as [->|(d & -> & ->)]; cbn; rewrite Hev; reflexivity.
  - intros ->. reflexivity.
Qed.

End FalsyConditions.

(* ------------------------------------------------------------------ *)
(** ** The theorems at concrete sessions *)
(* ------------------------------------------------------------------ *)

Section Concrete.
Import Examples.

(** Two conditions that become true at 1100 and 1060: polled at 1050 and
    again at 1105, they succeed in turn and the callback fires once. *)
Example two_conditions_trace :
  Poller.trace (Poller.run page Poller.default_settings two_conditions_schedule
                  (Poller.poller Poller.default_settings two_conditions 1000))
  = [Poller.Succeeded 0 1105; Poller.Succeeded 1 1105; Poller.AllSucceeded 1105].
Proof. reflexivity. Qed.

(** A condition that calls [destroy()] on its own session while its timer
    is running, and returns true: both callbacks fire after the
    [destroy()]. *)
Lemma poller_destroy_in_flight_counterexample :
  let s := Poller.run page Poller.default_settings [Poller.Fire 1 1050]
             (Poller.poller Poller.default_settings [VFun 2] 1000) in
  Poller.trace s
  = [Poller.Destroyed 1050; Poller.Succeeded 0 1050; Poller.AllSucceeded 1050]
  /\ Poller.silent_after_destroy (Poller.trace s) = false.
Proof. split; reflexivity. Qed.

Lemma poller_destroy_between_turns_is_final_witness :
  Poller.no_reentrant_destroy page two_conditions
  /\ let s := Poller.run page Poller.default_settings
                [Poller.Fire 1 1050; Poller.Destroy; Poller.Fire 2 1050; Poller.Fire 3 1105]
                (Poller.poller Poller.default_settings two_conditions 1000) in
     Poller.silent_after_destroy (Poller.trace s) = true
     /\ (existsb Poller.is_destroyed (Poller.trace s) = true -> Poller.timers s = []).
Proof.
  assert (H : Poller.no_reentrant_destroy page two_conditions).
  { intros i c t Hc. destruct i as [|[|i]]; simpl in Hc; inversion Hc; reflexivity. }
  split; [exact H|].
  apply (poller_destroy_between_turns_is_final page Poller.default_settings
           two_conditions 1000). exact H.
Defined.

(** What counts is what the polls see: with [{wait: 700, timeout: 1000}] a
    condition true from 800 on is polled at 0, 0 and 770, the next poll
    falls at 1617, after the deadline, and the callback is never invoked. *)
Example late_poll_misses_the_condition :
  let opts := Lite.Options (700 # 1) (11 # 10) 1000 in
  let s := Lite.run page opts [VFun 3] [(1%nat, 0); (2%nat, 770); (3%nat, 1617)]
             (Lite.pollerLite page opts [VFun 3] 0) in
  Lite.trace s = [] /\ Lite.timers s = [] /\ Lite.now s = 1617.
Proof. repeat split. Qed.

(** With no condition at all, every condition has passed and the callback
    has not been called. *)
Lemma pollerLite_empty_list_counterexample :
  ~ Lite.called_once_when_all_pass page lite_timeout [] 0 [].
Proof.
  unfold Lite.called_once_when_all_pass. intros H.
  assert (H0 : Lite.count Lite.is_called
                 (Lite.trace (Lite.run page lite_timeout [] []
                                (Lite.pollerLite page lite_timeout [] 0))) = 1%nat).
  { apply H. simpl. intros i Hi. lia. }
  discriminate H0.
Qed.

(** A condition that never returns true, with a timeout of 300 ms. *)
Example never_true_times_out_once :
  let s := Poller.run_punctual page with_timeout 20 (Poller.poller with_timeout [VFun 1] 1000) in
  Poller.trace s = [Poller.TimedOut 0 1304] /\ Poller.timers s = [].
Proof. split; reflexivity. Qed.

Lemma poller_timeout_exactly_once_witness :
  (0 < Poller.timeout with_timeout
   /\ Poller.timeoutCallback with_timeout = true
   /\ [VFun 1] !! 0%nat = Some (VFun 1)
   /\ Poller.never_truthy page (VFun 1))
  /\ let s := Poller.run page with_timeout [Poller.Fire 1 1050]
                (Poller.poller with_timeout [VFun 1] 1000) in
     (Poller.count (Poller.is_timed_out 0) (Poller.trace s) <= 1)%nat
     /\ ~ In 0%nat (Poller.succeeded s).
Proof.
  assert (Hn : Poller.never_truthy page (VFun 1)) by (intros t; reflexivity).
  split; [repeat split; try reflexivity; exact Hn|].
  pose proof (poller_timeout_exactly_once page with_timeout [VFun 1] 1000 0 (VFun 1)
                [Poller.Fire 1 1050] eq_refl eq_refl eq_refl Hn) as H.
  split; [apply H | apply H].
Defined.

(** A condition that is never truthy because it is not valid: the empty
    selector.  Its first check throws, nothing is left to run, and the
    timeout callback was not invoked. *)
Lemma poller_invalid_condition_counterexample :
  let s := Poller.run_punctual page with_timeout 20
             (Poller.poller with_timeout [VStr ""] 1000) in
  Poller.trace s = [Poller.Raised 0 (Error "Invalid poller expression") 1050]
  /\ Poller.timers s = []
  /\ Poller.count (Poller.is_timed_out 0) (Poller.trace s) = 0%nat.
Proof. repeat split. Qed.

(** The empty list: no callback, now or after any timer the browser might
    run. *)
Lemma poller_empty_list_counterexample :
  Poller.count Poller.is_all_succeeded
    (Poller.trace (Poller.poller Poller.default_settings [] 1000)) <> 1%nat
  /\ Poller.count Poller.is_all_succeeded
       (Poller.trace (Poller.run_punctual page Poller.default_settings 10
                        (Poller.poller Poller.default_settings [] 1000))) <> 1%nat.
Proof. split; discriminate. Qed.

(** [pollerLite([null], cb)]: no error, the callback fires at once. *)
Lemma pollerLite_null_counterexample :
  Lite.evaluateCondition page 0 VNull = Ret (VBool true)
  /\ Lite.trace (Lite.pollerLite page Lite.default_options [VNull] 0)
     = [Lite.Passed 0 (VBool true) 0; Lite.Called [VBool true] 0].
Proof. split; reflexivity. Qed.

Lemma falsy_condition_full_throws_lite_passes_witness :
  In (VNum 0) falsy_values
  /\ Poller.expressionValidator page 0 (VNum 0)
     = Poller.Check (Throw (Error "Invalid poller expression")) false
  /\ Lite.evaluateCondition page 0 (VNum 0) = Ret (VBool true).
Proof.
  assert (Hin : In (VNum 0) falsy_values) by (simpl; tauto).
  pose proof (falsy_condition_full_throws_lite_passes page (VNum 0) 0 Hin) as H.
  split; [exact Hin|]. split; [apply H|].
  destruct H as (_ & _ & H & _). apply H. discriminate.
Defined.

(** Two calls for the same script before it loads, an abort, a third call:
    one script element, one promise, rejected and still returned. *)
Example same_promise_after_rejection :
  let s := Loader.run [Loader.Get "x.js" true; Loader.Get "x.js" true;
                       Loader.Handler 0 true None; Loader.Get "x.js" true] Loader.initial in
  Loader.returned s = [("x.js", 0%nat); ("x.js", 0%nat); ("x.js", 0%nat)]
  /\ Loader.scripts s = [("x.js", 0%nat)]
  /\ Loader.promises s = [Loader.Rejected].
Proof. vm_compute. repeat split. Qed.

(** A third call for a url whose promise was rejected: it returns that
    promise, still rejected, and loads nothing. *)
Lemma globalGetScript_one_promise_per_url_witness :
  let s := Loader.run [Loader.Get "x.js" true; Loader.Get "x.js" true;
                       Loader.Handler 0 true None] Loader.initial in
  let s' := Loader.globalGetScript "x.js" true s in
  Loader.returned s' = Loader.returned s ++ [("x.js", 0%nat)]
  /\ Loader.requests s' !! "x.js" = Some 0%nat
  /\ Loader.promises s' = [Loader.Rejected]
  /\ Loader.scripts s' = Loader.scripts s
  /\ Loader.loads_of "x.js" s' = 1%nat.
Proof.
  intros s s'.
  destruct (globalGetScript_one_promise_per_url
              [Loader.Get "x.js" true; Loader.Get "x.js" true; Loader.Handler 0 true None]
              "x.js" true) as ((p & Hret & Hreq & _ & _ & Hlater) & _).
  fold s in Hret, Hreq, Hlater. fold s' in Hret, Hreq, Hlater.
  destruct (Hlater 0%nat) as (-> & Hprom & Hscr & _); [vm_compute; now left|].
  split; [exact Hret|]. split; [exact Hreq|]. split; [rewrite Hprom; reflexivity|].
  split; [exact Hscr|]. unfold Loader.loads_of. rewrite Hscr. reflexivity.
Defined.

(** A first call made while the document has no body: the promise is
    rejected at once and no script is inserted; a later call returns the
    same rejected promise and loads nothing either. *)
Example no_body_no_load :
  let s := Loader.run [Loader.Get "x.js" false; Loader.Get "x.js" true] Loader.initial in
  Loader.returned s = [("x.js", 0%nat); ("x.js", 0%nat)]
  /\ Loader.scripts s = []
  /\ Loader.promises s = [Loader.Rejected].
Proof. vm_compute. repeat split. Qed.

(** A burst of five mutations within [throttle = 100] and a sixth at 130,
    all before the timer of the observer runs at 140; then a seventh one
    at 150. *)
Example burst_then_timer_then_mutation :
  Observer.calls_of 0%nat
    (Observer.mutate 7%nat 1%nat 150
       (Observer.timer_run 0%nat 140
          (Observer.run quick_burst
             (Observer.mutate 7%nat 1%nat 0
                (Observer.connect (Observer.Node 7%nat) Observer.returns 100
                                  Observer.initial)))))
  = [0; 150].
Proof. reflexivity. Qed.

Lemma observer_throttle_gate_witness :
  let s := Observer.connect (Observer.Node 7%nat) Observer.returns 100 Observer.initial in
  let o := Observer.MObserver [7%nat] Observer.returns false 100 [] in
  (Observer.observers s !! 0%nat = Some o /\ Observer.gate_open o /\ In 7%nat [7%nat]
   /\ (forall t, In (Observer.TimerRun 0%nat t) quick_burst -> t < 0 + Z.max 0 100)
   /\ 0 + Z.max 0 100 <= 140)
  /\ let s1 := Observer.mutate 7%nat 1%nat 0 s in
     let s2 := Observer.run quick_burst s1 in
     let s4 := Observer.mutate 7%nat 1%nat 150 (Observer.timer_run 0%nat 140 s2) in
     Observer.calls_of 0%nat s1 = [0]
     /\ Observer.calls_of 0%nat s2 = Observer.calls_of 0%nat s1
     /\ Observer.calls_of 0%nat s4 = Observer.calls_of 0%nat s2 ++ [150].
Proof.
  intros s o.
  assert (Hid : Observer.observers s !! 0%nat = Some o) by reflexivity.
  assert (Ho : Observer.gate_open o) by (split; reflexivity).
  assert (Hin : In 7%nat (Observer.observed o)) by (simpl; tauto).
  assert (Hb : forall t, In (Observer.TimerRun 0%nat t) quick_burst
                         -> t < 0 + Z.max 0 (Observer.throttle o)).
  { intros t Hm. simpl in Hm.
    destruct Hm as [Hm|[Hm|[Hm|[Hm|[Hm|[]]]]]]; discriminate Hm. }
  assert (Ht : 0 + Z.max 0 (Observer.throttle o) <= 140) by (simpl; lia).
  split; [repeat split; assumption|].
  pose proof (observer_throttle_gate s 0%nat o 7%nat 7%nat 0%nat 0%nat 0 140 150
                quick_burst Hid Ho Hin Hin Hb Ht)
    as (_ & H1 & H2 & H3 & _).
  split; [exact H1|]. split; [exact H2|]. exact (proj2 (proj2 (H3 eq_refl eq_refl))).
Defined.

(** The gate stays closed after the throttle has elapsed: as long as the
    timer that reopens it has not run (here a mutation at 150, with a
    throttle of 100 from the call at 0), and for ever when the callback
    threw, since the timer is set after the callback has returned. *)
Lemma observer_gate_stays_closed_counterexample :
  Observer.calls_of 0%nat
    (Observer.mutate 7%nat 1%nat 150
       (Observer.mutate 7%nat 1%nat 0
          (Observer.connect (Observer.Node 7%nat) Observer.returns 100 Observer.initial)))
  = [0]
  /\ Observer.calls_of 0%nat
       (Observer.mutate 7%nat 1%nat 150
          (Observer.timer_run 0%nat 120
             (Observer.mutate 7%nat 1%nat 0
                (Observer.connect (Observer.Node 7%nat) (fun _ _ => Observer.Throws) 100
                                  Observer.initial))))
     = [0].
Proof. split; reflexivity. Qed.

End Concrete.

(* ================================================================== *)
(** ** [mergeObjects], key by key *)
(* ================================================================== *)

Section MergeLookup.
Import Merge.

Lemma lookup_own_notin ps k : ~ In k (keys ps) -> lookup_own ps k = None.
Proof.
  induction ps as [|[k' v] r IH]; simpl; [reflexivity|].
  intros Hn. destruct (String.eqb_spec k' k) as [->|Hne].
  - exfalso. apply Hn. now left.
  - apply IH. intros Hin. apply Hn. now right.
Qed.

Lemma keys_set_own ps k v : forall k', In k' (keys ps) -> In k' (keys (set_own ps k v)).
Proof.
  induction ps as [|[k0 v0] r IH]; simpl; intros k' Hin; [contradiction|].
  destruct (String.eqb k0 k); simpl in *; [exact Hin|].
  destruct Hin as [->|Hin]; [now left|right; now apply IH].
Qed.

(** One pass of the loop over the source's entries, read key by key: a key
    the source lacks keeps its value, a key whose target value is not an
    object (or is an array) takes the source's value, and a key whose
    target value is an object takes the result of the recursive call. *)
Lemma fold_merge_key_get rec k es : forall ps r,
  List.NoDup (keys es) ->
  fold_left (merge_key rec) es (Some (Ret (TgtObj ps))) = Some (Ret r) ->
  exists rp, r = TgtObj rp
    /\ (forall k', In k' (keys ps) -> In k' (keys rp))
    /\ match lookup_own es k with
       | None => get_own rp k = get_own ps k
       | Some sv =>
           match isObject (get_own ps k) with
           | None => get_own rp k = sv
           | Some tk => exists rk, rec tk sv = Some (Ret rk) /\ get_own rp k = to_value rk
           end
       end.
Proof.
  induction es as [|[key sv] es IH]; intros ps r Hnd Hfold.
  - simpl in Hfold. injection Hfold as <-. exists ps. repeat split; auto.
  - cbn [keys map fst] in Hnd. apply NoDup_cons_iff in Hnd as [Hk Hnd].
    cbn [fold_left] in Hfold.
    destruct (merge_key rec (Some (Ret (TgtObj ps))) (key, sv)) as [[[|ps1]|e]|] eqn:Hstep.
    + (* the accumulator can only be an object here *)
      unfold merge_key in Hstep.
      destruct (isObject (get_own ps key)) as [tv|];
        [destruct (rec tv sv) as [[?|?]|]|]; discriminate Hstep.
    + destruct (IH ps1 r Hnd Hfold) as (rp & -> & Hkeys & Hget).
      assert (Hps1 : exists x, ps1 = set_own ps key x
                /\ match isObject (get_own ps key) with
                   | None => x = sv
                   | Some tk => exists rk, rec tk sv = Some (Ret rk) /\ x = to_value rk
                   end).
      { unfold merge_key in Hstep.
        destruct (isObject (get_own ps key)) as [tv|].
        - destruct (rec tv sv) as [[rk|?]|] eqn:Hrec; try discriminate Hstep.
          injection Hstep as <-. eexists; split; [reflexivity|]. now exists rk.
        - injection Hstep as <-. now eexists. }
      destruct Hps1 as (x & -> & Hx).
      exists rp. split; [reflexivity|]. split.
      { intros k' Hin. apply Hkeys. now apply keys_set_own. }
      cbn [lookup_own]. destruct (String.eqb_spec key k) as [->|Hne].
      * rewrite (lookup_own_notin es k Hk) in Hget. rewrite get_set_same in Hget.
        destruct (isObject (get_own ps k)) as [tk|].
        -- destruct Hx as (rk & Hrec & ->). now exists rk.
        -- now subst x.
      * rewrite (get_set_other ps key k x Hne) in Hget. exact Hget.
    + rewrite fold_merge_key_stuck in Hfold by (intros t; discriminate). discriminate Hfold.
    + rewrite fold_merge_key_stuck in Hfold by (intros t; discriminate). discriminate Hfold.
Qed.

(** Two recursive calls that agree below depth [d] give the same fold over
    a target of depth at most [d]. *)
Lemma fold_merge_key_ext rec1 rec2 (d : nat) es : forall ps,
  (forall t s, (depth (to_value t) < d)%nat -> rec1 t s = rec2 t s) ->
  List.NoDup (keys es) ->
  (forall k, In k (keys es) -> (depth (get_own ps k) < d)%nat) ->
  fold_left (merge_key rec1) es (Some (Ret (TgtObj ps)))
  = fold_left (merge_key rec2) es (Some (Ret (TgtObj ps))).
Proof.
  induction es as [|[key sv] es IH]; intros ps Hrec Hnd Hd; [reflexivity|].
  cbn [keys map fst] in Hnd. apply NoDup_cons_iff in Hnd as [Hk Hnd].
  cbn [fold_left].
  assert (Hstep : merge_key rec1 (Some (Ret (TgtObj ps))) (key, sv)
                  = merge_key rec2 (Some (Ret (TgtObj ps))) (key, sv)).
  { unfold merge_key. destruct (isObject (get_own ps key)) as [tv|] eqn:Hobj; [|reflexivity].
    rewrite Hrec; [reflexivity|].
    rewrite (isObject_to_value _ _ Hobj). apply Hd. now left. }
  rewrite <- Hstep.
  destruct (merge_key rec1 (Some (Ret (TgtObj ps))) (key, sv)) as [[[|ps1]|e]|] eqn:H1.
  - rewrite !fold_merge_key_stuck; auto.
    all: unfold merge_key in H1; destruct (isObject (get_own ps key)) as [tv|];
      [destruct (rec1 tv sv) as [[?|?]|]|]; discriminate H1.
  - apply IH; auto. intros k Hin.
    assert (exists x, ps1 = set_own ps key x) as (x & ->).
    { unfold merge_key in H1. destruct (isObject (get_own ps key)) as [tv|];
        [destruct (rec1 tv sv) as [[?|?]|]|]; try discriminate H1;
        injection H1 as <-; now eexists. }
    rewrite get_set_other by (intros ->; contradiction).
    apply Hd. now right.
  - rewrite !fold_merge_key_stuck; auto; intros t; discriminate.
  - rewrite !fold_merge_key_stuck; auto; intros t; discriminate.
Qed.

(** The bound on the recursion does not show: any two bounds above the
    depth of the target give the same result. *)
Lemma mergeObjects_fuel_irrelevant n : forall m tgt source,
  (depth (to_value tgt) < n)%nat -> (depth (to_value tgt) < m)%nat ->
  mergeObjects_fuel n tgt source = mergeObjects_fuel m tgt source.
Proof.
  induction n as [|n IH]; intros m tgt source Hn Hm; [lia|].
  destruct m as [|m]; [lia|].
  destruct tgt as [|ps]; [now rewrite !mergeObjects_fuel_null|].
  cbn [mergeObjects_fuel]. destruct (entries source) as [es|] eqn:Hes; [|reflexivity].
  apply (fold_merge_key_ext _ _ (Nat.min n m)).
  - intros t s Ht. apply IH; lia.
  - eapply NoDup_entries; eauto.
  - intros k _. pose proof (depth_get_own ps k). cbn [to_value] in Hn, Hm. lia.
Qed.

Lemma lookup_own_get ps k v : lookup_own ps k = Some v -> get_own ps k = v.
Proof. unfold get_own. now intros ->. Qed.

Lemma In_lookup_own ps k : In k (keys ps) -> lookup_own ps k = Some (get_own ps k).
Proof.
  intros Hin. unfold get_own. destruct (lookup_own ps k) eqn:Hl; [reflexivity|].
  exfalso. revert Hl. induction ps as [|[k' v'] r IH]; simpl in *; [contradiction|].
  destruct (String.eqb_spec k' k) as [->|Hne]; [discriminate|].
  destruct Hin as [Heq|Hin]; [contradiction|]. now apply IH.
Qed.

(** X1.  For a target and a source that are trees (no object occurs in them
    twice): when mergeObjects returns, an own property of the target that is
    not an enumerable key of the source is still an own property with the
    value it had, and no own property of the target has been removed. *)
Theorem mergeObjects_keeps_what_source_lacks (tp : props) (source : value) (es : props)
    (r : target) (k : string) (tv : value) :
  entries source = Some es ->
  lookup_own es k = None ->
  lookup_own tp k = Some tv ->
  mergeObjects (TgtObj tp) source = Some (Ret r) ->
  exists rp, r = TgtObj rp
    /\ lookup_own rp k = Some tv
    /\ (forall k', In k' (keys tp) -> In k' (keys rp)).
Proof.
  intros Hes Hk Htv Hm. unfold mergeObjects in Hm. cbn [mergeObjects_fuel] in Hm.
  rewrite Hes in Hm.
  destruct (fold_merge_key_get _ k es tp r (NoDup_entries _ _ Hes) Hm) as (rp & -> & Hkeys & Hget).
  rewrite Hk in Hget. exists rp. split; [reflexivity|]. split; [|exact Hkeys].
  rewrite (In_lookup_own rp k) by (apply Hkeys; eapply lookup_own_In; eauto).
  now rewrite Hget, (lookup_own_get tp k tv Htv).
Qed.

Lemma mergeObjects_keeps_what_source_lacks_witness :
  exists rp,
    mergeObjects (TgtObj [("wait", VNum 50); ("tags", VArr [VStr "a"])])
                 (VObj [("tags", VArr [])])
    = Some (Ret (TgtObj rp))
    /\ lookup_own rp "wait" = Some (VNum 50).
Proof.
  destruct (mergeObjects_keeps_what_source_lacks
              [("wait", VNum 50); ("tags", VArr [VStr "a"])] (VObj [("tags", VArr [])])
              [("tags", VArr [])] (TgtObj [("wait", VNum 50); ("tags", VArr [])]) "wait"
              (VNum 50) eq_refl eq_refl eq_refl eq_refl) as (rp & Hr & Hget & _).
  exists rp. injection Hr as <-. split; [reflexivity|exact Hget].
Defined.

(** X2.  For a target and a source that are trees (no object occurs in them
    twice): when mergeObjects returns, a key of the source that is an own
    property of the target with a value that is not an object (a number,
    string, boolean, function, array or undefined) is an own property of the
    result with the source's value: scalars and arrays are replaced, never
    merged. *)
Theorem mergeObjects_overrides_non_objects (tp : props) (source : value) (es : props)
    (r : target) (k : string) (tv sv : value) :
  entries source = Some es ->
  lookup_own es k = Some sv ->
  lookup_own tp k = Some tv ->
  isObject tv = None ->
  mergeObjects (TgtObj tp) source = Some (Ret r) ->
  exists rp, r = TgtObj rp /\ lookup_own rp k = Some sv.
Proof.
  intros Hes Hk Htv Hobj Hm. unfold mergeObjects in Hm. cbn [mergeObjects_fuel] in Hm.
  rewrite Hes in Hm.
  destruct (fold_merge_key_get _ k es tp r (NoDup_entries _ _ Hes) Hm) as (rp & -> & Hkeys & Hget).
  rewrite Hk, (lookup_own_get tp k tv Htv), Hobj in Hget.
  exists rp. split; [reflexivity|].
  rewrite (In_lookup_own rp k) by (apply Hkeys; eapply lookup_own_In; eauto).
  now rewrite Hget.
Qed.

Lemma mergeObjects_overrides_non_objects_witness :
  exists rp,
    mergeObjects (TgtObj [("wait", VNum 50); ("tags", VArr [VStr "a"])])
                 (VObj [("tags", VArr [])])
    = Some (Ret (TgtObj rp))
    /\ lookup_own rp "tags" = Some (VArr []).
Proof.
  destruct (mergeObjects_overrides_non_objects
              [("wait", VNum 50); ("tags", VArr [VStr "a"])] (VObj [("tags", VArr [])])
              [("tags", VArr [])] (TgtObj [("wait", VNum 50); ("tags", VArr [])]) "tags"
              (VArr [VStr "a"]) (VArr []) eq_refl eq_refl eq_refl eq_refl eq_refl)
    as (rp & Hr & Hget).
  exists rp. injection Hr as <-. split; [reflexivity|exact Hget].
Defined.

(** X3.  When mergeObjects returns, a key of the source whose value in the
    target is an object (or null) holds what mergeObjects returns for that
    value and the source's value: nested objects are merged recursively, and
    the nested call returns too. *)
Theorem mergeObjects_merges_nested_objects (tp : props) (source : value) (es : props)
    (r tk : target) (k : string) (sv : value) :
  entries source = Some es ->
  lookup_own es k = Some sv ->
  isObject (get_own tp k) = Some tk ->
  mergeObjects (TgtObj tp) source = Some (Ret r) ->
  exists rp rk, r = TgtObj rp
    /\ mergeObjects tk sv = Some (Ret rk)
    /\ get_own rp k = to_value rk.
Proof.
  intros Hes Hk Hobj Hm. unfold mergeObjects in Hm. cbn [mergeObjects_fuel] in Hm.
  rewrite Hes in Hm.
  destruct (fold_merge_key_get _ k es tp r (NoDup_entries _ _ Hes) Hm) as (rp & -> & _ & Hget).
  rewrite Hk, Hobj in Hget. destruct Hget as (rk & Hrec & Hget).
  exists rp, rk. repeat split; auto.
  unfold mergeObjects. rewrite <- Hrec. apply mergeObjects_fuel_irrelevant; [lia|].
  rewrite (isObject_to_value _ _ Hobj). cbn [to_value]. apply depth_get_own.
Qed.

Lemma mergeObjects_merges_nested_objects_witness :
  exists rp rk,
    mergeObjects (TgtObj [("config", VObj [("subtree", VBool false); ("childList", VBool true)])])
                 (VObj [("config", VObj [("subtree", VBool true)])])
    = Some (Ret (TgtObj rp))
    /\ mergeObjects (TgtObj [("subtree", VBool false); ("childList", VBool true)])
                    (VObj [("subtree", VBool true)]) = Some (Ret rk)
    /\ get_own rp "config" = to_value rk.
Proof.
  destruct (mergeObjects_merges_nested_objects
              [("config", VObj [("subtree", VBool false); ("childList", VBool true)])]
              (VObj [("config", VObj [("subtree", VBool true)])])
              [("config", VObj [("subtree", VBool true)])]
              (TgtObj [("config", VObj [("subtree", VBool true); ("childList", VBool true)])])
              (TgtObj [("subtree", VBool false); ("childList", VBool true)])
              "config" (VObj [("subtree", VBool true)])
              eq_refl eq_refl eq_refl eq_refl) as (rp & rk & Hr & Hrk & Hget).
  exists rp, rk. injection Hr as <-. repeat split; [exact Hrk|exact Hget].
Defined.

End MergeLookup.

(* ================================================================== *)
(** ** The full poller: start, timeouts, outcomes, progress *)
(* ================================================================== *)

Section PollerMore.
Import Poller Outcome.
Variable W : world.
Variable cfg : settings.

(** The state [poller] is in after polling its first [k] elements, when
    the timeout is not negative. *)
Lemma poller_loop_start conds t0 k :
  0 <= timeout cfg -> (k <= length conds)%nat ->
  let s := fold_left (fun s i => poll cfg i (wait cfg) s) (seq 0 k)
             (State t0 (map (fun c => PollingElement c (timeout cfg) None None) conds)
                    [] [] 1%nat [] (length conds)) in
  now s = t0 /\ trace s = [] /\ succeeded s = [] /\ next_id s = S k
  /\ timers s = first_timers cfg t0 k
  /\ length (elements s) = length conds
  /\ forall j, (k <= j)%nat ->
       elements s !! j = (fun c => PollingElement c (timeout cfg) None None) <$> conds !! j.
Proof.
  intros HT. induction k as [|k IH]; intros Hk.
  - simpl. repeat split; auto.
    + now rewrite length_map.
    + intros j _. now rewrite list_lookup_fmap.
  - rewrite seq_S, fold_left_app. cbn [fold_left Nat.add].
    destruct (IH ltac:(lia)) as (Hnow & Htr & Hsu & Hnext & Htm & Hlen & Hrest).
    set (s := fold_left _ (seq 0 k) _) in *.
    destruct (conds !! k) as [c|] eqn:Hc;
      [|apply lookup_ge_None in Hc; lia].
    pose proof (Hrest k (Nat.le_refl k)) as Hek. rewrite Hc in Hek. cbn in Hek.
    unfold poll. rewrite Hek. cbn [startedAt maxDuration elm winTimeout].
    assert (Hex : (if timeout cfg =? 0 then false else now s + timeout cfg <? now s) = false).
    { destruct (timeout cfg =? 0); [reflexivity|]. apply Z.ltb_ge. lia. }
    rewrite Hex. cbn [now trace succeeded next_id timers elements].
    repeat split; auto.
    + rewrite Htm, Hnext, Hnow. unfold first_timers. now rewrite seq_S, map_app.
    + now rewrite length_insert.
    + intros j Hj. rewrite list_lookup_insert_ne by lia. apply Hrest. lia.
Qed.

(** X4.  With a timeout that is not negative, poller returns without having
    evaluated a condition or invoked a callback: it leaves one timer per
    element, in order, each due wait milliseconds (whole and not negative)
    after the call, and no timer run before that time changes the session. *)
Theorem poller_returns_before_first_check (conds : list value) (t0 : Z) :
  0 <= timeout cfg ->
  let s := poller cfg conds t0 in
  trace s = [] /\ succeeded s = []
  /\ timers s = first_timers cfg t0 (length conds)
  /\ forall id t, t < t0 + timer_ms (wait cfg) -> fire W cfg id t s = s.
Proof.
  intros HT s.
  destruct (poller_loop_start conds t0 (length conds) HT (Nat.le_refl _))
    as (Hnow & Htr & Hsu & _ & Htm & _).
  fold (poller cfg conds t0) in *. fold s in Hnow, Htr, Hsu, Htm.
  repeat split; auto.
  intros id t Ht. unfold fire.
  destruct (find_timer id s) as [tm|] eqn:Hf; [|reflexivity].
  apply find_timer_spec in Hf as [Hin _]. rewrite Htm in Hin.
  unfold first_timers in Hin. apply in_map_iff in Hin as (i & <- & _).
  cbn [due]. replace (t0 + timer_ms (wait cfg) <=? t) with false; [reflexivity|].
  symmetry. apply Z.leb_gt. lia.
Qed.


Lemma clocked_same t0 s s' :
  now s' = now s -> elements s' = elements s ->
  (forall i t, In (TimedOut i t) (trace s') -> In (TimedOut i t) (trace s)) ->
  clocked cfg t0 s -> clocked cfg t0 s'.
Proof.
  intros Hn He Ht (H1 & H2 & H3). unfold clocked. rewrite Hn, He.
  split; [exact H1|]. split; [exact H2|]. intros i t Hin. apply (H3 i), Ht, Hin.
Qed.

Lemma clocked_destroy_element t0 e s : clocked cfg t0 s -> clocked cfg t0 (destroy_element e s).
Proof.
  apply clocked_same.
  - apply destroy_element_same.
  - apply destroy_element_same.
  - intros i t. now rewrite destroy_element_trace.
Qed.

Lemma clocked_destroy_all t0 s : clocked cfg t0 s -> clocked cfg t0 (destroy_all s).
Proof.
  unfold destroy_all. destruct (destroy_fold_same (elements s) s) as (Hn & He & _ & Ht & _).
  apply clocked_same; auto. intros i t. now rewrite Ht.
Qed.

Lemma clocked_log_other t0 e s :
  (forall i t, e <> TimedOut i t) -> clocked cfg t0 s -> clocked cfg t0 (log e s).
Proof.
  intros Hne. apply clocked_same; auto. intros i t Hin. cbn in Hin.
  apply in_app_or in Hin as [Hin|[Heq|[]]]; auto. exfalso. now apply (Hne i t).
Qed.

Lemma clocked_poll t0 i d s : clocked cfg t0 s -> clocked cfg t0 (poll cfg i d s).
Proof.
  intros Hc. pose proof Hc as (Hnow & Hel & Hto). unfold poll.
  destruct (elements s !! i) as [e|] eqn:Hi; [|exact Hc].
  destruct (Hel i e Hi) as [Hmax Hsa].
  set (started := match startedAt e with
                  | Some t1 => if t1 =? 0 then now s else t1
                  | None => now s end).
  assert (Hst : t0 <= started).
  { unfold started. destruct (startedAt e) as [t1|]; [|exact Hnow].
    destruct (t1 =? 0); [exact Hnow|]. now apply Hsa. }
  assert (Hels : forall e', maxDuration e' = timeout cfg -> startedAt e' = Some started ->
            forall j x, <[i := e']> (elements s) !! j = Some x ->
              maxDuration x = timeout cfg /\ forall sa, startedAt x = Some sa -> t0 <= sa).
  { intros e' Hm Hs j x Hj. destruct (decide (i = j)) as [->|Hne].
    - rewrite list_lookup_insert_eq in Hj by (eapply lookup_lt_Some; eauto).
      injection Hj as <-. split; [exact Hm|]. intros sa Hx. rewrite Hs in Hx. now injection Hx as <-.
    - rewrite list_lookup_insert_ne in Hj by exact Hne. eauto. }
  destruct (if maxDuration e =? 0 then false else started + maxDuration e <? now s) eqn:Hex.
  - apply clocked_destroy_element.
    assert (Hbase : clocked cfg t0 (with_element i
              (PollingElement (elm e) (maxDuration e) (Some started) (winTimeout e)) s)).
    { split; [exact Hnow|]. split; [|exact Hto].
      cbn [elements with_element]. apply Hels; auto. }
    destruct (timeoutCallback cfg) eqn:Hcb; [|exact Hbase].
    destruct Hbase as (B1 & B2 & B3).
    split; [exact B1|]. split; [exact B2|].
    intros j t Hin. cbn [trace log with_element] in Hin.
    apply in_app_or in Hin as [Hin|[Heq|[]]]; [now apply (B3 j t)|].
    injection Heq as <- <-.
    destruct (maxDuration e =? 0) eqn:Hz; [discriminate Hex|].
    apply Z.eqb_neq in Hz. apply Z.ltb_lt in Hex.
    split; [exact Hcb|]. cbn [now with_element]. lia.
  - split; [exact Hnow|]. split; [|exact Hto].
    cbn [elements]. apply Hels; auto.
Qed.

Lemma clocked_successCallback t0 i s : clocked cfg t0 s -> clocked cfg t0 (successCallback i s).
Proof.
  intros Hc. unfold successCallback.
  match goal with |- context [if ?b then _ else _] => destruct b end.
  - apply clocked_log_other; [discriminate|].
    revert Hc. apply clocked_same; auto. intros j t Hin. cbn in Hin.
    apply in_app_or in Hin as [Hin|[Heq|[]]]; [exact Hin|discriminate Heq].
  - revert Hc. apply clocked_same; auto. intros j t Hin. cbn in Hin.
    apply in_app_or in Hin as [Hin|[Heq|[]]]; [exact Hin|discriminate Heq].
Qed.

Lemma clocked_timer_body t0 i d s : clocked cfg t0 s -> clocked cfg t0 (timer_body W cfg i d s).
Proof.
  intros Hc. unfold timer_body. destruct (elements s !! i) as [e|]; [|exact Hc].
  set (c := expressionValidator W (now s) (elm e)).
  assert (Hs1 : clocked cfg t0 (if destroys c then destroy_all (log (Destroyed (now s)) s) else s)).
  { destruct (destroys c); [|exact Hc].
    apply clocked_destroy_all, clocked_log_other; [discriminate|exact Hc]. }
  destruct (verdict c) as [[|]|err].
  - now apply clocked_successCallback.
  - now apply clocked_poll.
  - apply clocked_log_other; [discriminate|exact Hs1].
Qed.

Lemma clocked_step t0 s a : clocked cfg t0 s -> clocked cfg t0 (step W cfg s a).
Proof.
  intros Hc. destruct a as [id t|]; cbn [step].
  - unfold fire. destruct (find_timer id s) as [tm|]; [|exact Hc].
    destruct ((due tm <=? t) && (now s <=? t)) eqn:Hok; [|exact Hc].
    apply andb_true_iff in Hok as [_ Hok]. apply Z.leb_le in Hok.
    apply clocked_timer_body. destruct Hc as (H1 & H2 & H3).
    split; [cbn; lia|]. split; [exact H2|exact H3].
  - apply clocked_destroy_all, clocked_log_other; [discriminate|exact Hc].
Qed.

Lemma clocked_run t0 sched : forall s, clocked cfg t0 s -> clocked cfg t0 (run W cfg sched s).
Proof.
  induction sched as [|a sched IH]; intros s Hc; [exact Hc|].
  cbn [run fold_left]. apply IH, clocked_step, Hc.
Qed.

Lemma clocked_poller conds t0 : clocked cfg t0 (poller cfg conds t0).
Proof.
  unfold poller.
  assert (Hinit : clocked cfg t0 (State t0
            (map (fun c => PollingElement c (timeout cfg) None None) conds)
            [] [] 1%nat [] (length conds))).
  { split; [cbn; lia|]. split; [|intros i t []].
    intros i e He. cbn [elements] in He.
    apply list_lookup_fmap_Some in He as (c & -> & _). split; [reflexivity|discriminate]. }
  revert Hinit. generalize (State t0 (map (fun c => PollingElement c (timeout cfg) None None) conds)
            [] [] 1%nat [] (length conds)).
  generalize (seq 0 (length conds)). intros l.
  induction l as [|i l IH]; intros s Hc; [exact Hc|].
  cbn [fold_left]. apply IH, clocked_poll, Hc.
Qed.

(** X5.  Whatever the schedule, the timeout callback of the full poller is
    invoked only when it is a function, the timeout is not 0, and more than
    timeout milliseconds have passed since poller was called. *)
Theorem poller_never_times_out_early (conds : list value) (t0 : Z) (sched : list action)
    (i : nat) (t : Z) :
  In (TimedOut i t) (trace (run W cfg sched (poller cfg conds t0))) ->
  timeoutCallback cfg = true /\ timeout cfg <> 0 /\ t0 + timeout cfg < t.
Proof.
  intros Hin.
  destruct (clocked_run t0 sched _ (clocked_poller conds t0)) as (_ & _ & H).
  now apply (H i t).
Qed.


Lemma outcomes_snoc i tr e :
  outcomes i (tr ++ [e]) = (outcomes i tr + if ends i e then 1 else 0)%nat.
Proof.
  unfold outcomes, ends. rewrite !count_snoc.
  destruct e; cbn; try destruct (_ =? i)%nat; cbn; lia.
Qed.

Lemma once_fewer s s' :
  trace s' = trace s -> (forall tm, In tm (timers s') -> In tm (timers s)) ->
  settled s -> settled s'.
Proof.
  intros Ht Htm Hs i. rewrite Ht. destruct (Hs i) as [H1 H2]. split; [exact H1|].
  intros H tm Hin. apply (H2 H tm), Htm, Hin.
Qed.

Lemma once_log s e i :
  settled s -> outcomes i (trace s) = 0%nat -> no_timer_of i s ->
  (forall j, j <> i -> ends j e = false) ->
  settled (log e s).
Proof.
  intros Hs H0 Hno Hother j. cbn [trace log]. rewrite outcomes_snoc.
  destruct (decide (j = i)) as [->|Hne].
  - rewrite H0. split; [destruct (ends i e); lia|]. intros _. exact Hno.
  - rewrite (Hother j Hne), Nat.add_0_r. apply (Hs j).
Qed.

Lemma destroy_element_fewer e s tm :
  In tm (timers (destroy_element e s)) -> In tm (timers s).
Proof.
  unfold destroy_element. destruct (winTimeout e) as [id|]; [|auto].
  destruct (id =? 0)%nat; [auto|]. cbn. intros Hin. now apply List.filter_In in Hin as [Hin _].
Qed.

Lemma once_poll s i d :
  settled s -> outcomes i (trace s) = 0%nat -> no_timer_of i s ->
  settled (poll cfg i d s)
  /\ forall j, j <> i ->
       outcomes j (trace (poll cfg i d s)) = outcomes j (trace s)
       /\ (no_timer_of j s -> no_timer_of j (poll cfg i d s)).
Proof.
  intros Hs H0 Hno. unfold poll. destruct (elements s !! i) as [e|]; [|split; auto].
  match goal with |- context [if ?b then _ else _] => destruct b end.
  - set (e1 := PollingElement _ _ _ _).
    assert (Hbase : settled (with_element i e1 s)) by (revert Hs; apply once_fewer; auto).
    split.
    + eapply once_fewer; [apply destroy_element_trace|apply destroy_element_fewer|].
      destruct (timeoutCallback cfg); [|exact Hbase].
      apply (once_log _ _ i); auto.
      intros j Hne. unfold ends. cbn. apply Nat.eqb_neq in Hne. rewrite Nat.eqb_sym in Hne.
      now rewrite Hne.
    + intros j Hne. rewrite destroy_element_trace. split.
      * destruct (timeoutCallback cfg); [|reflexivity].
        cbn [trace log with_element]. rewrite outcomes_snoc. unfold ends. cbn.
        apply Nat.eqb_neq in Hne. rewrite Nat.eqb_sym, Hne. cbn. lia.
      * intros Hj tm Hin. apply destroy_element_fewer in Hin.
        destruct (timeoutCallback cfg); apply (Hj tm Hin).
  - split.
    + intros j. cbn [trace timers]. destruct (Hs j) as [H1 H2]. split; [exact H1|].
      intros H tm Hin. apply in_app_or in Hin as [Hin|[<-|[]]]; [now apply (H2 H)|].
      cbn [owner]. intros <-. lia.
    + intros j Hne. split; [reflexivity|].
      intros Hj tm Hin. cbn [timers] in Hin.
      apply in_app_or in Hin as [Hin|[<-|[]]]; [now apply Hj|]. cbn [owner]. congruence.
Qed.

Lemma once_successCallback s i :
  settled s -> outcomes i (trace s) = 0%nat -> no_timer_of i s ->
  settled (successCallback i s).
Proof.
  intros Hs H0 Hno. unfold successCallback.
  set (s1 := State _ _ (succeeded s ++ [i]) _ _ _ _).
  assert (H1 : settled s1).
  { intros j. cbn [trace s1]. rewrite outcomes_snoc. unfold ends. cbn.
    destruct (Nat.eqb_spec i j) as [<-|Hne]; cbn.
    - rewrite H0. split; [lia|]. intros _. exact Hno.
    - rewrite Nat.add_0_r. apply (Hs j). }
  match goal with |- context [if ?b then _ else _] => destruct b end; [|exact H1].
  intros j. cbn [trace log]. rewrite outcomes_snoc. unfold ends. cbn.
  rewrite Nat.add_0_r. apply (H1 j).
Qed.

Lemma destroy_all_fewer s tm : In tm (timers (destroy_all s)) -> In tm (timers s).
Proof. intros Hin. now apply destroy_fold_timers in Hin as [Hin _]. Qed.

Lemma once_destroy s : settled s -> settled (destroy_all (log (Destroyed (now s)) s)).
Proof.
  intros Hs j. rewrite destroy_all_trace. cbn [trace log]. rewrite outcomes_snoc.
  unfold ends. cbn [is_succeeded is_timed_out is_raised orb]. rewrite Nat.add_0_r. destruct (Hs j) as [H1 H2]. split; [exact H1|].
  intros H tm Hin. apply destroy_all_fewer in Hin. now apply (H2 H).
Qed.

Lemma once_timer_body s i d :
  settled s -> outcomes i (trace s) = 0%nat -> no_timer_of i s ->
  settled (timer_body W cfg i d s).
Proof.
  intros Hs H0 Hno. unfold timer_body. destruct (elements s !! i) as [e|]; [|exact Hs].
  set (c := expressionValidator W (now s) (elm e)).
  set (s1 := if destroys c then destroy_all (log (Destroyed (now s)) s) else s).
  assert (Hs1 : settled s1 /\ outcomes i (trace s1) = 0%nat /\ no_timer_of i s1).
  { unfold s1. destruct (destroys c); [|auto]. split; [now apply once_destroy|]. split.
    - rewrite destroy_all_trace. cbn [trace log]. rewrite outcomes_snoc. unfold ends. cbn. lia.
    - intros tm Hin. apply destroy_all_fewer in Hin. now apply Hno. }
  destruct Hs1 as (Hs1 & H01 & Hno1).
  destruct (verdict c) as [[|]|err].
  - now apply once_successCallback.
  - now apply once_poll.
  - apply (once_log _ _ i); auto.
    intros j Hne. unfold ends. cbn. apply Nat.eqb_neq in Hne. now rewrite Nat.eqb_sym, Hne.
Qed.

Lemma once_step conds s a :
  Inv W conds s -> settled s -> settled (step W cfg s a).
Proof.
  intros HI Hs. destruct a as [id t|]; cbn [step]; [|now apply once_destroy].
  unfold fire. destruct (find_timer id s) as [tm|] eqn:Hf; [|exact Hs].
  destruct ((due tm <=? t) && (now s <=? t)); [|exact Hs].
  apply find_timer_spec in Hf as [Hin <-].
  destruct (idle_after_clear W conds s tm t HI Hin) as (Hno & _).
  apply once_timer_body; [|cbn [trace clearTimeout with_timers at_time]|exact Hno].
  - revert Hs. apply once_fewer; [reflexivity|].
    intros x Hx. cbn in Hx. now apply List.filter_In in Hx as [Hx _].
  - destruct (Hs (owner tm)) as [H1 H2].
    destruct (outcomes (owner tm) (trace s)) as [|[|n]]; [reflexivity| |lia].
    exfalso. now apply (H2 eq_refl tm Hin).
Qed.

Lemma once_run conds sched : forall s,
  Inv W conds s -> settled s -> settled (run W cfg sched s).
Proof.
  induction sched as [|a sched IH]; intros s HI Hs; [exact Hs|].
  cbn [run fold_left]. apply IH; [now apply Inv_step|now apply (once_step conds)].
Qed.

Lemma once_poll_all n : forall k s,
  settled s -> (forall i, (k <= i)%nat -> outcomes i (trace s) = 0%nat /\ no_timer_of i s) ->
  settled (fold_left (fun s i => poll cfg i (wait cfg) s) (seq k n) s).
Proof.
  induction n as [|n IH]; intros k s Hs Hfresh; [exact Hs|].
  cbn [seq fold_left]. destruct (Hfresh k (Nat.le_refl k)) as [H0 Hno].
  destruct (once_poll s k (wait cfg) Hs H0 Hno) as [Hs' Hother].
  apply IH; [exact Hs'|]. intros i Hi.
  destruct (Hother i ltac:(lia)) as [Ho Hn]. destruct (Hfresh i ltac:(lia)) as [H0i Hnoi].
  split; [now rewrite Ho|now apply Hn].
Qed.

Lemma once_poller conds t0 : settled (poller cfg conds t0).
Proof.
  unfold poller. apply once_poll_all.
  - intros i. cbn. split; [lia|]. discriminate.
  - intros i _. split; [reflexivity|]. intros tm [].
Qed.

(** X6.  Whatever the schedule, each element of the full poller reports at
    most one end in total (its success callback, its timeout callback, or an
    exception out of its timer), and once it has, it never has a timer again
    and reports nothing more. *)
Theorem poller_one_outcome_per_element (conds : list value) (t0 : Z) (sched : list action)
    (i : nat) :
  let s := run W cfg sched (poller cfg conds t0) in
  (outcomes i (trace s) <= 1)%nat
  /\ (outcomes i (trace s) = 1%nat ->
      forall more, no_timer_of i (run W cfg more s)
                   /\ outcomes i (trace (run W cfg more s)) = 1%nat).
Proof.
  intros s.
  assert (Hs : settled s) by (apply (once_run conds), once_poller; apply Inv_poller).
  split; [apply Hs|]. intros H1 more.
  assert (Hm : settled (run W cfg more s)).
  { apply (once_run conds); [|exact Hs]. apply Inv_reachable. }
  assert (Hone : outcomes i (trace (run W cfg more s)) = 1%nat).
  { destruct (Hm i) as [Hle _]. destruct (run_grows W cfg more s) as [ext Hext].
    rewrite Hext in *. unfold outcomes in *.
    pose proof (count_app_ge (is_succeeded i) (trace s) ext).
    pose proof (count_app_ge (is_timed_out i) (trace s) ext).
    pose proof (count_app_ge (is_raised i) (trace s) ext). lia. }
  split; [|exact Hone]. now apply (Hm i).
Qed.


Lemma outcomes_app_ge i tr ext : (outcomes i tr <= outcomes i (tr ++ ext))%nat.
Proof.
  unfold outcomes.
  pose proof (count_app_ge (is_succeeded i) tr ext).
  pose proof (count_app_ge (is_timed_out i) tr ext).
  pose proof (count_app_ge (is_raised i) tr ext). lia.
Qed.

(** A poll of an element that has not reported an end leaves it with a
    timer, unless it reports a timeout. *)
Lemma polling_poll_self t0 s i d e :
  clocked cfg t0 s -> reports_timeouts cfg -> elements s !! i = Some e ->
  outcomes i (trace (poll cfg i d s)) = 0%nat ->
  exists tm, In tm (timers (poll cfg i d s)) /\ owner tm = i.
Proof.
  intros (_ & Hel & _) Hrep Hi. destruct (Hel i e Hi) as [Hmax _].
  unfold poll. rewrite Hi, Hmax.
  match goal with |- context [if ?b then _ else _] => destruct b eqn:Hex end.
  - rewrite destroy_element_trace. destruct Hrep as [Hcb|H0].
    + rewrite Hcb. cbn [trace log with_element]. rewrite outcomes_snoc. unfold ends. cbn.
      rewrite Nat.eqb_refl. cbn. lia.
    + rewrite H0 in Hex. discriminate Hex.
  - intros _. eexists. cbn [timers]. split; [apply in_or_app; right; now left|reflexivity].
Qed.

Lemma polling_fire conds t0 s id t :
  Inv W conds s -> clocked cfg t0 s -> no_reentrant_destroy W conds -> reports_timeouts cfg ->
  polling s -> polling (fire W cfg id t s).
Proof.
  intros HInv Hclk Hq Hrep Hpol. unfold fire.
  destruct (find_timer id s) as [tm'|] eqn:Hf; [|exact Hpol].
  destruct ((due tm' <=? t) && (now s <=? t)) eqn:Hok; [|exact Hpol].
  apply find_timer_spec in Hf as [Hin' <-].
  set (s1 := clearTimeout (tid tm') (at_time t s)).
  assert (HInv1 : Inv W conds s1) by (apply Inv_clearTimeout; now apply Inv_at_time).
  assert (Hclk1 : clocked cfg t0 s1).
  { apply andb_true_iff in Hok as [_ Hok]. apply Z.leb_le in Hok.
    destruct Hclk as (H1 & H2 & H3). split; [cbn; lia|]. split; [exact H2|exact H3]. }
  assert (Htot : total (timer_body W cfg (owner tm') (delay tm') s1) = total s).
  { pose proof (Inv_timer_body W cfg conds s1 (owner tm') (delay tm') HInv1
                  (idle_after_clear W conds s tm' t HInv Hin')) as HI2.
    rewrite (inv_total _ _ _ HI2). symmetry. apply (inv_total _ _ _ HInv). }
  intros i Hi H0. rewrite Htot in Hi.
  destruct (decide (owner tm' = i)) as [Heq|Hne].
  - subst i. destruct (inv_own _ _ _ HInv tm' Hin') as (e & He & Hw).
    assert (He1 : elements s1 !! owner tm' = Some e) by exact He.
    destruct (lookup_elm W conds s1 _ e HInv1 He1) as [Hc _].
    revert H0. unfold timer_body. rewrite He1, (Hq _ _ (now s1) Hc).
    destruct (verdict (expressionValidator W (now s1) (elm e))) as [[|]|err].
    + intros H0. exfalso. revert H0. unfold successCallback.
      match goal with |- context [if ?b then _ else _] => destruct b end;
        cbn [trace log]; rewrite ?outcomes_snoc; unfold ends; cbn; rewrite Nat.eqb_refl; cbn; lia.
    + now apply (polling_poll_self t0 s1 _ _ e).
    + intros H0. exfalso. revert H0. cbn [trace log]. rewrite outcomes_snoc. unfold ends. cbn.
      rewrite Nat.eqb_refl. cbn. lia.
  - assert (H0s : outcomes i (trace s) = 0%nat).
    { destruct (step_grows W cfg s (Fire (tid tm') t)) as [ext Hext].
      cbn [step] in Hext. unfold fire in Hext.
      rewrite (find_timer_In W conds s tm' HInv Hin'), Hok in Hext. fold s1 in Hext.
      rewrite Hext in H0. pose proof (outcomes_app_ge i (trace s) ext). lia. }
    destruct (Hpol i Hi H0s) as (tm & Htm & Howner).
    assert (Hdiff : tid tm <> tid tm').
    { intros Heq. assert (tm = tm'); [|congruence].
      now apply (NoDup_map_inj tid (timers s)); [apply (inv_nd_tid _ _ _ HInv)| | |]. }
    exists tm. split; [|exact Howner].
    apply (timer_body_keeps W cfg conds); auto.
    + cbn. apply filter_In. split; [exact Htm|].
      destruct (Nat.eqb_spec (tid tm) (tid tm')); [contradiction|reflexivity].
    + intros e1 He1. destruct (inv_own _ _ _ HInv tm' Hin') as (e' & He' & Hw).
      cbn in He1. rewrite He' in He1. injection He1 as <-. rewrite Hw. congruence.
Qed.

Lemma polling_run conds t0 sched : forall s,
  Inv W conds s -> clocked cfg t0 s -> no_reentrant_destroy W conds -> reports_timeouts cfg ->
  ~ In Destroy sched -> polling s -> polling (run W cfg sched s).
Proof.
  induction sched as [|a sched IH]; intros s HInv Hclk Hq Hrep Hnd Hpol; [exact Hpol|].
  cbn [run fold_left]. apply IH; auto.
  - now apply Inv_step.
  - now apply clocked_step.
  - intros Hin. apply Hnd. now right.
  - destruct a as [id t|]; [|exfalso; apply Hnd; now left].
    cbn [step]. now apply (polling_fire conds t0).
Qed.

Lemma polling_poll_all conds t0 n : forall k s,
  Inv W conds s -> clocked cfg t0 s -> unpolled_from cfg t0 k s -> fresh_from k s ->
  reports_timeouts cfg -> (k + n <= length (elements s))%nat ->
  (forall i, (i < k)%nat -> outcomes i (trace s) = 0%nat ->
     exists tm, In tm (timers s) /\ owner tm = i) ->
  forall i, (i < k + n)%nat ->
    outcomes i (trace (fold_left (fun s i => poll cfg i (wait cfg) s) (seq k n) s)) = 0%nat ->
    exists tm, In tm (timers (fold_left (fun s i => poll cfg i (wait cfg) s) (seq k n) s))
               /\ owner tm = i.
Proof.
  induction n as [|n IH]; intros k s HInv Hclk Hun Hfresh Hrep Hlen Hbefore i Hi H0.
  - cbn in *. apply Hbefore; [lia|exact H0].
  - cbn [seq fold_left] in *.
    assert (Hidle : idle k s).
    { destruct Hfresh as [Hs Hf]. destruct (Hf k (le_n k)) as [Hno Hc].
      repeat split; auto. rewrite Hs. intros []. }
    apply (IH (S k) (poll cfg k (wait cfg) s)); auto.
    + now apply Inv_poll.
    + now apply clocked_poll.
    + now apply unpolled_poll.
    + now apply fresh_poll.
    + rewrite (proj2 (poll_same cfg k (wait cfg) s)). lia.
    + intros j Hj H0j. destruct (decide (j = k)) as [->|Hne].
      * destruct (lookup_lt_is_Some_2 (elements s) k ltac:(lia)) as [e He].
        now apply (polling_poll_self t0 s k _ e).
      * destruct (poll_trace cfg k (wait cfg) s) as (ext & Hext & _).
        assert (H0s : outcomes j (trace s) = 0%nat).
        { rewrite Hext in H0j. pose proof (outcomes_app_ge j (trace s) ext). lia. }
        destruct (Hbefore j ltac:(lia) H0s) as (tm & Htm & Howner).
        exists tm. split; [|exact Howner].
        apply poll_keeps; [exact Htm|]. intros e' He'.
        destruct Hun as [_ Hun]. destruct (Hun k e' (le_n k) He') as (-> & _). discriminate.
    + lia.
Qed.

Lemma polling_poller conds t0 : reports_timeouts cfg -> polling (poller cfg conds t0).
Proof.
  intros Hrep i Hi. rewrite (inv_total _ _ _ (Inv_poller W cfg conds t0)) in Hi.
  unfold poller.
  set (s0 := State t0 (map (fun c => PollingElement c (timeout cfg) None None) conds)
                   [] [] 1%nat [] (length conds)).
  apply (polling_poll_all conds t0 (length conds) 0 s0); auto.
  - constructor; simpl.
    + reflexivity.
    + rewrite map_map. simpl. apply map_id.
    + lia.
    + intros tm [].
    + intros tm [].
    + constructor.
    + constructor.
    + constructor.
    + intros j [].
    + destruct (length conds); reflexivity.
    + intros j. split; [intros [t []] | intros []].
    + apply ordered_nil.
    + intros j t [].
    + intros j. unfold count. simpl. split; [lia | discriminate].
  - split; [cbn; lia|]. split; [|intros j t []].
    intros j e He. cbn [elements s0] in He.
    apply list_lookup_fmap_Some in He as (c & -> & _). split; [reflexivity|discriminate].
  - split; [reflexivity|]. intros j e _ He. cbn [elements s0] in He.
    apply list_lookup_fmap_Some in He as (c & -> & _). auto.
  - split; [reflexivity|]. intros j _. split; [intros tm []|reflexivity].
  - cbn. now rewrite length_map.
  - intros j Hj. lia.
Qed.

(** What the run of a pending timer does when the check is truthy. *)
Lemma fire_truthy conds s tm t c :
  Inv W conds s -> In tm (timers s) -> due tm <= t -> now s <= t ->
  conds !! owner tm = Some c -> verdict (expressionValidator W t c) = Ret true ->
  exists pre post,
    trace (fire W cfg (tid tm) t s) = trace s ++ pre ++ [Succeeded (owner tm) t] ++ post
    /\ count is_all_succeeded pre = 0%nat
    /\ (post = [] \/ post = [AllSucceeded t]).
Proof.
  intros HInv Htm Hdue Hnow Hc Hv. unfold fire.
  rewrite (find_timer_In W conds s tm HInv Htm).
  destruct (Z.leb_spec (due tm) t); [|lia]. destruct (Z.leb_spec (now s) t); [|lia].
  cbn [andb]. set (s1 := clearTimeout (tid tm) (at_time t s)).
  destruct (inv_own _ _ _ HInv tm Htm) as (e & He & _).
  assert (He1 : elements s1 !! owner tm = Some e) by exact He.
  destruct (lookup_elm W conds s _ e HInv He) as [Hce _].
  assert (elm e = c) by congruence. subst c.
  unfold timer_body. rewrite He1. change (now s1) with t. rewrite Hv.
  set (s2 := if destroys _ then _ else s1).
  assert (H2 : now s2 = t /\ exists pre, trace s2 = trace s ++ pre
                                          /\ count is_all_succeeded pre = 0%nat).
  { subst s2. destruct (destroys _).
    - rewrite destroy_all_trace. split.
      + unfold destroy_all.
        now destruct (destroy_fold_same (elements (log (Destroyed t) s1))
                        (log (Destroyed t) s1)) as (-> & _).
      + exists [Destroyed t]. split; reflexivity.
    - split; [reflexivity|]. exists []. split; [now rewrite app_nil_r|reflexivity]. }
  destruct H2 as (Hn2 & pre & Htr2 & Hpre).
  exists pre. unfold successCallback. rewrite Hn2.
  match goal with |- context [if ?b then _ else _] => destruct b end.
  - exists [AllSucceeded t]. cbn [trace log]. rewrite Htr2, <- !app_assoc. auto.
  - exists []. cbn [trace]. rewrite Htr2, <- !app_assoc. auto.
Qed.

Lemma count_app p (l1 l2 : list event) : count p (l1 ++ l2) = (count p l1 + count p l2)%nat.
Proof. unfold count. now rewrite List.filter_app, length_app. Qed.

Lemma count_pos p (tr : list event) :
  (0 < count p tr)%nat -> exists e, In e tr /\ p e = true.
Proof.
  unfold count. intros H. destruct (List.filter p tr) as [|e r] eqn:Hf; [cbn in H; lia|].
  exists e. apply (filter_In p e tr). rewrite Hf. now left.
Qed.

Lemma filter_others {A} (f : A -> nat) (x : A) (l : list A) :
  List.NoDup (map f (x :: l)) ->
  List.filter (fun y => negb (f y =? f x)%nat) (x :: l) = l.
Proof.
  intros Hnd. cbn [List.filter]. rewrite Nat.eqb_refl. cbn [negb].
  inversion Hnd as [|? ? Hx _]; subst. clear Hnd.
  induction l as [|y l IH]; [reflexivity|]. cbn [List.filter].
  destruct (Nat.eqb_spec (f y) (f x)) as [Heq|Hne].
  - exfalso. apply Hx. cbn [map]. left. exact Heq.
  - cbn [negb]. f_equal. apply IH. intros Hin. apply Hx. cbn [map]. now right.
Qed.

(** The run of the first pending timer, when its check is truthy, leaves
    the other timers as they are. *)
Lemma fire_truthy_timers conds s tm rest t c :
  Inv W conds s -> no_reentrant_destroy W conds -> timers s = tm :: rest ->
  due tm <= t -> now s <= t ->
  conds !! owner tm = Some c -> verdict (expressionValidator W t c) = Ret true ->
  timers (fire W cfg (tid tm) t s) = rest /\ now (fire W cfg (tid tm) t s) = t.
Proof.
  intros HInv Hq Htms Hdue Hnow Hc Hv.
  assert (Htm : In tm (timers s)) by (rewrite Htms; now left).
  unfold fire. rewrite (find_timer_In W conds s tm HInv Htm).
  destruct (Z.leb_spec (due tm) t); [|lia]. destruct (Z.leb_spec (now s) t); [|lia].
  cbn [andb]. set (s1 := clearTimeout (tid tm) (at_time t s)).
  assert (Hrest : timers s1 = rest).
  { cbn. rewrite Htms. apply (filter_others tid). rewrite <- Htms.
    apply (inv_nd_tid _ _ _ HInv). }
  destruct (inv_own _ _ _ HInv tm Htm) as (e & He & _).
  assert (He1 : elements s1 !! owner tm = Some e) by exact He.
  destruct (lookup_elm W conds s _ e HInv He) as [Hce _].
  assert (elm e = c) by congruence. subst c.
  unfold timer_body. rewrite He1. change (now s1) with t.
  rewrite (Hq _ _ t Hce), Hv.
  destruct (successCallback_other 0 (owner tm) s1) as (-> & _ & _).
  split; [exact Hrest|]. unfold successCallback.
  match goal with |- context [if ?b then _ else _] => destruct b end; reflexivity.
Qed.

(** Running every pending timer at a time at which every condition is
    truthy makes every element that had a timer succeed. *)
Lemma finish_succeeds conds t : forall l s,
  Inv W conds s -> no_reentrant_destroy W conds -> timers s = l ->
  (forall tm, In tm l -> due tm <= t) -> now s <= t ->
  (forall i c, conds !! i = Some c -> verdict (expressionValidator W t c) = Ret true) ->
  forall tm, In tm l ->
    In (Succeeded (owner tm) t) (trace (run W cfg (map (fun x => Fire (tid x) t) l) s)).
Proof.
  induction l as [|x rest IH]; intros s HInv Hq Htms Hdue Hnow Hall tm Hin; [destruct Hin|].
  cbn [map run fold_left step].
  assert (Hx : In x (timers s)) by (rewrite Htms; now left).
  destruct (inv_own _ _ _ HInv x Hx) as (e & He & _).
  destruct (lookup_elm W conds s _ e HInv He) as [Hc _].
  pose proof (Hall _ _ Hc) as Hv.
  destruct (fire_truthy_timers conds s x rest t (elm e) HInv Hq Htms
              (Hdue x (or_introl eq_refl)) Hnow Hc Hv) as [Hrest Hnow1].
  assert (HInv1 : Inv W conds (fire W cfg (tid x) t s)) by (now apply Inv_fire).
  fold (run W cfg (map (fun x => Fire (tid x) t) rest) (fire W cfg (tid x) t s)).
  destruct Hin as [<-|Hin].
  - destruct (fire_truthy conds s x t (elm e) HInv Hx (Hdue x (or_introl eq_refl)) Hnow Hc Hv)
      as (pre & post & Htr & _).
    destruct (run_grows W cfg (map (fun x => Fire (tid x) t) rest) (fire W cfg (tid x) t s))
      as [ext ->].
    rewrite Htr. apply in_or_app. left. apply in_or_app. right.
    apply in_or_app. right. now left.
  - apply IH; auto; [|lia]. intros y Hy. apply Hdue. now right.
Qed.

(** C1.  A session over a non-empty list of N conditions, after any
    sequence of timer runs and [destroy()] calls.  The success callback has
    been invoked at most once; it has been invoked exactly once if and only
    if each of the N conditions has evaluated truthy; in the trace it comes
    after the success of each of the N elements; and an element's success
    is an evaluation of its condition that returned truthy.  Every
    evaluation counts: the run of a pending timer, at any time [t] from
    which it may run, evaluates the condition of its element at [t], and if
    that is truthy the element succeeds at [t], and the success callback is
    invoked at [t] if every other element has succeeded before.  And no
    element is dropped: where no condition calls [destroy()], [destroy()]
    has not been called and timeouts are reported, an element that has
    neither succeeded, nor timed out, nor thrown has its timer pending; so
    if no element has timed out or thrown, the run of the pending timers
    at a time at which every condition is truthy completes the session and
    the success callback has been invoked exactly once. *)
Theorem poller_all_succeed_exactly_once (conds : list value) (t0 : Z) (sched : list action) :
  conds <> [] ->
  let s := run W cfg sched (poller cfg conds t0) in
  (count is_all_succeeded (trace s) <= 1)%nat
  /\ ((forall i, (i < length conds)%nat -> exists t, In (Succeeded i t) (trace s))
      <-> count is_all_succeeded (trace s) = 1%nat)
  /\ (forall l1 t l2, trace s = l1 ++ AllSucceeded t :: l2 ->
        forall i, (i < length conds)%nat -> exists t', In (Succeeded i t') l1)
  /\ (forall i t, In (Succeeded i t) (trace s) ->
        exists c, conds !! i = Some c /\ verdict (expressionValidator W t c) = Ret true)
  /\ (forall tm t, In tm (timers s) -> due tm <= t -> now s <= t ->
        exists c, conds !! owner tm = Some c
          /\ (verdict (expressionValidator W t c) = Ret true ->
              In (Succeeded (owner tm) t) (trace (fire W cfg (tid tm) t s))
              /\ ((forall j, (j < length conds)%nat -> j <> owner tm ->
                      exists t', In (Succeeded j t') (trace s)) ->
                  In (AllSucceeded t) (trace (fire W cfg (tid tm) t s))
                  /\ count is_all_succeeded (trace (fire W cfg (tid tm) t s)) = 1%nat)))
  /\ (no_reentrant_destroy W conds -> ~ In Destroy sched -> reports_timeouts cfg ->
      (forall i, (i < length conds)%nat -> outcomes i (trace s) = 0%nat ->
         exists tm, In tm (timers s) /\ owner tm = i)
      /\ ((forall i, count (is_timed_out i) (trace s) = 0%nat
                     /\ count (is_raised i) (trace s) = 0%nat) ->
          forall t, now s <= t -> (forall tm, In tm (timers s) -> due tm <= t) ->
            (forall i c, conds !! i = Some c ->
                         verdict (expressionValidator W t c) = Ret true) ->
            count is_all_succeeded
              (trace (run W cfg (map (fun tm => Fire (tid tm) t) (timers s)) s)) = 1%nat)).
Proof.
  intros Hne s. pose proof (Inv_reachable W cfg conds t0 sched) as HInv. fold s in HInv.
  destruct (all_succeeded_count W conds s HInv Hne) as [Hle Hiff].
  split; [exact Hle|]. split; [exact Hiff|]. split; [|split; [|split]].
  - intros l1 t l2 Htr i Hi. rewrite <- (inv_total _ _ _ HInv) in Hi.
    now apply (inv_ordered _ _ _ HInv l1 t l2).
  - exact (inv_truthy _ _ _ HInv).
  - intros tm t Htm Hdue Hnow.
    destruct (inv_own _ _ _ HInv tm Htm) as (e & He & _).
    destruct (lookup_elm W conds s _ e HInv He) as [Hc Hlt].
    exists (elm e). split; [exact Hc|]. intros Hv.
    destruct (fire_truthy conds s tm t (elm e) HInv Htm Hdue Hnow Hc Hv)
      as (pre & post & Htr & Hpre & Hpost).
    assert (Hin : In (Succeeded (owner tm) t) (trace (fire W cfg (tid tm) t s))).
    { rewrite Htr. apply in_or_app. right. apply in_or_app. right. now left. }
    split; [exact Hin|]. intros Hothers.
    assert (HInv' : Inv W conds (fire W cfg (tid tm) t s)) by (now apply Inv_fire).
    destruct (all_succeeded_count W conds _ HInv' Hne) as [_ Hiff'].
    assert (Hone : count is_all_succeeded (trace (fire W cfg (tid tm) t s)) = 1%nat).
    { apply Hiff'. intros j Hj. destruct (decide (j = owner tm)) as [->|Hjne]; [eauto|].
      destruct (Hothers j Hj Hjne) as [t' Ht']. exists t'. rewrite Htr.
      apply in_or_app. now left. }
    split; [|exact Hone].
    assert (Hzero : count is_all_succeeded (trace s) = 0%nat).
    { destruct (count is_all_succeeded (trace s)) as [|[|n]] eqn:Hcnt; [reflexivity| |lia].
      exfalso. destruct (proj2 Hiff eq_refl (owner tm)) as [t' Ht'].
      - now rewrite <- (inv_total _ _ _ HInv).
      - assert (Hs : In (owner tm) (succeeded s)) by (apply (inv_logged _ _ _ HInv); eauto).
        destruct (inv_succ _ _ _ HInv _ Hs) as [_ Hno]. now apply (Hno tm). }
    rewrite Htr in Hone |- *. rewrite !count_app, Hzero, Hpre in Hone.
    destruct Hpost as [->| ->]; [cbn in Hone; lia|].
    apply in_or_app. right. apply in_or_app. right. right. now left.
  - intros Hq Hnd Hrep.
    assert (Hpol : polling s).
    { apply (polling_run conds t0); auto.
      - apply Inv_poller.
      - apply clocked_poller.
      - now apply polling_poller. }
    split; [intros i Hi; apply Hpol; now rewrite (inv_total _ _ _ HInv)|].
    intros Hclean t Hnow Hdue Hall.
    set (fin := run W cfg (map (fun tm => Fire (tid tm) t) (timers s)) s).
    assert (HInvF : Inv W conds fin) by (now apply Inv_run).
    apply (all_succeeded_count W conds fin HInvF Hne). intros i Hi.
    destruct (outcomes i (trace s)) as [|n] eqn:Ho.
    + destruct (Hpol i) as (tm & Htm & <-); [now rewrite (inv_total _ _ _ HInv)|exact Ho|].
      exists t. now apply (finish_succeeds conds t (timers s) s).
    + destruct (Hclean i) as [Hto Hra]. unfold outcomes in Ho. rewrite Hto, Hra in Ho.
      destruct (count_pos (is_succeeded i) (trace s) ltac:(lia)) as (e & Hin & He).
      destruct e as [j t'| | | |]; try discriminate He. cbn in He.
      apply Nat.eqb_eq in He. subst j. exists t'.
      destruct (run_grows W cfg (map (fun tm => Fire (tid tm) t) (timers s)) s) as [ext Hext].
      fold fin in Hext. rewrite Hext. apply in_or_app. now left.
Qed.


End PollerMore.

(* ================================================================== *)
(** ** [destroyPollers] *)
(* ================================================================== *)

Section RegistryFacts.
Import Registry.

(** The callbacks a session has made so far. *)
Local Abbreviation callbacks p := (List.filter Poller.is_callback (Poller.trace p)).

Lemma no_timers_nil (s : Poller.state) :
  (forall tm, In tm (Poller.timers s) -> False) -> Poller.timers s = [].
Proof. destruct (Poller.timers s) as [|tm r]; [reflexivity|]. intros H. destruct (H tm). now left. Qed.

Lemma destroy_handle_spec W conds p :
  Poller.Inv W conds p ->
  Poller.Inv W conds (destroy_handle p)
  /\ Poller.timers (destroy_handle p) = []
  /\ callbacks (destroy_handle p) = callbacks p.
Proof.
  intros HI. unfold destroy_handle.
  assert (HI' : Poller.Inv W conds (Poller.log (Poller.Destroyed (Poller.now p)) p))
    by (apply Inv_log_other; [reflexivity|exact HI]).
  split; [now apply Inv_destroy_all|]. split; [now apply (destroy_all_clears W conds)|].
  rewrite destroy_all_trace. cbn [Poller.trace Poller.log].
  rewrite List.filter_app. cbn. apply app_nil_r.
Qed.

(** A session without timers stays without, and makes no callback. *)
Lemma inert_run W cfg sched : forall p,
  Poller.timers p = [] ->
  Poller.timers (Poller.run W cfg sched p) = []
  /\ callbacks (Poller.run W cfg sched p) = callbacks p.
Proof.
  induction sched as [|a sched IH]; intros p Hp; [now split|].
  cbn [Poller.run fold_left]. destruct a as [id t|]; cbn [Poller.step].
  - unfold Poller.fire, Poller.find_timer. rewrite Hp. cbn [List.find]. now apply IH.
  - fold (destroy_handle p).
    assert (Ht : Poller.timers (destroy_handle p) = []).
    { apply no_timers_nil. intros tm Hin. unfold destroy_handle, Poller.destroy_all in Hin.
      apply destroy_fold_timers in Hin as [Hin _]. cbn in Hin. now rewrite Hp in Hin. }
    destruct (IH _ Ht) as [H1 H2]. fold (Poller.run W cfg sched (destroy_handle p)) in *.
    split; [exact H1|]. rewrite H2. unfold destroy_handle.
    rewrite destroy_all_trace. cbn [Poller.trace Poller.log].
    rewrite List.filter_app. cbn. apply app_nil_r.
Qed.

Lemma destroy_handles hs : forall l,
  well_formed l ->
  let l' := fold_left (fun acc h => alter destroy_handle h acc) hs l in
  well_formed l'
  /\ (forall h, ~ In h hs -> l' !! h = l !! h)
  /\ (forall h p, l !! h = Some p ->
        exists p', l' !! h = Some p' /\ callbacks p' = callbacks p
                   /\ (In h hs -> Poller.timers p' = [])).
Proof.
  induction hs as [|h0 hs IH]; intros l Hwf.
  - cbn. split; [exact Hwf|]. split; [reflexivity|]. intros h p Hp. exists p. now repeat split.
  - cbn [fold_left].
    assert (Hwf1 : well_formed (alter destroy_handle h0 l)).
    { intros h p Hp. destruct (decide (h = h0)) as [->|Hne].
      - rewrite list_lookup_alter_eq in Hp. destruct (l !! h0) as [p0|] eqn:H0; cbn in Hp; [|discriminate Hp].
        injection Hp as <-. destruct (Hwf h0 p0 H0) as (W & conds & HI).
        exists W, conds. now apply destroy_handle_spec.
      - rewrite list_lookup_alter_ne in Hp by congruence. eauto. }
    destruct (IH _ Hwf1) as (Hwf' & Hout & Hin). split; [exact Hwf'|]. split.
    + intros h Hn. rewrite Hout by (intros H; apply Hn; now right).
      apply list_lookup_alter_ne. intros ->. apply Hn. now left.
    + intros h p Hp. destruct (decide (h = h0)) as [->|Hne].
      * destruct (Hwf h0 p Hp) as (W & conds & HI).
        destruct (destroy_handle_spec W conds p HI) as (_ & Htm & Hcb).
        destruct (Hin h0 (destroy_handle p)) as (p' & Hp' & Hcb' & Htm').
        { rewrite list_lookup_alter_eq, Hp. reflexivity. }
        exists p'. split; [exact Hp'|]. split; [congruence|]. intros _.
        destruct (in_dec Nat.eq_dec h0 hs) as [Hr|Hr]; [now apply Htm'|].
        rewrite Hout in Hp' by exact Hr. rewrite list_lookup_alter_eq, Hp in Hp'.
        injection Hp' as <-. exact Htm.
      * destruct (Hin h p) as (p' & Hp' & Hcb' & Htm').
        { rewrite list_lookup_alter_ne by congruence. exact Hp. }
        exists p'. split; [exact Hp'|]. split; [exact Hcb'|].
        intros [Heq|Hr]; [congruence|now apply Htm'].
Qed.

(** X8.  destroyPollers(ID), called between two timer runs (not from inside
    a condition that one of the sessions is evaluating), leaves every poller
    session listed for the experiment without a timer, so that none of them
    ever invokes a callback again whatever the browser runs; sessions not
    listed are untouched, the experiment's list becomes empty, and a second
    call changes nothing. *)
Theorem destroyPollers_stops_every_session (ID : string) (s : state) (pollers : list nat) :
  experiments s !! ID = Some pollers ->
  (forall h p, sessions s !! h = Some p -> exists W conds, Poller.Inv W conds p) ->
  let s' := destroyPollers ID s in
  (forall h p, In h pollers -> sessions s !! h = Some p ->
     exists p', sessions s' !! h = Some p' /\ Poller.timers p' = []
       /\ forall W cfg sched,
            Poller.timers (Poller.run W cfg sched p') = []
            /\ callbacks (Poller.run W cfg sched p') = callbacks p)
  /\ (forall h, ~ In h pollers -> sessions s' !! h = sessions s !! h)
  /\ experiments s' = <[ID := []]> (experiments s)
  /\ destroyPollers ID s' = s'.
Proof.
  intros HID Hwf s'. unfold s', destroyPollers. rewrite HID.
  destruct (destroy_handles pollers (sessions s) Hwf) as (_ & Hout & Hin).
  cbn [sessions experiments]. split; [|split; [exact Hout|split; [reflexivity|]]].
  - intros h p Hh Hp. destruct (Hin h p Hp) as (p' & Hp' & Hcb & Htm).
    exists p'. split; [exact Hp'|]. split; [now apply Htm|]. intros W cfg sched.
    destruct (inert_run W cfg sched p' (Htm Hh)) as [H1 H2]. split; [exact H1|congruence].
  - rewrite lookup_insert_eq. cbn [fold_left]. now rewrite insert_insert_eq.
Qed.

End RegistryFacts.

(* ================================================================== *)
(** ** [pollerLite]: results, exceptions, first re-check, progress *)
(* ================================================================== *)

Section LiteMore.
Import Lite Progress.
Variable W : world.
Variable opts : options.
Variable conditions : list value.

Local Abbreviation pollForCondition := (Lite.pollForCondition W conditions).
Local Abbreviation run := (Lite.run W opts conditions).
Local Abbreviation pollerLite := (Lite.pollerLite W opts conditions).

Lemma split_snoc {A} (tr : list A) e l1 x l2 :
  tr ++ [e] = l1 ++ x :: l2 ->
  (l2 = [] /\ tr = l1 /\ e = x) \/ (exists l2', l2 = l2' ++ [e] /\ tr = l1 ++ x :: l2').
Proof.
  destruct (exists_last (l := x :: l2) ltac:(discriminate)) as (m & y & Hm).
  intros H. rewrite Hm, app_assoc in H. apply app_inj_tail in H as [H <-].
  destruct l2 as [|z l2].
  - left. destruct m as [|? [|]]; try discriminate Hm.
    + injection Hm as <-. rewrite app_nil_r in H. auto.
  - right. destruct (exists_last (l := z :: l2) ltac:(discriminate)) as (m' & y' & Hm').
    rewrite Hm' in Hm. change (x :: m' ++ [y']) with ((x :: m') ++ [y']) in Hm.
    apply app_inj_tail in Hm as [<- <-]. exists m'. split; [exact Hm'|exact H].
Qed.

Lemma passed_results_snoc tr e :
  passed_results (tr ++ [e])
  = passed_results tr ++ match e with Passed _ v _ => [v] | _ => [] end.
Proof. unfold passed_results. rewrite flat_map_app. cbn. now rewrite app_nil_r. Qed.

Lemma in_passed_results v tr :
  In v (passed_results tr) -> exists i t, In (Passed i v t) tr.
Proof.
  unfold passed_results. intros Hin. apply in_flat_map in Hin as (e & He & Hv).
  destruct e as [i v' t| |]; try contradiction. destruct Hv as [<-|[]]. now exists i, t.
Qed.

Lemma results_agree_same s s' :
  successfulConditions s' = successfulConditions s -> trace s' = trace s ->
  total s' = total s -> results_agree s -> results_agree s'.
Proof. intros H1 H2 H3 [Ha Hb]. unfold results_agree. now rewrite H1, H2, H3. Qed.

Lemma results_agree_log s e :
  (forall rs t, e <> Called rs t) -> (forall i v t, e <> Passed i v t) ->
  results_agree s -> results_agree (log e s).
Proof.
  intros Hc Hp [Ha Hb]. split; cbn [successfulConditions trace log total].
  - rewrite passed_results_snoc, Ha. destruct e as [i v t| |]; try now rewrite app_nil_r.
    now destruct (Hp i v t).
  - intros l1 rs t l2 Heq. apply split_snoc in Heq as [(_ & _ & He)|(l2' & _ & Htr)].
    + now destruct (Hc rs t).
    + now apply (Hb l1 rs t l2').
Qed.

Lemma results_agree_poll i w skip s :
  results_agree s -> results_agree (fst (pollForCondition i w skip s)).
Proof.
  intros Hr. pose proof Hr as [Ha Hb]. unfold Lite.pollForCondition.
  destruct (isTimedOut s); [exact Hr|].
  destruct (conditions !! i) as [c|]; [|exact Hr].
  destruct (evaluateCondition W (now s) c) as [result|e]; cbn [fst].
  - destruct (truthy result).
    + set (s1 := State _ _ (successfulConditions s ++ [result]) _ _ _ _ _).
      assert (H1 : results_agree s1).
      { split; cbn [successfulConditions trace total s1].
        - now rewrite passed_results_snoc, Ha.
        - intros l1 rs t l2 Heq. apply split_snoc in Heq as [(_ & _ & He)|(l2' & _ & Htr)].
          + discriminate He.
          + now apply (Hb l1 rs t l2'). }
      destruct (length (successfulConditions s1) =? total s1)%nat eqn:Hall; cbn [fst];
        [|exact H1].
      apply Nat.eqb_eq in Hall. destruct H1 as [Ha1 Hb1]. split; cbn [successfulConditions trace log total].
      * rewrite passed_results_snoc, app_nil_r. exact Ha1.
      * intros l1 rs t l2 Heq. apply split_snoc in Heq as [(_ & <- & He)|(l2' & _ & Htr)].
        -- injection He as <- _. split; [exact Ha1|exact Hall].
        -- now apply (Hb1 l1 rs t l2').
    + revert Hr. now apply results_agree_same.
  - apply results_agree_log; [discriminate|discriminate|exact Hr].
Qed.

Lemma results_agree_fire s a : results_agree s -> results_agree (fire W opts conditions s a).
Proof.
  intros Hr. destruct a as [id t]. unfold fire.
  destruct (find_timer id s) as [tm|]; [|exact Hr].
  destruct ((due tm <=? t) && (now s <=? t)); [|exact Hr].
  apply results_agree_poll. revert Hr. now apply results_agree_same.
Qed.

Lemma results_agree_run sched : forall s, results_agree s -> results_agree (run sched s).
Proof.
  induction sched as [|a sched IH]; intros s Hr; [exact Hr|].
  cbn [Lite.run fold_left]. apply IH, results_agree_fire, Hr.
Qed.

Lemma results_agree_start indices : forall s,
  results_agree s -> results_agree (start W opts conditions indices s).
Proof.
  induction indices as [|i r IH]; intros s Hr; [exact Hr|].
  cbn [start]. pose proof (results_agree_poll i (wait opts) true s Hr) as H1.
  destruct (pollForCondition i (wait opts) true s) as [s1 threw]. cbn [fst] in H1.
  destruct threw; [exact H1|now apply IH].
Qed.

(** X9.  Whenever pollerLite invokes the callback, its argument holds the
    results of the conditions in the order in which they passed (not the order
    of the conditions array); it has one result per condition and every result
    is truthy. *)
Theorem pollerLite_callback_gets_results_in_pass_order
    (t0 : Z) (sched : list (nat * Z)) (l1 l2 : list event) (rs : list value) (t : Z) :
  trace (run sched (pollerLite t0)) = l1 ++ Called rs t :: l2 ->
  rs = passed_results l1
  /\ length rs = length conditions
  /\ forall v, In v rs -> truthy v = true.
Proof.
  intros Htr.
  assert (Hr : results_agree (run sched (pollerLite t0))).
  { apply results_agree_run, results_agree_start. split; [reflexivity|].
    intros [|] ? ? ? H; discriminate H. }
  destruct Hr as [_ Hb]. destruct (Hb l1 rs t l2 Htr) as [Hrs Hlen].
  pose proof (lite_Inv_reachable W opts conditions t0 sched) as HI.
  split; [exact Hrs|]. split; [rewrite Hlen; apply HI|].
  intros v Hv. rewrite Hrs in Hv. apply in_passed_results in Hv as (i & t' & Hin).
  destruct HI as [_ _ _ _ _ _ _ _ Htruthy].
  destruct (Htruthy i v t') as (_ & c & _ & _ & Hv).
  - rewrite Htr. apply in_or_app. now left.
  - exact Hv.
Qed.


(** *** An exception in the starting loop *)

Lemma poll_clock i w skip s :
  now (fst (pollForCondition i w skip s)) = now s
  /\ deadline (fst (pollForCondition i w skip s)) = deadline s
  /\ total (fst (pollForCondition i w skip s)) = total s.
Proof.
  unfold Lite.pollForCondition. destruct (isTimedOut s); [auto|].
  destruct (conditions !! i) as [c|]; [|auto].
  destruct (evaluateCondition W (now s) c) as [v|e]; [|auto].
  destruct (truthy v); [|auto].
  match goal with |- context [if ?b then _ else _] => destruct b end; auto.
Qed.

Lemma poll_timed_out i w skip s :
  isTimedOut (fst (pollForCondition i w skip s)) = isTimedOut s.
Proof.
  destruct (poll_clock i w skip s) as (Hn & Hd & _). unfold isTimedOut. now rewrite Hn, Hd.
Qed.

Lemma fresh_poll_below j i w skip s :
  (i < j)%nat -> Lite.fresh_from j s -> Lite.fresh_from j (fst (pollForCondition i w skip s)).
Proof.
  intros Hij Hf. unfold Lite.pollForCondition. destruct (isTimedOut s); [exact Hf|].
  destruct (conditions !! i) as [c|]; [|exact Hf].
  destruct (evaluateCondition W (now s) c) as [v|e]; cbn [fst]; [|exact Hf].
  destruct (truthy v).
  - assert (Hs1 : forall k, (j <= k)%nat ->
              Lite.no_timer_of k s /\ ~ In k (passed s ++ [i])).
    { intros k Hk. destruct (Hf k Hk) as [H1 H2]. split; [exact H1|].
      intros Hin. apply in_app_or in Hin as [Hin|[<-|[]]]; [contradiction|lia]. }
    match goal with |- context [if ?b then _ else _] => destruct b end; exact Hs1.
  - intros k Hk. destruct (Hf k Hk) as [H1 H2]. split; [|exact H2].
    intros tm Hin. cbn [timers] in Hin.
    apply in_app_or in Hin as [Hin|[<-|[]]]; [now apply H1|]. cbn [idx]. lia.
Qed.

Lemma fresh_fire j s a :
  Lite.fresh_from j s -> Lite.fresh_from j (fire W opts conditions s a).
Proof.
  intros Hf. destruct a as [id t]. unfold fire.
  destruct (find_timer id s) as [tm|] eqn:Hfind; [|exact Hf].
  destruct ((due tm <=? t) && (now s <=? t)); [|exact Hf].
  apply List.find_some in Hfind as [Hin _].
  apply fresh_poll_below.
  - destruct (Nat.lt_ge_cases (idx tm) j) as [Hlt|Hge]; [exact Hlt|].
    destruct (Hf (idx tm) Hge) as [Hno _]. now destruct (Hno tm Hin).
  - intros k Hk. destruct (Hf k Hk) as [H1 H2]. split; [|exact H2].
    intros x Hx. cbn [timers] in Hx. apply List.filter_In in Hx as [Hx _]. now apply H1.
Qed.

Lemma fresh_run j sched : forall s,
  Lite.fresh_from j s -> Lite.fresh_from j (run sched s).
Proof.
  induction sched as [|a sched IH]; intros s Hf; [exact Hf|].
  cbn [Lite.run fold_left]. apply IH, fresh_fire, Hf.
Qed.

Lemma start_stops_at_exception (t0 : Z) (j : nat) (c : value) (e : error) :
  conditions !! j = Some c ->
  evaluateCondition W t0 c = Throw e ->
  (forall i c', (i < j)%nat -> conditions !! i = Some c' ->
                exists v, evaluateCondition W t0 c' = Ret v) ->
  forall d k s, j = (k + d)%nat ->
    now s = t0 -> isTimedOut s = false -> Lite.fresh_from k s ->
    let s' := start W opts conditions (seq k (length conditions - k)) s in
    Lite.fresh_from j s' /\ In (Raised j e t0) (trace s').
Proof.
  intros Hj He Hbefore.
  assert (HjN : (j < length conditions)%nat) by (eapply lookup_lt_Some; eauto).
  induction d as [|d IH]; intros k s Hk Hnow Hto Hf.
  - rewrite Nat.add_0_r in Hk. subst k.
    destruct (length conditions - j)%nat as [|n] eqn:Hn; [lia|].
    cbn [seq start]. unfold Lite.pollForCondition. rewrite Hto, Hj, Hnow, He.
    split; [exact Hf|]. cbn [trace log]. apply in_or_app. right. now left.
  - destruct (length conditions - k)%nat as [|n] eqn:Hn; [lia|].
    cbn [seq start].
    destruct (conditions !! k) as [c'|] eqn:Hc'; [|apply lookup_ge_None in Hc'; lia].
    destruct (Hbefore k c' ltac:(lia) Hc') as [v Hv].
    pose proof (lite_fresh_poll W conditions k (wait opts) true s Hf) as Hf1.
    pose proof (poll_clock k (wait opts) true s) as (Hn1 & _).
    pose proof (poll_timed_out k (wait opts) true s) as Hto1.
    assert (Hthrew : snd (pollForCondition k (wait opts) true s) = false).
    { unfold Lite.pollForCondition. rewrite Hto, Hc', Hnow, Hv.
      destruct (truthy v); [|reflexivity].
      match goal with |- context [if ?b then _ else _] => destruct b end; reflexivity. }
    destruct (pollForCondition k (wait opts) true s) as [s1 threw].
    cbn [fst snd] in *. subst threw.
    replace n with (length conditions - S k)%nat by lia.
    apply IH; [lia|congruence|congruence|exact Hf1].
Qed.

(** X10.  If the first evaluation of a condition throws while pollerLite
    starts its conditions (the timeout is not negative and the conditions
    before it returned), the exception ends the loop: that condition and the
    ones after it never pass and never get a timer, and the callback is never
    invoked, whatever the schedule. *)
Theorem pollerLite_exception_aborts_start
    (t0 : Z) (j : nat) (c : value) (e : error) (sched : list (nat * Z)) :
  0 <= timeout opts ->
  conditions !! j = Some c ->
  evaluateCondition W t0 c = Throw e ->
  (forall i c', (i < j)%nat -> conditions !! i = Some c' ->
                exists v, evaluateCondition W t0 c' = Ret v) ->
  let s := run sched (pollerLite t0) in
  In (Raised j e t0) (trace s)
  /\ (forall i, (j <= i)%nat -> ~ In i (passed s) /\ Lite.no_timer_of i s)
  /\ Lite.count is_called (trace s) = 0%nat.
Proof.
  intros HT Hj He Hbefore s.
  assert (HjN : (j < length conditions)%nat) by (eapply lookup_lt_Some; eauto).
  destruct (start_stops_at_exception t0 j c e Hj He Hbefore j 0%nat
              (State t0 (if timeout opts =? 0 then None else Some (t0 + timeout opts))
                     [] [] [] 1%nat [] (length conditions)))
    as [Hf0 Hin0]; [reflexivity|reflexivity| | |].
  { unfold isTimedOut. cbn [deadline now]. destruct (timeout opts =? 0); [reflexivity|].
    apply Z.ltb_ge. lia. }
  { intros i _. split; [intros tm []|intros []]. }
  rewrite Nat.sub_0_r in Hf0, Hin0. fold (pollerLite t0) in Hf0, Hin0.
  pose proof (fresh_run j sched _ Hf0) as Hf. fold s in Hf.
  pose proof (lite_Inv_reachable W opts conditions t0 sched) as HI. fold s in HI.
  split; [|split].
  - unfold s. clear -Hin0. revert Hin0. generalize (pollerLite t0). 
    induction sched as [|a sched IH]; intros s0 Hin; [exact Hin|].
    cbn [Lite.run fold_left]. apply IH.
    destruct a as [id t]. unfold fire. destruct (find_timer id s0) as [tm|]; [|exact Hin].
    destruct ((due tm <=? t) && (now s0 <=? t)); [|exact Hin].
    unfold Lite.pollForCondition. cbn [isTimedOut deadline now].
    match goal with |- context [isTimedOut ?x] => destruct (isTimedOut x) end; [exact Hin|].
    destruct (conditions !! idx tm) as [c'|]; [|exact Hin].
    match goal with |- context [evaluateCondition ?a ?b ?c] =>
      destruct (evaluateCondition a b c) as [v|e'] end; cbn [fst].
    + destruct (truthy v); [|exact Hin].
      match goal with |- context [if ?b then _ else _] => destruct b end;
        cbn [fst trace log]; repeat (apply in_or_app; left); exact Hin.
    + cbn [trace log]. apply in_or_app. now left.
  - intros i Hi. destruct (Hf i Hi) as [H1 H2]. now split.
  - destruct HI as [Htot _ _ Hpnd Hpassed _ Hcnt _ _]. rewrite Hcnt.
    assert (Hlt : (length (passed s) < total s)%nat).
    { apply (fewer_than_total _ _ j); auto.
      - intros k Hk. now apply Hpassed.
      - lia.
      - apply (Hf j). lia. }
    replace (length (passed s) =? total s)%nat with false
      by (symmetry; apply Nat.eqb_neq; lia).
    now rewrite andb_false_r.
Qed.


(** *** The first re-check *)

Lemma immediate_poll (t0 : Z) i s :
  immediate W opts conditions t0 s ->
  immediate W opts conditions t0 (fst (pollForCondition i (wait opts) true s)).
Proof.
  intros [Hnow Htm]. unfold Lite.pollForCondition. destruct (isTimedOut s); [now split|].
  destruct (conditions !! i) as [c|] eqn:Hc; [|now split].
  destruct (evaluateCondition W (now s) c) as [v|e] eqn:Hev; cbn [fst]; [|now split].
  destruct (truthy v) eqn:Hv.
  - match goal with |- context [if ?b then _ else _] => destruct b end; now split.
  - split; [exact Hnow|]. intros tm Hin. cbn [timers] in Hin.
    apply in_app_or in Hin as [Hin|[<-|[]]]; [now apply Htm|].
    cbn [due waitTime idx]. split; [lia|]. split; [reflexivity|].
    exists c, v. rewrite <- Hnow. auto.
Qed.

Lemma immediate_start (t0 : Z) indices : forall s,
  immediate W opts conditions t0 s ->
  immediate W opts conditions t0 (start W opts conditions indices s).
Proof.
  induction indices as [|i r IH]; intros s Hp; [exact Hp|].
  cbn [start]. pose proof (immediate_poll t0 i s Hp) as H1.
  destruct (pollForCondition i (wait opts) true s) as [s1 threw]. cbn [fst] in H1.
  destruct threw; [exact H1|now apply IH].
Qed.

(** X11.  When pollerLite returns, every timer it has set belongs to a
    condition that it has checked and found not truthy, is due at once, with
    no delay, whatever wait is, and carries wait as its waiting time: the
    first re-check of a condition is immediate. *)
Theorem pollerLite_first_retry_is_immediate (t0 : Z) (tm : timer) :
  In tm (timers (pollerLite t0)) ->
  now (pollerLite t0) = t0
  /\ due tm = t0
  /\ waitTime tm = wait opts
  /\ exists c v, conditions !! idx tm = Some c
                /\ evaluateCondition W t0 c = Ret v /\ truthy v = false.
Proof.
  intros Hin.
  destruct (immediate_start t0 (seq 0 (length conditions))
              (State t0 (if timeout opts =? 0 then None else Some (t0 + timeout opts))
                     [] [] [] 1%nat [] (length conditions))) as [Hnow Htm].
  { split; [reflexivity|]. intros x []. }
  fold (pollerLite t0) in Hnow, Htm. split; [exact Hnow|]. now apply Htm.
Qed.

(** *** No condition is dropped before the deadline *)

Lemma handles_poll i w skip s :
  handles_unique s -> handles_unique (fst (pollForCondition i w skip s)).
Proof.
  intros Hu. unfold Lite.pollForCondition. destruct (isTimedOut s); [exact Hu|].
  destruct (conditions !! i) as [c|]; [|exact Hu].
  destruct (evaluateCondition W (now s) c) as [v|e]; cbn [fst]; [|exact Hu].
  destruct (truthy v).
  - match goal with |- context [if ?b then _ else _] => destruct b end; exact Hu.
  - destruct Hu as [Hnd Hlt]. split; cbn [fst timers next_id].
    + rewrite map_app. cbn [map tid]. apply NoDup_snoc; [exact Hnd|].
      intros Hin. apply in_map_iff in Hin as (x & Hx & Hxin). apply Hlt in Hxin. lia.
    + intros tm Hin. apply in_app_or in Hin as [Hin|[<-|[]]]; [apply Hlt in Hin; lia|].
      cbn [tid]. lia.
Qed.

Lemma progress_poll i w skip s :
  never_throws W conditions -> isTimedOut s = false -> (i < length conditions)%nat ->
  in_progress i (fst (pollForCondition i w skip s))
  /\ forall j, in_progress j s -> in_progress j (fst (pollForCondition i w skip s)).
Proof.
  intros Hnt Hto Hi. unfold Lite.pollForCondition. rewrite Hto.
  destruct (conditions !! i) as [c|] eqn:Hc; [|apply lookup_ge_None in Hc; lia].
  destruct (Hnt i c (now s) Hc) as [v ->].
  destruct (truthy v).
  - assert (H1 : In i (passed s ++ [i])) by (apply in_or_app; right; now left).
    assert (H2 : forall j, in_progress j s ->
              In j (passed s ++ [i]) \/ exists tm, In tm (timers s) /\ idx tm = j).
    { intros j [Hp|Ht]; [left; apply in_or_app; now left|now right]. }
    match goal with |- context [if ?b then _ else _] => destruct b end;
      cbn [fst]; (split; [left; exact H1|exact H2]).
  - cbn [fst]. split.
    + right. eexists. split; [cbn [timers]; apply in_or_app; right; now left|reflexivity].
    + intros j [Hp|(tm & Hin & Hidx)]; [now left|].
      right. exists tm. split; [cbn [timers]; apply in_or_app; now left|exact Hidx].
Qed.

Lemma kept_fire s a :
  never_throws W conditions -> kept conditions s -> kept conditions (fire W opts conditions s a).
Proof.
  intros Hnt Hk. pose proof Hk as (Htot & Hu & Hall). destruct a as [id t]. unfold fire.
  destruct (find_timer id s) as [tm|] eqn:Hfind; [|exact Hk].
  destruct ((due tm <=? t) && (now s <=? t)) eqn:Hok; [|exact Hk].
  apply andb_true_iff in Hok as [_ Hok]. apply Z.leb_le in Hok.
  apply List.find_some in Hfind as [Hin Hid]. apply Nat.eqb_eq in Hid. subst id.
  set (s0 := State t _ _ _ _ _ _ _).
  destruct (poll_clock (idx tm) (waitTime tm * multiplier opts)%Q false s0)
    as (Hn & Hd & Ht).
  split; [rewrite Ht; exact Htot|]. split.
  { apply handles_poll. destruct Hu as [Hnd Hlt]. split; cbn [timers next_id s0].
    - now apply NoDup_map_filter.
    - intros x Hx. apply List.filter_In in Hx as [Hx _]. now apply Hlt. }
  rewrite (poll_timed_out). intros Hto0.
  assert (Hto : isTimedOut s = false).
  { unfold isTimedOut in *. cbn [deadline now s0] in Hto0.
    destruct (deadline s) as [d|]; [|reflexivity].
    apply Z.ltb_ge in Hto0. apply Z.ltb_ge. lia. }
  specialize (Hall Hto). intros i Hi. rewrite Ht in Hi. cbn [total s0] in Hi.
  assert (Hkeep : i <> idx tm -> in_progress i s0).
  { intros Hne. destruct (Hall i Hi) as [Hp|(x & Hx & Hidx)]; [now left|].
    right. exists x. split; [|exact Hidx]. cbn [timers s0].
    apply List.filter_In. split; [exact Hx|].
    apply negb_true_iff, Nat.eqb_neq. intros Heq.
    destruct Hu as [Hnd _].
    assert (x = tm) by (eapply (NoDup_map_inj tid); eauto). congruence. }
  destruct (Nat.lt_ge_cases (idx tm) (length conditions)) as [Hlt|Hge].
  - destruct (progress_poll (idx tm) (waitTime tm * multiplier opts)%Q false s0 Hnt Hto0 Hlt)
      as [Hself Hothers].
    destruct (decide (i = idx tm)) as [->|Hne]; [exact Hself|now apply Hothers, Hkeep].
  - unfold Lite.pollForCondition. rewrite Hto0.
    rewrite (proj2 (lookup_ge_None conditions (idx tm)) Hge). cbn [fst].
    apply Hkeep. lia.
Qed.

Lemma kept_run sched : forall s,
  never_throws W conditions -> kept conditions s -> kept conditions (run sched s).
Proof.
  induction sched as [|a sched IH]; intros s Hnt Hk; [exact Hk|].
  cbn [Lite.run fold_left]. apply IH; [exact Hnt|now apply kept_fire].
Qed.

Lemma kept_start n : forall k s,
  never_throws W conditions -> (k + n = length conditions)%nat ->
  total s = length conditions -> handles_unique s ->
  (isTimedOut s = false -> forall i, (i < k)%nat -> in_progress i s) ->
  kept conditions (start W opts conditions (seq k n) s).
Proof.
  induction n as [|n IH]; intros k s Hnt Hkn Htot Hu Hall.
  - cbn [seq start]. split; [exact Htot|]. split; [exact Hu|].
    intros Hto i Hi. apply Hall; [exact Hto|lia].
  - cbn [seq start].
    destruct (poll_clock k (wait opts) true s) as (_ & _ & Ht).
    pose proof (poll_timed_out k (wait opts) true s) as Hto1.
    pose proof (handles_poll k (wait opts) true s Hu) as Hu1.
    assert (Hthrew : snd (pollForCondition k (wait opts) true s) = false).
    { unfold Lite.pollForCondition. destruct (isTimedOut s); [reflexivity|].
      destruct (conditions !! k) as [c|] eqn:Hc; [|reflexivity].
      destruct (Hnt k c (now s) Hc) as [v ->].
      destruct (truthy v); [|reflexivity].
      match goal with |- context [if ?b then _ else _] => destruct b end; reflexivity. }
    assert (Hprog : isTimedOut s = false ->
              forall i, (i < S k)%nat -> in_progress i (fst (pollForCondition k (wait opts) true s))).
    { intros Hto i Hi.
      destruct (progress_poll k (wait opts) true s Hnt Hto ltac:(lia)) as [Hself Hothers].
      destruct (decide (i = k)) as [->|Hne]; [exact Hself|].
      apply Hothers, Hall; [exact Hto|lia]. }
    destruct (pollForCondition k (wait opts) true s) as [s1 threw].
    cbn [fst snd] in *. subst threw.
    apply IH; [exact Hnt|lia|congruence|exact Hu1|].
    rewrite Hto1. exact Hprog.
Qed.

(** X12.  If no condition ever throws, then as long as the deadline has not
    passed (always, when timeout is 0) every condition of pollerLite has
    either passed or has a timer pending for its next check: none is dropped. *)
Theorem pollerLite_keeps_polling_until_deadline
    (t0 : Z) (sched : list (nat * Z)) (i : nat) :
  never_throws W conditions ->
  let s := run sched (pollerLite t0) in
  Lite.before_deadline s (now s) ->
  (i < length conditions)%nat ->
  In i (passed s) \/ exists tm, In tm (timers s) /\ idx tm = i.
Proof.
  intros Hnt s Hbefore Hi.
  assert (Hk : kept conditions s).
  { apply kept_run; [exact Hnt|]. apply kept_start; auto.
    - split; [constructor|intros tm []].
    - intros _ j Hj. lia. }
  destruct Hk as (Htot & _ & Hall). apply Hall; [|lia].
  unfold isTimedOut, Lite.before_deadline in *.
  destruct (deadline s) as [d|]; [|reflexivity]. apply Z.ltb_ge. lia.
Qed.


(** *** Every check counts *)

Lemma lite_poll_grows i w skip s :
  exists ext, trace (fst (pollForCondition i w skip s)) = trace s ++ ext.
Proof.
  unfold Lite.pollForCondition. destruct (isTimedOut s); [exists []; now rewrite app_nil_r|].
  destruct (conditions !! i) as [c|]; [|exists []; now rewrite app_nil_r].
  destruct (evaluateCondition W (now s) c) as [v|e]; cbn [fst]; [|cbn; eauto].
  destruct (truthy v); [|exists []; now rewrite app_nil_r].
  match goal with |- context [if ?b then _ else _] => destruct b end; cbn [fst trace log].
  - rewrite <- app_assoc. eauto.
  - eauto.
Qed.

Lemma lite_fire_grows s a : exists ext, trace (fire W opts conditions s a) = trace s ++ ext.
Proof.
  destruct a as [id t]. unfold fire.
  destruct (find_timer id s) as [tm|]; [|exists []; now rewrite app_nil_r].
  destruct ((due tm <=? t) && (now s <=? t)); [|exists []; now rewrite app_nil_r].
  match goal with |- context [Lite.pollForCondition _ _ ?i ?w ?k ?x] =>
    destruct (lite_poll_grows i w k x) as [ext Hext] end.
  exists ext. exact Hext.
Qed.

Lemma lite_run_grows sched : forall s, exists ext, trace (run sched s) = trace s ++ ext.
Proof.
  induction sched as [|a sched IH]; intros s; [exists []; now rewrite app_nil_r|].
  destruct (IH (fire W opts conditions s a)) as [ext2 H2].
  destruct (lite_fire_grows s a) as [ext1 H1]. exists (ext1 ++ ext2).
  cbn [Lite.run fold_left]. unfold Lite.run in H2. now rewrite H2, H1, <- app_assoc.
Qed.

Lemma lite_start_grows indices : forall s,
  exists ext, trace (start W opts conditions indices s) = trace s ++ ext.
Proof.
  induction indices as [|i r IH]; intros s; [exists []; now rewrite app_nil_r|].
  cbn [start]. destruct (lite_poll_grows i (wait opts) true s) as [ext1 H1].
  destruct (pollForCondition i (wait opts) true s) as [s1 threw]. cbn [fst] in H1.
  destruct threw; [eauto|]. destruct (IH s1) as [ext2 ->]. rewrite H1, <- app_assoc. eauto.
Qed.

(** A truthy check, before the deadline, is a pass. *)
Lemma lite_poll_passes i w skip s c v :
  isTimedOut s = false -> conditions !! i = Some c ->
  evaluateCondition W (now s) c = Ret v -> truthy v = true ->
  snd (pollForCondition i w skip s) = false
  /\ exists post,
       trace (fst (pollForCondition i w skip s)) = trace s ++ [Passed i v (now s)] ++ post
       /\ (post = [] \/ exists rs, post = [Called rs (now s)]).
Proof.
  intros Hto Hc Hev Htr. unfold Lite.pollForCondition. rewrite Hto, Hc, Hev, Htr.
  match goal with |- context [if ?b then _ else _] => destruct b end; cbn [fst snd trace log].
  - split; [reflexivity|]. eexists. rewrite <- app_assoc. split; [reflexivity|]. right. eauto.
  - split; [reflexivity|]. exists []. split; [reflexivity|]. now left.
Qed.

(** Every timer polls a condition of the session. *)
Lemma indexed_poll i w skip s :
  (forall tm, In tm (timers s) -> (idx tm < length conditions)%nat) ->
  forall tm, In tm (timers (fst (pollForCondition i w skip s))) ->
             (idx tm < length conditions)%nat.
Proof.
  intros H. unfold Lite.pollForCondition. destruct (isTimedOut s); [exact H|].
  destruct (conditions !! i) as [c|] eqn:Hc; [|exact H].
  destruct (evaluateCondition W (now s) c) as [v|e]; cbn [fst]; [|exact H].
  destruct (truthy v).
  - match goal with |- context [if ?b then _ else _] => destruct b end; exact H.
  - intros tm Hin. cbn [timers] in Hin. apply in_app_or in Hin as [Hin|[<-|[]]]; [now apply H|].
    cbn [idx]. eapply lookup_lt_Some; eauto.
Qed.

Lemma indexed_reachable (t0 : Z) sched :
  forall tm, In tm (timers (run sched (pollerLite t0))) -> (idx tm < length conditions)%nat.
Proof.
  assert (Hstart : forall indices s,
            (forall tm, In tm (timers s) -> (idx tm < length conditions)%nat) ->
            forall tm, In tm (timers (start W opts conditions indices s)) ->
                       (idx tm < length conditions)%nat).
  { induction indices as [|i r IH]; intros s H; [exact H|].
    cbn [start]. pose proof (indexed_poll i (wait opts) true s H) as H1.
    destruct (pollForCondition i (wait opts) true s) as [s1 threw]. cbn [fst] in H1.
    destruct threw; [exact H1|now apply IH]. }
  assert (Hrun : forall sched s,
            (forall tm, In tm (timers s) -> (idx tm < length conditions)%nat) ->
            forall tm, In tm (timers (run sched s)) -> (idx tm < length conditions)%nat).
  { clear sched. induction sched as [|a sched IH]; intros s H; [exact H|].
    cbn [Lite.run fold_left]. apply IH. destruct a as [id t]. unfold fire.
    destruct (find_timer id s) as [tm|]; [|exact H].
    destruct ((due tm <=? t) && (now s <=? t)); [|exact H].
    apply indexed_poll. intros x Hx. cbn [timers] in Hx.
    apply List.filter_In in Hx as [Hx _]. now apply H. }
  apply Hrun, Hstart. intros tm [].
Qed.

Lemma handles_reachable (t0 : Z) sched : handles_unique (run sched (pollerLite t0)).
Proof.
  assert (Hstart : forall indices s,
            handles_unique s -> handles_unique (start W opts conditions indices s)).
  { induction indices as [|i r IH]; intros s H; [exact H|].
    cbn [start]. pose proof (handles_poll i (wait opts) true s H) as H1.
    destruct (pollForCondition i (wait opts) true s) as [s1 threw]. cbn [fst] in H1.
    destruct threw; [exact H1|now apply IH]. }
  assert (Hrun : forall sched s, handles_unique s -> handles_unique (run sched s)).
  { clear sched. induction sched as [|a sched IH]; intros s H; [exact H|].
    cbn [Lite.run fold_left]. apply IH. destruct a as [id t]. unfold fire.
    destruct (find_timer id s) as [tm|]; [|exact H].
    destruct ((due tm <=? t) && (now s <=? t)); [|exact H].
    apply handles_poll. destruct H as [Hnd Hlt]. split; cbn [timers next_id].
    - now apply NoDup_map_filter.
    - intros x Hx. apply List.filter_In in Hx as [Hx _]. now apply Hlt. }
  apply Hrun, Hstart. split; [constructor|intros tm []].
Qed.

(** The conditions that are truthy when [pollerLite] is called pass at
    once. *)
Lemma start_passes (t0 : Z) (i : nat) (c v : value) :
  never_throws W conditions -> conditions !! i = Some c ->
  evaluateCondition W t0 c = Ret v -> truthy v = true ->
  forall n k s, (k <= i < k + n)%nat -> now s = t0 -> isTimedOut s = false ->
    In (Passed i v t0) (trace (start W opts conditions (seq k n) s)).
Proof.
  intros Hnt Hc Hev Htr. induction n as [|n IH]; intros k s Hi Hnow Hto; [lia|].
  cbn [seq start].
  destruct (poll_clock k (wait opts) true s) as (Hn1 & _).
  pose proof (poll_timed_out k (wait opts) true s) as Hto1.
  destruct (decide (k = i)) as [->|Hne].
  - rewrite <- Hnow in Hev.
    destruct (lite_poll_passes i (wait opts) true s c v Hto Hc Hev Htr)
      as (Hthrew & post & Hpost & _).
    destruct (pollForCondition i (wait opts) true s) as [s1 threw].
    cbn [fst snd] in *. subst threw.
    destruct (lite_start_grows (seq (S i) n) s1) as [ext ->]. rewrite Hpost, Hnow.
    apply in_or_app. left. apply in_or_app. right. now left.
  - assert (Hthrew : snd (pollForCondition k (wait opts) true s) = false).
    { unfold Lite.pollForCondition. rewrite Hto.
      destruct (conditions !! k) as [c'|] eqn:Hc'; [|reflexivity].
      destruct (Hnt k c' (now s) Hc') as [v' ->].
      destruct (truthy v'); [|reflexivity].
      match goal with |- context [if ?b then _ else _] => destruct b end; reflexivity. }
    destruct (pollForCondition k (wait opts) true s) as [s1 threw].
    cbn [fst snd] in *. subst threw. apply IH; [lia|congruence|congruence].
Qed.

Lemma lite_find_timer s tm :
  handles_unique s -> In tm (timers s) -> find_timer (tid tm) s = Some tm.
Proof.
  intros [Hnd _] Htm. unfold find_timer.
  destruct (List.find (fun x => (tid x =? tid tm)%nat) (timers s)) as [tm'|] eqn:Hf.
  - apply find_some in Hf as [Hin Heq]. apply Nat.eqb_eq in Heq. f_equal.
    now apply (NoDup_map_inj tid (timers s)).
  - exfalso. apply (find_none _ _ Hf) in Htm. now rewrite Nat.eqb_refl in Htm.
Qed.

(** The run of the first pending timer, not later than the deadline and
    with a truthy check, leaves the other timers as they are. *)
Lemma lite_fire_truthy_timers s tm rest t c v :
  handles_unique s -> timers s = tm :: rest -> due tm <= t -> now s <= t ->
  Lite.before_deadline s t -> conditions !! idx tm = Some c ->
  evaluateCondition W t c = Ret v -> truthy v = true ->
  timers (fire W opts conditions s (tid tm, t)) = rest
  /\ now (fire W opts conditions s (tid tm, t)) = t
  /\ deadline (fire W opts conditions s (tid tm, t)) = deadline s.
Proof.
  intros Hu Htms Hdue Hnow Hbefore Hc Hev Htr.
  assert (Htm : In tm (timers s)) by (rewrite Htms; now left).
  unfold fire. rewrite (lite_find_timer s tm Hu Htm).
  destruct (Z.leb_spec (due tm) t); [|lia]. destruct (Z.leb_spec (now s) t); [|lia].
  cbn [andb]. unfold Lite.pollForCondition.
  assert (Hto : isTimedOut (State t (deadline s) (successfulConditions s) (passed s)
                   (List.filter (fun x => negb (tid x =? tid tm)%nat) (timers s))
                   (next_id s) (trace s) (total s)) = false).
  { unfold isTimedOut, Lite.before_deadline in *. cbn [deadline now].
    destruct (deadline s); [apply Z.ltb_ge; lia|reflexivity]. }
  rewrite Hto, Hc. cbn [now]. rewrite Hev, Htr.
  assert (Hrest : List.filter (fun x => negb (tid x =? tid tm)%nat) (timers s) = rest).
  { rewrite Htms. apply (filter_others tid). rewrite <- Htms. apply Hu. }
  match goal with |- context [if ?b then _ else _] => destruct b end;
    cbn [fst timers now deadline log]; auto.
Qed.

Lemma handles_fire s a : handles_unique s -> handles_unique (fire W opts conditions s a).
Proof.
  intros H. destruct a as [id t]. unfold fire.
  destruct (find_timer id s) as [tm|]; [|exact H].
  destruct ((due tm <=? t) && (now s <=? t)); [|exact H].
  apply handles_poll. destruct H as [Hnd Hlt]. split; cbn [timers next_id].
  - now apply NoDup_map_filter.
  - intros x Hx. apply List.filter_In in Hx as [Hx _]. now apply Hlt.
Qed.

(** Running every pending timer at a time, not later than the deadline, at
    which every condition is truthy leaves no timer. *)
Lemma lite_finish t : forall l s,
  handles_unique s -> timers s = l ->
  (forall tm, In tm l -> (idx tm < length conditions)%nat) ->
  (forall tm, In tm l -> due tm <= t) -> now s <= t -> Lite.before_deadline s t ->
  (forall i c, conditions !! i = Some c ->
     exists v, evaluateCondition W t c = Ret v /\ truthy v = true) ->
  let fin := run (map (fun tm => (tid tm, t)) l) s in
  timers fin = [] /\ now fin <= t /\ deadline fin = deadline s.
Proof.
  induction l as [|x rest IH]; intros s Hu Htms Hidx Hdue Hnow Hbefore Hall.
  - cbn. rewrite Htms. auto.
  - cbn [map Lite.run fold_left].
    destruct (lookup_lt_is_Some_2 conditions (idx x) (Hidx x (or_introl eq_refl))) as [c Hc].
    destruct (Hall _ _ Hc) as (v & Hev & Htr).
    destruct (lite_fire_truthy_timers s x rest t c v Hu Htms (Hdue x (or_introl eq_refl))
                Hnow Hbefore Hc Hev Htr) as (Hrest & Hnow1 & Hdl1).
    destruct (IH (fire W opts conditions s (tid x, t))) as (H1 & H2 & H3); auto.
    + now apply handles_fire.
    + intros y Hy. apply Hidx. now right.
    + intros y Hy. apply Hdue. now right.
    + lia.
    + unfold Lite.before_deadline in *. now rewrite Hdl1.
    + cbv zeta. unfold Lite.run in *. rewrite H1, H3, Hdl1. auto.
Qed.

Lemma lite_count_app p (l1 l2 : list event) :
  Lite.count p (l1 ++ l2) = (Lite.count p l1 + Lite.count p l2)%nat.
Proof. unfold Lite.count. now rewrite List.filter_app, length_app. Qed.

(** C3 (as the code has it).  A session with timeout [T > 0], after any
    sequence of timer runs: the deadline is [t0 + T], fixed when the session
    starts and the same for all conditions; no condition passes at a time
    later than the deadline; if some condition is not truthy at any time up
    to the deadline, the callback is never invoked; the callback is invoked
    at most once; for a non-empty list of conditions it has been invoked
    exactly once if and only if every condition has passed; for an empty
    list it is never invoked.  Every check up to the deadline counts: the
    run of a pending timer at a time [t] not later than the deadline
    evaluates its condition at [t], and if the result is truthy the
    condition passes at [t] with that result, and the callback is invoked
    at [t] if every other condition has passed before; and where no
    condition throws, a condition that is truthy when [pollerLite] is
    called passes at once, as long as the deadline has not passed every
    condition has passed or has its timer pending, and the run of the
    pending timers at a time, not later than the deadline, at which every
    condition is truthy completes the session: the callback has been
    invoked exactly once. *)
Theorem pollerLite_shared_deadline (t0 : Z) (sched : list (nat * Z)) :
  0 < timeout opts ->
  let s := run sched (pollerLite t0) in
  deadline (pollerLite t0) = Some (t0 + timeout opts)
  /\ deadline s = Some (t0 + timeout opts)
  /\ (forall i v t, In (Passed i v t) (trace s) -> t <= t0 + timeout opts)
  /\ (forall i c, conditions !! i = Some c ->
        (forall t v, t <= t0 + timeout opts ->
                     evaluateCondition W t c = Ret v -> truthy v = false) ->
        Lite.count is_called (trace s) = 0%nat)
  /\ (Lite.count is_called (trace s) <= 1)%nat
  /\ (conditions <> [] ->
        ((forall i, (i < length conditions)%nat -> exists v t, In (Passed i v t) (trace s))
         <-> Lite.count is_called (trace s) = 1%nat))
  /\ (conditions = [] -> Lite.count is_called (trace s) = 0%nat)
  /\ (forall tm t, In tm (timers s) -> due tm <= t -> now s <= t -> t <= t0 + timeout opts ->
        exists c, conditions !! idx tm = Some c
          /\ forall v, evaluateCondition W t c = Ret v -> truthy v = true ->
               let s' := fire W opts conditions s (tid tm, t) in
               In (Passed (idx tm) v t) (trace s')
               /\ ((forall j, (j < length conditions)%nat -> j <> idx tm -> In j (passed s)) ->
                   (exists rs, In (Called rs t) (trace s'))
                   /\ Lite.count is_called (trace s') = 1%nat))
  /\ (never_throws W conditions ->
        (forall i c v, conditions !! i = Some c ->
           evaluateCondition W t0 c = Ret v -> truthy v = true ->
           In (Passed i v t0) (trace (pollerLite t0)) /\ In (Passed i v t0) (trace s))
        /\ (now s <= t0 + timeout opts ->
            forall i, (i < length conditions)%nat ->
              In i (passed s) \/ exists tm, In tm (timers s) /\ idx tm = i)
        /\ (conditions <> [] ->
            forall t, now s <= t -> t <= t0 + timeout opts ->
              (forall tm, In tm (timers s) -> due tm <= t) ->
              (forall i c, conditions !! i = Some c ->
                 exists v, evaluateCondition W t c = Ret v /\ truthy v = true) ->
              Lite.count is_called
                (trace (run (map (fun tm => (tid tm, t)) (timers s)) s)) = 1%nat)).
Proof.
  intros HT s.
  assert (Hdl0 : forall s', Lite.Inv W opts conditions t0 s' ->
                            deadline s' = Some (t0 + timeout opts)).
  { intros s' H. rewrite (inv_deadline _ _ _ _ _ H).
    destruct (Z.eqb_spec (timeout opts) 0); [lia|reflexivity]. }
  pose proof (lite_Inv_reachable W opts conditions t0 sched) as HInv. fold s in HInv.
  pose proof (Hdl0 s HInv) as Hdls.
  split; [apply Hdl0, (lite_Inv_reachable W opts conditions t0 [])|]. split; [exact Hdls|].
  pose proof HInv as HInv0.
  destruct HInv as [Htot Hdl Hndi Hpnd Hpassed Hlen Hcnt Hlogd Htruthy].
  assert (Hbefore : forall i v t, In (Passed i v t) (trace s) -> t <= t0 + timeout opts).
  { intros i v t Ht. destruct (Htruthy i v t Ht) as [Hb _].
    unfold before_deadline in Hb. now rewrite Hdls in Hb. }
  assert (Hall : Lite.count is_called (trace s) = 1%nat ->
                 forall i, (i < length conditions)%nat -> In i (passed s)).
  { rewrite Hcnt. intros H1 i Hi.
    destruct (Nat.ltb_spec 0 (total s)); [|discriminate]. cbn [andb] in H1.
    destruct (Nat.eqb_spec (length (passed s)) (total s)) as [Heq|]; [|discriminate].
    apply (all_of_total _ (total s)); auto; [|lia]. intros j Hj. now apply Hpassed. }
  assert (Hle : (Lite.count is_called (trace s) <= 1)%nat).
  { rewrite Hcnt. destruct (_ && _); lia. }
  assert (Honce : forall s', Lite.Inv W opts conditions t0 s' -> conditions <> [] ->
            (forall i, (i < length conditions)%nat -> exists v t, In (Passed i v t) (trace s')) ->
            Lite.count is_called (trace s') = 1%nat).
  { intros s' HI Hne Hpass.
    destruct HI as [Htot' _ _ Hpnd' Hpassed' _ Hcnt' Hlogd' _]. rewrite Hcnt'.
    assert (HN : (0 < total s')%nat)
      by (rewrite Htot'; destruct conditions; [congruence | simpl; lia]).
    destruct (Nat.ltb_spec 0 (total s')); [|lia]. cbn [andb].
    destruct (Nat.eqb_spec (length (passed s')) (total s')) as [|Hneq]; [reflexivity|].
    exfalso. apply Hneq. apply Nat.le_antisymm.
    * rewrite <- (length_seq (total s') 0). apply NoDup_incl_length; [exact Hpnd'|].
      intros j Hj. apply in_seq. destruct (Hpassed' j Hj). lia.
    * rewrite <- (length_seq (total s') 0). apply NoDup_incl_length; [apply seq_NoDup|].
      intros j Hj. apply in_seq in Hj. apply Hlogd', Hpass. lia. }
  split; [exact Hbefore|]. split; [|split; [exact Hle|split; [|split; [|split]]]].
  - intros i c Hc Hlate.
    destruct (Lite.count is_called (trace s)) as [|[|n]] eqn:Hn; [reflexivity| |lia].
    exfalso. assert (Hi : (i < length conditions)%nat) by (now apply lookup_lt_Some in Hc).
    apply (Hall eq_refl) in Hi. apply Hlogd in Hi as (v & t & Ht).
    destruct (Htruthy i v t Ht) as [_ (c' & Hc' & Hev & Htr)].
    assert (c' = c) by congruence. subst c'.
    rewrite (Hlate t v (Hbefore i v t Ht) Hev) in Htr. discriminate.
  - intros Hne. split.
    + now apply Honce.
    + intros H1 i Hi. apply Hlogd. now apply Hall.
  - intros ->. rewrite Hcnt, Htot. reflexivity.
  - intros tm t Htm Hdue Hnow Ht.
    pose proof (indexed_reachable t0 sched tm Htm) as Hidx.
    destruct (lookup_lt_is_Some_2 conditions (idx tm) Hidx) as [c Hc].
    exists c. split; [exact Hc|]. intros v Hev Htr s'.
    assert (Hfind : find_timer (tid tm) s = Some tm)
      by (apply lite_find_timer; [apply handles_reachable|exact Htm]).
    assert (Hfire : exists post,
              trace s' = trace s ++ [Passed (idx tm) v t] ++ post
              /\ (post = [] \/ exists rs, post = [Called rs t])).
    { subst s'. unfold fire. rewrite Hfind.
      destruct (Z.leb_spec (due tm) t); [|lia]. destruct (Z.leb_spec (now s) t); [|lia].
      cbn [andb].
      match goal with |- context [Lite.pollForCondition _ _ ?i ?w ?k ?x] =>
        destruct (lite_poll_passes i w k x c v) as (_ & post & Hpost & Hshape) end; auto.
      - unfold isTimedOut. cbn [deadline now]. rewrite Hdls. apply Z.ltb_ge. lia.
      - exists post. split; [exact Hpost|exact Hshape]. }
    destruct Hfire as (post & Htrace & Hshape).
    assert (Hin : In (Passed (idx tm) v t) (trace s')).
    { rewrite Htrace. apply in_or_app. right. now left. }
    split; [exact Hin|]. intros Hothers.
    assert (HInv' : Lite.Inv W opts conditions t0 s') by (now apply lite_Inv_fire).
    assert (Hne : conditions <> []) by (intros ->; cbn in Hidx; lia).
    assert (Hone : Lite.count is_called (trace s') = 1%nat).
    { apply Honce; auto. intros j Hj. destruct (decide (j = idx tm)) as [->|Hjne]; [eauto|].
      destruct (proj2 (Hlogd j) (Hothers j Hj Hjne)) as (v' & t' & Hp).
      exists v', t'. rewrite Htrace. apply in_or_app. now left. }
    split; [|exact Hone].
    assert (Hzero : Lite.count is_called (trace s) = 0%nat).
    { destruct (Lite.count is_called (trace s)) as [|[|n]] eqn:Hn; [reflexivity| |lia].
      exfalso. destruct (Hpassed _ (Hall eq_refl (idx tm) Hidx)) as [_ Hno].
      now apply (Hno tm). }
    rewrite Htrace, !lite_count_app, Hzero in Hone.
    destruct Hshape as [->|[rs ->]]; [cbn in Hone; lia|].
    exists rs. rewrite Htrace. apply in_or_app. right. right. now left.
  - intros Hnt. split.
    + intros i c v Hc Hev Htr.
      assert (Hstart : In (Passed i v t0) (trace (pollerLite t0))).
      { unfold Lite.pollerLite. apply (start_passes t0 i c v Hnt Hc Hev Htr).
        - apply lookup_lt_Some in Hc. lia.
        - reflexivity.
        - unfold isTimedOut. cbn [deadline now]. destruct (timeout opts =? 0); [reflexivity|].
          apply Z.ltb_ge. lia. }
      split; [exact Hstart|]. destruct (lite_run_grows sched (pollerLite t0)) as [ext Hext].
      fold s in Hext. rewrite Hext. apply in_or_app. now left.
    + assert (Hk : kept conditions s).
      { apply kept_run; [exact Hnt|]. apply kept_start; auto.
        - split; [constructor|intros tm []].
        - intros _ j Hj. lia. }
      split.
      * intros Hnow i Hi. destruct Hk as (_ & _ & Hk). apply Hk; [|lia].
        unfold isTimedOut. rewrite Hdls. apply Z.ltb_ge. lia.
      * intros Hne t Hnow Ht Hdue Hgood.
        set (fin := run (map (fun tm => (tid tm, t)) (timers s)) s).
        destruct (lite_finish t (timers s) s) as (Hnone & Hnowf & Hdlf); auto.
        { apply handles_reachable. }
        { apply indexed_reachable. }
        { unfold Lite.before_deadline. now rewrite Hdls. }
        fold fin in Hnone, Hnowf, Hdlf.
        assert (HInvF : Lite.Inv W opts conditions t0 fin) by (now apply lite_Inv_run).
        assert (Hkf : kept conditions fin) by (now apply kept_run).
        apply (Honce fin HInvF Hne). intros i Hi.
        apply (inv_logged _ _ _ _ _ HInvF).
        destruct Hkf as (Htotf & _ & Hprog).
        destruct (Hprog) with (i := i) as [Hp|(tm & Htm & _)].
        -- unfold isTimedOut. rewrite Hdlf, Hdls. apply Z.ltb_ge. lia.
        -- lia.
        -- exact Hp.
        -- rewrite Hnone in Htm. destruct Htm.
Qed.

End LiteMore.

(* ================================================================== *)
(** ** [observer.disconnect], observer by observer *)
(* ================================================================== *)

Section WatchFacts.
Import Observer Watch.

(** X13.  observer.disconnect(elements) looks up elements itself when it has
    no length (or length 0), and otherwise its indexed items elements[i]; it
    disconnects exactly the observers that observer.active pairs with one of
    the elements it looks up and leaves every other observer as it was; it
    removes nothing from observer.active and invokes no callback. *)
Theorem observer_disconnect_only_touches_registered (a : arg) (s : state) (id : nat) :
  active (disconnect a s) = active s
  /\ calls (disconnect a s) = calls s
  /\ observers (disconnect a s) !! id
     = if existsb (fun e => paired e id s) (looked_up a)
       then mo_disconnect <$> observers s !! id else observers s !! id.
Proof. apply disconnect_spec. Qed.

(** An observer that observes nothing is never called, and nothing makes
    it observe again. *)
Lemma silent_step (o : op) (s : state) (id : nat) (ob : mobserver) :
  observers s !! id = Some ob -> observed ob = [] ->
  exists ob', observers (step s o) !! id = Some ob' /\ observed ob' = []
              /\ calls_of id (step s o) = calls_of id s.
Proof.
  intros Hid Hobs. destruct o as [a f thr|a|e n t|id' t]; cbn [step].
  - exists ob. split; [|split; [exact Hobs|reflexivity]].
    cbn [connect observers]. rewrite lookup_app_l by (eapply lookup_lt_Some; eauto). exact Hid.
  - destruct (disconnect_spec a s id) as (_ & Hc & Ho).
    rewrite Hid in Ho. unfold calls_of. rewrite Hc.
    destruct (registered a id s); [exists (mo_disconnect ob)|exists ob]; auto.
  - destruct (mutate_observer e n t s id ob Hid) as [Ho Hc].
    exists (fst (notify e n t ob)). split; [exact Ho|].
    unfold notify in *. rewrite Hobs in *.
    cbn [existsb fst snd] in *. cbn [repeat] in Hc. rewrite app_nil_r in Hc.
    split; [exact Hobs|exact Hc].
  - unfold timer_run. destruct (observers s !! id') as [o'|] eqn:Hid'; [|exists ob; auto].
    destruct (pending o') as [|d r] eqn:Hp; [exists ob; auto|].
    destruct (d <=? t); [|exists ob; auto].
    cbn [observers calls_of calls].
    destruct (Nat.eq_dec id' id) as [->|Hne].
    + rewrite Hid in Hid'. injection Hid' as <-.
      exists (reopen ob). rewrite list_lookup_insert_eq by (eapply lookup_lt_Some; eauto).
      auto.
    + exists ob. rewrite list_lookup_insert_ne by exact Hne. auto.
Qed.

Lemma silent_run (ops : list op) : forall (s : state) (id : nat) (ob : mobserver),
  observers s !! id = Some ob -> observed ob = [] ->
  calls_of id (run ops s) = calls_of id s.
Proof.
  induction ops as [|o ops IH]; intros s id ob Hid Hobs; [reflexivity|].
  cbn [run fold_left]. destruct (silent_step o s id ob Hid Hobs) as (ob' & Hid' & Hobs' & Hc).
  fold (run ops (step s o)). rewrite (IH _ id ob' Hid' Hobs'). exact Hc.
Qed.

(** X14.  After observer.disconnect(elements), the callback of every observer
    registered for an element that the call looked up (elements itself when
    it has no length or length 0, otherwise its indexed items) is never
    invoked again, whatever connects, disconnects, mutations and timer runs
    follow. *)
Theorem observer_disconnect_is_final (a : arg) (s : state) (id : nat) (ob : mobserver)
    (ops : list op) :
  registered a id s = true ->
  observers s !! id = Some ob ->
  calls_of id (run ops (disconnect a s)) = calls_of id s.
Proof.
  intros Hreg Hid. destruct (disconnect_spec a s id) as (_ & Hc & Ho).
  rewrite Hreg, Hid in Ho.
  rewrite (silent_run ops (disconnect a s) id (mo_disconnect ob) Ho eq_refl).
  unfold calls_of. now rewrite Hc.
Qed.

End WatchFacts.

(* ================================================================== *)
(** ** [globalGetScript]: independent loads *)
(* ================================================================== *)

Section LoaderMore.
Import Loader.

(** X15.  Two different urls never share a promise, and the load handler of
    one url's script never changes the state of the other url's promise. *)
Theorem globalGetScript_loads_are_independent
    (ops : list op) (u1 u2 : string) (p1 p2 : nat) :
  let s := run ops initial in
  requests s !! u1 = Some p1 -> requests s !! u2 = Some p2 -> u1 <> u2 ->
  p1 <> p2
  /\ forall isAbort rs, promises (onloadHander p1 isAbort rs s) !! p2 = promises s !! p2.
Proof.
  intros s H1 H2 Hne.
  assert (Hp : p1 <> p2).
  { intros ->. apply Hne.
    apply (inv_own s (loader_Inv_run ops initial loader_Inv_initial) u1 u2 p2 H1 H2). }
  split; [exact Hp|]. intros isAbort rs. unfold onloadHander.
  match goal with |- context [if ?b then _ else _] => destruct b end; [|reflexivity].
  cbn [promises]. now apply list_lookup_alter_ne.
Qed.

End LoaderMore.

(* ================================================================== *)
(** ** [group] *)
(* ================================================================== *)

Section GroupFacts.
Import Group.
Context {A : Type}.
Implicit Types (elements : list A) (groups gs : list (list A)).

(** From an index inside the array, a positive [num] slices off the next
    [num] elements, or what is left of them. *)
Lemma slice_chunk elements (j : nat) (num : Z) :
  0 < num -> (j < length elements)%nat ->
  slice elements (Z.of_nat j) (Z.of_nat j + num)
  = firstn (Z.to_nat num) (skipn j elements).
Proof.
  intros Hnum Hj. unfold slice, relative.
  replace (Z.of_nat j <? 0) with false by (symmetry; apply Z.ltb_ge; lia).
  replace (Z.of_nat j + num <? 0) with false by (symmetry; apply Z.ltb_ge; lia).
  rewrite (Z.min_l (Z.of_nat j)) by lia. rewrite Nat2Z.id.
  destruct (Z.le_gt_cases (Z.of_nat j + num) (Z.of_nat (length elements))) as [Hle|Hgt].
  - rewrite Z.min_l by lia. f_equal. lia.
  - rewrite Z.min_r by lia.
    rewrite !firstn_all2; [reflexivity| |]; rewrite length_skipn; lia.
Qed.

Lemma group_loop_positive elements (num : Z) :
  0 < num ->
  forall fuel (j : nat) groups, (length elements - j < fuel)%nat ->
    exists gs,
      group_loop fuel elements num (Z.of_nat j) groups = Some (groups ++ gs)
      /\ concat gs = skipn j elements
      /\ (gs = [] <-> (length elements <= j)%nat)
      /\ (forall g, In g gs -> g <> [] /\ Z.of_nat (length g) <= num)
      /\ (forall k g, gs !! k = Some g -> (S k < length gs)%nat -> Z.of_nat (length g) = num).
Proof.
  intros Hnum. induction fuel as [|fuel IH]; intros j groups Hfuel; [lia|].
  cbn [group_loop]. destruct (Z.ltb_spec (Z.of_nat j) (Z.of_nat (length elements))) as [Hlt|Hge].
  - assert (Hj : (j < length elements)%nat) by lia.
    rewrite (slice_chunk elements j num Hnum Hj).
    set (n := Z.to_nat num). set (g := firstn n (skipn j elements)).
    replace (Z.of_nat j + num) with (Z.of_nat (j + n)) by lia.
    destruct (IH (j + n)%nat (groups ++ [g]) ltac:(lia)) as (gs & Hloop & Hcat & Hnil & Hall & Hfull).
    assert (Hlen : length g = Nat.min n (length elements - j)).
    { unfold g. now rewrite length_firstn, length_skipn. }
    exists (g :: gs). split; [|split; [|split; [|split]]].
    + rewrite Hloop, <- app_assoc. reflexivity.
    + cbn [concat]. rewrite Hcat. unfold g.
      replace (skipn (j + n) elements) with (skipn n (skipn j elements))
        by (rewrite skipn_skipn; f_equal; lia).
      apply firstn_skipn.
    + split; [discriminate|lia].
    + intros x [<-|Hin]; [|now apply Hall].
      split; [|lia]. intros Hg. rewrite Hg in Hlen. cbn in Hlen. lia.
    + intros [|k] x Hx Hk; cbn in Hx, Hk.
      * injection Hx as <-. rewrite Hlen.
        assert (gs <> []) by (intros ->; cbn in Hk; lia).
        assert (~ (length elements <= j + n)%nat) by (intros Hle; now apply Hnil in Hle).
        lia.
      * apply (Hfull k x Hx). lia.
  - exists []. rewrite app_nil_r. split; [reflexivity|]. split.
    + symmetry. apply skipn_all2. lia.
    + split; [split; [lia|reflexivity]|]. split; [intros g []|intros k g Hk; discriminate Hk].
Qed.

(** More tests of the loop condition than needed change nothing. *)
Lemma group_loop_more elements (num : Z) fuel : forall fuel' i groups r,
  (fuel <= fuel')%nat ->
  group_loop fuel elements num i groups = Some r ->
  group_loop fuel' elements num i groups = Some r.
Proof.
  induction fuel as [|fuel IH]; intros fuel' i groups r Hle H; [discriminate H|].
  destruct fuel' as [|fuel']; [lia|]. cbn [group_loop] in *.
  destruct (i <? Z.of_nat (length elements)); [|exact H].
  apply (IH fuel'); [lia|exact H].
Qed.

(** X16.  For a positive integer num, group returns groups whose concatenation
    is the input; every group is non-empty and has at most num elements, and
    every group but the last has exactly num. *)
Theorem group_splits_into_full_groups elements (num : Z) :
  0 < num ->
  exists gs,
    (forall fuel, (length elements < fuel)%nat -> group fuel elements num = Some gs)
    /\ concat gs = elements
    /\ (forall g, In g gs -> g <> [] /\ Z.of_nat (length g) <= num)
    /\ (forall k g, gs !! k = Some g -> (S k < length gs)%nat -> Z.of_nat (length g) = num).
Proof.
  intros Hnum.
  destruct (group_loop_positive elements num Hnum (S (length elements)) 0%nat [] ltac:(lia))
    as (gs & Hloop & Hcat & _ & Hall & Hfull).
  exists gs. split; [|split; [exact Hcat|split; [exact Hall|exact Hfull]]].
  intros fuel Hfuel. unfold group.
  apply (group_loop_more elements num (S (length elements))); [lia|exact Hloop].
Qed.

(** The loop of a size that is not positive never leaves a non-empty
    array: its index never reaches the length. *)
Lemma group_loop_stuck elements (num : Z) :
  num <= 0 -> elements <> [] ->
  forall fuel i groups, i <= 0 -> group_loop fuel elements num i groups = None.
Proof.
  intros Hnum Hne. induction fuel as [|fuel IH]; intros i groups Hi; [reflexivity|].
  cbn [group_loop].
  replace (i <? Z.of_nat (length elements)) with true.
  - apply IH. lia.
  - symmetry. apply Z.ltb_lt. destruct elements; [contradiction|cbn [length]; lia].
Qed.

(** X17.  For num zero or negative and a non-empty input, the loop of group
    never ends: its index never reaches the length. *)
Theorem group_never_returns_without_positive_size elements (num : Z) (fuel : nat) :
  num <= 0 -> elements <> [] -> group fuel elements num = None.
Proof. intros Hnum Hne. now apply group_loop_stuck. Qed.

End GroupFacts.

(* ================================================================== *)
(** ** [hoverDelay] *)
(* ================================================================== *)

Section HoverFacts.
Import Hover.

Lemma last_enter_snoc events e :
  last_enter (events ++ [e])
  = match e with Enter t => Some t | Leave _ => last_enter events end.
Proof. unfold last_enter. now rewrite fold_left_app. Qed.

Lemma long_hover_snoc d events e t : long_hover d events t -> long_hover d (events ++ [e]) t.
Proof.
  intros (l1 & l2 & t0 & -> & H1 & H2). exists l1, (l2 ++ [e]), t0.
  split; [now rewrite <- app_assoc|auto].
Qed.

Lemma hover_run (cb : callback) events : forall s0,
  hovered s0 = false -> startHover s0 = None -> calls s0 = [] ->
  let s := run cb events s0 in
  delay s = delay s0
  /\ startHover s = last_enter events
  /\ until_returned cb s
  /\ (forall t, In t (calls s) -> long_hover (delay s0) events t)
  /\ (forall t, long_hover (delay s0) events t -> In t (calls s) \/ hovered s = true).
Proof.
  intros s0 Hh Hs Hc. induction events as [|e pre IH] using rev_ind.
  - cbn. unfold until_returned. rewrite Hh, Hs, Hc. repeat split; auto.
    + intros t [].
    + intros t (l1 & l2 & t0 & Heq & _). now destruct l1.
  - cbv zeta in *. unfold run in *. rewrite fold_left_app. cbn [fold_left].
    set (s := fold_left (handle cb) pre s0) in *.
    destruct IH as (Hd & Hst & Hshape & Hsound & Hcomplete).
    rewrite last_enter_snoc.
    assert (Hlater : forall t, long_hover (delay s0) (pre ++ [e]) t ->
              (In t (calls s) \/ hovered s = true)
              \/ exists t0, e = Leave t /\ last_enter pre = Some t0 /\ delay s0 <= t - t0).
    { intros t (l1 & l2 & t0 & Heq & H1 & H2).
      apply split_snoc in Heq as [(-> & -> & ->)|(l2' & -> & ->)].
      - right. now exists t0.
      - left. apply (Hcomplete t). now exists l1, l2', t0. }
    destruct e as [t|t]; cbn [handle].
    + cbn [delay startHover hovered calls]. split; [exact Hd|]. split; [reflexivity|].
      split; [exact Hshape|]. split.
      * intros t' Hin. now apply long_hover_snoc, Hsound.
      * intros t' Hl. destruct (Hlater t' Hl) as [H|(t0 & Heq & _)]; [exact H|discriminate Heq].
    + destruct (hovered s) eqn:Hhov.
      * split; [exact Hd|]. split; [exact Hst|]. split; [exact Hshape|].
        split; [|now right]. intros t' Hin. now apply long_hover_snoc, Hsound.
      * rewrite Hst, Hd. destruct (last_enter pre) as [t0|] eqn:Hle.
        -- destruct (Z.leb_spec (delay s0) (t - t0)) as [Hlong|Hshort];
             cbn [delay startHover hovered calls].
           ++ split; [reflexivity|]. split; [congruence|].
              unfold until_returned in Hshape |- *. rewrite Hhov in Hshape.
              cbn [hovered calls]. split; [|split].
              ** destruct (cb t) eqn:Hcb.
                 --- exists (calls s), t. auto.
                 --- apply Forall_app. split; [exact Hshape|]. now constructor.
              ** intros t' Hin. apply in_app_or in Hin as [Hin|[<-|[]]].
                 --- now apply long_hover_snoc, Hsound.
                 --- exists pre, [], t0. auto.
              ** intros t' Hl. destruct (Hlater t' Hl) as [[H|H]|(t1 & Heq & _)].
                 --- left. apply in_or_app. now left.
                 --- congruence.
                 --- injection Heq as <-. left. apply in_or_app. right. now left.
           ++ split; [congruence|]. split; [congruence|]. split; [exact Hshape|].
              split; [intros t' Hin; now apply long_hover_snoc, Hsound|].
              intros t' Hl. destruct (Hlater t' Hl) as [H|(t1 & Heq & H1 & H2)];
                [rewrite Hhov; exact H|].
              injection Heq as <-. injection H1 as <-. lia.
        -- split; [congruence|]. split; [congruence|]. split; [exact Hshape|].
           split; [intros t' Hin; now apply long_hover_snoc, Hsound|].
           intros t' Hl. destruct (Hlater t' Hl) as [H|(t1 & _ & H1 & _)];
             [rewrite Hhov; exact H|discriminate H1].
Qed.

(** X18.  With jQuery present, hoverDelay invokes cb only on a mouseleave that
    comes at least delay milliseconds after the last mouseenter before it, and
    on every such mouseleave until a call of cb has returned; after a call that
    returned cb is never invoked again, for the whole set of elements, but a
    call that threw does not count.  So a cb that never throws is invoked at
    most once, and has been invoked once such a mouseleave has occurred.  A
    missing or zero delay counts as 1000. *)
Theorem hoverDelay_calls_back_once
    (cb : callback) (d : option Z) (s0 : state) (events : list event) :
  hoverDelay true d = Some s0 ->
  let s := run cb events s0 in
  delay s0 = match d with Some n => if n =? 0 then 1000 else n | None => 1000 end
  /\ (forall t, In t (calls s) -> long_hover (delay s0) events t)
  /\ (forall l1 t l2, calls s = l1 ++ t :: l2 -> cb t = Returns -> l2 = [])
  /\ (forall t, long_hover (delay s0) events t ->
        In t (calls s) \/ exists t', In t' (calls s) /\ cb t' = Returns)
  /\ ((forall t, cb t = Returns) ->
        (length (calls s) <= 1)%nat
        /\ forall t, long_hover (delay s0) events t -> length (calls s) = 1%nat).
Proof.
  intros H0 s. unfold hoverDelay in H0. cbn [negb] in H0. injection H0 as H0.
  assert (Hd : delay s0 = match d with Some n => if n =? 0 then 1000 else n | None => 1000 end)
    by now subst s0.
  destruct (hover_run cb events s0) as (_ & _ & Hshape & Hsound & Hcomplete);
    [now subst s0..|].
  fold s in Hshape, Hsound, Hcomplete. unfold until_returned in Hshape.
  assert (Hlast : forall l1 t l2, calls s = l1 ++ t :: l2 -> cb t = Returns -> l2 = []).
  { intros l1 t l2 Heq Hret. destruct (hovered s).
    - destruct Hshape as (l & t' & Hc & Hthrows & _). rewrite Hc in Heq.
      apply split_snoc in Heq as [(-> & _)|(l2' & _ & ->)]; [reflexivity|].
      rewrite Forall_app, List.Forall_cons_iff in Hthrows. destruct Hthrows as (_ & Ht & _).
      congruence.
    - rewrite Heq, Forall_app, List.Forall_cons_iff in Hshape. destruct Hshape as (_ & Ht & _).
      congruence. }
  assert (Hreturned : hovered s = true -> exists t', In t' (calls s) /\ cb t' = Returns).
  { intros Hh. rewrite Hh in Hshape. destruct Hshape as (l & t' & Hc & _ & Hret).
    exists t'. split; [|exact Hret]. rewrite Hc. apply in_or_app. right. now left. }
  assert (Hsome : forall t, long_hover (delay s0) events t ->
            In t (calls s) \/ exists t', In t' (calls s) /\ cb t' = Returns).
  { intros t Hl. destruct (Hcomplete t Hl) as [Hin|Hh]; [now left|right; auto]. }
  split; [exact Hd|]. split; [exact Hsound|]. split; [exact Hlast|]. split; [exact Hsome|].
  intros Hall.
  assert (Hle : (length (calls s) <= 1)%nat).
  { destruct (calls s) as [|t [|t' r]] eqn:Hc; cbn; try lia.
    specialize (Hlast [] t (t' :: r) eq_refl (Hall t)). discriminate Hlast. }
  split; [exact Hle|]. intros t Hl.
  destruct (Hsome t Hl) as [Hin|(t' & Hin & _)];
    destruct (calls s); cbn in *; try contradiction; lia.
Qed.

End HoverFacts.

(* ================================================================== *)
(** ** [scrollStop] *)
(* ================================================================== *)

Section ScrollStopFacts.
Import ScrollStop.

Lemma debounced_scrolled tr t : debounced tr -> debounced (tr ++ [Scrolled t]).
Proof.
  intros Hd l1 t' l2 Heq. apply split_snoc in Heq as [(_ & _ & He)|(l2' & _ & ->)].
  - discriminate He.
  - now apply (Hd l1 t' l2').
Qed.

Lemma scroll_Inv_step s a : Inv s -> debounced (trace s) ->
  Inv (step s a) /\ debounced (trace (step s a)).
Proof.
  intros HI Hd. pose proof HI as (Htm & Hnd & Hid). destruct a as [t|id t]; cbn [step].
  - destruct (now s <=? t); [|now split].
    assert (Hcleared : clearTimeout (isScrolling s) (timers s) = []).
    { unfold clearTimeout. destruct (isScrolling s) as [h|] eqn:Hh.
      - apply filter_nil_if. intros tm Hin. destruct (Htm tm Hin) as (Heq & _).
        injection Heq as <-. now rewrite Nat.eqb_refl.
      - destruct (timers s) as [|tm r]; [reflexivity|].
        destruct (Htm tm (or_introl eq_refl)) as (Heq & _). discriminate Heq. }
    rewrite Hcleared. cbn [app]. split; [|now apply debounced_scrolled].
    split; [|split]; cbn [timers isScrolling next_id trace].
    + intros tm [<-|[]]. cbn [fst snd]. split; [reflexivity|]. split; [lia|].
      now exists (trace s), t.
    + repeat constructor. intros [].
    + intros id Heq. injection Heq as <-. lia.
  - destruct (List.find _ (timers s)) as [tm|] eqn:Hfind; [|now split].
    destruct ((snd tm <=? t) && (now s <=? t)) eqn:Hok; [|now split].
    apply andb_true_iff in Hok as [Hdue _]. apply Z.leb_le in Hdue.
    apply List.find_some in Hfind as [Hin Heq]. apply Nat.eqb_eq in Heq.
    destruct (Htm tm Hin) as (Hh & _ & l & ts & Htr & Hsnd).
    assert (Hnone : List.filter (fun x => negb (fst x =? id)%nat) (timers s) = []).
    { apply filter_nil_if. intros x Hx. destruct (Htm x Hx) as (Hhx & _).
      rewrite Hh in Hhx. injection Hhx as Hhx. rewrite <- Hhx, Heq. now rewrite Nat.eqb_refl. }
    rewrite Hnone. split.
    + split; [|split]; cbn [timers isScrolling next_id trace].
      * intros x [].
      * constructor.
      * exact Hid.
    + cbn [trace]. intros l1 t' l2 Hsplit.
      apply split_snoc in Hsplit as [(_ & Hl1 & He)|(l2' & _ & Htr2)].
      * injection He as <-. subst l1. exists l, ts. split; [exact Htr|lia].
      * now apply (Hd l1 t' l2').
Qed.

Lemma scroll_Inv_run sched : forall s, Inv s -> debounced (trace s) ->
  Inv (run sched s) /\ debounced (trace (run sched s)).
Proof.
  induction sched as [|a sched IH]; intros s HI Hd; [now split|].
  cbn [run fold_left]. destruct (scroll_Inv_step s a HI Hd) as [HI' Hd']. now apply IH.
Qed.

(** X19.  Every invocation of the scrollStop callback comes directly after a
    scroll event that is at least 66 milliseconds old, with no scroll event
    and no other invocation in between; at most one timer is pending at any
    time. *)
Theorem scrollStop_calls_back_after_the_last_scroll
    (callback : value) (t0 : Z) (s0 : state) (sched : list action) :
  scrollStop callback t0 = Some s0 ->
  let s := run sched s0 in
  debounced (trace s)
  /\ (length (timers s) <= 1)%nat
  /\ (forall tm, In tm (timers s) -> exists l t, trace s = l ++ [Scrolled t] /\ snd tm = t + 66).
Proof.
  intros H0 s.
  assert (Hs0 : s0 = State t0 None [] 1%nat []).
  { unfold scrollStop in H0. destruct (negb (truthy callback)); [discriminate H0|].
    destruct (typeof callback); try discriminate H0. now injection H0 as <-. }
  destruct (scroll_Inv_run sched s0) as [(Htm & Hnd & _) Hd].
  - subst s0. split; [intros tm []|]. split; [constructor|discriminate].
  - subst s0. intros [|] ? ? H; discriminate H.
  - fold s in Htm, Hnd, Hd. split; [exact Hd|]. split.
    + destruct (timers s) as [|a [|b r]] eqn:Ht; cbn; try lia. exfalso.
      destruct (Htm a) as (Ha & _); [now left|].
      destruct (Htm b) as (Hb & _); [right; now left|].
      cbn in Hnd. apply NoDup_cons_iff in Hnd as [Hnot _]. apply Hnot. left. congruence.
    + intros tm Hin. now destruct (Htm tm Hin) as (_ & _ & H).
Qed.

End ScrollStopFacts.

(* ================================================================== *)
(** ** [events.send] *)
(* ================================================================== *)

Section AnalyticsFacts.
Import Analytics.

Lemma existsb_eqb_In (x : string) (l : list string) :
  existsb (String.eqb x) l = true <-> In x l.
Proof.
  rewrite existsb_exists. split.
  - intros (y & Hin & Heq). apply String.eqb_eq in Heq. now subst.
  - intros Hin. exists x. split; [exact Hin|apply String.eqb_refl].
Qed.

(** Nothing removes an identifier from the cache. *)
Lemma cache_send c a l uo s x :
  In x (eventCache s) -> In x (eventCache (fst (send c a l uo s))).
Proof.
  intros Hin. unfold send.
  destruct (sendOnce _ && existsb _ _); [exact Hin|].
  destruct (sendOnce _); cbn [eventCache];
    match goal with |- context [if ?b then _ else _] => destruct b end;
    cbn [fst eventCache]; try exact Hin; apply in_or_app; now left.
Qed.

Lemma cache_callback g c s s1 h x :
  callback g c s = Ret (s1, h) -> In x (eventCache s) -> In x (eventCache s1).
Proof.
  unfold callback. destruct g as [| |trackers]; [discriminate| |].
  - intros H. now injection H as <- _.
  - destruct (given (propertyId s)).
    + destruct (List.find _ trackers); intros H; now injection H as <- _.
    + destruct trackers; [discriminate|]. intros H. now injection H as <- _.
Qed.

Lemma cache_step sh o x :
  In x (eventCache (fst sh)) -> In x (eventCache (fst (step sh o))).
Proof.
  destruct sh as [s hits]. cbn [fst]. intros Hin. destruct o; cbn [step]; try exact Hin.
  - pose proof (cache_send evCategory evAction evLabel userOptions s x Hin) as H.
    destruct (send _ _ _ _ s) as [s1 [|h|c]]; exact H.
  - destruct (ready _ g); [|exact Hin].
    destruct (callback g c s) as [[s1 [h|]]|e] eqn:Hcb; cbn [fst]; try exact Hin;
      eapply cache_callback; eauto.
Qed.

Lemma cache_run ops : forall sh x,
  In x (eventCache (fst sh)) -> In x (eventCache (fst (run ops sh))).
Proof.
  induction ops as [|o ops IH]; intros sh x Hin; [exact Hin|].
  cbn [run fold_left]. apply IH, cache_step, Hin.
Qed.

(** After a send with [sendOnce] the identifier is in the cache, whether
    the send was suppressed or not. *)
Lemma send_caches c a l o s :
  sendOnce o = true -> In (eventID c a l s) (eventCache (fst (send c a l (Some o) s))).
Proof.
  intros Ho. unfold send. rewrite Ho. cbn [andb].
  destruct (existsb _ (eventCache s)) eqn:Hex; cbn [fst].
  - now apply existsb_eqb_In.
  - match goal with |- context [if ?b then _ else _] => destruct b end;
      cbn [fst eventCache]; apply in_or_app; right; now left.
Qed.

(** X20.  After events.send with sendOnce, every later send with sendOnce
    whose category, action and label concatenate to the same string returns
    false and changes nothing, whatever happened in between; this includes
    different triples such as ('ab','c') and ('a','bc'). *)
Theorem events_sendOnce_sends_an_identifier_once
    (s : state) (hits : list hit) (c a l c' a' l' : option string) (o o' : options)
    (ops : list op) :
  sendOnce o = true -> sendOnce o' = true ->
  let later := run ops (step (s, hits) (Send c a l (Some o))) in
  eventID c' a' l' (fst later) = eventID c a l s ->
  send c' a' l' (Some o') (fst later) = (fst later, Suppressed)
  /\ step later (Send c' a' l' (Some o')) = later.
Proof.
  intros Ho Ho' later Hid.
  assert (Hin : In (eventID c a l s) (eventCache (fst later))).
  { apply cache_run. cbn [step]. pose proof (send_caches c a l o s Ho) as H.
    destruct (send c a l (Some o) s) as [s1 [|h|cl]]; exact H. }
  assert (Hsend : send c' a' l' (Some o') (fst later) = (fst later, Suppressed)).
  { unfold send. rewrite Ho', Hid. cbn [andb].
    now rewrite (proj2 (existsb_eqb_In _ _) Hin). }
  split; [exact Hsend|]. destruct later as [s2 hits2]. cbn [fst] in Hsend.
  cbn [step]. now rewrite Hsend.
Qed.

Lemma fire_flagged c s : flagged (fire c s).
Proof.
  unfold fire, flagged. destruct (analyticsReference s).
  - destruct (truthy (nonInteraction (c_options c))) eqn:Ht; [exact Ht|reflexivity].
  - destruct (nonInteraction (c_options c)); discriminate.
Qed.

Lemma flagged_step sh o :
  Forall flagged (snd sh) -> Forall flagged (snd (step sh o)).
Proof.
  destruct sh as [s hits]. cbn [snd]. intros Hf. destruct o; cbn [step]; try exact Hf.
  - unfold send.
    destruct (sendOnce _ && existsb _ _); [exact Hf|].
    match goal with |- context [if given ?x then _ else _] => destruct (given x) end;
      cbn [snd]; [|exact Hf].
    apply Forall_app. split; [exact Hf|]. constructor; [apply fire_flagged|constructor].
  - destruct (ready _ g); [|exact Hf]. unfold callback.
    destruct g as [| |trackers]; cbn [snd]; try exact Hf.
    destruct (given (propertyId s)).
    + cbn [snd]. apply Forall_app. split; [exact Hf|].
      constructor; [apply fire_flagged|constructor].
    + destruct trackers; cbn [snd]; [exact Hf|].
      apply Forall_app. split; [exact Hf|]. constructor; [apply fire_flagged|constructor].
Qed.

(** X21.  Every event handed to ga carries a truthy nonInteraction (a false or
    missing option becomes true), and every event pushed to _gaq carries a
    defined one. *)
Theorem events_nonInteraction_is_never_off_through_ga (ops : list op) (s : state) (h : hit) :
  In h (snd (run ops (s, []))) -> flagged h.
Proof.
  assert (H : forall sh, Forall flagged (snd sh) -> Forall flagged (snd (run ops sh))).
  { induction ops as [|o ops IH]; intros sh Hf; [exact Hf|].
    cbn [run fold_left]. apply IH, flagged_step, Hf. }
  intros Hin. specialize (H (s, []) (List.Forall_nil _)).
  rewrite List.Forall_forall in H. now apply H.
Qed.

End AnalyticsFacts.

(* ================================================================== *)
(** ** [slugify] *)
(* ================================================================== *)

Section SlugFacts.
Import Slug.

Lemma lower_in_class c : in_class c = true -> slug_char (lower c) = true.
Proof. destruct c as [[] [] [] [] [] [] [] []]; vm_compute; intros H; try reflexivity; discriminate H. Qed.

Lemma slug_char_fixed c :
  slug_char c = true -> in_class c = true /\ lower c = c.
Proof. destruct c as [[] [] [] [] [] [] [] []]; vm_compute; intros H; try discriminate H; auto. Qed.

Lemma slugify_chars text : all_chars slug_char (slugify text) = true.
Proof.
  unfold slugify. induction text as [|c r IH]; [reflexivity|].
  cbn [strip]. destruct (in_class c) eqn:Hc; [|exact IH].
  cbn [toLowerCase all_chars]. now rewrite (lower_in_class c Hc), IH.
Qed.

Lemma slugify_fixed s : all_chars slug_char s = true -> slugify s = s.
Proof.
  unfold slugify. induction s as [|c r IH]; [reflexivity|].
  cbn [all_chars]. intros H. apply andb_true_iff in H as [Hc Hr].
  destruct (slug_char_fixed c Hc) as [Hin Hlow].
  cbn [strip]. rewrite Hin. cbn [toLowerCase]. now rewrite Hlow, (IH Hr).
Qed.

Lemma strip_app a b : strip (String.append a b) = String.append (strip a) (strip b).
Proof.
  induction a as [|c r IH]; [reflexivity|].
  simpl. destruct (in_class c); simpl; now rewrite IH.
Qed.

Lemma toLowerCase_app a b :
  toLowerCase (String.append a b) = String.append (toLowerCase a) (toLowerCase b).
Proof. induction a as [|c r IH]; [reflexivity|]. simpl. now rewrite IH. Qed.

(** X22.  slugify returns only lower-case ASCII letters and digits, is
    idempotent, distributes over concatenation, returns a string of such
    characters unchanged, and never returns a longer string. *)
Theorem slugify_keeps_lower_case_letters_and_digits (a b : string) :
  all_chars slug_char (slugify a) = true
  /\ slugify (slugify a) = slugify a
  /\ slugify (String.append a b) = String.append (slugify a) (slugify b)
  /\ (all_chars slug_char a = true -> slugify a = a)
  /\ (String.length (slugify a) <= String.length a)%nat.
Proof.
  split; [apply slugify_chars|]. split; [apply slugify_fixed, slugify_chars|].
  split; [unfold slugify; now rewrite strip_app, toLowerCase_app|].
  split; [apply slugify_fixed|].
  unfold slugify. induction a as [|c r IH]; [cbn; lia|].
  cbn [strip]. destruct (in_class c); cbn [toLowerCase String.length]; lia.
Qed.

End SlugFacts.

(* ================================================================== *)
(** ** [Animation] *)
(* ================================================================== *)

Section AnimateFacts.
Import Animate.

(** *** Without a time *)

Lemma endless_step o s a : endless o s -> endless o (step s a).
Proof.
  intros He. pose proof He as (Ht & Ha & Hf & k & Hw). destruct a as [t|t]; cbn [step].
  - destruct (timer s) as [due|]; [|exact He]. destruct (due <=? t); [|exact He].
    split; [exact Ht|]. split; [exact Ha|]. split; [reflexivity|]. now exists k.
  - destruct (frame s && (start s <=? t)); [|exact He].
    unfold nextFrame. rewrite Ht. cbn [to_number div min_one is_one mul add].
    split; [exact Ht|]. split; [exact Ha|]. split; [reflexivity|].
    exists (S k). cbn [written]. rewrite Hw.
    change (Num (from o) :: repeat NaN k) with ([Num (from o)] ++ repeat NaN k).
    rewrite <- app_assoc. cbn [app]. f_equal.
    change [NaN] with (repeat NaN 1). rewrite <- repeat_app. f_equal. lia.
Qed.

(** X23.  When the time option is left out, the standard of 3000 is not
    applied: no frame ever completes the animation, afterAnim is never
    invoked, a frame is always requested again, and every value a frame writes
    to the style is NaN. *)
Theorem Animation_without_time_never_finishes (o : options) (t0 : Z) (sched : list action) :
  time o = Omitted ->
  let s := run sched (create o t0) in
  time (opts s) = Omitted
  /\ after_calls s = 0%nat
  /\ (timer s = None -> frame s = true)
  /\ exists k, written s = Num (from o) :: repeat NaN k.
Proof.
  intros Ht s.
  assert (H : forall s0, endless o s0 -> endless o (run sched s0)).
  { induction sched as [|a sched IH]; intros s0 H0; [exact H0|].
    cbn [run fold_left]. apply IH, endless_step, H0. }
  apply H. unfold create. cbn [opts time]. rewrite Ht. cbn [or_standard].
  split; [reflexivity|]. split; [reflexivity|]. split; [discriminate|]. now exists 0%nat.
Qed.

(** *** With a positive time *)

Lemma finishes_iff (T elapsed : Z) :
  0 < T ->
  is_one (min_one (div (Num (inject_Z elapsed)) (Num (inject_Z T)))) = true <-> T <= elapsed.
Proof.
  intros HT. destruct T as [|Tp|Tp]; try lia. cbn [div].
  assert (Hs : sign (inject_Z (Z.pos Tp)) = Gt) by reflexivity.
  rewrite Hs. cbn [min_one is_one].
  destruct (Qle_bool 1 (inject_Z elapsed / inject_Z (Z.pos Tp))) eqn:Hle.
  - split; [|reflexivity]. intros _. apply Qle_bool_iff in Hle.
    unfold Qle, Qdiv, Qmult, Qinv, inject_Z in Hle. cbn in Hle. lia.
  - split; [|intros Hge; exfalso].
    + intros Heq. apply Qeq_bool_iff in Heq.
      assert (Hle' : Qle_bool 1 (inject_Z elapsed / inject_Z (Z.pos Tp)) = true).
      { apply Qle_bool_iff. rewrite Heq. apply Qle_refl. }
      congruence.
    + assert (Hle' : Qle_bool 1 (inject_Z elapsed / inject_Z (Z.pos Tp)) = true).
      { apply Qle_bool_iff. unfold Qle, Qdiv, Qmult, Qinv, inject_Z. cbn. lia. }
      congruence.
Qed.

Lemma late_frame_snoc t0 T sched a : late_frame t0 T sched -> late_frame t0 T (sched ++ [a]).
Proof. intros (t & Hin & Ht). exists t. split; [apply in_or_app; now left|exact Ht]. Qed.

Lemma nextFrame_timed (T t : Z) (s : state) :
  0 < T -> time (opts s) = Millis T ->
  nextFrame t s
  = if T <=? t - start s
    then State (opts s) (start s) (timer s) false
               (written s ++ [add (Num (from (opts s)))
                                  (mul (Num 1) (Num (to (opts s) - from (opts s))))])
               (before_calls s)
               (if afterAnim (opts s) then S (after_calls s) else after_calls s)
    else State (opts s) (start s) (timer s) true
               (written s ++ [add (Num (from (opts s)))
                                  (mul (Num (inject_Z (t - start s) / inject_Z T))
                                       (Num (to (opts s) - from (opts s))))])
               (before_calls s) (after_calls s).
Proof.
  intros HT Htime. unfold nextFrame. rewrite Htime. cbn [to_number].
  pose proof (finishes_iff T (t - start s) HT) as Hfin.
  destruct (Z.leb_spec T (t - start s)) as [Hle|Hlt].
  - rewrite (proj2 Hfin Hle). do 2 f_equal.
    destruct T as [|Tp|Tp]; try lia. cbn [div].
    change (sign (inject_Z (Z.pos Tp))) with Gt. cbn [min_one].
    replace (Qle_bool 1 (inject_Z (t - start s) / inject_Z (Z.pos Tp))) with true; [reflexivity|].
    symmetry. apply Qle_bool_iff. unfold Qle, Qdiv, Qmult, Qinv, inject_Z. cbn. lia.
  - destruct (is_one _) eqn:H1; [pose proof (proj1 Hfin eq_refl); lia|]. do 2 f_equal.
    destruct T as [|Tp|Tp]; try lia. cbn [div].
    change (sign (inject_Z (Z.pos Tp))) with Gt. cbn [min_one].
    replace (Qle_bool 1 (inject_Z (t - start s) / inject_Z (Z.pos Tp))) with false; [reflexivity|].
    symmetry. apply not_true_is_false. intros Hle. apply Qle_bool_iff in Hle.
    unfold Qle, Qdiv, Qmult, Qinv, inject_Z in Hle. cbn in Hle. lia.
Qed.

Lemma timed_run (o : options) (T t0 : Z) (sched : list action) :
  0 < T -> or_standard 3000 (time o) = Millis T ->
  timed o T t0 sched (run sched (create o t0)).
Proof.
  intros HT Ho. induction sched as [|a pre IH] using rev_ind.
  - cbn [run fold_left]. unfold timed, create. cbn [opts time start afterAnim timer frame after_calls].
    split; [exact Ho|]. split; [reflexivity|]. split; [reflexivity|]. left. now eexists.
  - unfold run in *. rewrite fold_left_app. cbn [fold_left].
    set (s := fold_left step pre (create o t0)) in *.
    destruct IH as (Htime & Hstart & Hafter & Hphase).
    destruct a as [t|t]; cbn [step].
    + destruct (timer s) as [due|] eqn:Htm; rewrite <- Htm in Hphase.
      * destruct (due <=? t).
        -- split; [exact Htime|]. split; [exact Hstart|]. split; [exact Hafter|].
           right. left. cbn [timer frame after_calls].
           destruct Hphase as [(d & _ & _ & H0)|[(Hn & _)|(Hn & _)]];
             try (rewrite Htm in Hn; discriminate Hn).
           auto.
        -- split; [exact Htime|]. split; [exact Hstart|]. split; [exact Hafter|].
           destruct Hphase as [H|[H|(H1 & H2 & H3 & H4)]]; [now left|right; now left|].
           right. right. repeat split; auto. now apply late_frame_snoc.
      * split; [exact Htime|]. split; [exact Hstart|]. split; [exact Hafter|].
        destruct Hphase as [H|[H|(H1 & H2 & H3 & H4)]]; [now left|right; now left|].
        right. right. repeat split; auto. now apply late_frame_snoc.
    + destruct (frame s && (start s <=? t)) eqn:Hgo.
      * apply andb_true_iff in Hgo as [Hfr Hst]. apply Z.leb_le in Hst.
        rewrite (nextFrame_timed T t s HT Htime).
        destruct Hphase as [(d & _ & Hf & _)|[(Hn & _ & H0)|(_ & Hf & _)]];
          try (rewrite Hfr in Hf; discriminate Hf).
        destruct (Z.leb_spec T (t - start s)) as [Hle|Hlt].
        -- split; [exact Htime|]. split; [exact Hstart|]. split; [exact Hafter|].
           right. right. cbn [timer frame after_calls opts]. rewrite H0, Hafter.
           repeat split; auto.
           exists t. split; [apply in_or_app; right; now left|lia].
        -- split; [exact Htime|]. split; [exact Hstart|]. split; [exact Hafter|].
           right. left. cbn [timer frame after_calls]. auto.
      * split; [exact Htime|]. split; [exact Hstart|]. split; [exact Hafter|].
        destruct Hphase as [H|[H|(H1 & H2 & H3 & H4)]]; [now left|right; now left|].
        right. right. repeat split; auto. now apply late_frame_snoc.
Qed.

(** X24.  With a positive time, afterAnim is invoked at most once, only in a
    frame that runs at least time milliseconds after the start, after which no
    frame is requested; a requested frame finishes the animation exactly when
    that much time has passed. *)
Theorem Animation_finishes_once_after_its_time
    (o : options) (T t0 : Z) (sched : list action) :
  0 < T -> or_standard 3000 (time o) = Millis T ->
  let s := run sched (create o t0) in
  (after_calls s <= 1)%nat
  /\ (after_calls s = 1%nat ->
      afterAnim o = true /\ late_frame t0 T sched /\ frame s = false /\ timer s = None)
  /\ (frame s = true -> forall t, t0 <= t ->
        let s' := step s (Frame t) in
        if T <=? t - t0
        then frame s' = false /\ after_calls s' = (if afterAnim o then 1 else 0)%nat
        else frame s' = true /\ after_calls s' = 0%nat).
Proof.
  intros HT Ho s.
  destruct (timed_run o T t0 sched HT Ho) as (Htime & Hstart & Hafter & Hphase).
  fold s in Htime, Hstart, Hafter, Hphase.
  split; [|split].
  - destruct Hphase as [(d & _ & _ & H0)|[(_ & _ & H0)|(_ & _ & H0 & _)]]; rewrite H0;
      try lia. destruct (afterAnim o); lia.
  - intros H1.
    destruct Hphase as [(d & _ & _ & H0)|[(_ & _ & H0)|(Hn & Hf & H0 & Hl)]];
      try (rewrite H0 in H1; discriminate H1).
    rewrite H0 in H1. destruct (afterAnim o); [auto|discriminate H1].
  - intros Hfr t Ht s'. unfold s'. cbn [step]. rewrite Hfr, Hstart.
    replace (t0 <=? t) with true by (symmetry; apply Z.leb_le; lia). cbn [andb].
    rewrite (nextFrame_timed T t s HT Htime), Hstart.
    destruct Hphase as [(d & _ & Hf & _)|[(_ & _ & H0)|(_ & Hf & _)]];
      try (rewrite Hfr in Hf; discriminate Hf).
    destruct (T <=? t - t0); cbn [frame after_calls opts]; rewrite ?H0, ?Hafter; auto.
Qed.

End AnimateFacts.

(* ================================================================== *)
(** ** The clock of [countdown] *)
(* ================================================================== *)

Section CountdownFacts.
Import Countdown.

(** X25.  For a non-negative number of seconds, the days, hours, minutes and
    seconds the countdown timer computes add up to it, with hours below 24 and
    minutes and seconds below 60; the seconds field shows a number only from
    10 on. *)
Theorem countdown_clock_adds_up (s : Z) :
  0 <= s ->
  let p := split s in
  days p * 86400 + hours p * 3600 + minutes p * 60 + seconds p = s
  /\ 0 <= days p /\ 0 <= hours p < 24 /\ 0 <= minutes p < 60 /\ 0 <= seconds p < 60
  /\ (forall zh zm n, seconds_shown (show zh zm s) = Digits n -> n = seconds p /\ 10 <= n).
Proof.
  intros Hs p.
  assert (Hshown : forall zh zm n, seconds_shown (show zh zm s) = Digits n ->
            n = seconds p /\ 10 <= n).
  { intros zh zm n. unfold p, show. cbn [seconds_shown].
    destruct (Z.ltb_spec (seconds (split s)) 10) as [Hlt|Hge]; [discriminate|].
    intros H0. injection H0 as <-. split; [reflexivity|exact Hge]. }
  cut (days p * 86400 + hours p * 3600 + minutes p * 60 + seconds p = s
       /\ 0 <= days p /\ 0 <= hours p < 24 /\ 0 <= minutes p < 60 /\ 0 <= seconds p < 60);
    [intros (H1 & H2 & H3 & H4 & H5);
     split; [exact H1|]; split; [exact H2|]; split; [exact H3|]; split; [exact H4|];
     split; [exact H5|exact Hshown]|].
  clear Hshown. unfold p, split. cbn [days hours minutes seconds].
  rewrite Z.rem_mod_nonneg by lia.
  pose proof (Z.div_mod s 86400 ltac:(lia)) as Hd.
  pose proof (Z.mod_pos_bound s 86400 ltac:(lia)) as Hdb.
  set (d := s / 86400) in *.
  replace (s - d * 86400) with (s mod 86400) by lia.
  set (r := s mod 86400) in *.
  pose proof (Z.div_mod r 3600 ltac:(lia)) as Hh.
  pose proof (Z.mod_pos_bound r 3600 ltac:(lia)) as Hhb.
  set (h := r / 3600) in *.
  replace (r - h * 3600) with (r mod 3600) by lia.
  set (r2 := r mod 3600) in *.
  pose proof (Z.div_mod r2 60 ltac:(lia)) as Hm.
  pose proof (Z.mod_pos_bound r2 60 ltac:(lia)) as Hmb.
  set (m := r2 / 60) in *.
  pose proof (Z.mod_pos_bound s 60 ltac:(lia)) as Hsb.
  assert (Hsec : s mod 60 = r2 mod 60).
  { unfold r2, r.
    rewrite (Z.mod_mod_divide (s mod 86400) 3600 60) by (exists 60; lia).
    rewrite (Z.mod_mod_divide s 86400 60) by (exists 1440; lia).
    reflexivity. }
  assert (0 <= d) by (apply Z.div_pos; lia).
  assert (0 <= h) by (apply Z.div_pos; lia).
  assert (0 <= m) by (apply Z.div_pos; lia).
  assert (h < 24) by (apply Z.div_lt_upper_bound; lia).
  assert (m < 60) by (apply Z.div_lt_upper_bound; lia).
  lia.
Qed.

Lemma ticks_S zh zm n s : ticks zh zm (S n) s = tick zh zm (ticks zh zm n s).
Proof. reflexivity. Qed.

Lemma ticks_counting zh zm (N : Z) (k : nat) :
  0 <= N -> Z.of_nat k <= N ->
  let s := ticks zh zm k (State N true []) in
  secondsUntilCutoff s = N - Z.of_nat k /\ ticking s = true
  /\ shown s = map (fun i => show zh zm (N - Z.of_nat i)) (seq 0 k).
Proof.
  intros HN. induction k as [|k IH]; intros Hk.
  - cbn. split; [lia|auto].
  - cbv zeta in *. destruct (IH ltac:(lia)) as (Hs & Ht & Hsh).
    rewrite ticks_S. unfold tick. rewrite Ht, Hs.
    replace (N - Z.of_nat k =? 0) with false by (symmetry; apply Z.eqb_neq; lia).
    cbn [secondsUntilCutoff ticking shown]. split; [lia|]. split; [reflexivity|].
    rewrite Hsh, seq_S, map_app. reflexivity.
Qed.

(** X26.  Started with N >= 0 seconds, the countdown timer shows N, N-1, ...,
    0 on its first N+1 runs, clears its interval on the run that shows 0, and
    shows nothing more. *)
Theorem countdown_stops_at_zero zh zm (N : Z) (k : nat) :
  0 <= N ->
  let s := ticks zh zm k (State N true []) in
  (Z.of_nat k <= N ->
     secondsUntilCutoff s = N - Z.of_nat k /\ ticking s = true
     /\ shown s = map (fun i => show zh zm (N - Z.of_nat i)) (seq 0 k))
  /\ (N < Z.of_nat k ->
     secondsUntilCutoff s = 0 /\ ticking s = false
     /\ shown s = map (fun i => show zh zm (N - Z.of_nat i)) (seq 0 (S (Z.to_nat N)))).
Proof.
  intros HN s. split; [now apply ticks_counting|].
  intros Hk. unfold s.
  assert (Hsplit : exists extra, k = (S (Z.to_nat N) + extra)%nat)
    by (exists (k - S (Z.to_nat N))%nat; lia).
  destruct Hsplit as [extra ->]. clear Hk s.
  induction extra as [|extra IH].
  - rewrite Nat.add_0_r, ticks_S.
    destruct (ticks_counting zh zm N (Z.to_nat N) HN ltac:(lia)) as (Hs & Ht & Hsh).
    unfold tick. rewrite Ht, Hs.
    replace (N - Z.of_nat (Z.to_nat N) =? 0) with true by (symmetry; apply Z.eqb_eq; lia).
    cbn [secondsUntilCutoff ticking shown]. split; [lia|]. split; [reflexivity|].
    rewrite Hsh, (seq_S (Z.to_nat N)), map_app. reflexivity.
  - replace (S (Z.to_nat N) + S extra)%nat with (S (S (Z.to_nat N) + extra)) by lia.
    rewrite ticks_S. destruct IH as (Hs & Ht & Hsh). unfold tick. rewrite Ht. auto.
Qed.

(** X27.  Started with a negative number of seconds, the countdown timer never
    clears its interval: it counts down forever. *)
Theorem countdown_below_zero_never_stops zh zm (N : Z) (k : nat) :
  N < 0 ->
  secondsUntilCutoff (ticks zh zm k (State N true [])) = N - Z.of_nat k
  /\ ticking (ticks zh zm k (State N true [])) = true.
Proof.
  intros HN. induction k as [|k IH]; [cbn; split; [lia|reflexivity]|].
  destruct IH as [Hs Ht]. rewrite ticks_S. unfold tick. rewrite Ht, Hs.
  replace (N - Z.of_nat k =? 0) with false by (symmetry; apply Z.eqb_neq; lia).
  cbn [secondsUntilCutoff ticking]. split; [lia|reflexivity].
Qed.

End CountdownFacts.

(* ================================================================== *)
(** ** [rgbToHex] *)
(* ================================================================== *)

Section ColourFacts.
Import Colour.

Lemma int32_small x : - 2 ^ 31 <= x < 2 ^ 31 -> int32 x = x.
Proof. intros H. unfold int32. rewrite Z.mod_small by lia. lia. Qed.

(** One more digit: the last digit of [16 * q + d] is [d], the digits
    before it are those of [q]. *)
Lemma digits_step f q d acc :
  0 < q -> 0 <= d < 16 ->
  digits (S f) (16 * q + d) acc = digits f q (String (digit d) acc).
Proof.
  intros Hq Hd. cbn [digits].
  assert (Hmod : (16 * q + d) mod 16 = d).
  { rewrite Z.add_comm, Z.mul_comm, Z.mod_add by lia. apply Z.mod_small. lia. }
  assert (Hdiv : (16 * q + d) / 16 = q).
  { rewrite Z.add_comm, Z.mul_comm, Z.div_add by lia. rewrite Z.div_small by lia. lia. }
  rewrite Hmod, Hdiv. replace (q =? 0) with false by (symmetry; apply Z.eqb_neq; lia).
  reflexivity.
Qed.

(** X28.  For integers r, g and b from 0 to 255, rgbToHex returns '#' followed
    by the two lower-case hexadecimal digits of r, of g and of b: seven
    characters in all. *)
Theorem rgbToHex_in_range (r g b : Z) :
  0 <= r <= 255 -> 0 <= g <= 255 -> 0 <= b <= 255 ->
  rgbToHex r g b = String "#" (String.append (hex2 r) (String.append (hex2 g) (hex2 b)))
  /\ String.length (rgbToHex r g b) = 7%nat.
Proof.
  intros Hr Hg Hb.
  assert (H : rgbToHex r g b
              = String "#" (String.append (hex2 r) (String.append (hex2 g) (hex2 b)))).
  { unfold rgbToHex, shl. rewrite !int32_small by lia.
    pose proof (Z.div_mod r 16 ltac:(lia)) as Hr16.
    pose proof (Z.mod_pos_bound r 16 ltac:(lia)) as Hrb.
    pose proof (Z.div_mod g 16 ltac:(lia)) as Hg16.
    pose proof (Z.mod_pos_bound g 16 ltac:(lia)) as Hgb.
    pose proof (Z.div_mod b 16 ltac:(lia)) as Hb16.
    pose proof (Z.mod_pos_bound b 16 ltac:(lia)) as Hbb.
    assert (0 <= r / 16 < 16) by (split; [apply Z.div_pos; lia|apply Z.div_lt_upper_bound; lia]).
    assert (0 <= g / 16 < 16) by (split; [apply Z.div_pos; lia|apply Z.div_lt_upper_bound; lia]).
    assert (0 <= b / 16 < 16) by (split; [apply Z.div_pos; lia|apply Z.div_lt_upper_bound; lia]).
    set (r1 := r / 16) in *. set (r0 := r mod 16) in *.
    set (g1 := g / 16) in *. set (g0 := g mod 16) in *.
    set (b1 := b / 16) in *. set (b0 := b mod 16) in *.
    replace (1 * 2 ^ 24 + r * 2 ^ 16 + g * 2 ^ 8 + b)
      with (16 * (16 * (16 * (16 * (16 * (16 * 1 + r1) + r0) + g1) + g0) + b1) + b0) by lia.
    unfold toString16.
    replace (_ <? 0) with false by (symmetry; apply Z.ltb_ge; lia).
    change 64%nat with (S (S (S (S (S (S 58)))))).
    rewrite !digits_step by lia.
    cbn [digits]. change (1 mod 16) with 1. change (1 / 16 =? 0) with true.
    cbn [slice1]. unfold hex2. reflexivity. }
  split; [exact H|]. rewrite H. reflexivity.
Qed.

(** Beyond 255 nothing is checked: the excess is carried into the next
    colour. *)
Example rgbToHex_carries : rgbToHex 0 0 256 = "#000100".
Proof. reflexivity. Qed.

End ColourFacts.

(* ================================================================== *)
(** ** The properties above on concrete sessions *)
(* ================================================================== *)

Section MoreConcrete.
Import Examples Samples.

Lemma poller_returns_before_first_check_witness :
  0 <= Poller.timeout Poller.default_settings
  /\ Poller.trace (Poller.poller Poller.default_settings two_conditions 1000) = []
  /\ Poller.timers (Poller.poller Poller.default_settings two_conditions 1000)
     = [Poller.Timer 1 1050 0 (50 # 1); Poller.Timer 2 1050 1 (50 # 1)].
Proof.
  assert (H : 0 <= Poller.timeout Poller.default_settings) by (cbn; lia).
  split; [exact H|].
  destruct (poller_returns_before_first_check page Poller.default_settings two_conditions 1000 H)
    as (Htr & _ & Htm & _).
  split; [exact Htr|exact Htm].
Defined.

(** The two conditions of [two_conditions], after the first has succeeded
    at 1105: the timer of the second is pending, and its run at 1105, when
    [#cta] is on the page, makes the second succeed and invokes the success
    callback, once. *)
Lemma poller_all_succeed_exactly_once_witness :
  two_conditions <> []
  /\ let s := Poller.run page Poller.default_settings
                [Poller.Fire 1 1050; Poller.Fire 2 1050; Poller.Fire 3 1105]
                (Poller.poller Poller.default_settings two_conditions 1000) in
     map (fun tm => (Poller.tid tm, Poller.owner tm, Poller.due tm)) (Poller.timers s)
     = [(4%nat, 1%nat, 1105)]
     /\ Poller.count Poller.is_all_succeeded (Poller.trace s) = 0%nat
     /\ let s' := Poller.fire page Poller.default_settings 4 1105 s in
        In (Poller.Succeeded 1 1105) (Poller.trace s')
        /\ In (Poller.AllSucceeded 1105) (Poller.trace s')
        /\ Poller.count Poller.is_all_succeeded (Poller.trace s') = 1%nat.
Proof.
  assert (Hne : two_conditions <> []) by discriminate.
  split; [exact Hne|]. intros s.
  assert (Htm : Poller.timers s = [Poller.Timer 4 1105 1 (550 # 10)]) by reflexivity.
  split; [now rewrite Htm|]. split; [reflexivity|]. intros s'.
  destruct (poller_all_succeed_exactly_once page Poller.default_settings two_conditions 1000
              [Poller.Fire 1 1050; Poller.Fire 2 1050; Poller.Fire 3 1105] Hne)
    as (_ & _ & _ & _ & Hrun & _).
  fold s in Hrun.
  destruct (Hrun (Poller.Timer 4 1105 1 (550 # 10)) 1105) as (c & Hc & Hgo).
  - rewrite Htm. now left.
  - cbn. lia.
  - vm_compute. discriminate.
  - cbn in Hc. injection Hc as <-. destruct (Hgo eq_refl) as [H1 H2].
    split; [exact H1|]. apply H2. intros j Hj Hne1.
    assert (j = 0%nat) as -> by (cbn in Hj, Hne1; lia).
    exists 1105. vm_compute. now left.
Defined.

(** One condition, true from 800 on, under [{timeout: 1000}]: it is false
    at 0 and at 55, its timer is then pending, and the run of that timer at
    900, before the deadline, passes the condition and invokes the
    callback. *)
Lemma pollerLite_shared_deadline_witness :
  0 < Lite.timeout lite_timeout
  /\ let s := Lite.run page lite_timeout [VFun 3] [(1%nat, 0); (2%nat, 55)]
                (Lite.pollerLite page lite_timeout [VFun 3] 0) in
     Lite.deadline s = Some (0 + Lite.timeout lite_timeout)
     /\ map (fun tm => (Lite.tid tm, Lite.idx tm, Lite.due tm)) (Lite.timers s)
        = [(3%nat, 0%nat, 115)]
     /\ Lite.count Lite.is_called (Lite.trace s) = 0%nat
     /\ let s' := Lite.fire page lite_timeout [VFun 3] s (3%nat, 900) in
        In (Lite.Passed 0 (VBool true) 900) (Lite.trace s')
        /\ (exists rs, In (Lite.Called rs 900) (Lite.trace s'))
        /\ Lite.count Lite.is_called (Lite.trace s') = 1%nat.
Proof.
  assert (HT : 0 < Lite.timeout lite_timeout) by reflexivity.
  split; [exact HT|]. intros s.
  destruct (pollerLite_shared_deadline page lite_timeout [VFun 3] 0
              [(1%nat, 0); (2%nat, 55)] HT)
    as (_ & Hdl & _ & _ & _ & _ & _ & Hrun & _).
  fold s in Hdl, Hrun. split; [exact Hdl|].
  assert (Htm : Lite.timers s = [Lite.Timer 3 115 0 (6050 # 100)]) by reflexivity.
  split; [now rewrite Htm|]. split; [reflexivity|]. intros s'.
  destruct (Hrun (Lite.Timer 3 115 0 (6050 # 100)) 900) as (c & Hc & Hgo).
  - rewrite Htm. now left.
  - vm_compute. discriminate.
  - vm_compute. discriminate.
  - vm_compute. discriminate.
  - cbn in Hc. injection Hc as <-. destruct (Hgo (VBool true) eq_refl eq_refl) as [H1 H2].
    split; [exact H1|]. apply H2. intros j Hj Hne. cbn in Hj, Hne. lia.
Defined.

Lemma poller_never_times_out_early_witness :
  In (Poller.TimedOut 0 1400)
     (Poller.trace (Poller.run page with_timeout [Poller.Fire 1 1050; Poller.Fire 2 1400]
                      (Poller.poller with_timeout [VFun 1] 1000)))
  /\ 1000 + Poller.timeout with_timeout < 1400.
Proof.
  assert (H : In (Poller.TimedOut 0 1400)
     (Poller.trace (Poller.run page with_timeout [Poller.Fire 1 1050; Poller.Fire 2 1400]
                      (Poller.poller with_timeout [VFun 1] 1000))))
    by (vm_compute; left; reflexivity).
  split; [exact H|].
  apply (poller_never_times_out_early page with_timeout [VFun 1] 1000
           [Poller.Fire 1 1050; Poller.Fire 2 1400] 0%nat 1400 H).
Defined.

Lemma destroyPollers_stops_every_session_witness :
  Registry.experiments registry !! "EXP-1" = Some [0%nat]
  /\ exists p', Registry.sessions (Registry.destroyPollers "EXP-1" registry) !! 0%nat = Some p'
                /\ Poller.timers p' = [].
Proof.
  assert (H : Registry.experiments registry !! "EXP-1" = Some [0%nat]) by reflexivity.
  split; [exact H|].
  assert (Hwf : forall h p, Registry.sessions registry !! h = Some p ->
                  exists W conds, Poller.Inv W conds p).
  { intros [|h] p Hp; [|discriminate Hp]. injection Hp as <-.
    exists page, two_conditions. apply Inv_poller. }
  destruct (destroyPollers_stops_every_session "EXP-1" registry [0%nat] H Hwf) as (Hin & _).
  destruct (Hin 0%nat _ (or_introl eq_refl) eq_refl) as (p' & Hp' & Ht & _).
  now exists p'.
Defined.

Lemma pollerLite_callback_gets_results_in_pass_order_witness :
  let s := Lite.run page Lite.default_options two_conditions
             [(1%nat, 1070); (2%nat, 1070); (3%nat, 1125)]
             (Lite.pollerLite page Lite.default_options two_conditions 0) in
  let l1 := [Lite.Passed 1 (Lite.node_value 1) 1070; Lite.Passed 0 (VBool true) 1125] in
  let rs := [Lite.node_value 1; VBool true] in
  Lite.trace s = l1 ++ Lite.Called rs 1125 :: []
  /\ rs = Progress.passed_results l1.
Proof.
  intros s l1 rs.
  assert (H : Lite.trace s = l1 ++ Lite.Called rs 1125 :: []) by (vm_compute; reflexivity).
  split; [exact H|].
  apply (pollerLite_callback_gets_results_in_pass_order page Lite.default_options
           two_conditions 0 [(1%nat, 1070); (2%nat, 1070); (3%nat, 1125)] l1 [] rs 1125 H).
Defined.

Lemma pollerLite_exception_aborts_start_witness :
  (0 <= Lite.timeout Lite.default_options
   /\ [VFun 1; VFun 0; VFun 1] !! 1%nat = Some (VFun 0)
   /\ Lite.evaluateCondition flaky 0 (VFun 0) = Throw Thrown)
  /\ let s := Lite.run flaky Lite.default_options [VFun 1; VFun 0; VFun 1] [(1%nat, 60)]
                (Lite.pollerLite flaky Lite.default_options [VFun 1; VFun 0; VFun 1] 0) in
     In (Lite.Raised 1 Thrown 0) (Lite.trace s)
     /\ Lite.count Lite.is_called (Lite.trace s) = 0%nat.
Proof.
  assert (H0 : 0 <= Lite.timeout Lite.default_options) by (cbn; lia).
  assert (H1 : [VFun 1; VFun 0; VFun 1] !! 1%nat = Some (VFun 0)) by reflexivity.
  assert (H2 : Lite.evaluateCondition flaky 0 (VFun 0) = Throw Thrown) by reflexivity.
  assert (H3 : forall i c', (i < 1)%nat -> [VFun 1; VFun 0; VFun 1] !! i = Some c' ->
                 exists v, Lite.evaluateCondition flaky 0 c' = Ret v).
  { intros [|i] c' Hi Hc; [|lia]. injection Hc as <-. now exists VNull. }
  split; [auto|].
  destruct (pollerLite_exception_aborts_start flaky Lite.default_options
              [VFun 1; VFun 0; VFun 1] 0 1%nat (VFun 0) Thrown [(1%nat, 60)] H0 H1 H2 H3)
    as (Hr & _ & Hc).
  split; [exact Hr|exact Hc].
Defined.

Lemma pollerLite_first_retry_is_immediate_witness :
  let s := Lite.pollerLite page (Lite.Options (700 # 1) (11 # 10) 1000) [VFun 3] 0 in
  let tm := Lite.Timer 1 0 0 (700 # 1) in
  In tm (Lite.timers s)
  /\ Lite.due tm = 0 /\ Lite.waitTime tm = 700 # 1.
Proof.
  intros s tm.
  assert (H : In tm (Lite.timers s)) by (vm_compute; left; reflexivity).
  split; [exact H|].
  destruct (pollerLite_first_retry_is_immediate page (Lite.Options (700 # 1) (11 # 10) 1000)
              [VFun 3] 0 tm H) as (_ & Hd & Hw & _).
  split; [exact Hd|exact Hw].
Defined.

Lemma pollerLite_keeps_polling_until_deadline_witness :
  Progress.never_throws page [VFun 3]
  /\ let s := Lite.run page Lite.default_options [VFun 3] [(1%nat, 0); (2%nat, 55)]
                (Lite.pollerLite page Lite.default_options [VFun 3] 0) in
     In 0%nat (Lite.passed s) \/ exists tm, In tm (Lite.timers s) /\ Lite.idx tm = 0%nat.
Proof.
  assert (H : Progress.never_throws page [VFun 3]).
  { intros [|[|i]] c t Hc; try discriminate Hc. injection Hc as <-. now eexists. }
  split; [exact H|].
  apply (pollerLite_keeps_polling_until_deadline page Lite.default_options [VFun 3] 0
           [(1%nat, 0); (2%nat, 55)] 0%nat H); [exact I|cbn; lia].
Defined.

Lemma observer_disconnect_is_final_witness :
  let s := Observer.connect (Observer.JQuery [1%nat; 2%nat]) Observer.returns 100
             Observer.initial in
  let ops := [Observer.Mutate 2%nat 1%nat 10;
              Observer.Connect (Observer.Node 3%nat) Observer.returns 0;
              Observer.TimerRun 0%nat 500;
              Observer.Mutate 1%nat 1%nat 2000] in
  (Watch.registered (Observer.Node 1%nat) 0%nat s = true
   /\ Observer.observers s !! 0%nat
      = Some (Observer.MObserver [1%nat; 2%nat] Observer.returns false 100 []))
  /\ Observer.calls_of 0%nat (Observer.run ops (Observer.disconnect (Observer.Node 1%nat) s))
     = [].
Proof.
  intros s ops. split; [split; reflexivity|].
  apply (observer_disconnect_is_final (Observer.Node 1%nat) s 0%nat
           (Observer.MObserver [1%nat; 2%nat] Observer.returns false 100 []) ops
           eq_refl eq_refl).
Defined.

(** A form with two controls, observed by [connect]: [disconnect(form)]
    looks up the controls, not the form, and the observer of the form goes
    on being called. *)
Example disconnect_of_a_form_looks_up_its_controls :
  let form := Observer.Indexed 1%nat [Some 2%nat; Some 3%nat] in
  let s := Observer.disconnect form
             (Observer.connect form Observer.returns 100 Observer.initial) in
  Observer.observers s !! 0%nat
  = Some (Observer.MObserver [1%nat] Observer.returns false 100 [])
  /\ Observer.calls_of 0%nat (Observer.mutate 1%nat 1%nat 10 s) = [10].
Proof. split; reflexivity. Qed.

Lemma globalGetScript_loads_are_independent_witness :
  let s := Loader.run [Loader.Get "a.js" true; Loader.Get "b.js" true] Loader.initial in
  (Loader.requests s !! "a.js" = Some 0%nat /\ Loader.requests s !! "b.js" = Some 1%nat
   /\ "a.js" <> "b.js")
  /\ forall isAbort rs,
       Loader.promises (Loader.onloadHander 0 isAbort rs s) !! 1%nat = Loader.promises s !! 1%nat.
Proof.
  intros s.
  assert (H1 : Loader.requests s !! "a.js" = Some 0%nat) by reflexivity.
  assert (H2 : Loader.requests s !! "b.js" = Some 1%nat) by reflexivity.
  assert (H3 : "a.js" <> "b.js") by discriminate.
  split; [auto|].
  apply (globalGetScript_loads_are_independent
           [Loader.Get "a.js" true; Loader.Get "b.js" true] "a.js" "b.js" 0%nat 1%nat H1 H2 H3).
Defined.

Lemma group_splits_into_full_groups_witness :
  0 < 2
  /\ exists gs, Group.group 6 [1; 2; 3; 4; 5] 2 = Some gs /\ concat gs = [1; 2; 3; 4; 5].
Proof.
  assert (H : 0 < 2) by lia. split; [exact H|].
  destruct (group_splits_into_full_groups [1; 2; 3; 4; 5] 2 H) as (gs & Hrun & Hcat & _).
  exists gs. split; [apply Hrun; cbn; lia|exact Hcat].
Defined.

Lemma group_never_returns_without_positive_size_witness :
  (0 <= 0 /\ [1] <> []) /\ Group.group 1000 [1] 0 = None.
Proof.
  assert (H1 : 0 <= 0) by lia. assert (H2 : [1] <> []) by discriminate.
  split; [auto|]. apply (group_never_returns_without_positive_size [1] 0 1000%nat H1 H2).
Defined.

(** A callback that throws when called before 3000: the long hover that
    ends at 2500 calls it, which does not count, and the one that ends at
    9000 calls it again. *)
Lemma hoverDelay_calls_back_once_witness :
  let cb := fun t => if t <? 3000 then Hover.Throws else Hover.Returns in
  let s0 := Hover.State 1000 false None [] in
  Hover.hoverDelay true None = Some s0
  /\ Hover.calls (Hover.run cb (hovers ++ [Hover.Enter 9500; Hover.Leave 12000]) s0)
     = [2500; 9000]
  /\ forall t, In t (Hover.calls
                      (Hover.run cb (hovers ++ [Hover.Enter 9500; Hover.Leave 12000]) s0)) ->
       Hover.long_hover 1000 (hovers ++ [Hover.Enter 9500; Hover.Leave 12000]) t.
Proof.
  intros cb s0.
  assert (H : Hover.hoverDelay true None = Some s0) by reflexivity.
  split; [exact H|]. split; [reflexivity|].
  apply (hoverDelay_calls_back_once cb None s0
           (hovers ++ [Hover.Enter 9500; Hover.Leave 12000]) H).
Defined.

Lemma scrollStop_calls_back_after_the_last_scroll_witness :
  ScrollStop.scrollStop (VFun 0) 0 = Some (ScrollStop.State 0 None [] 1 [])
  /\ ScrollStop.debounced
       (ScrollStop.trace (ScrollStop.run scrolling (ScrollStop.State 0 None [] 1 []))).
Proof.
  assert (H : ScrollStop.scrollStop (VFun 0) 0 = Some (ScrollStop.State 0 None [] 1 []))
    by reflexivity.
  split; [exact H|].
  apply (scrollStop_calls_back_after_the_last_scroll (VFun 0) 0
           (ScrollStop.State 0 None [] 1 []) scrolling H).
Defined.

Lemma events_sendOnce_sends_an_identifier_once_witness :
  let later := Analytics.run []
                 (Analytics.step (Analytics.initial, [])
                    (Analytics.Send (Some "ab") (Some "c") None (Some once))) in
  (Analytics.sendOnce once = true
   /\ Analytics.eventID (Some "a") (Some "bc") None (fst later)
      = Analytics.eventID (Some "ab") (Some "c") None Analytics.initial)
  /\ Analytics.send (Some "a") (Some "bc") None (Some once) (fst later)
     = (fst later, Analytics.Suppressed).
Proof.
  intros later.
  assert (H1 : Analytics.sendOnce once = true) by reflexivity.
  assert (H2 : Analytics.eventID (Some "a") (Some "bc") None (fst later)
               = Analytics.eventID (Some "ab") (Some "c") None Analytics.initial)
    by reflexivity.
  split; [auto|].
  apply (events_sendOnce_sends_an_identifier_once Analytics.initial []
           (Some "ab") (Some "c") None (Some "a") (Some "bc") None once once [] H1 H1 H2).
Defined.

Lemma events_nonInteraction_is_never_off_through_ga_witness :
  let ops := [Analytics.SetTrackerName "t0";
              Analytics.Send (Some "c") (Some "a") (Some "l")
                (Some (Analytics.Options false (VBool false)))] in
  let h := Analytics.GaSend "t0.send" (Some "c") (Some "a") (Some "l") (VBool true) in
  In h (snd (Analytics.run ops (Analytics.initial, []))) /\ Analytics.flagged h.
Proof.
  intros ops h.
  assert (H : In h (snd (Analytics.run ops (Analytics.initial, []))))
    by (vm_compute; left; reflexivity).
  split; [exact H|].
  apply (events_nonInteraction_is_never_off_through_ga ops Analytics.initial h H).
Defined.

Lemma Animation_without_time_never_finishes_witness :
  Animate.time untimed = Animate.Omitted
  /\ Animate.after_calls
       (Animate.run [Animate.Timeout 0; Animate.Frame 16; Animate.Frame 5000]
          (Animate.create untimed 0)) = 0%nat.
Proof.
  assert (H : Animate.time untimed = Animate.Omitted) by reflexivity.
  split; [exact H|].
  apply (Animation_without_time_never_finishes untimed 0
           [Animate.Timeout 0; Animate.Frame 16; Animate.Frame 5000] H).
Defined.

Lemma Animation_finishes_once_after_its_time_witness :
  (0 < 400 /\ Animate.or_standard 3000 (Animate.time timed400) = Animate.Millis 400)
  /\ (Animate.after_calls
        (Animate.run [Animate.Timeout 20; Animate.Frame 36; Animate.Frame 410]
           (Animate.create timed400 0)) <= 1)%nat.
Proof.
  assert (H1 : 0 < 400) by lia.
  assert (H2 : Animate.or_standard 3000 (Animate.time timed400) = Animate.Millis 400)
    by reflexivity.
  split; [auto|].
  apply (Animation_finishes_once_after_its_time timed400 400 0
           [Animate.Timeout 20; Animate.Frame 36; Animate.Frame 410] H1 H2).
Defined.

Lemma countdown_clock_adds_up_witness :
  0 <= 93784
  /\ Countdown.split 93784 = Countdown.Parts 1 2 3 4
  /\ Countdown.days (Countdown.split 93784) * 86400
     + Countdown.hours (Countdown.split 93784) * 3600
     + Countdown.minutes (Countdown.split 93784) * 60
     + Countdown.seconds (Countdown.split 93784) = 93784.
Proof.
  assert (H : 0 <= 93784) by lia. split; [exact H|]. split; [reflexivity|].
  apply (countdown_clock_adds_up 93784 H).
Defined.

Lemma countdown_stops_at_zero_witness :
  0 <= 3
  /\ Countdown.ticking (Countdown.ticks false false 10 (Countdown.State 3 true [])) = false.
Proof.
  assert (H : 0 <= 3) by lia. split; [exact H|].
  apply (countdown_stops_at_zero false false 3 10%nat H). cbn. lia.
Defined.

Lemma countdown_below_zero_never_stops_witness :
  -5 < 0
  /\ Countdown.ticking (Countdown.ticks false false 7 (Countdown.State (-5) true [])) = true.
Proof.
  assert (H : -5 < 0) by lia. split; [exact H|].
  apply (countdown_below_zero_never_stops false false (-5) 7%nat H).
Defined.

Lemma rgbToHex_in_range_witness :
  (0 <= 255 <= 255 /\ 0 <= 128 <= 255 /\ 0 <= 0 <= 255)
  /\ Colour.rgbToHex 255 128 0 = "#ff8000".
Proof.
  assert (H1 : 0 <= 255 <= 255) by lia. assert (H2 : 0 <= 128 <= 255) by lia.
  assert (H3 : 0 <= 0 <= 255) by lia.
  split; [auto|]. apply (rgbToHex_in_range 255 128 0 H1 H2 H3).
Defined.

End MoreConcrete.
